(** * Aura: lexer, parser, semantic analysis, compiler driver, formatter
      and the reactive signal runtime, embedded from the TypeScript sources.

    Layout of the development:
    - [Lexer]      src/compiler/lexer.ts   (token kinds, indentation stack)
    - [AST]        src/compiler/ast.ts     (node types)
    - [Parser]     src/compiler/parser.ts  (recursive descent, the version
                   with [space] and [style] declarations)
    - [Semantic]   src/compiler/semantic.ts
    - [Compiler]   src/compiler/index.ts   ([Compiler.compile])
    - [Formatter]  src/cli/formatter.ts
    - [Signal]     src/runtime/signal.ts
    followed by the lemmas and theorems about them. *)

From Stdlib Require Import List String Ascii Bool Arith ZArith Lia.
Import ListNotations.

Set Warnings "-register-all".

Local Open Scope string_scope.
Local Open Scope list_scope.

(* ===================================================================== *)
(** ** Lexer *)
(* ===================================================================== *)

Module Lexer.

(** [enum TokenType].  [INHERITED] is not a member of the enum: it stands
    for the value that the lookup [KEYWORDS[value]] yields when [value]
    names a property that the object literal inherits from
    [Object.prototype] ([constructor], [toString], ...).  Such a value is
    truthy, so [KEYWORDS[value] || TokenType.IDENTIFIER] keeps it, and it
    is equal to no member of the enum. *)
Inductive TokenType : Type :=
  | COMPONENT | STATE | COMPUTED | EFFECT | ON | ANIMATE | WHEN | EACH
  | SLOT | EMIT | ROLE | LABEL | DESCRIBE | SPACE | STYLE
  | IDENTIFIER | STRING | NUMBER | BOOLEAN
  | LBRACE | RBRACE | LPAREN | RPAREN | LBRACKET | RBRACKET
  | COLON | SEMICOLON | COMMA | DOT | ARROW | EQUALS
  | PLUS | MINUS | STAR | SLASH | BANG
  | LT | GT | LE | GE | EQ | NE | AND | OR | QUESTION
  | NEWLINE | INDENT | DEDENT | EOF | ILLEGAL
  | INHERITED.

Definition TokenType_eq_dec (a b : TokenType) : {a = b} + {a <> b}.
Proof. decide equality. Defined.

Definition TokenType_eqb (a b : TokenType) : bool :=
  if TokenType_eq_dec a b then true else false.

Record Token : Type := mkToken {
  type : TokenType;
  value : string;
  line : nat;
  column : nat
}.

Record LexerError : Type := mkLexerError {
  message : string;
  err_line : nat;
  err_column : nat
}.

(** Names that every object literal inherits from [Object.prototype]. *)
Definition objectPrototypeNames : list string :=
  [ "constructor"; "toString"; "toLocaleString"; "valueOf";
    "hasOwnProperty"; "isPrototypeOf"; "propertyIsEnumerable";
    "__proto__"; "__defineGetter__"; "__defineSetter__";
    "__lookupGetter__"; "__lookupSetter__" ].

Definition own_KEYWORDS : list (string * TokenType) :=
  [ ("component", COMPONENT); ("state", STATE); ("computed", COMPUTED);
    ("effect", EFFECT); ("on", ON); ("animate", ANIMATE); ("when", WHEN);
    ("each", EACH); ("slot", SLOT); ("emit", EMIT); ("role", ROLE);
    ("label", LABEL); ("describe", DESCRIBE); ("space", SPACE);
    ("style", STYLE); ("true", BOOLEAN); ("false", BOOLEAN) ].

Fixpoint assoc {A : Type} (k : string) (l : list (string * A)) : option A :=
  match l with
  | [] => None
  | (k', v) :: l' => if String.eqb k k' then Some v else assoc k l'
  end.

(** [KEYWORDS[value] || TokenType.IDENTIFIER] *)
Definition KEYWORDS (v : string) : TokenType :=
  match assoc v own_KEYWORDS with
  | Some t => t
  | None =>
      if existsb (String.eqb v) objectPrototypeNames then INHERITED
      else IDENTIFIER
  end.

(** The lexer object.  [rest] is [input.substring(position)]: the source
    indexes a fixed string with a moving [position]; here the part of the
    input not yet consumed is kept, so that [input[position]] is the head
    of [rest] and [position < input.length] is [rest <> []].
    [indentStack] keeps the top of the stack at the head of the list (the
    source pushes and pops at the end of an array).  [tokens] and [errors]
    are in emission order. *)
Record Lexer : Type := mkLexer {
  rest : list ascii;
  cur_line : nat;
  cur_column : nat;
  indentStack : list nat;
  tokens : list Token;
  errors : list LexerError
}.

Definition new_Lexer (input : string) : Lexer :=
  mkLexer (list_ascii_of_string input) 1 1 [0] [] [].

Definition char_newline : ascii := "010"%char.
Definition char_tab : ascii := "009"%char.
Definition char_cr : ascii := "013"%char.
Definition char_dquote : ascii := "034"%char.

Definition char_le (a b : ascii) : bool :=
  Nat.leb (nat_of_ascii a) (nat_of_ascii b).

Definition isLetter (c : ascii) : bool :=
  (char_le "a" c && char_le c "z") || (char_le "A" c && char_le c "Z").

Definition isDigit (c : ascii) : bool :=
  char_le "0" c && char_le c "9".

Definition isAlphanumeric (c : ascii) : bool :=
  isLetter c || isDigit c.

(** [advance]: [position++; column++]. *)
Definition advance (lx : Lexer) : Lexer :=
  mkLexer (tl (rest lx)) (cur_line lx) (S (cur_column lx))
          (indentStack lx) (tokens lx) (errors lx).

Definition push_token (t : Token) (lx : Lexer) : Lexer :=
  mkLexer (rest lx) (cur_line lx) (cur_column lx)
          (indentStack lx) (tokens lx ++ [t]) (errors lx).

Definition push_error (e : LexerError) (lx : Lexer) : Lexer :=
  mkLexer (rest lx) (cur_line lx) (cur_column lx)
          (indentStack lx) (tokens lx) (errors lx ++ [e]).

Definition set_rest_column (r : list ascii) (c : nat) (lx : Lexer) : Lexer :=
  mkLexer r (cur_line lx) c (indentStack lx) (tokens lx) (errors lx).

Definition set_indentStack (s : list nat) (lx : Lexer) : Lexer :=
  mkLexer (rest lx) (cur_line lx) (cur_column lx) s (tokens lx) (errors lx).

(** [addToken(type, value, column?)] *)
Definition addToken (t : TokenType) (v : string) (col : option nat)
    (lx : Lexer) : Lexer :=
  push_token
    (mkToken t v (cur_line lx)
       (match col with Some c => c | None => cur_column lx end)) lx.

(** [measureIndent]: a space counts one, a tab four; each consumed
    character moves [position] and [column] by one.  Returns the width,
    the remaining input and the new column. *)
Fixpoint measureIndent_go (r : list ascii) (indent col : nat)
    : nat * list ascii * nat :=
  match r with
  | c :: r' =>
      if Ascii.eqb c " " then measureIndent_go r' (indent + 1) (S col)
      else if Ascii.eqb c char_tab then measureIndent_go r' (indent + 4) (S col)
      else (indent, r, col)
  | [] => (indent, r, col)
  end.

Definition measureIndent (lx : Lexer) : nat * Lexer :=
  let '(w, r, c) := measureIndent_go (rest lx) 0 (cur_column lx) in
  (w, set_rest_column r c lx).

Fixpoint skipWhitespace_go (r : list ascii) (col : nat) : list ascii * nat :=
  match r with
  | c :: r' =>
      if Ascii.eqb c " " || Ascii.eqb c char_tab || Ascii.eqb c char_cr
      then skipWhitespace_go r' (S col)
      else (r, col)
  | [] => (r, col)
  end.

Definition skipWhitespaceExceptNewline (lx : Lexer) : Lexer :=
  let '(r, c) := skipWhitespace_go (rest lx) (cur_column lx) in
  set_rest_column r c lx.

Fixpoint skipComment_go (r : list ascii) (col : nat) : list ascii * nat :=
  match r with
  | c :: r' =>
      if Ascii.eqb c char_newline then (r, col)
      else skipComment_go r' (S col)
  | [] => (r, col)
  end.

Definition skipComment (lx : Lexer) : Lexer :=
  let '(r, c) := skipComment_go (rest lx) (cur_column lx) in
  set_rest_column r c lx.

(** The scanning loops of [readIdentifierOrKeyword] and [readNumber]:
    consume while the predicate holds; the consumed characters are
    [input.substring(start, position)]. *)
Fixpoint span_while (p : ascii -> bool) (r : list ascii)
    : list ascii * list ascii :=
  match r with
  | c :: r' =>
      if p c then let '(a, b) := span_while p r' in (c :: a, b)
      else ([], r)
  | [] => ([], [])
  end.

Definition readIdentifierOrKeyword (lx : Lexer) : Lexer :=
  let startColumn := cur_column lx in
  let '(word, r) :=
    span_while (fun c => isAlphanumeric c || Ascii.eqb c "_") (rest lx) in
  let v := string_of_list_ascii word in
  push_token (mkToken (KEYWORDS v) v (cur_line lx) startColumn)
    (set_rest_column r (cur_column lx + List.length word) lx).

Definition readNumber (lx : Lexer) : Lexer :=
  let startColumn := cur_column lx in
  let '(intpart, r1) := span_while isDigit (rest lx) in
  let '(fracpart, r2) :=
    match r1 with
    | c :: r1' =>
        if Ascii.eqb c "." then
          let '(ds, r2) := span_while isDigit r1' in (c :: ds, r2)
        else ([], r1)
    | [] => ([], r1)
    end in
  let text := intpart ++ fracpart in
  push_token
    (mkToken NUMBER (string_of_list_ascii text) (cur_line lx) startColumn)
    (set_rest_column r2 (cur_column lx + List.length text) lx).

(** The loop of [readString], after the opening quote has been consumed.
    [acc] is [value] in reverse.  The result is the decoded value when the
    closing quote was found ([None] at end of input), the remaining input
    and the column. *)
Fixpoint readString_go (quote : ascii) (r : list ascii) (acc : list ascii)
    (escaped : bool) (col : nat) : option (list ascii) * list ascii * nat :=
  match r with
  | c :: r' =>
      if escaped then
        let d :=
          if Ascii.eqb c "n" then char_newline
          else if Ascii.eqb c "t" then char_tab
          else if Ascii.eqb c "r" then char_cr
          else if Ascii.eqb c "\" then "\"%char
          else if Ascii.eqb c quote then quote
          else c in
        readString_go quote r' (d :: acc) false (S col)
      else if Ascii.eqb c "\" then readString_go quote r' acc true (S col)
      else if Ascii.eqb c quote then (Some (rev acc), r', S col)
      else readString_go quote r' (c :: acc) false (S col)
  | [] => (None, r, col)
  end.

Definition readString (quote : ascii) (lx : Lexer) : Lexer :=
  let startColumn := cur_column lx in
  let lx1 := advance lx in
  let '(res, r, c) :=
    readString_go quote (rest lx1) [] false (cur_column lx1) in
  let lx2 := set_rest_column r c lx1 in
  match res with
  | Some v =>
      push_token
        (mkToken STRING (string_of_list_ascii v) (cur_line lx) startColumn) lx2
  | None =>
      push_error (mkLexerError "Unterminated string" (cur_line lx) startColumn)
        lx2
  end.

Definition twoCharOps : list (string * TokenType) :=
  [ ("==", EQ); ("!=", NE); ("<=", LE); (">=", GE);
    ("&&", AND); ("||", OR); ("=>", ARROW) ].

Definition singleCharOps : list (string * TokenType) :=
  [ ("{", LBRACE); ("}", RBRACE); ("(", LPAREN); (")", RPAREN);
    ("[", LBRACKET); ("]", RBRACKET); (":", COLON); (";", SEMICOLON);
    (",", COMMA); (".", DOT); ("=", EQUALS); ("+", PLUS); ("-", MINUS);
    ("*", STAR); ("/", SLASH); ("!", BANG); ("<", LT); (">", GT);
    ("?", QUESTION) ].

(** [readOperator]: [None] is the source's [return false] (nothing
    consumed).  Called with a non-empty remaining input. *)
Definition readOperator (lx : Lexer) : option Lexer :=
  let startColumn := cur_column lx in
  match rest lx with
  | [] => None
  | char :: after =>
      let twoChar :=
        match after with
        | nextChar :: _ => String char (String nextChar EmptyString)
        | [] => String char EmptyString
        end in
      match assoc twoChar twoCharOps with
      | Some t =>
          Some (addToken t twoChar (Some startColumn) (advance (advance lx)))
      | None =>
          match assoc (String char EmptyString) singleCharOps with
          | Some t =>
              Some (addToken t (String char EmptyString) (Some startColumn)
                      (advance lx))
          | None => None
          end
      end
  end.

(** The [while] loop of [handleNewline] that pops the levels deeper than
    [indentLevel], one DEDENT token per pop. *)
Fixpoint popIndents (indentLevel : nat) (stack : list nat) (lx : Lexer)
    : list nat * Lexer :=
  match stack with
  | top :: (_ :: _) as below =>
      if Nat.ltb indentLevel top
      then popIndents indentLevel below (addToken DEDENT EmptyString None lx)
      else (stack, lx)
  | _ => (stack, lx)
  end.

Definition inconsistent_message : string :=
  "Indentation error: inconsistent indentation".

Definition handleNewline (lx : Lexer) : Lexer :=
  let lx1 := addToken NEWLINE (String char_newline EmptyString) None lx in
  let lx2 := advance lx1 in
  let lx3 := mkLexer (rest lx2) (S (cur_line lx2)) 1
                     (indentStack lx2) (tokens lx2) (errors lx2) in
  let '(indentLevel, lx4) := measureIndent lx3 in
  let currentIndent := hd 0 (indentStack lx4) in
  if Nat.ltb currentIndent indentLevel then
    addToken INDENT EmptyString None
      (set_indentStack (indentLevel :: indentStack lx4) lx4)
  else if Nat.ltb indentLevel currentIndent then
    let '(stack', lx5) := popIndents indentLevel (indentStack lx4) lx4 in
    let lx6 := set_indentStack stack' lx5 in
    if Nat.eqb (hd 0 stack') indentLevel then lx6
    else push_error
           (mkLexerError inconsistent_message (cur_line lx6) (cur_column lx6))
           lx6
  else lx4.

(** One iteration of the [while (this.position < this.input.length)] loop
    of [tokenize]; [None] when the loop ends (condition false, or the
    [break] after skipping blanks). *)
Definition tokenize_step (lx : Lexer) : option Lexer :=
  match rest lx with
  | [] => None
  | _ :: _ =>
      let lx1 := skipWhitespaceExceptNewline lx in
      match rest lx1 with
      | [] => None
      | char :: _ =>
          if Ascii.eqb char char_newline then Some (handleNewline lx1)
          else if Ascii.eqb char "#" then Some (skipComment lx1)
          else if isLetter char || Ascii.eqb char "_"
          then Some (readIdentifierOrKeyword lx1)
          else if isDigit char then Some (readNumber lx1)
          else if Ascii.eqb char char_dquote || Ascii.eqb char "'"
          then Some (readString char lx1)
          else match readOperator lx1 with
               | Some lx2 => Some lx2
               | None =>
                   Some (advance
                     (push_error
                        (mkLexerError
                           ("Illegal character: " ++ String char EmptyString)%string
                           (cur_line lx1) (cur_column lx1)) lx1))
               end
      end
  end.

(** State of the lexer when the main loop has ended; the blanks skipped
    before the [break] stay skipped. *)
Definition after_loop (lx : Lexer) : Lexer :=
  match rest lx with
  | [] => lx
  | _ :: _ => skipWhitespaceExceptNewline lx
  end.

(** The main loop, run for at most [fuel] iterations: [None] when the
    iterations are used up before the loop has ended. *)
Fixpoint tokenize_loop (fuel : nat) (lx : Lexer) : option Lexer :=
  match tokenize_step lx with
  | None => Some (after_loop lx)
  | Some lx' =>
      match fuel with
      | 0 => None
      | S fuel' => tokenize_loop fuel' lx'
      end
  end.

(** [while (this.indentStack.length > 1) { pop; addToken(DEDENT) }] *)
Fixpoint closeIndents (stack : list nat) (lx : Lexer) : Lexer :=
  match stack with
  | _ :: (_ :: _) as below => closeIndents below (addToken DEDENT EmptyString None lx)
  | _ => set_indentStack stack lx
  end.

Definition finish (lx : Lexer) : Lexer :=
  addToken EOF EmptyString None (closeIndents (indentStack lx) lx).

(** [tokenize()].  Every iteration of the main loop consumes at least one
    character, so the length of the input bounds their number. *)
Definition tokenize (input : string) : option (list Token * list LexerError) :=
  match tokenize_loop (String.length input) (new_Lexer input) with
  | Some lx => let lx' := finish lx in Some (tokens lx', errors lx')
  | None => None
  end.

End Lexer.

(* ===================================================================== *)
(** ** Abstract syntax (ast.ts) *)
(* ===================================================================== *)

Module AST.

(** [Literal.value : string | number | boolean].  A number literal keeps
    the digits it was read from: its value is [parseFloat] of that text,
    which no definition below inspects. *)
Inductive LiteralValue : Type :=
  | LString (s : string)
  | LNumber (digits : string)
  | LBoolean (b : bool).

(** The expressions the parser builds.  ([ObjectExpression] and an arrow
    function in expression position are declared in ast.ts but built by no
    parser function; the arrow function of an event handler is the record
    [ArrowFunction] below.) *)
Inductive Expression : Type :=
  | Identifier (name : string) (line column : nat)
  | Literal (value : LiteralValue) (raw : string) (line column : nat)
  | BinaryExpression (operator : string) (left right : Expression)
      (line column : nat)
  | UnaryExpression (operator : string) (argument : Expression)
      (line column : nat)
  | CallExpression (callee : Expression) (arguments : list Expression)
      (line column : nat)
  | MemberExpression (object property : Expression) (computed : bool)
      (line column : nat)
  | ArrayExpression (elements : list Expression) (line column : nat)
  | ConditionalExpression (test consequent alternate : Expression)
      (line column : nat).

Record Attribute : Type := mkAttribute {
  attr_name : string;
  attr_value : Expression
}.

Inductive ElementNode : Type :=
  | Element (tag : string) (attributes : list Attribute)
      (children : list Child) (ariaLabel : option string)
      (line column : nat)
with Child : Type :=
  | ChildElement (e : ElementNode)
  | ChildText (content : string) (interpolations : list Expression)
      (line column : nat)
  | ChildConditional (condition : Expression) (consequent : list Child)
      (alternate : option (list Child)) (line column : nat)
  | ChildLoop (item : string) (index : option string)
      (iterable : Expression) (body : list Child) (line column : nat)
  | ChildSlot (line column : nat).

Definition tag_of (e : ElementNode) : string :=
  match e with Element t _ _ _ _ _ => t end.
Definition attributes_of (e : ElementNode) : list Attribute :=
  match e with Element _ a _ _ _ _ => a end.
Definition children_of (e : ElementNode) : list Child :=
  match e with Element _ _ c _ _ _ => c end.

Record StateDeclaration : Type := mkState {
  state_name : string;
  initialValue : Expression;
  state_line : nat;
  state_column : nat
}.

Record ComputedDeclaration : Type := mkComputed {
  computed_name : string;
  computed_dependencies : list string;
  expression : Expression;
  computed_line : nat;
  computed_column : nat
}.

(** [body : Statement[]] is always the empty array: [parseEffect] never
    fills it. *)
Record EffectDeclaration : Type := mkEffect {
  effect_dependencies : list string;
  effect_line : nat;
  effect_column : nat
}.

Record ArrowFunction : Type := mkArrow {
  params : list string;
  arrow_body : Expression;
  arrow_line : nat;
  arrow_column : nat
}.

Record EventHandler : Type := mkHandler {
  event : string;
  handler : ArrowFunction;
  handler_line : nat;
  handler_column : nat
}.

Record AnimationProperty : Type := mkAnimationProperty {
  property_name : string;
  to : Expression
}.

Record AnimationDeclaration : Type := mkAnimation {
  trigger : string;
  anim_properties : list AnimationProperty;
  duration : nat;
  easing : string;
  anim_line : nat;
  anim_column : nat
}.

(** [Record<string, string | Expression>] *)
Inductive StyleValue : Type :=
  | StyleText (s : string)
  | StyleExpr (e : Expression).

Record StyleRule : Type := mkStyleRule {
  selector : string;
  style_properties : list (string * StyleValue)
}.

Record StyleNode : Type := mkStyle {
  rules : list StyleRule;
  style_line : nat;
  style_column : nat
}.

Record AccessibilityInfo : Type := mkAccessibility {
  role : option string;
  label : option string;
  description : option string
}.

Record ComponentNode : Type := mkComponent {
  component_name : string;
  states : list StateDeclaration;
  computed : list ComputedDeclaration;
  effects : list EffectDeclaration;
  handlers : list EventHandler;
  animations : list AnimationDeclaration;
  component_styles : list StyleNode;
  body : list ElementNode;
  accessibility : AccessibilityInfo;
  component_line : nat;
  component_column : nat
}.

Record SpaceNode : Type := mkSpace {
  space_name : string;
  space_states : list StateDeclaration;
  space_computed : list ComputedDeclaration;
  space_effects : list EffectDeclaration;
  space_handlers : list EventHandler;
  space_line : nat;
  space_column : nat
}.

Record Program : Type := mkProgram {
  components : list ComponentNode;
  spaces : list SpaceNode;
  styles : list StyleNode
}.

End AST.

(* ===================================================================== *)
(** ** Parser (parser.ts) *)
(* ===================================================================== *)

Module Parser.
Import Lexer AST.

Inductive Severity : Type := SevError | SevWarning.

Record ParserError : Type := mkParserError {
  perr_message : string;
  perr_line : nat;
  perr_column : nat;
  severity : Severity
}.

(** The mutable fields of the parser object.  [this.tokens] is assigned
    once by the constructor and never changed: it is the parameter
    [tokens] of the section below. *)
Record State : Type := mkState {
  current : nat;
  errors : list ParserError
}.

(** The constructor's filter. *)
Definition structural (t : Token) : bool :=
  match type t with
  | NEWLINE | INDENT | DEDENT => true
  | _ => false
  end.

Definition filter_tokens (ts : list Token) : list Token :=
  filter (fun t => negb (structural t)) ts.

(** A parser action: the state after it and its result, or [None] when
    the recursion budget of the model is used up. *)
Definition M (A : Type) : Type := State -> option (A * State).

Definition ret {A : Type} (a : A) : M A := fun s => Some (a, s).

Definition bind {A B : Type} (m : M A) (k : A -> M B) : M B :=
  fun s => match m s with
           | Some (a, s') => k a s'
           | None => None
           end.

Definition out_of_fuel {A : Type} : M A := fun _ => None.

Declare Scope parser_scope.
Delimit Scope parser_scope with parser.
Notation "x <- m ;; k" := (bind m (fun x => k))
  (at level 61, m at next level, right associativity) : parser_scope.
Notation "m ;;; k" := (bind m (fun _ => k))
  (at level 61, right associativity) : parser_scope.
Local Open Scope parser_scope.

Section WithTokens.

Variable tokens : list Token.

(** Returned by an index outside [tokens], where the source reads
    [undefined].  The lexer ends every token list with EOF, and no parser
    function moves [current] past a token of type EOF or dereferences
    [previous()] before a token has been consumed, so on such lists this
    token is never looked at. *)
Definition undefinedToken : Token := mkToken EOF EmptyString 0 0.

Definition token_at (i : nat) : Token := nth i tokens undefinedToken.

Definition peek_at (s : State) : Token := token_at (current s).
Definition previous_at (s : State) : Token := token_at (current s - 1).
Definition isAtEnd_at (s : State) : bool :=
  TokenType_eqb (type (peek_at s)) EOF.
Definition check_at (t : TokenType) (s : State) : bool :=
  if isAtEnd_at s then false else TokenType_eqb (type (peek_at s)) t.

Definition peek : M Token := fun s => Some (peek_at s, s).
Definition previous : M Token := fun s => Some (previous_at s, s).
Definition isAtEnd : M bool := fun s => Some (isAtEnd_at s, s).
Definition check (t : TokenType) : M bool := fun s => Some (check_at t s, s).

Definition checkNext (t : TokenType) : M bool :=
  fun s =>
    Some (if Nat.leb (List.length tokens) (current s + 1) then false
          else TokenType_eqb (type (token_at (current s + 1))) t, s).

Definition advance : M Token :=
  fun s =>
    let s' := if isAtEnd_at s then s
              else mkState (S (current s)) (errors s) in
    Some (previous_at s', s').

(** [match(...types)] *)
Fixpoint match_ (types : list TokenType) : M bool :=
  match types with
  | [] => ret false
  | t :: types' =>
      c <- check t ;;
      if c then (advance ;;; ret true) else match_ types'
  end.

Definition error (msg : string) : M unit :=
  fun s =>
    let token := peek_at s in
    Some (tt, mkState (current s)
                (errors s ++ [mkParserError msg (line token) (column token)
                                            SevError])).

Definition consume (t : TokenType) (msg : string) : M Token :=
  c <- check t ;;
  if c then advance else (error msg ;;; peek).

Definition isAttributeName (token : Token) : bool :=
  match type token with
  | IDENTIFIER | ROLE | LABEL | STYLE | ON | DESCRIBE | SLOT | WHEN | EACH
  | ANIMATE | SPACE => true
  | _ => false
  end.

(** *** Expressions *)

(** The body of the [while (this.match(...))] loop shared by the binary
    levels: [operand] parses the right operand, [loop] is the next
    iteration. *)
Definition binaryLevel (ops : list TokenType) (operand : M Expression)
    (loop : Expression -> M Expression) (left : Expression) : M Expression :=
  m <- match_ ops ;;
  if m then
    operator <- previous ;;
    right <- operand ;;
    loop (BinaryExpression (value operator) left right
            (line operator) (column operator))
  else ret left.

Fixpoint parseExpression (fuel : nat) : M Expression :=
  match fuel with
  | 0 => out_of_fuel
  | S f => parseTernary f
  end

with parseTernary (fuel : nat) : M Expression :=
  match fuel with
  | 0 => out_of_fuel
  | S f =>
      expr <- parseLogicalOr f ;;
      m <- match_ [QUESTION] ;;
      if m then
        question <- previous ;;
        consequent <- parseExpression f ;;
        consume COLON "Expected : in conditional expression" ;;;
        alternate <- parseTernary f ;;
        ret (ConditionalExpression expr consequent alternate
               (line question) (column question))
      else ret expr
  end

with parseLogicalOr (fuel : nat) : M Expression :=
  match fuel with
  | 0 => out_of_fuel
  | S f => left <- parseLogicalAnd f ;; parseLogicalOr_loop f left
  end
with parseLogicalOr_loop (fuel : nat) (left : Expression) : M Expression :=
  match fuel with
  | 0 => out_of_fuel
  | S f => binaryLevel [OR] (parseLogicalAnd f) (parseLogicalOr_loop f) left
  end

with parseLogicalAnd (fuel : nat) : M Expression :=
  match fuel with
  | 0 => out_of_fuel
  | S f => left <- parseEquality f ;; parseLogicalAnd_loop f left
  end
with parseLogicalAnd_loop (fuel : nat) (left : Expression) : M Expression :=
  match fuel with
  | 0 => out_of_fuel
  | S f => binaryLevel [AND] (parseEquality f) (parseLogicalAnd_loop f) left
  end

with parseEquality (fuel : nat) : M Expression :=
  match fuel with
  | 0 => out_of_fuel
  | S f => left <- parseComparison f ;; parseEquality_loop f left
  end
with parseEquality_loop (fuel : nat) (left : Expression) : M Expression :=
  match fuel with
  | 0 => out_of_fuel
  | S f =>
      binaryLevel [EQ; NE] (parseComparison f) (parseEquality_loop f) left
  end

with parseComparison (fuel : nat) : M Expression :=
  match fuel with
  | 0 => out_of_fuel
  | S f => left <- parseAdditive f ;; parseComparison_loop f left
  end
with parseComparison_loop (fuel : nat) (left : Expression) : M Expression :=
  match fuel with
  | 0 => out_of_fuel
  | S f =>
      binaryLevel [LT; GT; LE; GE] (parseAdditive f)
        (parseComparison_loop f) left
  end

with parseAdditive (fuel : nat) : M Expression :=
  match fuel with
  | 0 => out_of_fuel
  | S f => left <- parseMultiplicative f ;; parseAdditive_loop f left
  end
with parseAdditive_loop (fuel : nat) (left : Expression) : M Expression :=
  match fuel with
  | 0 => out_of_fuel
  | S f =>
      binaryLevel [PLUS; MINUS] (parseMultiplicative f)
        (parseAdditive_loop f) left
  end

with parseMultiplicative (fuel : nat) : M Expression :=
  match fuel with
  | 0 => out_of_fuel
  | S f => left <- parseUnary f ;; parseMultiplicative_loop f left
  end
with parseMultiplicative_loop (fuel : nat) (left : Expression)
    : M Expression :=
  match fuel with
  | 0 => out_of_fuel
  | S f =>
      binaryLevel [STAR; SLASH] (parseUnary f)
        (parseMultiplicative_loop f) left
  end

with parseUnary (fuel : nat) : M Expression :=
  match fuel with
  | 0 => out_of_fuel
  | S f =>
      m <- match_ [BANG; MINUS] ;;
      if m then
        operator <- previous ;;
        argument <- parseUnary f ;;
        ret (UnaryExpression (value operator) argument
               (line operator) (column operator))
      else parsePostfix f
  end

with parsePostfix (fuel : nat) : M Expression :=
  match fuel with
  | 0 => out_of_fuel
  | S f => expr <- parsePrimary f ;; parsePostfix_loop f expr
  end
with parsePostfix_loop (fuel : nat) (expr : Expression) : M Expression :=
  match fuel with
  | 0 => out_of_fuel
  | S f =>
      isDot <- match_ [DOT] ;;
      if isDot then
        property <- consume IDENTIFIER "Expected property name" ;;
        parsePostfix_loop f
          (MemberExpression expr
             (Identifier (value property) (line property) (column property))
             false (line property) (column property))
      else
        isBracket <- match_ [LBRACKET] ;;
        if isBracket then
          property <- parseExpression f ;;
          consume RBRACKET "Expected ] after computed property" ;;;
          prev <- previous ;;
          parsePostfix_loop f
            (MemberExpression expr property true (line prev) (column prev))
        else
          isParen <- match_ [LPAREN] ;;
          if isParen then
            closing <- check RPAREN ;;
            args <- (if closing then ret []
                     else parseExpressionList f []) ;;
            consume RPAREN "Expected ) after arguments" ;;;
            prev <- previous ;;
            parsePostfix_loop f
              (CallExpression expr args (line prev) (column prev))
          else ret expr
  end

(** [do { list.push(this.parseExpression()) } while (this.match(COMMA))],
    used for call arguments and for array elements. *)
with parseExpressionList (fuel : nat) (acc : list Expression)
    : M (list Expression) :=
  match fuel with
  | 0 => out_of_fuel
  | S f =>
      e <- parseExpression f ;;
      m <- match_ [COMMA] ;;
      if m then parseExpressionList f (acc ++ [e]) else ret (acc ++ [e])
  end

with parsePrimary (fuel : nat) : M Expression :=
  match fuel with
  | 0 => out_of_fuel
  | S f =>
      token <- peek ;;
      isNumber <- match_ [NUMBER] ;;
      if isNumber then
        prev <- previous ;;
        ret (Literal (LNumber (value prev)) (value prev)
               (line token) (column token))
      else
      isString <- match_ [STRING] ;;
      if isString then
        prev <- previous ;;
        ret (Literal (LString (value prev)) (value prev)
               (line token) (column token))
      else
      isBoolean <- match_ [BOOLEAN] ;;
      if isBoolean then
        prev <- previous ;;
        ret (Literal (LBoolean (String.eqb (value prev) "true")) (value prev)
               (line token) (column token))
      else
      isIdentifier <- match_ [IDENTIFIER] ;;
      if isIdentifier then
        prev <- previous ;;
        ret (Identifier (value prev) (line token) (column token))
      else
      isBracket <- match_ [LBRACKET] ;;
      if isBracket then
        closing <- check RBRACKET ;;
        elements <- (if closing then ret []
                     else parseExpressionList f []) ;;
        consume RBRACKET "Expected ] after array elements" ;;;
        ret (ArrayExpression elements (line token) (column token))
      else
      isParen <- match_ [LPAREN] ;;
      if isParen then
        expr <- parseExpression f ;;
        consume RPAREN "Expected ) after expression" ;;;
        ret expr
      else
        error "Expected expression" ;;;
        ret (Literal (LNumber "0") "0" (line token) (column token))
  end.

(** *** Elements *)

(** [while (this.match(MINUS))] of [parseElement]: the parts of a
    hyphenated attribute name. *)
Fixpoint parseAttributeNameParts (fuel : nat) (attrName : string)
    : M string :=
  match fuel with
  | 0 => out_of_fuel
  | S f =>
      m <- match_ [MINUS] ;;
      if m then
        token <- peek ;;
        if isAttributeName token then
          part <- advance ;;
          parseAttributeNameParts f (attrName ++ "-" ++ value part)%string
        else
          error "Expected attribute name part after -" ;;;
          parseAttributeNameParts f (attrName ++ "-")%string
      else ret attrName
  end.

(** [while (isAttributeName(peek()) && !checkNext(COLON))] *)
Fixpoint parseAttributes (fuel : nat) (attributes : list Attribute)
    : M (list Attribute) :=
  match fuel with
  | 0 => out_of_fuel
  | S f =>
      token <- peek ;;
      colonNext <- checkNext COLON ;;
      if isAttributeName token && negb colonNext then
        first <- advance ;;
        attrName <- parseAttributeNameParts f (value first) ;;
        consume EQUALS "Expected = after attribute name" ;;;
        attrValue <- parseExpression f ;;
        parseAttributes f (attributes ++ [mkAttribute attrName attrValue])
      else ret attributes
  end.

Definition parseSlot : M Child :=
  consume IDENTIFIER "Expected slot" ;;;
  token <- previous ;;
  ret (ChildSlot (line token) (column token)).

Fixpoint parseElement (fuel : nat) : M ElementNode :=
  match fuel with
  | 0 => out_of_fuel
  | S f =>
      token <- peek ;;
      tag <- consume IDENTIFIER "Expected element tag" ;;
      attributes <- parseAttributes f [] ;;
      isColon <- match_ [COLON] ;;
      children <-
        (if isColon then
           isString <- match_ [STRING] ;;
           if isString then
             text <- previous ;;
             ret [ChildText (value text) [] (line text) (column text)]
           else parseChildren f []
         else ret []) ;;
      ret (Element (value tag) attributes children None
             (line token) (column token))
  end

(** [while (!isAtEnd() && check(IDENTIFIER))] of [parseElement].  The
    [else break] of the source is on [parseElement] returning [null],
    which it never does. *)
with parseChildren (fuel : nat) (children : list Child) : M (list Child) :=
  match fuel with
  | 0 => out_of_fuel
  | S f =>
      atEnd <- isAtEnd ;;
      isId <- check IDENTIFIER ;;
      if negb atEnd && isId then
        token <- peek ;;
        if String.eqb (value token) "when" then
          cond <- parseConditional f ;;
          parseChildren f (children ++ [cond])
        else if String.eqb (value token) "each" then
          loop <- parseLoop f ;;
          parseChildren f (children ++ [loop])
        else if String.eqb (value token) "slot" then
          slot <- parseSlot ;;
          parseChildren f (children ++ [slot])
        else
          child <- parseElement f ;;
          parseChildren f (children ++ [ChildElement child])
      else ret children
  end

with parseConditional (fuel : nat) : M Child :=
  match fuel with
  | 0 => out_of_fuel
  | S f =>
      consume IDENTIFIER "Expected when" ;;;
      token <- previous ;;
      condition <- parseExpression f ;;
      consume COLON "Expected : after condition" ;;;
      isId <- check IDENTIFIER ;;
      consequent <-
        (if isId then element <- parseElement f ;; ret [ChildElement element]
         else ret []) ;;
      ret (ChildConditional condition consequent None
             (line token) (column token))
  end

with parseLoop (fuel : nat) : M Child :=
  match fuel with
  | 0 => out_of_fuel
  | S f =>
      consume IDENTIFIER "Expected each" ;;;
      token <- previous ;;
      item <- consume IDENTIFIER "Expected item name" ;;
      consume IDENTIFIER "Expected in" ;;;
      iterable <- parseExpression f ;;
      consume COLON "Expected : after iterable" ;;;
      isId <- check IDENTIFIER ;;
      body <-
        (if isId then element <- parseElement f ;; ret [ChildElement element]
         else ret []) ;;
      ret (ChildLoop (value item) None iterable body
             (line token) (column token))
  end.

(** *** Declarations *)

(** [[...new Set(deps)]]: first occurrences, in order. *)
Fixpoint dedupe (seen : list string) (l : list string) : list string :=
  match l with
  | [] => []
  | x :: l' =>
      if existsb (String.eqb x) seen then dedupe seen l'
      else x :: dedupe (x :: seen) l'
  end.

Fixpoint walk (node : Expression) : list string :=
  match node with
  | Identifier name _ _ => [name]
  | BinaryExpression _ lhs rhs _ _ => walk lhs ++ walk rhs
  | MemberExpression object _ _ _ _ => walk object
  | CallExpression callee arguments _ _ =>
      walk callee ++ flat_map walk arguments
  | _ => []
  end.

Definition extractDependencies (expr : Expression) : list string :=
  dedupe [] (walk expr).

Definition parseState (fuel : nat) : M (option StateDeclaration) :=
  token <- previous ;;
  name <- consume IDENTIFIER "Expected state name" ;;
  consume EQUALS "Expected = after state name" ;;;
  initialValue <- parseExpression fuel ;;
  ret (Some (AST.mkState (value name) initialValue
               (line token) (column token))).

Definition parseComputed (fuel : nat) : M (option ComputedDeclaration) :=
  token <- previous ;;
  name <- consume IDENTIFIER "Expected computed name" ;;
  consume EQUALS "Expected = after computed name" ;;;
  expression <- parseExpression fuel ;;
  ret (Some (mkComputed (value name) (extractDependencies expression)
               expression (line token) (column token))).

(** [do { consume(IDENTIFIER); push } while (match(COMMA))], used for the
    dependencies of an effect and the parameters of an arrow function. *)
Fixpoint parseNameList (fuel : nat) (msg : string) (acc : list string)
    : M (list string) :=
  match fuel with
  | 0 => out_of_fuel
  | S f =>
      name <- consume IDENTIFIER msg ;;
      m <- match_ [COMMA] ;;
      if m then parseNameList f msg (acc ++ [value name])
      else ret (acc ++ [value name])
  end.

Definition parseEffect (fuel : nat) : M (option EffectDeclaration) :=
  token <- previous ;;
  consume LPAREN "Expected ( after effect" ;;;
  closing <- check RPAREN ;;
  dependencies <-
    (if closing then ret []
     else parseNameList fuel "Expected dependency name" []) ;;
  consume RPAREN "Expected ) after dependencies" ;;;
  consume ARROW "Expected => after effect dependencies" ;;;
  ret (Some (mkEffect dependencies (line token) (column token))).

Definition parseArrowFunction (fuel : nat) : M ArrowFunction :=
  token <- peek ;;
  isParen <- match_ [LPAREN] ;;
  params <-
    (if isParen then
       closing <- check RPAREN ;;
       ps <- (if closing then ret []
              else parseNameList fuel "Expected parameter name" []) ;;
       consume RPAREN "Expected ) after parameters" ;;;
       ret ps
     else ret []) ;;
  body <- parseExpression fuel ;;
  ret (mkArrow params body (line token) (column token)).

Definition parseEventHandler (fuel : nat) : M (option EventHandler) :=
  token <- previous ;;
  event <- consume IDENTIFIER "Expected event name" ;;
  consume ARROW "Expected => after event name" ;;;
  handler <- parseArrowFunction fuel ;;
  ret (Some (mkHandler (value event) handler (line token) (column token))).

(** [while (!isAtEnd() && check(IDENTIFIER))] of [parseAnimation], left
    by [break] when no comma follows a property. *)
Fixpoint parseAnimationProperties (fuel : nat)
    (properties : list AnimationProperty) : M (list AnimationProperty) :=
  match fuel with
  | 0 => out_of_fuel
  | S f =>
      atEnd <- isAtEnd ;;
      isId <- check IDENTIFIER ;;
      if negb atEnd && isId then
        propName <- advance ;;
        consume COLON "Expected : after property name" ;;;
        to <- parseExpression f ;;
        let properties' :=
          properties ++ [mkAnimationProperty (value propName) to] in
        m <- match_ [COMMA] ;;
        if m then parseAnimationProperties f properties'
        else ret properties'
      else ret properties
  end.

Definition parseAnimation (fuel : nat) : M (option AnimationDeclaration) :=
  token <- previous ;;
  trigger <- consume IDENTIFIER "Expected animation trigger" ;;
  consume COLON "Expected : after animation trigger" ;;;
  properties <- parseAnimationProperties fuel [] ;;
  ret (Some (mkAnimation (value trigger) properties 300 "ease-out"
               (line token) (column token))).

Definition parseStringValue : M string :=
  token <- consume STRING "Expected string value" ;;
  ret (value token).

(** [properties[propName] = v] on an object used as a record: an
    existing key keeps its place. *)
Fixpoint record_set {A : Type} (k : string) (v : A) (r : list (string * A))
    : list (string * A) :=
  match r with
  | [] => [(k, v)]
  | (k', v') :: r' =>
      if String.eqb k k' then (k, v) :: r' else (k', v') :: record_set k v r'
  end.

(** Inner loop of [parseStyle]: the properties of one rule. *)
Fixpoint parseStyleProperties (fuel : nat)
    (properties : list (string * StyleValue))
    : M (list (string * StyleValue)) :=
  match fuel with
  | 0 => out_of_fuel
  | S f =>
      atEnd <- isAtEnd ;;
      isId <- check IDENTIFIER ;;
      if negb atEnd && isId then
        propName <- advance ;;
        consume COLON "Expected : after property name" ;;;
        isString <- check STRING ;;
        v <- (if isString then t <- advance ;; ret (StyleText (value t))
              else
                isNumber <- check NUMBER ;;
                if isNumber then t <- advance ;; ret (StyleText (value t))
                else e <- parseExpression f ;; ret (StyleExpr e)) ;;
        parseStyleProperties f (record_set (value propName) v properties)
      else ret properties
  end.

(** Outer loop of [parseStyle]: one rule per iteration.  A failed
    [consume] leaves [current] where it is, so an iteration that starts
    on a token that is neither [.], an identifier nor [:] consumes
    nothing. *)
Fixpoint parseStyleRules (fuel : nat) (rules : list StyleRule)
    : M (list StyleRule) :=
  match fuel with
  | 0 => out_of_fuel
  | S f =>
      atEnd <- isAtEnd ;;
      isComponent <- check COMPONENT ;;
      isSpace <- check SPACE ;;
      isStyle <- check STYLE ;;
      if negb atEnd && negb isComponent && negb isSpace && negb isStyle then
        consume DOT "Expected . for class selector" ;;;
        name <- consume IDENTIFIER "Expected class name" ;;
        consume COLON "Expected : after selector" ;;;
        properties <- parseStyleProperties f [] ;;
        parseStyleRules f
          (rules ++ [mkStyleRule ("." ++ value name)%string properties])
      else ret rules
  end.

Definition parseStyle (fuel : nat) : M (option StyleNode) :=
  m <- match_ [STYLE] ;;
  if m then
    token <- previous ;;
    consume COLON "Expected : after style" ;;;
    rules <- parseStyleRules fuel [] ;;
    ret (Some (mkStyle rules (line token) (column token)))
  else
    error "Expected style declaration" ;;; ret None.

(** [if (x) list.push(x)] *)
Definition push_opt {A : Type} (l : list A) (x : option A) : list A :=
  match x with
  | Some a => l ++ [a]
  | None => l
  end.

(** The arrays and the accessibility object that [parseComponent] fills. *)
Record ComponentParts : Type := mkParts {
  p_states : list StateDeclaration;
  p_computed : list ComputedDeclaration;
  p_effects : list EffectDeclaration;
  p_handlers : list EventHandler;
  p_animations : list AnimationDeclaration;
  p_styles : list StyleNode;
  p_body : list ElementNode;
  p_accessibility : AccessibilityInfo
}.

Definition empty_parts : ComponentParts :=
  mkParts [] [] [] [] [] [] [] (mkAccessibility None None None).

(** [while (!isAtEnd() && !check(COMPONENT))] of [parseComponent]. *)
Fixpoint parseComponentBody (fuel : nat) (p : ComponentParts)
    : M ComponentParts :=
  match fuel with
  | 0 => out_of_fuel
  | S f =>
      atEnd <- isAtEnd ;;
      isComponent <- check COMPONENT ;;
      if negb atEnd && negb isComponent then
        let '(mkParts sts cps efs hds ans stys bdy acc) := p in
        m <- match_ [STATE] ;;
        if m then
          x <- parseState f ;;
          parseComponentBody f
            (mkParts (push_opt sts x) cps efs hds ans stys bdy acc)
        else
        m <- match_ [COMPUTED] ;;
        if m then
          x <- parseComputed f ;;
          parseComponentBody f
            (mkParts sts (push_opt cps x) efs hds ans stys bdy acc)
        else
        m <- match_ [EFFECT] ;;
        if m then
          x <- parseEffect f ;;
          parseComponentBody f
            (mkParts sts cps (push_opt efs x) hds ans stys bdy acc)
        else
        m <- match_ [ON] ;;
        if m then
          x <- parseEventHandler f ;;
          parseComponentBody f
            (mkParts sts cps efs (push_opt hds x) ans stys bdy acc)
        else
        m <- match_ [ANIMATE] ;;
        if m then
          x <- parseAnimation f ;;
          parseComponentBody f
            (mkParts sts cps efs hds (push_opt ans x) stys bdy acc)
        else
        c <- check STYLE ;;
        if c then
          x <- parseStyle f ;;
          parseComponentBody f
            (mkParts sts cps efs hds ans (push_opt stys x) bdy acc)
        else
        m <- match_ [ROLE] ;;
        if m then
          v <- parseStringValue ;;
          parseComponentBody f
            (mkParts sts cps efs hds ans stys bdy
               (mkAccessibility (Some v) (label acc) (description acc)))
        else
        m <- match_ [LABEL] ;;
        if m then
          v <- parseStringValue ;;
          parseComponentBody f
            (mkParts sts cps efs hds ans stys bdy
               (mkAccessibility (role acc) (Some v) (description acc)))
        else
        m <- match_ [DESCRIBE] ;;
        if m then
          v <- parseStringValue ;;
          parseComponentBody f
            (mkParts sts cps efs hds ans stys bdy
               (mkAccessibility (role acc) (label acc) (Some v)))
        else
        c <- check IDENTIFIER ;;
        if c then
          element <- parseElement f ;;
          parseComponentBody f
            (mkParts sts cps efs hds ans stys (bdy ++ [element]) acc)
        else
          advance ;;; parseComponentBody f p
      else ret p
  end.

Definition parseComponent (fuel : nat) : M (option ComponentNode) :=
  m <- match_ [COMPONENT] ;;
  if m then
    token <- previous ;;
    name <- consume IDENTIFIER "Expected component name" ;;
    consume COLON "Expected : after component name" ;;;
    p <- parseComponentBody fuel empty_parts ;;
    ret (Some (mkComponent (value name) (p_states p) (p_computed p)
                 (p_effects p) (p_handlers p) (p_animations p) (p_styles p)
                 (p_body p) (p_accessibility p) (line token) (column token)))
  else
    error "Expected component declaration" ;;; ret None.

Record SpaceParts : Type := mkSpaceParts {
  sp_states : list StateDeclaration;
  sp_computed : list ComputedDeclaration;
  sp_effects : list EffectDeclaration;
  sp_handlers : list EventHandler
}.

(** [while (!isAtEnd() && !check(COMPONENT) && !check(SPACE))] of
    [parseSpace]. *)
Fixpoint parseSpaceBody (fuel : nat) (p : SpaceParts) : M SpaceParts :=
  match fuel with
  | 0 => out_of_fuel
  | S f =>
      atEnd <- isAtEnd ;;
      isComponent <- check COMPONENT ;;
      isSpace <- check SPACE ;;
      if negb atEnd && negb isComponent && negb isSpace then
        let '(mkSpaceParts sts cps efs hds) := p in
        m <- match_ [STATE] ;;
        if m then
          x <- parseState f ;;
          parseSpaceBody f (mkSpaceParts (push_opt sts x) cps efs hds)
        else
        m <- match_ [COMPUTED] ;;
        if m then
          x <- parseComputed f ;;
          parseSpaceBody f (mkSpaceParts sts (push_opt cps x) efs hds)
        else
        m <- match_ [EFFECT] ;;
        if m then
          x <- parseEffect f ;;
          parseSpaceBody f (mkSpaceParts sts cps (push_opt efs x) hds)
        else
        m <- match_ [ON] ;;
        if m then
          x <- parseEventHandler f ;;
          parseSpaceBody f (mkSpaceParts sts cps efs (push_opt hds x))
        else
          advance ;;; parseSpaceBody f p
      else ret p
  end.

Definition parseSpace (fuel : nat) : M (option SpaceNode) :=
  m <- match_ [SPACE] ;;
  if m then
    token <- previous ;;
    name <- consume IDENTIFIER "Expected space name" ;;
    consume COLON "Expected : after space name" ;;;
    p <- parseSpaceBody fuel (mkSpaceParts [] [] [] []) ;;
    ret (Some (mkSpace (value name) (sp_states p) (sp_computed p)
                 (sp_effects p) (sp_handlers p) (line token) (column token)))
  else
    error "Expected space declaration" ;;; ret None.

(** The [while] loop of [synchronize], after its first [advance]. *)
Fixpoint synchronize_loop (fuel : nat) : M unit :=
  match fuel with
  | 0 => out_of_fuel
  | S f =>
      atEnd <- isAtEnd ;;
      if atEnd then ret tt
      else
        prev <- previous ;;
        if TokenType_eqb (type prev) SEMICOLON then ret tt
        else
          token <- peek ;;
          match type token with
          | COMPONENT | SPACE | STATE | COMPUTED | EFFECT => ret tt
          | _ => advance ;;; synchronize_loop f
          end
  end.

Definition synchronize (fuel : nat) : M unit :=
  advance ;;; synchronize_loop fuel.

(** The [while (!this.isAtEnd())] loop of [parse].  With a token list
    that ends with EOF nothing inside the [try] throws, so the [catch]
    branch is never entered. *)
Fixpoint parse_loop (fuel : nat)
    (components : list ComponentNode) (spaces : list SpaceNode)
    (styles : list StyleNode)
    : M (list ComponentNode * list SpaceNode * list StyleNode) :=
  match fuel with
  | 0 => out_of_fuel
  | S f =>
      atEnd <- isAtEnd ;;
      if atEnd then ret (components, spaces, styles)
      else
        isComponent <- check COMPONENT ;;
        if isComponent then
          component <- parseComponent f ;;
          parse_loop f (push_opt components component) spaces styles
        else
        isSpace <- check SPACE ;;
        if isSpace then
          space <- parseSpace f ;;
          parse_loop f components (push_opt spaces space) styles
        else
        isStyle <- check STYLE ;;
        if isStyle then
          style <- parseStyle f ;;
          parse_loop f components spaces (push_opt styles style)
        else
          error "Expected component, space or style declaration" ;;;
          synchronize f ;;;
          parse_loop f components spaces styles
  end.

Definition run_parse (fuel : nat)
    : option (option Program * list ParserError) :=
  match parse_loop fuel [] [] [] (Parser.mkState 0 []) with
  | Some ((components, spaces, styles), s) =>
      Some (match components with
            | [] => None
            | _ :: _ => Some (mkProgram components spaces styles)
            end, errors s)
  | None => None
  end.

End WithTokens.

(** [new Parser(tokens).parse()], with [fuel] bounding the depth of the
    recursion; [None] when it is exceeded. *)
Definition parse (fuel : nat) (tokens : list Token)
    : option (option Program * list ParserError) :=
  run_parse (filter_tokens tokens) fuel.

End Parser.

(* ===================================================================== *)
(** ** Semantic analysis (semantic.ts) *)
(* ===================================================================== *)

Module Semantic.
Import AST.

Record SemanticError : Type := mkSemanticError {
  serr_message : string;
  serr_line : nat;
  serr_column : nat
}.

Record SemanticWarning : Type := mkSemanticWarning {
  warn_message : string;
  warn_line : nat;
  warn_column : nat
}.

(** The fields of the analyzer object; [declaredVariables] is a
    [Set<string>], of which only membership is used. *)
Record Analyzer : Type := mkAnalyzer {
  errors : list SemanticError;
  warnings : list SemanticWarning;
  declaredVariables : list string
}.

Definition push_error (e : SemanticError) (a : Analyzer) : Analyzer :=
  mkAnalyzer (errors a ++ [e]) (warnings a) (declaredVariables a).

Definition push_warning (w : SemanticWarning) (a : Analyzer) : Analyzer :=
  mkAnalyzer (errors a) (warnings a ++ [w]) (declaredVariables a).

Definition has (x : string) (a : Analyzer) : bool :=
  existsb (String.eqb x) (declaredVariables a).

Definition add (x : string) (a : Analyzer) : Analyzer :=
  mkAnalyzer (errors a) (warnings a)
    (if has x a then declaredVariables a else declaredVariables a ++ [x]).

Definition set_declared (d : list string) (a : Analyzer) : Analyzer :=
  mkAnalyzer (errors a) (warnings a) d.

(** Truthiness of an optional string: [undefined] and the empty string
    are falsy. *)
Definition truthy (o : option string) : bool :=
  match o with
  | Some EmptyString | None => false
  | Some _ => true
  end.

Definition isTextChild (c : Child) : bool :=
  match c with ChildText _ _ _ _ => true | _ => false end.

Definition missing_alt_message : string :=
  "Image element must have alt attribute".

(** [analyzeElement], with the bodies of [analyzeConditional] and
    [analyzeLoop] at the places where the loop over the children calls
    them. *)
Fixpoint analyzeElement (element : ElementNode) (a : Analyzer)
    {struct element} : Analyzer :=
  match element with
  | Element tag attributes children ariaLabel line column =>
      let a1 :=
        if String.eqb tag "button" && negb (truthy ariaLabel) then
          if existsb isTextChild children then a
          else push_warning
                 (mkSemanticWarning
                    "Button element without text content or aria-label"
                    line column) a
        else a in
      let a2 :=
        if String.eqb tag "img" then
          if existsb (fun attr => String.eqb (attr_name attr) "alt") attributes
          then a1
          else push_error (mkSemanticError missing_alt_message line column) a1
        else a1 in
      (fix forChildren (cs : list Child) (a : Analyzer) : Analyzer :=
         match cs with
         | [] => a
         | child :: cs' => forChildren cs' (analyzeChild child a)
         end) children a2
  end

with analyzeChild (child : Child) (a : Analyzer) {struct child} : Analyzer :=
  match child with
  | ChildElement e => analyzeElement e a
  | ChildConditional _ consequent alternate _ _ =>
      (* analyzeConditional *)
      let a1 :=
        (fix forNodes (ns : list Child) (a : Analyzer) : Analyzer :=
           match ns with
           | [] => a
           | ChildElement e :: ns' => forNodes ns' (analyzeElement e a)
           | _ :: ns' => forNodes ns' a
           end) consequent a in
      match alternate with
      | Some alt =>
          (fix forNodes (ns : list Child) (a : Analyzer) : Analyzer :=
             match ns with
             | [] => a
             | ChildElement e :: ns' => forNodes ns' (analyzeElement e a)
             | _ :: ns' => forNodes ns' a
             end) alt a1
      | None => a1
      end
  | ChildLoop item index _ body _ _ =>
      (* analyzeLoop *)
      let prevVariables := declaredVariables a in
      let a1 := add item a in
      let a2 := match index with
                | Some i => if truthy index then add i a1 else a1
                | None => a1
                end in
      let a3 :=
        (fix forNodes (ns : list Child) (a : Analyzer) : Analyzer :=
           match ns with
           | [] => a
           | ChildElement e :: ns' => forNodes ns' (analyzeElement e a)
           | _ :: ns' => forNodes ns' a
           end) body a2 in
      set_declared prevVariables a3
  | ChildText _ _ _ _ => a
  | ChildSlot _ _ => a
  end.

Definition interactiveTags : list string :=
  ["button"; "input"; "select"; "textarea"; "a"].

Fixpoint hasInteractiveElement (element : ElementNode) : bool :=
  match element with
  | Element tag _ children _ _ _ =>
      existsb (String.eqb tag) interactiveTags ||
      (fix inChildren (cs : list Child) : bool :=
         match cs with
         | [] => false
         | ChildElement e :: cs' => hasInteractiveElement e || inChildren cs'
         | _ :: cs' => inChildren cs'
         end) children
  end.

(** [hasInteractiveElements(elements)]: the first element that is
    interactive, or has an interactive element below it, answers [true]. *)
Definition hasInteractiveElements (elements : list ElementNode) : bool :=
  existsb hasInteractiveElement elements.

Definition validateAccessibility (component : ComponentNode) (a : Analyzer)
    : Analyzer :=
  let a1 :=
    if hasInteractiveElements (body component)
       && negb (truthy (role (accessibility component)))
    then push_warning
           (mkSemanticWarning
              ("Component '" ++ component_name component ++
               "' has interactive elements but no role defined")%string
              (component_line component) (component_column component)) a
    else a in
  if negb (Nat.eqb (List.length (handlers component)) 0)
     && negb (truthy (label (accessibility component)))
  then push_warning
         (mkSemanticWarning
            ("Component '" ++ component_name component ++
             "' has event handlers but no aria-label")%string
            (component_line component) (component_column component)) a1
  else a1.

Definition analyzeState (state : StateDeclaration) (a : Analyzer) : Analyzer :=
  let a1 :=
    if has (state_name state) a then
      push_error
        (mkSemanticError
           ("Duplicate state declaration: " ++ state_name state)%string
           (state_line state) (state_column state)) a
    else a in
  add (state_name state) a1.

Definition analyzeComputed (c : ComputedDeclaration) (a : Analyzer)
    : Analyzer :=
  let a1 :=
    if has (computed_name c) a then
      push_error
        (mkSemanticError
           ("Duplicate computed declaration: " ++ computed_name c)%string
           (computed_line c) (computed_column c)) a
    else a in
  let a2 := add (computed_name c) a1 in
  fold_left
    (fun a dep =>
       if has dep a then a
       else push_warning
              (mkSemanticWarning
                 ("Computed '" ++ computed_name c ++
                  "' depends on undeclared variable: " ++ dep)%string
                 (computed_line c) (computed_column c)) a)
    (computed_dependencies c) a2.

Definition analyzeEffect (e : EffectDeclaration) (a : Analyzer) : Analyzer :=
  fold_left
    (fun a dep =>
       if has dep a then a
       else push_warning
              (mkSemanticWarning
                 ("Effect depends on undeclared variable: " ++ dep)%string
                 (effect_line e) (effect_column e)) a)
    (effect_dependencies e) a.

Definition analyzeComponent (component : ComponentNode) (a : Analyzer)
    : Analyzer :=
  let a0 := set_declared [] a in
  let a1 := fold_left (fun a s => analyzeState s a) (states component) a0 in
  let a2 := fold_left (fun a c => analyzeComputed c a) (computed component) a1 in
  let a3 := fold_left (fun a e => analyzeEffect e a) (effects component) a2 in
  let a4 := validateAccessibility component a3 in
  fold_left (fun a e => analyzeElement e a) (body component) a4.

(** [analyze(ast)] on a fresh analyzer. *)
Definition analyze (ast : Program)
    : list SemanticError * list SemanticWarning :=
  let a :=
    fold_left (fun a c => analyzeComponent c a) (components ast)
      (mkAnalyzer [] [] []) in
  (errors a, warnings a).

End Semantic.

(* ===================================================================== *)
(** ** Compiler driver (index.ts) *)
(* ===================================================================== *)

Module Compiler.
Import AST.

Record CompileOptions : Type := mkOptions {
  minify : bool;
  sourceMaps : bool;
  strict : bool;
  explain : bool
}.

Record CompileError : Type := mkCompileError {
  cerr_message : string;
  cerr_line : nat;
  cerr_column : nat
}.

Record CompileWarning : Type := mkCompileWarning {
  cwarn_message : string;
  cwarn_line : nat;
  cwarn_column : nat
}.

Record CompileResult : Type := mkResult {
  code : string;
  errors : list CompileError;
  warnings : list CompileWarning;
  ast : option Program;
  explanation : option string
}.

Section WithCodeGenerator.

(** [new CodeGenerator().generate(ast, options)] and the private
    [generateExplanation(ast, code)]: both run only once every check
    below has passed; what they return is left open. *)
Variable generate : Program -> CompileOptions -> string.
Variable generateExplanation : Program -> string -> string.

Definition of_lexer_error (e : Lexer.LexerError) : CompileError :=
  mkCompileError (Lexer.message e) (Lexer.err_line e) (Lexer.err_column e).

Definition of_parser_error (e : Parser.ParserError) : CompileError :=
  mkCompileError (Parser.perr_message e) (Parser.perr_line e)
    (Parser.perr_column e).

Definition of_semantic_error (e : Semantic.SemanticError) : CompileError :=
  mkCompileError (Semantic.serr_message e) (Semantic.serr_line e)
    (Semantic.serr_column e).

Definition of_semantic_warning (w : Semantic.SemanticWarning)
    : CompileWarning :=
  mkCompileWarning (Semantic.warn_message w) (Semantic.warn_line w)
    (Semantic.warn_column w).

Definition is_empty {A : Type} (l : list A) : bool :=
  match l with [] => true | _ :: _ => false end.

(** [Compiler.compile(source, options)].  [fuel] is the budget handed to
    the parser; [None] when the lexer or the parser model runs out. *)
Definition compile (fuel : nat) (source : string) (options : CompileOptions)
    : option CompileResult :=
  match Lexer.tokenize source with
  | None => None
  | Some (tokens, lexerErrors) =>
      let errors0 := map of_lexer_error lexerErrors in
      if negb (is_empty errors0) then
        Some (mkResult EmptyString errors0 [] None None)
      else
        match Parser.parse fuel tokens with
        | None => None
        | Some (ast, parserErrors) =>
            let errors1 := errors0 ++ map of_parser_error parserErrors in
            match ast with
            | None => Some (mkResult EmptyString errors1 [] None None)
            | Some program =>
                if negb (is_empty errors1) then
                  Some (mkResult EmptyString errors1 [] None None)
                else
                  let '(errors2, warnings2) :=
                    if strict options then
                      let '(semanticErrors, semanticWarnings) :=
                        Semantic.analyze program in
                      (errors1 ++ map of_semantic_error semanticErrors,
                       map of_semantic_warning semanticWarnings)
                    else (errors1, []) in
                  if negb (is_empty errors2) then
                    Some (mkResult EmptyString errors2 warnings2
                            (if explain options then Some program else None)
                            None)
                  else
                    let code := generate program options in
                    Some (mkResult code errors2 warnings2
                            (if explain options then Some program else None)
                            (if explain options
                             then Some (generateExplanation program code)
                             else None))
            end
        end
  end.

End WithCodeGenerator.

End Compiler.

(* ===================================================================== *)
(** ** Code generator (codegen.ts): string escapes *)
(* ===================================================================== *)

Module CodeGenerator.

(** [str.replace(/c/g, by)] for a one-character pattern. *)
Definition replaceAll (c : ascii) (by_ : list ascii) (s : list ascii)
    : list ascii :=
  flat_map (fun x => if Ascii.eqb x c then by_ else [x]) s.

(** [escapeString]: six replacements, one after the other. *)
Definition escapeString (str : string) : string :=
  string_of_list_ascii
    (replaceAll Lexer.char_tab ["\"; "t"]
       (replaceAll Lexer.char_cr ["\"; "r"]
          (replaceAll Lexer.char_newline ["\"; "n"]
             (replaceAll Lexer.char_dquote ["\"; Lexer.char_dquote]
                (replaceAll "'" ["\"; "'"]
                   (replaceAll "\" ["\"; "\"]
                      (list_ascii_of_string str)))))))%char.

End CodeGenerator.

(* ===================================================================== *)
(** ** Formatter (formatter.ts) *)
(* ===================================================================== *)

Module Formatter.
Import Lexer.

(** What a formatter method does: it returns, or it throws the TypeError
    of reading a property of [undefined] (a token index past the end of
    the array), or the recursion budget of the model is used up. *)
Inductive Result (A : Type) : Type :=
  | Returned (a : A)
  | TypeError
  | OutOfFuel.
Arguments Returned {A} a.
Arguments TypeError {A}.
Arguments OutOfFuel {A}.

(** The mutable fields: [indent] and the [output] lines. *)
Record State : Type := mkState {
  indent : nat;
  output : list string
}.

Definition indentSize : nat := 2.

Fixpoint spaces (n : nat) : string :=
  match n with
  | 0 => EmptyString
  | S n' => String " " (spaces n')
  end.

Definition emit (text : string) (st : State) : State :=
  mkState (indent st)
    (output st ++ [(spaces (indent st * indentSize) ++ text)%string]).

Definition set_indent (n : nat) (st : State) : State :=
  mkState n (output st).

Definition isStatementEnd (token : Token) : bool :=
  match type token with
  | NEWLINE | EOF | COMPONENT | STATE | COMPUTED | EFFECT | ON | ANIMATE
  | ROLE | LABEL => true
  | _ => false
  end.

(** [array.join(sep)] *)
Definition join (sep : string) (l : list string) : string :=
  String.concat sep l.

Section WithTokens.

Variable tokens : list Token.

Definition at_ (i : nat) : option Token := nth_error tokens i.

(** [while (i < tokens.length && !stop(tokens[i])) { push; i++ }]:
    the tokens collected and the index reached. *)
Fixpoint collect_go (stop : Token -> bool) (ts : list Token) (i : nat)
    : list Token * nat :=
  match ts with
  | t :: ts' =>
      if stop t then ([], i)
      else let '(c, j) := collect_go stop ts' (S i) in (t :: c, j)
  | [] => ([], i)
  end.

Definition collect (stop : Token -> bool) (i : nat) : list Token * nat :=
  collect_go stop (skipn i tokens) i.

Definition values (ts : list Token) : string := join " " (map value ts).

(** [formatState], [formatComputed] and [formatEventHandler] differ in
    the text they emit only. *)
Definition formatAssignment (prefix infix : string) (start : nat)
    (st : State) : Result (nat * State) :=
  let i := start + 1 in
  let nameToken := at_ i in
  let i := i + 1 in
  let i := i + 1 in
  let '(valueTokens, i) := collect isStatementEnd i in
  match nameToken with
  | None => TypeError
  | Some n =>
      Returned (i, emit (prefix ++ value n ++ infix ++ values valueTokens)%string
                     st)
  end.

Definition formatState := formatAssignment "state " " = ".
Definition formatComputed := formatAssignment "computed " " = ".
Definition formatEventHandler := formatAssignment "on " " => ".

(** [while (tokens[i].type !== RPAREN)] of [formatEffect]: running off
    the end of the array throws. *)
Fixpoint effectDeps_go (ts : list Token) (i : nat) (deps : list string)
    : option (list string * nat) :=
  match ts with
  | t :: ts' =>
      if TokenType_eqb (type t) RPAREN then Some (deps, i)
      else effectDeps_go ts' (S i)
             (if TokenType_eqb (type t) IDENTIFIER then deps ++ [value t]
              else deps)
  | [] => None
  end.

Definition formatEffect (start : nat) (st : State) : Result (nat * State) :=
  let i := start + 1 in
  let i := i + 1 in
  match effectDeps_go (skipn i tokens) i [] with
  | None => TypeError
  | Some (deps, i) =>
      let i := i + 1 in
      let i := i + 1 in
      Returned (i, emit ("effect (" ++ join ", " deps ++ ") =>")%string st)
  end.

(** The property loop of [formatAnimation]; every iteration moves [i]
    forward, so [fuel] need not exceed the number of tokens. *)
Fixpoint animationProperties (fuel : nat) (i : nat) (st : State)
    : Result (nat * State) :=
  match fuel with
  | 0 => OutOfFuel
  | S f =>
      match at_ i with
      | Some t =>
          if TokenType_eqb (type t) IDENTIFIER then
            let propToken := t in
            let i := i + 1 in
            let i := i + 1 in
            let '(valueTokens, i) :=
              collect (fun t => TokenType_eqb (type t) COMMA
                                || isStatementEnd t) i in
            let st' :=
              emit (value propToken ++ ": " ++ values valueTokens)%string st in
            match at_ i with
            | None => TypeError
            | Some t' =>
                if TokenType_eqb (type t') COMMA
                then animationProperties f (i + 1) st'
                else Returned (i, st')
            end
          else Returned (i, st)
      | None => Returned (i, st)
      end
  end.

Definition formatAnimation (start : nat) (st : State)
    : Result (nat * State) :=
  let i := start + 1 in
  let triggerToken := at_ i in
  let i := i + 1 in
  let i := i + 1 in
  match triggerToken with
  | None => TypeError
  | Some t =>
      let st1 := emit ("animate " ++ value t ++ ":")%string st in
      let st2 := set_indent (indent st1 + 1) st1 in
      match animationProperties (List.length tokens) i st2 with
      | Returned (i, st3) => Returned (i, set_indent (indent st3 - 1) st3)
      | TypeError => TypeError
      | OutOfFuel => OutOfFuel
      end
  end.

Definition formatKeywordValue (prefix : string) (start : nat) (st : State)
    : Result (nat * State) :=
  let i := start + 1 in
  match at_ i with
  | None => TypeError
  | Some valueToken =>
      Returned (i + 1, emit (prefix ++ value valueToken)%string st)
  end.

Definition formatRole := formatKeywordValue "role ".
Definition formatLabel := formatKeywordValue "label ".

(** The attribute loop of [formatElement]:
    [while (i < tokens.length && tokens[i].type === IDENTIFIER
            && tokens[i + 1]?.type === EQUALS)]. *)
Fixpoint elementAttrs (fuel : nat) (i : nat) (attrs : list string)
    : Result (nat * list string) :=
  match fuel with
  | 0 => OutOfFuel
  | S f =>
      match at_ i, at_ (i + 1) with
      | Some t, Some t1 =>
          if TokenType_eqb (type t) IDENTIFIER
             && TokenType_eqb (type t1) EQUALS then
            match at_ (i + 2) with
            | None => TypeError
            | Some v =>
                elementAttrs f (i + 3)
                  (attrs ++ [(value t ++ "=" ++ value v)%string])
            end
          else Returned (i, attrs)
      | _, _ => Returned (i, attrs)
      end
  end.

Definition attrsStr (attrs : list string) : string :=
  match attrs with
  | [] => EmptyString
  | _ :: _ => (" " ++ join " " attrs)%string
  end.

Fixpoint formatElement (fuel : nat) (start : nat) (st : State)
    : Result (nat * State) :=
  match fuel with
  | 0 => OutOfFuel
  | S f =>
      let i := start in
      match at_ i with
      | None => TypeError
      | Some tagToken =>
          let i := i + 1 in
          match elementAttrs (List.length tokens) i [] with
          | TypeError => TypeError
          | OutOfFuel => OutOfFuel
          | Returned (i, attrs) =>
              let isColon :=
                match at_ i with
                | Some t => TokenType_eqb (type t) COLON
                | None => false
                end in
              if isColon then
                let i := i + 1 in
                match at_ i with
                | None => TypeError
                | Some content =>
                    if TokenType_eqb (type content) STRING then
                      Returned
                        (i + 1,
                         emit (value tagToken ++ attrsStr attrs ++ ": "
                               ++ value content)%string st)
                    else
                      let st1 :=
                        emit (value tagToken ++ attrsStr attrs ++ ":")%string
                          st in
                      let st2 := set_indent (indent st1 + 1) st1 in
                      match nestedElements f i st2 with
                      | Returned (i, st3) =>
                          Returned (i, set_indent (indent st3 - 1) st3)
                      | TypeError => TypeError
                      | OutOfFuel => OutOfFuel
                      end
                end
              else
                Returned (i, emit (value tagToken ++ attrsStr attrs)%string st)
          end
      end
  end

(** [while (i < tokens.length && tokens[i].type === IDENTIFIER)
      i = this.formatElement(tokens, i)] *)
with nestedElements (fuel : nat) (i : nat) (st : State)
    : Result (nat * State) :=
  match fuel with
  | 0 => OutOfFuel
  | S f =>
      match at_ i with
      | Some t =>
          if TokenType_eqb (type t) IDENTIFIER then
            match formatElement f i st with
            | Returned (i', st') => nestedElements f i' st'
            | TypeError => TypeError
            | OutOfFuel => OutOfFuel
            end
          else Returned (i, st)
      | None => Returned (i, st)
      end
  end.

(** The statement loop of [formatComponent]. *)
Fixpoint componentBody (fuel : nat) (i : nat) (st : State)
    : Result (nat * State) :=
  match fuel with
  | 0 => OutOfFuel
  | S f =>
      match at_ i with
      | None => Returned (i, st)
      | Some token =>
          let continue_ (r : Result (nat * State)) :=
            match r with
            | Returned (i', st') => componentBody f i' st'
            | TypeError => TypeError
            | OutOfFuel => OutOfFuel
            end in
          match type token with
          | COMPONENT | EOF => Returned (i, st)
          | STATE => continue_ (formatState i st)
          | COMPUTED => continue_ (formatComputed i st)
          | EFFECT => continue_ (formatEffect i st)
          | ON => continue_ (formatEventHandler i st)
          | ANIMATE => continue_ (formatAnimation i st)
          | ROLE => continue_ (formatRole i st)
          | LABEL => continue_ (formatLabel i st)
          | IDENTIFIER => continue_ (formatElement f i st)
          | _ => componentBody f (i + 1) st
          end
      end
  end.

Definition formatComponent (fuel : nat) (start : nat) (st : State)
    : Result (nat * State) :=
  let i := start in
  let i := i + 1 in
  let nameToken := at_ i in
  let i := i + 1 in
  match nameToken with
  | None => TypeError
  | Some n =>
      let st1 := emit ("component " ++ value n ++ ":")%string st in
      let st2 := set_indent (indent st1 + 1) st1 in
      match componentBody fuel i st2 with
      | Returned (i, st3) =>
          let st4 := set_indent (indent st3 - 1) st3 in
          Returned (i, emit EmptyString st4)
      | TypeError => TypeError
      | OutOfFuel => OutOfFuel
      end
  end.

(** The [while (i < tokens.length)] loop of [format]. *)
Fixpoint format_loop (fuel : nat) (i : nat) (st : State) : Result State :=
  match fuel with
  | 0 => OutOfFuel
  | S f =>
      match at_ i with
      | None => Returned st
      | Some token =>
          match type token with
          | EOF => Returned st
          | COMPONENT =>
              match formatComponent f i st with
              | Returned (i', st') => format_loop f i' st'
              | TypeError => TypeError
              | OutOfFuel => OutOfFuel
              end
          | _ => format_loop f (i + 1) st
          end
      end
  end.

End WithTokens.

Fixpoint endsWith_newline (s : string) : bool :=
  match s with
  | EmptyString => false
  | String c EmptyString => Ascii.eqb c char_newline
  | String _ s' => endsWith_newline s'
  end.

(** [format(source)] with the default options ([indentSize] 2,
    [insertFinalNewline] true).  Every call and every loop iteration
    moves the token index forward, so a budget above the number of
    tokens is never used up. *)
Definition format (source : string) : Result string :=
  match tokenize source with
  | None => OutOfFuel
  | Some (tokens, errors) =>
      match errors with
      | _ :: _ => Returned source
      | [] =>
          match format_loop tokens (2 * List.length tokens + 2) 0
                  (mkState 0 []) with
          | Returned st =>
              let result := join (String char_newline EmptyString) (output st) in
              Returned (if endsWith_newline result then result
                        else (result ++ String char_newline EmptyString)%string)
          | TypeError => TypeError
          | OutOfFuel => OutOfFuel
          end
      end
  end.

End Formatter.

(* ===================================================================== *)
(** ** Reactive runtime (signal.ts) *)
(* ===================================================================== *)

(** A JavaScript [Set], as ECMA-262 describes it: its data is a list of
    entries in insertion order; [delete] and [clear] blank entries out
    without shortening the list, [add] appends when the value is absent.
    [forEach] walks the list by index and reads its length again after
    every callback, so it visits an entry appended during the walk, and a
    value deleted and added again before the walk is over is visited
    again. *)
Module JSSet.

Definition t : Type := list (option nat).

Definition empty : t := [].

Definition is_entry (x : nat) (e : option nat) : bool :=
  match e with
  | Some y => Nat.eqb x y
  | None => false
  end.

Definition has (x : nat) (s : t) : bool := existsb (is_entry x) s.

Definition add (x : nat) (s : t) : t :=
  if has x s then s else s ++ [Some x].

Definition delete (x : nat) (s : t) : t :=
  map (fun e => if is_entry x e then None else e) s.

Definition clear (s : t) : t := map (fun _ => None) s.

(** [Array.from(set)] *)
Fixpoint to_array (s : t) : list nat :=
  match s with
  | [] => []
  | Some x :: s' => x :: to_array s'
  | None :: s' => to_array s'
  end.

End JSSet.

Module Signal.

(** The values held by signals: numbers, and [undefined] (the initial
    value of the signal behind a computed). *)
Inductive Value : Type :=
  | VUndefined
  | VNum (n : Z).

Definition Value_eq_dec (a b : Value) : {a = b} + {a <> b}.
Proof. decide equality. apply Z.eq_dec. Defined.

(** [Object.is(a, b)] on these values. *)
Definition Object_is (a b : Value) : bool :=
  if Value_eq_dec a b then true else false.

Definition SignalId : Type := nat.
Definition EffectId : Type := nat.

(** A closure run by the runtime, as the sequence of runtime operations
    it performs; what it does next may depend on the values it has read.
    [Return] is a closure returning a plain value, [ReturnCleanup] one
    returning a function (which an effect keeps as its cleanup).
    Closures that throw are not represented.  [Mark] performs no runtime
    operation: it records an observation point in the trace. *)
Inductive Prog : Type :=
  | Return (v : Value)
  | ReturnCleanup (c : Prog)
  | Get (s : SignalId) (k : Value -> Prog)
  | Peek (s : SignalId) (k : Value -> Prog)
  | SetSignal (s : SignalId) (v : Value) (k : Prog)
  | Update (s : SignalId) (fn : Value -> Value) (k : Prog)
  | CreateSignal (initialValue : Value) (k : SignalId -> Prog)
  | CreateEffect (fn : Prog) (k : EffectId -> Prog)
  | CreateComputed (fn : Prog) (k : SignalId -> Prog)
  | Dispose (e : EffectId) (k : Prog)
  | Batch (fn : Prog) (k : Prog)
  | Untrack (fn : Prog) (k : Value -> Prog)
  | Call (fn : Prog) (k : Value -> Prog)
  | Mark (n : nat) (k : Prog).

(** [class SignalNode] *)
Record SignalNode : Type := mkSignalNode {
  value : Value;
  subscribers : JSSet.t
}.

(** [class Effect] *)
Record Effect : Type := mkEffect {
  dependencies : JSSet.t;
  fn : Prog;
  cleanup : option Prog;
  isRunning : bool
}.

(** What an observer counting invocations sees. *)
Inductive Event : Type :=
  | EvRun (e : EffectId)
  | EvMark (n : nat).

(** The module-level variables, the objects created so far (a signal or
    an effect is named by its index), and the trace. *)
Record Runtime : Type := mkRuntime {
  signals : list SignalNode;
  effects : list Effect;
  currentEffect : option EffectId;
  effectStack : list EffectId;
  batchDepth : nat;
  pendingEffects : JSSet.t;
  trace : list Event
}.

Definition initial : Runtime := mkRuntime [] [] None [] 0 JSSet.empty [].

Inductive Outcome (A : Type) : Type :=
  | Done (a : A) (rt : Runtime)
  | Timeout (rt : Runtime).
Arguments Done {A} a rt.
Arguments Timeout {A} rt.

(** Handles are only ever obtained from [createSignal], [createComputed]
    and [createEffect], so they are in range; the defaults below are for
    totality. *)
Definition signal_at (s : SignalId) (rt : Runtime) : SignalNode :=
  nth s (signals rt) (mkSignalNode VUndefined JSSet.empty).

Definition effect_at (e : EffectId) (rt : Runtime) : Effect :=
  nth e (effects rt) (mkEffect JSSet.empty (Return VUndefined) None false).

Fixpoint update_nth {A : Type} (n : nat) (f : A -> A) (l : list A) : list A :=
  match l, n with
  | [], _ => []
  | x :: l', 0 => f x :: l'
  | x :: l', S n' => x :: update_nth n' f l'
  end.

Definition with_signals (f : list SignalNode -> list SignalNode)
    (rt : Runtime) : Runtime :=
  mkRuntime (f (signals rt)) (effects rt) (currentEffect rt)
    (effectStack rt) (batchDepth rt) (pendingEffects rt) (trace rt).

Definition with_effects (f : list Effect -> list Effect)
    (rt : Runtime) : Runtime :=
  mkRuntime (signals rt) (f (effects rt)) (currentEffect rt)
    (effectStack rt) (batchDepth rt) (pendingEffects rt) (trace rt).

Definition update_signal (s : SignalId) (f : SignalNode -> SignalNode)
    : Runtime -> Runtime :=
  with_signals (update_nth s f).

Definition update_effect (e : EffectId) (f : Effect -> Effect)
    : Runtime -> Runtime :=
  with_effects (update_nth e f).

Definition set_currentEffect (c : option EffectId) (rt : Runtime) : Runtime :=
  mkRuntime (signals rt) (effects rt) c
    (effectStack rt) (batchDepth rt) (pendingEffects rt) (trace rt).

Definition set_effectStack (st : list EffectId) (rt : Runtime) : Runtime :=
  mkRuntime (signals rt) (effects rt) (currentEffect rt)
    st (batchDepth rt) (pendingEffects rt) (trace rt).

Definition set_batchDepth (d : nat) (rt : Runtime) : Runtime :=
  mkRuntime (signals rt) (effects rt) (currentEffect rt)
    (effectStack rt) d (pendingEffects rt) (trace rt).

Definition set_pendingEffects (p : JSSet.t) (rt : Runtime) : Runtime :=
  mkRuntime (signals rt) (effects rt) (currentEffect rt)
    (effectStack rt) (batchDepth rt) p (trace rt).

Definition log (ev : Event) (rt : Runtime) : Runtime :=
  mkRuntime (signals rt) (effects rt) (currentEffect rt)
    (effectStack rt) (batchDepth rt) (pendingEffects rt) (trace rt ++ [ev]).

(** [SignalNode.get] *)
Definition get (s : SignalId) (rt : Runtime) : Value * Runtime :=
  let rt' :=
    match currentEffect rt with
    | Some e =>
        update_effect e
          (fun ef => mkEffect (JSSet.add s (dependencies ef)) (fn ef)
                       (cleanup ef) (isRunning ef))
          (update_signal s
             (fun n => mkSignalNode (value n) (JSSet.add e (subscribers n)))
             rt)
    | None => rt
    end in
  (value (signal_at s rt), rt').

(** [SignalNode.peek] *)
Definition peek (s : SignalId) (rt : Runtime) : Value :=
  value (signal_at s rt).

(** [SignalNode.unsubscribe] *)
Definition unsubscribe (s : SignalId) (e : EffectId) : Runtime -> Runtime :=
  update_signal s
    (fun n => mkSignalNode (value n) (JSSet.delete e (subscribers n))).

(** [this.dependencies.forEach(dep => dep.unsubscribe(this));
     this.dependencies.clear()] *)
Definition teardown (e : EffectId) (rt : Runtime) : Runtime :=
  let rt1 :=
    fold_left (fun rt dep => unsubscribe dep e rt)
      (JSSet.to_array (dependencies (effect_at e rt))) rt in
  update_effect e
    (fun ef => mkEffect (JSSet.clear (dependencies ef)) (fn ef)
                 (cleanup ef) (isRunning ef)) rt1.

(** [this.subscribers.forEach(effect => pendingEffects.add(effect))] *)
Definition defer (s : SignalId) (rt : Runtime) : Runtime :=
  set_pendingEffects
    (fold_left (fun p e => JSSet.add e p)
       (JSSet.to_array (subscribers (signal_at s rt))) (pendingEffects rt))
    rt.

Definition new_signal (v : Value) (rt : Runtime) : SignalId * Runtime :=
  (List.length (signals rt),
   with_signals (fun l => l ++ [mkSignalNode v JSSet.empty]) rt).

Definition new_effect (body : Prog) (rt : Runtime) : EffectId * Runtime :=
  (List.length (effects rt),
   with_effects (fun l => l ++ [mkEffect JSSet.empty body None false]) rt).

Definition then_ {A B : Type} (o : Outcome A) (k : A -> Runtime -> Outcome B)
    : Outcome B :=
  match o with
  | Done a rt => k a rt
  | Timeout rt => Timeout rt
  end.

(** The runtime, with [fuel] bounding the number of nested and
    successive steps: [Timeout] when it is used up.

    - [run]       a closure body
    - [set]       [SignalNode.set] (with [notify])
    - [notifyAll] [this.subscribers.forEach(effect => effect.execute())],
                  from entry [index] on, reading the live set each time
    - [execute]   [Effect.execute]
    - [flush]     [effects.forEach(effect => effect.execute())] over the
                  array copied from [pendingEffects]
    - [callCleanup] [this.cleanup?.()] *)
Fixpoint run (fuel : nat) (p : Prog) (rt : Runtime)
    : Outcome (Value * option Prog) :=
  match fuel with
  | 0 => Timeout rt
  | S f =>
      match p with
      | Return v => Done (v, None) rt
      | ReturnCleanup c => Done (VUndefined, Some c) rt
      | Get s k => let '(v, rt') := get s rt in run f (k v) rt'
      | Peek s k => run f (k (peek s rt)) rt
      | SetSignal s v k =>
          then_ (set f s v rt) (fun _ rt' => run f k rt')
      | Update s g k =>
          then_ (set f s (g (value (signal_at s rt))) rt)
            (fun _ rt' => run f k rt')
      | CreateSignal v k =>
          let '(s, rt') := new_signal v rt in run f (k s) rt'
      | CreateEffect body k =>
          let '(e, rt') := new_effect body rt in
          then_ (execute f e rt') (fun _ rt'' => run f (k e) rt'')
      | CreateComputed body k =>
          then_ (createComputed f body rt) (fun s rt' => run f (k s) rt')
      | Dispose e k =>
          then_ (callCleanup f e rt)
            (fun _ rt' => run f k (teardown e rt'))
      | Batch body k =>
          then_ (batch f body rt) (fun _ rt' => run f k rt')
      | Untrack body k =>
          let prevEffect := currentEffect rt in
          then_ (run f body (set_currentEffect None rt))
            (fun r rt' => run f (k (fst r)) (set_currentEffect prevEffect rt'))
      | Call body k =>
          then_ (run f body rt) (fun r rt' => run f (k (fst r)) rt')
      | Mark n k => run f k (log (EvMark n) rt)
      end
  end

with set (fuel : nat) (s : SignalId) (newValue : Value) (rt : Runtime)
    : Outcome unit :=
  match fuel with
  | 0 => Timeout rt
  | S f =>
      if Object_is (value (signal_at s rt)) newValue then Done tt rt
      else
        let rt1 :=
          update_signal s
            (fun n => mkSignalNode newValue (subscribers n)) rt in
        (* notify *)
        if Nat.ltb 0 (batchDepth rt1) then Done tt (defer s rt1)
        else notifyAll f s 0 rt1
  end

with notifyAll (fuel : nat) (s : SignalId) (index : nat) (rt : Runtime)
    : Outcome unit :=
  match fuel with
  | 0 => Timeout rt
  | S f =>
      match nth_error (subscribers (signal_at s rt)) index with
      | None => Done tt rt
      | Some None => notifyAll f s (S index) rt
      | Some (Some e) =>
          then_ (execute f e rt) (fun _ rt' => notifyAll f s (S index) rt')
      end
  end

with execute (fuel : nat) (e : EffectId) (rt : Runtime) : Outcome unit :=
  match fuel with
  | 0 => Timeout rt
  | S f =>
      if isRunning (effect_at e rt) then Done tt rt
      else
        then_ (callCleanup f e rt) (fun _ rt1 =>
          let rt2 :=
            update_effect e
              (fun ef => mkEffect (dependencies ef) (fn ef) None
                           (isRunning ef)) rt1 in
          let rt3 := teardown e rt2 in
          let prevEffect := currentEffect rt3 in
          let rt4 :=
            set_effectStack (effectStack rt3 ++ [e])
              (set_currentEffect (Some e) rt3) in
          let rt5 :=
            update_effect e
              (fun ef => mkEffect (dependencies ef) (fn ef) (cleanup ef) true)
              rt4 in
          then_ (run f (fn (effect_at e rt5)) (log (EvRun e) rt5))
            (fun r rt6 =>
               let rt7 :=
                 match snd r with
                 | Some c =>
                     update_effect e
                       (fun ef => mkEffect (dependencies ef) (fn ef) (Some c)
                                    (isRunning ef)) rt6
                 | None => rt6
                 end in
               let rt8 :=
                 update_effect e
                   (fun ef => mkEffect (dependencies ef) (fn ef) (cleanup ef)
                                false) rt7 in
               Done tt
                 (set_currentEffect prevEffect
                    (set_effectStack (removelast (effectStack rt8)) rt8))))
  end

with callCleanup (fuel : nat) (e : EffectId) (rt : Runtime) : Outcome unit :=
  match fuel with
  | 0 => Timeout rt
  | S f =>
      match cleanup (effect_at e rt) with
      | Some c => then_ (run f c rt) (fun _ rt' => Done tt rt')
      | None => Done tt rt
      end
  end

with flush (fuel : nat) (pending : list EffectId) (rt : Runtime)
    : Outcome unit :=
  match fuel with
  | 0 => Timeout rt
  | S f =>
      match pending with
      | [] => Done tt rt
      | e :: rest => then_ (execute f e rt) (fun _ rt' => flush f rest rt')
      end
  end

with batch (fuel : nat) (body : Prog) (rt : Runtime) : Outcome unit :=
  match fuel with
  | 0 => Timeout rt
  | S f =>
      then_ (run f body (set_batchDepth (batchDepth rt + 1) rt))
        (fun _ rt1 =>
           let rt2 := set_batchDepth (batchDepth rt1 - 1) rt1 in
           if Nat.eqb (batchDepth rt2) 0 then
             let pending := JSSet.to_array (pendingEffects rt2) in
             flush f pending
               (set_pendingEffects (JSSet.clear (pendingEffects rt2)) rt2)
           else Done tt rt2)
  end

with createComputed (fuel : nat) (body : Prog) (rt : Runtime)
    : Outcome SignalId :=
  match fuel with
  | 0 => Timeout rt
  | S f =>
      let '(s, rt1) := new_signal VUndefined rt in
      let '(e, rt2) :=
        new_effect
          (Call body (fun v => SetSignal s v (Return VUndefined))) rt1 in
      then_ (execute f e rt2) (fun _ rt3 => Done s rt3)
  end.

(** How often the body of effect [e] has been invoked. *)
Definition runs (e : EffectId) (rt : Runtime) : nat :=
  List.length
    (filter (fun ev => match ev with EvRun e' => Nat.eqb e e' | _ => false end)
       (trace rt)).

End Signal.

(* ===================================================================== *)
(** ** Source texts used in the statements *)
(* ===================================================================== *)

Module Src.

Definition nl : string := String Lexer.char_newline EmptyString.
Definition dq : string := String Lexer.char_dquote EmptyString.

(** A source file given by its lines. *)
Definition lines (l : list string) : string := String.concat nl l.

(** A double-quoted string literal. *)
Definition quoted (s : string) : string := (dq ++ s ++ dq)%string.

(** Tokens of a source that lexes without errors, as the parser keeps
    them. *)
Definition parser_tokens (src : string) : option (list Lexer.Token) :=
  match Lexer.tokenize src with
  | Some (ts, []) => Some (Parser.filter_tokens ts)
  | _ => None
  end.

(** [parseExpression] run on the tokens of [src]. *)
Definition parse_expression (fuel : nat) (src : string)
    : option (AST.Expression * Parser.State) :=
  match parser_tokens src with
  | Some ts => Parser.parseExpression ts fuel (Parser.mkState 0 [])
  | None => None
  end.

(** [parse] run on the tokens of [src]. *)
Definition parse_source (fuel : nat) (src : string)
    : option (option AST.Program * list Parser.ParserError) :=
  match Lexer.tokenize src with
  | Some (ts, _) => Parser.parse fuel ts
  | None => None
  end.

Definition img_component : string :=
  lines [ "component C:";
          ("  img src=" ++ quoted "a.png")%string ].

Definition space_only : string :=
  lines [ "space Store:";
          "  state count = 0" ].

Definition style_only : string :=
  lines [ "style:";
          "  .btn:";
          ("    color: " ++ quoted "red")%string ].

Definition component_with_style : string :=
  lines [ "component C:";
          "  style:";
          "    .btn:";
          ("      color: " ++ quoted "red")%string ].

(** A number literal as [parsePrimary] builds it. *)
Definition num (digits : string) (l c : nat) : AST.Expression :=
  AST.Literal (AST.LNumber digits) digits l c.

Definition paragraph_component : string :=
  lines [ "component C:";
          ("  p: " ++ quoted "Hi")%string ].

End Src.

(** Notions used to count declarations. *)
Module Counting.
Import Lexer AST.

(** A [component], [space] or [style] keyword token. *)
Definition declKeyword (t : Token) : bool :=
  match type t with
  | COMPONENT | SPACE | STYLE => true
  | _ => false
  end.

Definition keyword_count (ts : list Token) : nat :=
  List.length (filter declKeyword ts).

(** Components plus spaces plus styles of a program. *)
Definition declaration_count (p : Program) : nat :=
  List.length (components p) + List.length (spaces p)
  + List.length (styles p).

End Counting.

(* ===================================================================== *)
(** * Properties *)
(* ===================================================================== *)

(** ** Lexer *)

Section LexerFacts.
Import Lexer.

(** *** Every iteration consumes input *)

Lemma skipWhitespace_go_length r c :
  List.length (fst (skipWhitespace_go r c)) <= List.length r.
Proof.
  revert c. induction r as [|a r IH]; intros c; simpl; [lia|].
  destruct (_ || _); simpl; [specialize (IH (S c)); lia|lia].
Qed.

Lemma measureIndent_go_length r w c :
  List.length (snd (fst (measureIndent_go r w c))) <= List.length r.
Proof.
  revert w c. induction r as [|a r IH]; intros w c; simpl; [lia|].
  destruct (Ascii.eqb a " ").
  - specialize (IH (w + 1) (S c)). lia.
  - destruct (Ascii.eqb a char_tab); simpl; [|lia].
    specialize (IH (w + 4) (S c)). lia.
Qed.

Lemma skipComment_go_length r c :
  List.length (fst (skipComment_go r c)) <= List.length r.
Proof.
  revert c. induction r as [|a r IH]; intros c; simpl; [lia|].
  destruct (Ascii.eqb a char_newline); simpl; [lia|].
  specialize (IH (S c)). lia.
Qed.

Lemma span_while_length p r :
  List.length (fst (span_while p r)) + List.length (snd (span_while p r))
  = List.length r.
Proof.
  induction r as [|a r IH]; simpl; [reflexivity|].
  destruct (p a); simpl; [|reflexivity].
  destruct (span_while p r) as [x y]. simpl in *. lia.
Qed.

Lemma span_while_head p a r :
  p a = true -> 1 <= List.length (fst (span_while p (a :: r))).
Proof.
  intros H. simpl. rewrite H. destruct (span_while p r). simpl. lia.
Qed.

Lemma readString_go_length q r acc e c :
  List.length (snd (fst (readString_go q r acc e c))) <= List.length r.
Proof.
  revert acc e c. induction r as [|a r IH]; intros acc e c; simpl; [lia|].
  destruct e.
  - match goal with |- context [readString_go q r ?x ?y ?z] =>
      specialize (IH x y z) end. lia.
  - destruct (Ascii.eqb a "\").
    + specialize (IH acc true (S c)). lia.
    + destruct (Ascii.eqb a q); simpl; [lia|].
      specialize (IH (a :: acc) false (S c)). lia.
Qed.

Lemma popIndents_rest w stack lx :
  rest (snd (popIndents w stack lx)) = rest lx.
Proof.
  revert lx. induction stack as [|top below IH]; intros lx; [reflexivity|].
  simpl. destruct below as [|b below']; [reflexivity|].
  destruct (Nat.ltb w top); [|reflexivity].
  rewrite IH. reflexivity.
Qed.

Lemma handleNewline_length lx a r :
  rest lx = a :: r -> List.length (rest (handleNewline lx)) <= List.length r.
Proof.
  intros H. unfold handleNewline, measureIndent. simpl. rewrite H. simpl.
  pose proof (measureIndent_go_length r 0 1) as Hm.
  destruct (measureIndent_go r 0 1) as [[w r'] c']. simpl in *.
  destruct (Nat.ltb _ w); [simpl; lia|].
  destruct (Nat.ltb w _); [|simpl; lia].
  match goal with |- context [popIndents ?w ?s ?l] =>
    pose proof (popIndents_rest w s l) as Hp;
    destruct (popIndents w s l) as [st' lx5] end.
  simpl in Hp.
  destruct (Nat.eqb _ w); simpl; rewrite Hp; lia.
Qed.

Lemma readOperator_length lx lx' :
  readOperator lx = Some lx' ->
  List.length (rest lx') < List.length (rest lx).
Proof.
  unfold readOperator. destruct (rest lx) as [|a r] eqn:E; [discriminate|].
  destruct (assoc _ twoCharOps).
  - intros H. inversion H. simpl. rewrite E. simpl.
    destruct r; simpl; lia.
  - destruct (assoc _ singleCharOps); [|discriminate].
    intros H. inversion H. simpl. rewrite E. simpl. lia.
Qed.

Lemma tokenize_step_length lx lx' :
  tokenize_step lx = Some lx' ->
  List.length (rest lx') < List.length (rest lx).
Proof.
  unfold tokenize_step. destruct (rest lx) as [|a0 r0] eqn:E0; [discriminate|].
  assert (Hs : List.length (rest (skipWhitespaceExceptNewline lx))
               <= List.length (rest lx)).
  { unfold skipWhitespaceExceptNewline.
    pose proof (skipWhitespace_go_length (rest lx) (cur_column lx)).
    destruct (skipWhitespace_go _ _). simpl in *. lia. }
  rewrite E0 in Hs.
  set (lx1 := skipWhitespaceExceptNewline lx) in *.
  destruct (rest lx1) as [|a r] eqn:E1; [discriminate|].
  simpl in Hs.
  destruct (Ascii.eqb a char_newline).
  { intros H. inversion H. pose proof (handleNewline_length lx1 a r E1).
    simpl. lia. }
  destruct (Ascii.eqb a "#") eqn:Eh.
  { intros H. inversion H. unfold skipComment. rewrite E1.
    apply Ascii.eqb_eq in Eh. subst a. simpl.
    pose proof (skipComment_go_length r (S (cur_column lx1))).
    destruct (skipComment_go _ _). simpl in *. lia. }
  destruct (isLetter a || Ascii.eqb a "_") eqn:El.
  { intros H. inversion H. unfold readIdentifierOrKeyword. rewrite E1.
    match goal with |- context [span_while ?p (a :: r)] =>
      pose proof (span_while_length p (a :: r)) as Hl;
      pose proof (span_while_head p a r) as Hh;
      destruct (span_while p (a :: r)) as [w r'] end.
    simpl in *.
    assert (1 <= List.length w).
    { apply Hh. unfold isAlphanumeric.
      destruct (isLetter a); [reflexivity|].
      simpl in El. rewrite El. apply orb_true_r. }
    lia. }
  destruct (isDigit a) eqn:Ed.
  { intros H. inversion H. unfold readNumber. rewrite E1.
    pose proof (span_while_length isDigit (a :: r)) as Hl.
    pose proof (span_while_head isDigit a r Ed) as Hh.
    destruct (span_while isDigit (a :: r)) as [w r1]. simpl in Hl, Hh.
    destruct r1 as [|b r1]; simpl; [simpl in Hl; lia|].
    destruct (Ascii.eqb b ".").
    - pose proof (span_while_length isDigit r1) as Hl2.
      destruct (span_while isDigit r1) as [w2 r2]. simpl in *. lia.
    - simpl in *. lia. }
  destruct (Ascii.eqb a char_dquote || Ascii.eqb a "'").
  { intros H. inversion H. unfold readString. simpl. rewrite E1. simpl.
    match goal with |- context [readString_go ?q ?x ?y ?z ?c] =>
      pose proof (readString_go_length q x y z c) as Hl;
      destruct (readString_go q x y z c) as [[res r'] c'] end.
    simpl in Hl. destruct res; unfold push_token, push_error; simpl; lia. }
  destruct (readOperator lx1) as [lx2|] eqn:Eo.
  { intros H. inversion H. subst lx2. apply readOperator_length in Eo.
    rewrite E1 in Eo. simpl in *. lia. }
  intros H. inversion H. simpl. rewrite E1. simpl. lia.
Qed.

(** *** The main loop runs to the end of the input *)

Lemma after_loop_rest lx :
  tokenize_step lx = None -> rest (after_loop lx) = [].
Proof.
  unfold tokenize_step, after_loop.
  destruct (rest lx) as [|a r] eqn:E; [intros _; exact E|].
  destruct (rest (skipWhitespaceExceptNewline lx)) as [|b r'] eqn:E1;
    [intros _; reflexivity|].
  destruct (Ascii.eqb b char_newline); [discriminate|].
  destruct (Ascii.eqb b "#"); [discriminate|].
  destruct (isLetter b || Ascii.eqb b "_"); [discriminate|].
  destruct (isDigit b); [discriminate|].
  destruct (_ || _); [discriminate|].
  destruct (readOperator _); discriminate.
Qed.

Lemma tokenize_loop_total fuel lx :
  List.length (rest lx) <= fuel ->
  exists lxf, tokenize_loop fuel lx = Some lxf /\ rest lxf = [].
Proof.
  revert lx. induction fuel as [|f IH]; intros lx Hle.
  - simpl. destruct (tokenize_step lx) as [lx'|] eqn:E.
    + apply tokenize_step_length in E. lia.
    + eexists. split; [reflexivity|]. apply after_loop_rest. exact E.
  - simpl. destruct (tokenize_step lx) as [lx'|] eqn:E.
    + apply IH. apply tokenize_step_length in E. lia.
    + eexists. split; [reflexivity|]. apply after_loop_rest. exact E.
Qed.

End LexerFacts.
Section LexerErrors.
Import Lexer.

(** *** Errors are only ever added *)

Lemma popIndents_spec w stack lx :
  (forall x, In x (fst (popIndents w stack lx)) -> In x stack)
  /\ (stack <> [] -> fst (popIndents w stack lx) <> [])
  /\ errors (snd (popIndents w stack lx)) = errors lx
  /\ cur_line (snd (popIndents w stack lx)) = cur_line lx
  /\ cur_column (snd (popIndents w stack lx)) = cur_column lx.
Proof.
  revert lx. induction stack as [|top below IH]; intros lx.
  - simpl. repeat split; auto.
  - simpl. destruct below as [|b below'].
    + repeat split; auto; discriminate.
    + destruct (Nat.ltb w top).
      * destruct (IH (addToken DEDENT EmptyString None lx))
          as (H1 & H2 & H3 & H4 & H5).
        repeat split; auto;
          try (intros x Hx; right; apply H1; exact Hx);
          try (intros _; apply H2; discriminate).
      * repeat split; auto; discriminate.
Qed.

Lemma handleNewline_errors lx :
  incl (errors lx) (errors (handleNewline lx)).
Proof.
  unfold handleNewline, measureIndent. simpl.
  destruct (measureIndent_go _ _ _) as [[w r'] c']. simpl.
  destruct (Nat.ltb _ w); [simpl; apply incl_refl|].
  destruct (Nat.ltb w _); [|simpl; apply incl_refl].
  match goal with |- context [popIndents ?w ?s ?l] =>
    destruct (popIndents_spec w s l) as (_ & _ & He & _);
    destruct (popIndents w s l) as [st' lx5] end.
  simpl in He.
  destruct (Nat.eqb _ w); simpl; rewrite He; simpl;
    [apply incl_refl | apply incl_appl, incl_refl].
Qed.

Lemma readOperator_errors lx lx' :
  readOperator lx = Some lx' -> errors lx' = errors lx.
Proof.
  unfold readOperator. destruct (rest lx) as [|a r]; [discriminate|].
  destruct (assoc _ twoCharOps).
  - intros H. inversion H. reflexivity.
  - destruct (assoc _ singleCharOps); [|discriminate].
    intros H. inversion H. reflexivity.
Qed.

Lemma skipWhitespace_errors lx :
  errors (skipWhitespaceExceptNewline lx) = errors lx.
Proof.
  unfold skipWhitespaceExceptNewline.
  destruct (skipWhitespace_go _ _). reflexivity.
Qed.

Lemma skipWhitespace_indentStack lx :
  indentStack (skipWhitespaceExceptNewline lx) = indentStack lx.
Proof.
  unfold skipWhitespaceExceptNewline.
  destruct (skipWhitespace_go _ _). reflexivity.
Qed.

Lemma tokenize_step_errors lx lx' :
  tokenize_step lx = Some lx' -> incl (errors lx) (errors lx').
Proof.
  unfold tokenize_step. destruct (rest lx) as [|a0 r0]; [discriminate|].
  rewrite <- (skipWhitespace_errors lx).
  set (lx1 := skipWhitespaceExceptNewline lx).
  destruct (rest lx1) as [|a r] eqn:E1; [discriminate|].
  destruct (Ascii.eqb a char_newline).
  { intros H. inversion H. apply handleNewline_errors. }
  destruct (Ascii.eqb a "#").
  { intros H. inversion H. unfold skipComment.
    destruct (skipComment_go _ _). apply incl_refl. }
  destruct (isLetter a || Ascii.eqb a "_").
  { intros H. inversion H. unfold readIdentifierOrKeyword.
    destruct (span_while _ _). apply incl_refl. }
  destruct (isDigit a).
  { intros H. inversion H. unfold readNumber.
    destruct (span_while _ _) as [w r1].
    destruct r1 as [|b r1]; [apply incl_refl|].
    destruct (Ascii.eqb b "."); [|apply incl_refl].
    destruct (span_while _ _). apply incl_refl. }
  destruct (Ascii.eqb a char_dquote || Ascii.eqb a "'").
  { intros H. inversion H. unfold readString.
    destruct (readString_go _ _ _ _ _) as [[res r'] c'].
    destruct res; simpl; [apply incl_refl | apply incl_appl, incl_refl]. }
  destruct (readOperator lx1) as [lx2|] eqn:Eo.
  { intros H. inversion H. subst lx2. rewrite (readOperator_errors _ _ Eo).
    apply incl_refl. }
  intros H. inversion H. simpl. apply incl_appl, incl_refl.
Qed.

Lemma after_loop_errors lx : errors (after_loop lx) = errors lx.
Proof.
  unfold after_loop. destruct (rest lx); [reflexivity|].
  apply skipWhitespace_errors.
Qed.

Lemma tokenize_loop_errors fuel lx lxf :
  tokenize_loop fuel lx = Some lxf -> incl (errors lx) (errors lxf).
Proof.
  revert lx. induction fuel as [|f IH]; intros lx; simpl;
    destruct (tokenize_step lx) as [lx'|] eqn:E; intros H.
  - discriminate.
  - inversion H. rewrite after_loop_errors. apply incl_refl.
  - apply tokenize_step_errors in E. apply IH in H.
    eapply incl_tran; eassumption.
  - inversion H. rewrite after_loop_errors. apply incl_refl.
Qed.

(** *** States the scan goes through *)

Inductive reaches (start : Lexer) : Lexer -> Prop :=
  | reaches_start : reaches start start
  | reaches_step lx lx' :
      reaches start lx -> tokenize_step lx = Some lx' -> reaches start lx'.

Lemma tokenize_loop_through start lx fuel lxf :
  reaches start lx -> tokenize_loop fuel start = Some lxf ->
  exists fuel', tokenize_loop fuel' lx = Some lxf.
Proof.
  intros Hr. revert fuel. induction Hr as [|lx lx' Hr IH Hs]; intros fuel H.
  - exists fuel. exact H.
  - destruct (IH fuel H) as [fuel' H'].
    destruct fuel' as [|f]; simpl in H'; rewrite Hs in H'; [discriminate|].
    exists f. exact H'.
Qed.

(** The scan is about to read a newline that is followed by a line whose
    indent width is below the top of the indentation stack and equal to
    no entry of the stack. *)
Definition dedent_mismatch (lx : Lexer) : Prop :=
  exists after,
    rest (skipWhitespaceExceptNewline lx) = char_newline :: after
    /\ fst (fst (measureIndent_go after 0 1)) < hd 0 (indentStack lx)
    /\ ~ In (fst (fst (measureIndent_go after 0 1))) (indentStack lx).

Definition is_inconsistent (e : LexerError) : Prop :=
  message e = inconsistent_message.

Lemma handleNewline_mismatch lx after :
  rest lx = char_newline :: after ->
  fst (fst (measureIndent_go after 0 1)) < hd 0 (indentStack lx) ->
  ~ In (fst (fst (measureIndent_go after 0 1))) (indentStack lx) ->
  exists e, In e (errors (handleNewline lx)) /\ is_inconsistent e.
Proof.
  intros Hr Hlt Hnin. unfold handleNewline, measureIndent. simpl.
  rewrite Hr. simpl.
  destruct (measureIndent_go after 0 1) as [[w r'] c']. simpl in *.
  destruct (Nat.ltb (hd 0 (indentStack lx)) w) eqn:E1.
  { apply Nat.ltb_lt in E1. lia. }
  destruct (Nat.ltb w (hd 0 (indentStack lx))) eqn:E2.
  2:{ apply Nat.ltb_ge in E2. lia. }
  match goal with |- context [popIndents ?w ?s ?l] =>
    destruct (popIndents_spec w s l) as (Hin & Hne & He & _);
    destruct (popIndents w s l) as [st' lx5] end.
  simpl in *.
  assert (Hs : indentStack lx <> []).
  { intros Hnil. rewrite Hnil in Hlt. simpl in Hlt. lia. }
  specialize (Hne Hs).
  destruct st' as [|t st']; [congruence|]. simpl.
  destruct (Nat.eqb t w) eqn:E3.
  { apply Nat.eqb_eq in E3. subst t. exfalso. apply Hnin, Hin. left.
    reflexivity. }
  eexists. split.
  - simpl. apply in_or_app. right. left. reflexivity.
  - reflexivity.
Qed.

Lemma tokenize_step_mismatch lx :
  dedent_mismatch lx ->
  exists lx' e,
    tokenize_step lx = Some lx' /\ In e (errors lx') /\ is_inconsistent e.
Proof.
  intros (after & Hr & Hlt & Hnin).
  unfold tokenize_step.
  destruct (rest lx) as [|a0 r0] eqn:E0.
  { unfold skipWhitespaceExceptNewline in Hr. rewrite E0 in Hr.
    simpl in Hr. discriminate. }
  rewrite Hr. rewrite Ascii.eqb_refl.
  rewrite <- skipWhitespace_indentStack in Hlt, Hnin.
  destruct (handleNewline_mismatch _ _ Hr Hlt Hnin) as (e & Hin & He).
  eexists. exists e. split; [reflexivity|]. split; assumption.
Qed.

(** *** The end of [tokenize] *)

Lemma closeIndents_spec stack lx :
  tokens (closeIndents stack lx)
  = tokens lx ++ repeat (mkToken DEDENT EmptyString (cur_line lx)
                           (cur_column lx)) (List.length stack - 1)
  /\ errors (closeIndents stack lx) = errors lx
  /\ cur_line (closeIndents stack lx) = cur_line lx
  /\ cur_column (closeIndents stack lx) = cur_column lx.
Proof.
  revert lx. induction stack as [|top below IH]; intros lx.
  - simpl. rewrite app_nil_r. auto.
  - simpl. destruct below as [|b below'].
    + simpl. rewrite app_nil_r. auto.
    + destruct (IH (addToken DEDENT EmptyString None lx)) as (H1 & H2 & H3 & H4).
      rewrite H1, H2, H3, H4. simpl. rewrite <- app_assoc. simpl.
      rewrite Nat.sub_0_r. auto.
Qed.

End LexerErrors.
Section LexerClaims.
Import Lexer.

Lemma length_list_ascii_of_string s :
  List.length (list_ascii_of_string s) = String.length s.
Proof. induction s as [|a s IH]; simpl; [reflexivity|]. rewrite IH. reflexivity. Qed.

(** [n] iterations of the main loop. *)
Fixpoint steps (n : nat) (lx : Lexer) : option Lexer :=
  match n with
  | 0 => Some lx
  | S n' =>
      match tokenize_step lx with
      | Some lx' => steps n' lx'
      | None => None
      end
  end.

Lemma steps_reaches n : forall start lx,
  steps n start = Some lx -> reaches start lx.
Proof.
  induction n as [|n IH]; intros start lx H; simpl in H.
  - inversion H. constructor.
  - destruct (tokenize_step start) as [lx1|] eqn:E; [|discriminate].
    specialize (IH _ _ H).
    clear H. induction IH as [|a b Hr IHr Hs].
    + eapply reaches_step; [constructor|exact E].
    + eapply reaches_step; [exact IHr|exact Hs].
Qed.

(** C6.  [tokenize] returns on every input: its main loop ends within
    as many iterations as the input has characters, with the whole input
    consumed.  The token list it returns is the tokens of the loop, one
    DEDENT for every indentation level still open, and EOF as the final
    token.  If the scan reaches a newline followed by a line whose indent
    width is below the top of the indentation stack and equal to no
    entry of the stack, the returned errors include an
    "inconsistent indentation" error. *)
Theorem C6_tokenize_completes (input : string) :
  exists lxf,
    tokenize_loop (String.length input) (new_Lexer input) = Some lxf
    /\ rest lxf = []
    /\ tokenize input
       = Some (tokens lxf
               ++ repeat (mkToken DEDENT EmptyString (cur_line lxf)
                            (cur_column lxf))
                    (List.length (indentStack lxf) - 1)
               ++ [mkToken EOF EmptyString (cur_line lxf) (cur_column lxf)],
               errors lxf)
    /\ (forall lx,
          reaches (new_Lexer input) lx -> dedent_mismatch lx ->
          exists e, In e (errors lxf) /\ is_inconsistent e).
Proof.
  destruct (tokenize_loop_total (String.length input) (new_Lexer input))
    as (lxf & Hloop & Hrest).
  { simpl. rewrite length_list_ascii_of_string. lia. }
  exists lxf. split; [exact Hloop|]. split; [exact Hrest|]. split.
  - unfold tokenize. rewrite Hloop. unfold finish.
    destruct (closeIndents_spec (indentStack lxf) lxf) as (H1 & H2 & H3 & H4).
    unfold addToken, push_token. simpl.
    rewrite H1, H2, H3, H4. rewrite <- app_assoc. reflexivity.
  - intros lx Hr Hm.
    destruct (tokenize_loop_through _ _ _ _ Hr Hloop) as [fuel' H'].
    destruct (tokenize_step_mismatch lx Hm) as (lx' & e & Hs & Hin & He).
    exists e. split; [|exact He].
    destruct fuel' as [|f]; simpl in H'; rewrite Hs in H'; [discriminate|].
    apply (tokenize_loop_errors _ _ _ H'). exact Hin.
Qed.

Definition misindented : string :=
  Src.lines [ "a"; "    b"; "  c" ].

Definition before_dedent : Lexer :=
  Eval vm_compute in
    match steps 3 (new_Lexer misindented) with
    | Some lx => lx
    | None => new_Lexer misindented
    end.

Lemma C6_witness :
  reaches (new_Lexer misindented) before_dedent
  /\ dedent_mismatch before_dedent
  /\ exists toks errs,
       tokenize misindented = Some (toks, errs)
       /\ exists e, In e errs /\ is_inconsistent e.
Proof.
  assert (Hr : reaches (new_Lexer misindented) before_dedent).
  { apply (steps_reaches 3). vm_compute. reflexivity. }
  assert (Hm : dedent_mismatch before_dedent).
  { exists (list_ascii_of_string "  c"). split; [vm_compute; reflexivity|].
    split.
    - vm_compute. lia.
    - vm_compute. intros [H|[H|[]]]; discriminate. }
  split; [exact Hr|]. split; [exact Hm|].
  destruct (C6_tokenize_completes misindented) as (lxf & _ & _ & Ht & He).
  eexists. eexists. split; [exact Ht|]. exact (He _ Hr Hm).
Defined.

End LexerClaims.

(** ** Parser: general facts

    Two facts about every parser action, proved once for the primitives
    and carried through the grammar: [current] never moves backwards,
    and a result obtained within some budget is the result for every
    larger budget. *)

Module ParserFacts.
Import Lexer AST Parser.
Local Open Scope parser_scope.

Section Mono.
Variable tokens : list Token.

Definition mono {A : Type} (m : M A) : Prop :=
  forall s a s', m s = Some (a, s') -> current s <= current s'.

Lemma mono_ret {A} (a : A) : mono (ret a).
Proof. intros s a' s' H. inversion H. subst. lia. Qed.

Lemma mono_out_of_fuel {A} : mono (@out_of_fuel A).
Proof. intros s a s' H. discriminate. Qed.

Lemma mono_bind {A B} (m : M A) (k : A -> M B) :
  mono m -> (forall a, mono (k a)) -> mono (bind m k).
Proof.
  intros Hm Hk s b s' H. unfold bind in H.
  destruct (m s) as [[a s1]|] eqn:E; [|discriminate].
  apply Hm in E. apply Hk in H. lia.
Qed.

Lemma mono_peek : mono (peek tokens).
Proof. intros s a s' H. inversion H. subst. lia. Qed.
Lemma mono_previous : mono (previous tokens).
Proof. intros s a s' H. inversion H. subst. lia. Qed.
Lemma mono_isAtEnd : mono (isAtEnd tokens).
Proof. intros s a s' H. inversion H. subst. lia. Qed.
Lemma mono_check t : mono (check tokens t).
Proof. intros s a s' H. inversion H. subst. lia. Qed.
Lemma mono_checkNext t : mono (checkNext tokens t).
Proof. intros s a s' H. inversion H. subst. lia. Qed.
Lemma mono_advance : mono (advance tokens).
Proof.
  intros s a s' H. unfold advance in H. inversion H. subst.
  destruct (isAtEnd_at tokens s); simpl; lia.
Qed.
Lemma mono_error msg : mono (error tokens msg).
Proof. intros s a s' H. inversion H. subst. simpl. lia. Qed.

Create HintDb mono.
#[local] Hint Resolve mono_ret mono_out_of_fuel mono_peek mono_previous
  mono_isAtEnd mono_check mono_checkNext mono_advance mono_error : mono.

Ltac mono_auto :=
  repeat first
    [ assumption
    | solve [auto 1 with mono]
    | apply mono_bind; [| intros ?]
    | match goal with
      | |- mono (if ?b then _ else _) => destruct b
      | |- mono (match ?x with _ => _ end) => destruct x
      end ].

Lemma mono_match_ types : mono (match_ tokens types).
Proof. induction types; simpl; mono_auto. Qed.
#[local] Hint Resolve mono_match_ : mono.

Lemma mono_consume t msg : mono (consume tokens t msg).
Proof. unfold consume. mono_auto. Qed.
#[local] Hint Resolve mono_consume : mono.

Lemma mono_binaryLevel ops operand loop left :
  mono operand -> (forall e, mono (loop e)) ->
  mono (binaryLevel tokens ops operand loop left).
Proof. intros. unfold binaryLevel. mono_auto. Qed.

Lemma mono_expressions (fuel : nat) :
  mono (parseExpression tokens fuel) /\
  mono (parseTernary tokens fuel) /\
  mono (parseLogicalOr tokens fuel) /\
  (forall l, mono (parseLogicalOr_loop tokens fuel l)) /\
  mono (parseLogicalAnd tokens fuel) /\
  (forall l, mono (parseLogicalAnd_loop tokens fuel l)) /\
  mono (parseEquality tokens fuel) /\
  (forall l, mono (parseEquality_loop tokens fuel l)) /\
  mono (parseComparison tokens fuel) /\
  (forall l, mono (parseComparison_loop tokens fuel l)) /\
  mono (parseAdditive tokens fuel) /\
  (forall l, mono (parseAdditive_loop tokens fuel l)) /\
  mono (parseMultiplicative tokens fuel) /\
  (forall l, mono (parseMultiplicative_loop tokens fuel l)) /\
  mono (parseUnary tokens fuel) /\
  mono (parsePostfix tokens fuel) /\
  (forall e, mono (parsePostfix_loop tokens fuel e)) /\
  (forall acc, mono (parseExpressionList tokens fuel acc)) /\
  mono (parsePrimary tokens fuel).
Proof.
  induction fuel as [|f IH].
  - repeat split; intros; apply mono_out_of_fuel.
  - destruct IH as (H1 & H2 & H3 & H4 & H5 & H6 & H7 & H8 & H9 & H10 & H11
                    & H12 & H13 & H14 & H15 & H16 & H17 & H18 & H19).
    repeat split; intros; simpl;
      repeat first [ apply mono_binaryLevel | mono_auto ].
Qed.

Lemma mono_parseExpression fuel : mono (parseExpression tokens fuel).
Proof. apply mono_expressions. Qed.
#[local] Hint Resolve mono_parseExpression : mono.

Lemma mono_parseAttributeNameParts fuel :
  forall n, mono (parseAttributeNameParts tokens fuel n).
Proof. induction fuel; intros; simpl; mono_auto. Qed.
#[local] Hint Resolve mono_parseAttributeNameParts : mono.

Lemma mono_parseAttributes fuel :
  forall a, mono (parseAttributes tokens fuel a).
Proof. induction fuel; intros; simpl; mono_auto. Qed.
#[local] Hint Resolve mono_parseAttributes : mono.

Lemma mono_parseSlot : mono (parseSlot tokens).
Proof. unfold parseSlot. mono_auto. Qed.
#[local] Hint Resolve mono_parseSlot : mono.

Lemma mono_elements (fuel : nat) :
  mono (parseElement tokens fuel) /\
  (forall c, mono (parseChildren tokens fuel c)) /\
  mono (parseConditional tokens fuel) /\
  mono (parseLoop tokens fuel).
Proof.
  induction fuel as [|f IH].
  - repeat split; intros; apply mono_out_of_fuel.
  - destruct IH as (H1 & H2 & H3 & H4).
    repeat split; intros; simpl; mono_auto.
Qed.

Lemma mono_parseElement fuel : mono (parseElement tokens fuel).
Proof. apply mono_elements. Qed.
#[local] Hint Resolve mono_parseElement : mono.

Lemma mono_parseState fuel : mono (parseState tokens fuel).
Proof. unfold parseState. mono_auto. Qed.

Lemma mono_parseComputed fuel : mono (parseComputed tokens fuel).
Proof. unfold parseComputed. mono_auto. Qed.

Lemma mono_parseNameList fuel :
  forall msg acc, mono (parseNameList tokens fuel msg acc).
Proof. induction fuel; intros; simpl; mono_auto. Qed.
#[local] Hint Resolve mono_parseNameList : mono.

Lemma mono_parseEffect fuel : mono (parseEffect tokens fuel).
Proof. unfold parseEffect. mono_auto. Qed.

Lemma mono_parseArrowFunction fuel : mono (parseArrowFunction tokens fuel).
Proof. unfold parseArrowFunction. mono_auto. Qed.
#[local] Hint Resolve mono_parseArrowFunction : mono.

Lemma mono_parseEventHandler fuel : mono (parseEventHandler tokens fuel).
Proof. unfold parseEventHandler. mono_auto. Qed.

Lemma mono_parseAnimationProperties fuel :
  forall p, mono (parseAnimationProperties tokens fuel p).
Proof. induction fuel; intros; simpl; mono_auto. Qed.
#[local] Hint Resolve mono_parseAnimationProperties : mono.

Lemma mono_parseAnimation fuel : mono (parseAnimation tokens fuel).
Proof. unfold parseAnimation. mono_auto. Qed.

Lemma mono_parseStringValue : mono (parseStringValue tokens).
Proof. unfold parseStringValue. mono_auto. Qed.

Lemma mono_parseStyleProperties fuel :
  forall p, mono (parseStyleProperties tokens fuel p).
Proof. induction fuel; intros; simpl; mono_auto. Qed.
#[local] Hint Resolve mono_parseStyleProperties : mono.

Lemma mono_parseStyleRules fuel :
  forall r, mono (parseStyleRules tokens fuel r).
Proof. induction fuel; intros; simpl; mono_auto. Qed.
#[local] Hint Resolve mono_parseStyleRules : mono.

Lemma mono_parseStyle fuel : mono (parseStyle tokens fuel).
Proof. unfold parseStyle. mono_auto. Qed.

#[local] Hint Resolve mono_parseState mono_parseComputed mono_parseEffect
  mono_parseEventHandler mono_parseAnimation mono_parseStringValue
  mono_parseStyle : mono.

Lemma mono_parseComponentBody fuel :
  forall p, mono (parseComponentBody tokens fuel p).
Proof. induction fuel; intros; simpl; mono_auto. Qed.

Lemma mono_parseSpaceBody fuel :
  forall p, mono (parseSpaceBody tokens fuel p).
Proof. induction fuel; intros; simpl; mono_auto. Qed.

Lemma mono_synchronize_loop fuel : mono (synchronize_loop tokens fuel).
Proof. induction fuel; simpl; mono_auto. Qed.
#[local] Hint Resolve mono_synchronize_loop : mono.

Lemma mono_synchronize fuel : mono (synchronize tokens fuel).
Proof. unfold synchronize. mono_auto. Qed.

(** A declaration parser entered on its own keyword consumes it. *)
Lemma TokenType_eqb_eq a b : TokenType_eqb a b = true -> a = b.
Proof. unfold TokenType_eqb. destruct (TokenType_eq_dec a b); congruence. Qed.

Lemma check_at_true t s :
  check_at tokens t s = true ->
  isAtEnd_at tokens s = false /\ type (peek_at tokens s) = t.
Proof.
  unfold check_at. destruct (isAtEnd_at tokens s); [discriminate|].
  intros H. split; [reflexivity|]. apply TokenType_eqb_eq. exact H.
Qed.

Lemma match1_true t s :
  check_at tokens t s = true ->
  match_ tokens [t] s = Some (true, Parser.mkState (S (current s)) (errors s)).
Proof.
  intros H. simpl. unfold bind, check. rewrite H. unfold advance.
  destruct (check_at_true _ _ H) as [E _]. rewrite E. reflexivity.
Qed.

Lemma progress_after_match {A} t (k : bool -> M A) s a s' :
  check_at tokens t s = true -> mono (k true) ->
  bind (match_ tokens [t]) k s = Some (a, s') ->
  S (current s) <= current s'.
Proof.
  intros Hc Hk H. unfold bind in H. rewrite (match1_true _ _ Hc) in H.
  apply Hk in H. simpl in H. exact H.
Qed.

Lemma parseComponent_progress fuel s x s' :
  check_at tokens COMPONENT s = true ->
  parseComponent tokens fuel s = Some (x, s') -> S (current s) <= current s'.
Proof.
  intros Hc H. unfold parseComponent in H.
  eapply progress_after_match; [exact Hc| |exact H].
  pose proof mono_parseComponentBody. mono_auto.
Qed.

Lemma parseSpace_progress fuel s x s' :
  check_at tokens SPACE s = true ->
  parseSpace tokens fuel s = Some (x, s') -> S (current s) <= current s'.
Proof.
  intros Hc H. unfold parseSpace in H.
  eapply progress_after_match; [exact Hc| |exact H].
  pose proof mono_parseSpaceBody. mono_auto.
Qed.

Lemma parseStyle_progress fuel s x s' :
  check_at tokens STYLE s = true ->
  parseStyle tokens fuel s = Some (x, s') -> S (current s) <= current s'.
Proof.
  intros Hc H. unfold parseStyle in H.
  eapply progress_after_match; [exact Hc| |exact H].
  mono_auto.
Qed.

End Mono.

Section Fuel.
Variable tokens : list Token.

Definition refines {A : Type} (m1 m2 : M A) : Prop :=
  forall s r, m1 s = Some r -> m2 s = Some r.

Lemma refines_refl {A} (m : M A) : refines m m.
Proof. intros s r H. exact H. Qed.

Lemma refines_out_of_fuel {A} (m : M A) : refines out_of_fuel m.
Proof. intros s r H. discriminate. Qed.

Lemma refines_bind {A B} (m1 m2 : M A) (k1 k2 : A -> M B) :
  refines m1 m2 -> (forall a, refines (k1 a) (k2 a)) ->
  refines (bind m1 k1) (bind m2 k2).
Proof.
  intros Hm Hk s r H. unfold bind in *.
  destruct (m1 s) as [[a s1]|] eqn:E; [|discriminate].
  rewrite (Hm _ _ E). apply Hk. exact H.
Qed.

Lemma refines_binaryLevel ops o1 o2 l1 l2 left :
  refines o1 o2 -> (forall e, refines (l1 e) (l2 e)) ->
  refines (binaryLevel tokens ops o1 l1 left)
          (binaryLevel tokens ops o2 l2 left).
Proof.
  intros Ho Hl. unfold binaryLevel.
  apply refines_bind; [apply refines_refl|intros b].
  destruct b; [|apply refines_refl].
  apply refines_bind; [apply refines_refl|intros op].
  apply refines_bind; [exact Ho|intros r]. apply Hl.
Qed.

(** A larger budget does not change a result. *)
Definition grows {A : Type} (F : nat -> M A) (f : nat) : Prop :=
  forall f', f <= f' -> refines (F f) (F f').

Create HintDb fuel.

Ltac refines_auto :=
  repeat first
    [ apply refines_refl
    | match goal with
      | H : _ |- refines _ _ => solve [apply H; lia]
      end
    | solve [auto 2 with fuel]
    | match goal with
      | |- refines (if ?b then _ else _) (if ?b then _ else _) => destruct b
      | |- refines (match ?x with _ => _ end) (match ?x with _ => _ end) =>
          destruct x
      end
    | apply refines_binaryLevel; [| intros ?]
    | apply refines_bind; [| intros ?] ].

Definition grows1 {X A : Type} (F : nat -> X -> M A) (f : nat) : Prop :=
  forall f', f <= f' -> forall x, refines (F f x) (F f' x).

Definition grows2 {X Y A : Type} (F : nat -> X -> Y -> M A) (f : nat)
    : Prop :=
  forall f', f <= f' -> forall x y, refines (F f x y) (F f' x y).

Ltac grows_step :=
  let f' := fresh "f'" in
  let Hle := fresh "Hle" in
  intros f' Hle; destruct f' as [|f']; [lia|]; apply le_S_n in Hle;
  intros; simpl; refines_auto.

Ltac grows_base :=
  let f' := fresh "f'" in
  let Hle := fresh "Hle" in
  repeat split; intros f' Hle; intros; apply refines_out_of_fuel.

Lemma grows_expressions (fuel : nat) :
  grows (parseExpression tokens) fuel /\
  grows (parseTernary tokens) fuel /\
  grows (parseLogicalOr tokens) fuel /\
  grows1 (parseLogicalOr_loop tokens) fuel /\
  grows (parseLogicalAnd tokens) fuel /\
  grows1 (parseLogicalAnd_loop tokens) fuel /\
  grows (parseEquality tokens) fuel /\
  grows1 (parseEquality_loop tokens) fuel /\
  grows (parseComparison tokens) fuel /\
  grows1 (parseComparison_loop tokens) fuel /\
  grows (parseAdditive tokens) fuel /\
  grows1 (parseAdditive_loop tokens) fuel /\
  grows (parseMultiplicative tokens) fuel /\
  grows1 (parseMultiplicative_loop tokens) fuel /\
  grows (parseUnary tokens) fuel /\
  grows (parsePostfix tokens) fuel /\
  grows1 (parsePostfix_loop tokens) fuel /\
  grows1 (parseExpressionList tokens) fuel /\
  grows (parsePrimary tokens) fuel.
Proof.
  induction fuel as [|f IH]; [grows_base|].
  destruct IH as (H1 & H2 & H3 & H4 & H5 & H6 & H7 & H8 & H9 & H10 & H11
                  & H12 & H13 & H14 & H15 & H16 & H17 & H18 & H19).
  unfold grows, grows1 in *.
  repeat split; grows_step.
Qed.

Lemma grows_parseExpression f f' :
  f <= f' -> refines (parseExpression tokens f) (parseExpression tokens f').
Proof. intros. apply (grows_expressions f). assumption. Qed.


#[local] Hint Resolve grows_parseExpression : fuel.

Ltac grows_loop :=
  let f := fresh "f" in
  let IH := fresh "IH" in
  intros f; induction f as [|f IH]; [grows_base | grows_step].

Lemma grows_parseAttributeNameParts :
  forall f, grows1 (parseAttributeNameParts tokens) f.
Proof. grows_loop. Qed.

Lemma grows_parseAttributes : forall f, grows1 (parseAttributes tokens) f.
Proof.
  pose proof grows_parseAttributeNameParts as Hn. unfold grows1 in Hn.
  grows_loop.
Qed.

Lemma grows_elements (fuel : nat) :
  grows (parseElement tokens) fuel /\
  grows1 (parseChildren tokens) fuel /\
  grows (parseConditional tokens) fuel /\
  grows (parseLoop tokens) fuel.
Proof.
  pose proof grows_parseAttributes as Ha. unfold grows1 in Ha.
  induction fuel as [|f IH]; [grows_base|].
  destruct IH as (H1 & H2 & H3 & H4).
  unfold grows, grows1 in *.
  repeat split; grows_step.
Qed.

Lemma grows_parseNameList : forall f, grows2 (parseNameList tokens) f.
Proof. grows_loop. Qed.

Lemma grows_parseAnimationProperties :
  forall f, grows1 (parseAnimationProperties tokens) f.
Proof. grows_loop. Qed.

Lemma grows_parseStyleProperties :
  forall f, grows1 (parseStyleProperties tokens) f.
Proof. grows_loop. Qed.

Lemma grows_parseStyleRules : forall f, grows1 (parseStyleRules tokens) f.
Proof.
  pose proof grows_parseStyleProperties as Hp. unfold grows1 in Hp.
  grows_loop.
Qed.

Ltac grows_def :=
  let f := fresh "f" in
  let f' := fresh "f'" in
  let Hle := fresh "Hle" in
  intros f f' Hle; refines_auto.

Lemma grows_parseElement :
  forall f f', f <= f' ->
  refines (parseElement tokens f) (parseElement tokens f').
Proof. intros f f' Hle. apply (grows_elements f). exact Hle. Qed.

Lemma grows_parseState :
  forall f f', f <= f' -> refines (parseState tokens f) (parseState tokens f').
Proof. unfold parseState. grows_def. Qed.

Lemma grows_parseComputed :
  forall f f', f <= f' ->
  refines (parseComputed tokens f) (parseComputed tokens f').
Proof. unfold parseComputed. grows_def. Qed.

Lemma grows_parseEffect :
  forall f f', f <= f' ->
  refines (parseEffect tokens f) (parseEffect tokens f').
Proof.
  pose proof grows_parseNameList as Hn. unfold grows2 in Hn.
  unfold parseEffect. grows_def.
Qed.

Lemma grows_parseArrowFunction :
  forall f f', f <= f' ->
  refines (parseArrowFunction tokens f) (parseArrowFunction tokens f').
Proof.
  pose proof grows_parseNameList as Hn. unfold grows2 in Hn.
  unfold parseArrowFunction. grows_def.
Qed.

Lemma grows_parseEventHandler :
  forall f f', f <= f' ->
  refines (parseEventHandler tokens f) (parseEventHandler tokens f').
Proof.
  pose proof grows_parseArrowFunction as Hn.
  unfold parseEventHandler. grows_def.
Qed.

Lemma grows_parseAnimation :
  forall f f', f <= f' ->
  refines (parseAnimation tokens f) (parseAnimation tokens f').
Proof.
  pose proof grows_parseAnimationProperties as Hn. unfold grows1 in Hn.
  unfold parseAnimation. grows_def.
Qed.

Lemma grows_parseStyle :
  forall f f', f <= f' ->
  refines (parseStyle tokens f) (parseStyle tokens f').
Proof.
  pose proof grows_parseStyleRules as Hn. unfold grows1 in Hn.
  unfold parseStyle. grows_def.
Qed.

#[local] Hint Resolve grows_parseElement grows_parseState grows_parseComputed
  grows_parseEffect grows_parseEventHandler grows_parseAnimation
  grows_parseStyle : fuel.

Lemma grows_parseComponentBody :
  forall f, grows1 (parseComponentBody tokens) f.
Proof. grows_loop. Qed.

Lemma grows_parseSpaceBody : forall f, grows1 (parseSpaceBody tokens) f.
Proof. grows_loop. Qed.

Lemma grows_parseComponent :
  forall f f', f <= f' ->
  refines (parseComponent tokens f) (parseComponent tokens f').
Proof.
  pose proof grows_parseComponentBody as Hn. unfold grows1 in Hn.
  unfold parseComponent. grows_def.
Qed.

Lemma grows_parseSpace :
  forall f f', f <= f' ->
  refines (parseSpace tokens f) (parseSpace tokens f').
Proof.
  pose proof grows_parseSpaceBody as Hn. unfold grows1 in Hn.
  unfold parseSpace. grows_def.
Qed.

Lemma grows_synchronize_loop :
  forall f, grows (synchronize_loop tokens) f.
Proof. grows_loop. Qed.

Lemma grows_synchronize :
  forall f f', f <= f' ->
  refines (synchronize tokens f) (synchronize tokens f').
Proof.
  pose proof grows_synchronize_loop as Hn. unfold grows in Hn.
  unfold synchronize. grows_def.
Qed.

#[local] Hint Resolve grows_parseComponent grows_parseSpace
  grows_synchronize : fuel.

Lemma grows_parse_loop :
  forall f f', f <= f' -> forall c sp st,
  refines (parse_loop tokens f c sp st) (parse_loop tokens f' c sp st).
Proof.
  intros f; induction f as [|f IH]; intros f' Hle c sp st.
  - apply refines_out_of_fuel.
  - destruct f' as [|f']; [lia|]. apply le_S_n in Hle. simpl. refines_auto.
Qed.

Lemma run_parse_more_fuel f f' r :
  f <= f' -> run_parse tokens f = Some r -> run_parse tokens f' = Some r.
Proof.
  intros Hle H. unfold run_parse in *.
  destruct (parse_loop tokens f [] [] [] (Parser.mkState 0 []))
    as [[[[c sp] st] s]|] eqn:E; [|discriminate].
  rewrite (grows_parse_loop f f' Hle _ _ _ _ _ E). exact H.
Qed.

End Fuel.

(** *** Termination *)

Section Termination.

Variable tokens : list Token.

(** Tokens not yet consumed. *)
Definition remaining (s : State) : nat := List.length tokens - current s.

(** [m], started in [s], returns, and has not moved backwards. *)
Definition returns {A : Type} (m : M A) (s : State) : Prop :=
  exists a s1, m s = Some (a, s1) /\ current s <= current s1.

Lemma returns_ret {A} (a : A) s : returns (ret a) s.
Proof. exists a, s. split; [reflexivity|lia]. Qed.

Lemma returns_bind {A B} (m : M A) (k : A -> M B) s :
  returns m s ->
  (forall a s1, m s = Some (a, s1) -> current s <= current s1 ->
     returns (k a) s1) ->
  returns (bind m k) s.
Proof.
  intros (a & s1 & E & Hle) Hk.
  destruct (Hk a s1 E Hle) as (b & s2 & E2 & Hle2).
  exists b, s2. unfold bind. rewrite E. split; [exact E2|lia].
Qed.

Lemma returns_tail {A} (m : M A) s :
  returns (bind m (fun a => ret a)) s -> returns m s.
Proof.
  intros (a & s1 & E & Hle). unfold bind in E.
  destruct (m s) as [[a' s']|] eqn:Em; [|discriminate].
  inversion E; subst. exists a, s1. split; [exact Em|exact Hle].
Qed.

Lemma returns_peek {A} (k : Token -> M A) s :
  returns (k (peek_at tokens s)) s -> returns (bind (peek tokens) k) s.
Proof. intros H. exact H. Qed.

Lemma returns_previous {A} (k : Token -> M A) s :
  returns (k (previous_at tokens s)) s -> returns (bind (previous tokens) k) s.
Proof. intros H. exact H. Qed.

Lemma returns_isAtEnd {A} (k : bool -> M A) s :
  returns (k (isAtEnd_at tokens s)) s -> returns (bind (isAtEnd tokens) k) s.
Proof. intros H. exact H. Qed.

Lemma returns_check {A} t (k : bool -> M A) s :
  returns (k (check_at tokens t s)) s -> returns (bind (check tokens t) k) s.
Proof. intros H. exact H. Qed.

Lemma returns_checkNext {A} t (k : bool -> M A) s :
  (forall b, returns (k b) s) -> returns (bind (checkNext tokens t) k) s.
Proof. intros H. apply H. Qed.

Lemma returns_error {A} msg (k : unit -> M A) s :
  (forall s1, current s1 = current s -> returns (k tt) s1) ->
  returns (bind (error tokens msg) k) s.
Proof.
  intros H. unfold bind, error.
  destruct (H (Parser.mkState (current s)
                 (errors s ++ [mkParserError msg (line (peek_at tokens s))
                                 (column (peek_at tokens s)) SevError]))
              eq_refl) as (b & s2 & E & Hle).
  exists b, s2. split; [exact E|exact Hle].
Qed.

(** Where the parser is not at the end there is a token left. *)
Lemma not_at_end_lt s :
  isAtEnd_at tokens s = false -> current s < List.length tokens.
Proof.
  unfold isAtEnd_at, peek_at, token_at. intros H.
  destruct (Nat.ltb (current s) (List.length tokens)) eqn:E.
  - apply Nat.ltb_lt. exact E.
  - apply Nat.ltb_ge in E. rewrite nth_overflow in H by exact E.
    discriminate.
Qed.

Lemma check_at_lt t s :
  check_at tokens t s = true -> current s < List.length tokens.
Proof.
  intros H. apply not_at_end_lt. apply (check_at_true _ _ _ H).
Qed.

Lemma advance_spec s :
  exists a s1,
    advance tokens s = Some (a, s1)
    /\ current s <= current s1
    /\ (isAtEnd_at tokens s = false -> current s1 = S (current s)).
Proof.
  unfold advance. destruct (isAtEnd_at tokens s).
  - eexists. eexists. split; [reflexivity|]. split; [lia|discriminate].
  - eexists. eexists. split; [reflexivity|]. simpl. split; [lia|reflexivity].
Qed.

Lemma returns_advance {A} (k : Token -> M A) s :
  (forall a s1, current s <= current s1 ->
     (isAtEnd_at tokens s = false -> current s1 = S (current s)) ->
     returns (k a) s1) ->
  returns (bind (advance tokens) k) s.
Proof.
  intros H. destruct (advance_spec s) as (a & s1 & E & Hle & Hp).
  apply returns_bind.
  - exists a, s1. split; [exact E|exact Hle].
  - intros a' s1' E' Hle'. rewrite E in E'. inversion E'; subst.
    apply H; assumption.
Qed.

Lemma match_cons t ops s :
  match_ tokens (t :: ops) s
  = if check_at tokens t s
    then Some (true, Parser.mkState (S (current s)) (errors s))
    else match_ tokens ops s.
Proof.
  simpl. unfold bind at 1. unfold check.
  destruct (check_at tokens t s) eqn:Ec; [|reflexivity].
  destruct (check_at_true _ _ _ Ec) as [Hend _].
  unfold bind, advance. rewrite Hend. reflexivity.
Qed.

Lemma match_spec ops s :
  (exists s1, match_ tokens ops s = Some (true, s1)
              /\ current s1 = S (current s)
              /\ current s < List.length tokens)
  \/ match_ tokens ops s = Some (false, s).
Proof.
  induction ops as [|t ops IH]; [right; reflexivity|].
  rewrite match_cons.
  destruct (check_at tokens t s) eqn:Ec; [|exact IH].
  left. pose proof (check_at_lt _ _ Ec) as Hlt.
  eexists. split; [reflexivity|]. split; [reflexivity|exact Hlt].
Qed.

Lemma returns_match {A} ops (k : bool -> M A) s :
  (forall s1, current s1 = S (current s) ->
     current s < List.length tokens -> returns (k true) s1) ->
  returns (k false) s ->
  returns (bind (match_ tokens ops) k) s.
Proof.
  intros Ht Hf. destruct (match_spec ops s) as [(s1 & E & Hc & Hlt)|E].
  - apply returns_bind.
    + exists true, s1. split; [exact E|lia].
    + intros a s1' E' _. rewrite E in E'. inversion E'; subst.
      apply Ht; assumption.
  - apply returns_bind.
    + exists false, s. split; [exact E|lia].
    + intros a s1' E' _. rewrite E in E'. inversion E'; subst. exact Hf.
Qed.

Lemma consume_spec t msg s :
  exists a s1,
    consume tokens t msg s = Some (a, s1) /\ current s <= current s1.
Proof.
  unfold consume. unfold bind at 1. unfold check.
  destruct (check_at tokens t s).
  - destruct (advance_spec s) as (a & s1 & E & Hle & _).
    exists a, s1. split; [exact E|exact Hle].
  - unfold bind, error, peek. eexists. eexists.
    split; [reflexivity|]. simpl. lia.
Qed.

Lemma returns_consume {A} t msg (k : Token -> M A) s :
  (forall a s1, current s <= current s1 -> returns (k a) s1) ->
  returns (bind (consume tokens t msg) k) s.
Proof.
  intros H. destruct (consume_spec t msg s) as (a & s1 & E & Hle).
  apply returns_bind.
  - exists a, s1. split; [exact E|exact Hle].
  - intros a' s1' E' Hle'. apply H. exact Hle'.
Qed.


(** No [style] keyword among the tokens. *)
Definition style_free : Prop :=
  forall t, In t tokens -> type t <> STYLE.

Lemma check_style_false :
  style_free -> forall s, check_at tokens STYLE s = false.
Proof.
  intros Hsf s. destruct (check_at tokens STYLE s) eqn:E; [|reflexivity].
  destruct (check_at_true _ _ _ E) as [Hend Ht].
  exfalso. unfold peek_at, token_at in Ht.
  destruct (nth_in_or_default (current s) tokens (undefinedToken))
    as [Hin|Hd].
  - exact (Hsf _ Hin Ht).
  - rewrite Hd in Ht. discriminate.
Qed.

Lemma attribute_name_not_end s b :
  isAttributeName (peek_at tokens s) && b = true ->
  isAtEnd_at tokens s = false.
Proof.
  unfold isAtEnd_at, isAttributeName. intros H.
  apply andb_prop in H. destruct H as [H _].
  destruct (type (peek_at tokens s)); try discriminate; reflexivity.
Qed.

Lemma isAtEnd_at_current s s1 :
  current s1 = current s -> isAtEnd_at tokens s1 = isAtEnd_at tokens s.
Proof. unfold isAtEnd_at, peek_at. intros H. rewrite H. reflexivity. Qed.

Create HintDb moves.
#[local] Hint Resolve mono_ret mono_out_of_fuel mono_peek mono_previous
  mono_isAtEnd mono_check mono_checkNext mono_advance mono_error
  mono_match_ mono_consume mono_parseExpression mono_parseAttributeNameParts
  mono_parseAttributes mono_parseSlot mono_parseElement mono_parseNameList
  mono_parseArrowFunction mono_parseAnimationProperties
  mono_parseStyleProperties mono_parseStyleRules mono_parseState
  mono_parseComputed mono_parseEffect mono_parseEventHandler
  mono_parseAnimation mono_parseStringValue mono_parseStyle
  mono_parseComponentBody mono_parseSpaceBody mono_synchronize_loop
  mono_synchronize : moves.

Ltac mono_solve :=
  repeat first
    [ assumption
    | solve [auto 1 with moves]
    | apply mono_bind; [| intros ?]
    | match goal with
      | |- mono (if ?b then _ else _) => destruct b
      | |- mono (match ?x with _ => _ end) => destruct x
      end ].

Lemma consume_progress t msg s a s1 :
  check_at tokens t s = true -> consume tokens t msg s = Some (a, s1) ->
  current s1 = S (current s).
Proof.
  intros Hc H. unfold consume in H. unfold bind at 1 in H. unfold check in H.
  rewrite Hc in H. unfold advance in H.
  rewrite (proj1 (check_at_true _ _ _ Hc)) in H. inversion H. reflexivity.
Qed.

Lemma progress_after_consume {A} t msg (k : Token -> M A) s a s1 :
  check_at tokens t s = true -> (forall x, mono (k x)) ->
  bind (consume tokens t msg) k s = Some (a, s1) ->
  S (current s) <= current s1.
Proof.
  intros Hc Hk H. unfold bind in H.
  destruct (consume tokens t msg s) as [[x s']|] eqn:E; [|discriminate].
  apply (consume_progress _ _ _ _ _ Hc) in E. apply Hk in H. lia.
Qed.

Lemma parseSlot_progress s a s1 :
  check_at tokens IDENTIFIER s = true ->
  parseSlot tokens s = Some (a, s1) -> S (current s) <= current s1.
Proof.
  intros Hc H. unfold parseSlot in H.
  eapply progress_after_consume; [exact Hc| |exact H].
  intros x. mono_solve.
Qed.

Lemma parseElement_progress fuel s a s1 :
  check_at tokens IDENTIFIER s = true ->
  parseElement tokens fuel s = Some (a, s1) -> S (current s) <= current s1.
Proof.
  intros Hc H. destruct fuel as [|f]; [discriminate|].
  simpl in H. unfold bind at 1 in H. unfold peek in H.
  eapply progress_after_consume; [exact Hc| |exact H].
  pose proof (mono_elements tokens f) as (_ & Hch & _ & _).
  intros x. mono_solve.
Qed.

Lemma parseConditional_progress fuel s a s1 :
  check_at tokens IDENTIFIER s = true ->
  parseConditional tokens fuel s = Some (a, s1) -> S (current s) <= current s1.
Proof.
  intros Hc H. destruct fuel as [|f]; [discriminate|].
  simpl in H.
  eapply progress_after_consume; [exact Hc| |exact H].
  intros x. mono_solve.
Qed.

Lemma parseLoop_progress fuel s a s1 :
  check_at tokens IDENTIFIER s = true ->
  parseLoop tokens fuel s = Some (a, s1) -> S (current s) <= current s1.
Proof.
  intros Hc H. destruct fuel as [|f]; [discriminate|].
  simpl in H.
  eapply progress_after_consume; [exact Hc| |exact H].
  intros x. mono_solve.
Qed.

Lemma synchronize_progress fuel s a s1 :
  isAtEnd_at tokens s = false ->
  synchronize tokens fuel s = Some (a, s1) -> S (current s) <= current s1.
Proof.
  intros He H. unfold synchronize in H. unfold bind in H.
  unfold advance in H at 1. rewrite He in H.
  apply mono_synchronize_loop in H. simpl in H. exact H.
Qed.

Local Arguments match_ : simpl never.

(** What is known where the parser is not at the end. *)
Ltac position_facts :=
  repeat match goal with
  | H : isAtEnd_at _ ?s = false, H2 : isAtEnd_at _ ?s = false -> _ |- _ =>
      specialize (H2 H)
  | H : check_at _ ?t ?s = true |- _ =>
      lazymatch goal with
      | _ : isAtEnd_at _ s = false |- _ => fail
      | _ => pose proof (proj1 (check_at_true _ _ _ H))
      end
  | H : isAttributeName (peek_at _ ?s) && _ = true |- _ =>
      lazymatch goal with
      | _ : isAtEnd_at _ s = false |- _ => fail
      | _ => pose proof (attribute_name_not_end _ _ H)
      end
  | H : isAtEnd_at _ ?s = false |- _ =>
      lazymatch goal with
      | _ : current s < List.length _ |- _ => fail
      | _ => pose proof (not_at_end_lt s H)
      end
  | Hc : check_at _ IDENTIFIER ?s = true,
    E : parseElement _ _ ?s = Some (_, ?s1) |- _ =>
      lazymatch goal with
      | _ : S (current s) <= current s1 |- _ => fail
      | _ => pose proof (parseElement_progress _ _ _ _ Hc E)
      end
  | Hc : check_at _ IDENTIFIER ?s = true,
    E : parseConditional _ _ ?s = Some (_, ?s1) |- _ =>
      lazymatch goal with
      | _ : S (current s) <= current s1 |- _ => fail
      | _ => pose proof (parseConditional_progress _ _ _ _ Hc E)
      end
  | Hc : check_at _ IDENTIFIER ?s = true,
    E : parseLoop _ _ ?s = Some (_, ?s1) |- _ =>
      lazymatch goal with
      | _ : S (current s) <= current s1 |- _ => fail
      | _ => pose proof (parseLoop_progress _ _ _ _ Hc E)
      end
  | Hc : check_at _ IDENTIFIER ?s = true,
    E : parseSlot _ ?s = Some (_, ?s1) |- _ =>
      lazymatch goal with
      | _ : S (current s) <= current s1 |- _ => fail
      | _ => pose proof (parseSlot_progress _ _ _ Hc E)
      end
  | Hc : check_at _ COMPONENT ?s = true,
    E : parseComponent _ _ ?s = Some (_, ?s1) |- _ =>
      lazymatch goal with
      | _ : S (current s) <= current s1 |- _ => fail
      | _ => pose proof (parseComponent_progress _ _ _ _ _ Hc E)
      end
  | Hc : check_at _ SPACE ?s = true,
    E : parseSpace _ _ ?s = Some (_, ?s1) |- _ =>
      lazymatch goal with
      | _ : S (current s) <= current s1 |- _ => fail
      | _ => pose proof (parseSpace_progress _ _ _ _ _ Hc E)
      end
  end.

Ltac within_budget :=
  position_facts;
  match goal with
  | H : context [returns] |- returns _ _ =>
      apply H; unfold remaining in *; lia
  end.

Ltac returns_auto :=
  lazymatch goal with
  | |- returns (ret _) _ => apply returns_ret
  | |- returns (bind (peek _) _) _ =>
      apply returns_peek; cbv beta; returns_auto
  | |- returns (bind (previous _) _) _ =>
      apply returns_previous; cbv beta; returns_auto
  | |- returns (bind (isAtEnd _) _) _ =>
      apply returns_isAtEnd; cbv beta; returns_auto
  | |- returns (bind (check _ _) _) _ =>
      apply returns_check; cbv beta; returns_auto
  | |- returns (bind (checkNext _ _) _) _ =>
      apply returns_checkNext; intros ?; returns_auto
  | |- returns (bind (error _ _) _) _ =>
      apply returns_error; intros ? ?; returns_auto
  | |- returns (bind (advance _) _) _ =>
      apply returns_advance; intros ? ? ? ?; returns_auto
  | |- returns (bind (consume _ _ _) _) _ =>
      apply returns_consume; intros ? ? ?; returns_auto
  | |- returns (bind (match_ _ _) _) _ =>
      apply returns_match; [intros ? ? ?|]; returns_auto
  | |- returns (bind _ _) _ =>
      apply returns_bind; [|intros ? ? ? ?]; returns_auto
  | |- returns (if ?b then _ else _) _ =>
      lazymatch b with
      | context [isAtEnd_at ?t ?s] =>
          destruct (isAtEnd_at t s) eqn:?; cbn [negb andb]; returns_auto
      | context [check_at ?t STYLE ?s] =>
          match goal with
          | Hsf : style_free |- _ => rewrite (check_style_false Hsf s)
          end; cbn [negb andb]; returns_auto
      | context [check_at ?t ?ty ?s] =>
          destruct (check_at t ty s) eqn:?; cbn [negb andb]; returns_auto
      | _ => destruct b eqn:?; returns_auto
      end
  | |- returns (binaryLevel _ _ _ _ _) _ => unfold binaryLevel; returns_auto
  | |- returns (parseSlot _) _ => unfold parseSlot; returns_auto
  | |- returns (parseStringValue _) _ => unfold parseStringValue; returns_auto
  | |- returns (match ?p with mkParts _ _ _ _ _ _ _ _ => _ end) _ =>
      destruct p; returns_auto
  | |- returns (match ?p with mkSpaceParts _ _ _ _ => _ end) _ =>
      destruct p; returns_auto
  | |- returns (match type ?t with _ => _ end) _ =>
      destruct (type t); returns_auto
  | |- returns _ _ => within_budget
  end.

Lemma returns_expressions (fuel : nat) :
  (forall s, 20 * remaining s + 11 <= fuel ->
     returns (parseExpression tokens fuel) s) /\
  (forall s, 20 * remaining s + 10 <= fuel ->
     returns (parseTernary tokens fuel) s) /\
  (forall s, 20 * remaining s + 9 <= fuel ->
     returns (parseLogicalOr tokens fuel) s) /\
  (forall l s, 20 * remaining s + 1 <= fuel ->
     returns (parseLogicalOr_loop tokens fuel l) s) /\
  (forall s, 20 * remaining s + 8 <= fuel ->
     returns (parseLogicalAnd tokens fuel) s) /\
  (forall l s, 20 * remaining s + 1 <= fuel ->
     returns (parseLogicalAnd_loop tokens fuel l) s) /\
  (forall s, 20 * remaining s + 7 <= fuel ->
     returns (parseEquality tokens fuel) s) /\
  (forall l s, 20 * remaining s + 1 <= fuel ->
     returns (parseEquality_loop tokens fuel l) s) /\
  (forall s, 20 * remaining s + 6 <= fuel ->
     returns (parseComparison tokens fuel) s) /\
  (forall l s, 20 * remaining s + 1 <= fuel ->
     returns (parseComparison_loop tokens fuel l) s) /\
  (forall s, 20 * remaining s + 5 <= fuel ->
     returns (parseAdditive tokens fuel) s) /\
  (forall l s, 20 * remaining s + 1 <= fuel ->
     returns (parseAdditive_loop tokens fuel l) s) /\
  (forall s, 20 * remaining s + 4 <= fuel ->
     returns (parseMultiplicative tokens fuel) s) /\
  (forall l s, 20 * remaining s + 1 <= fuel ->
     returns (parseMultiplicative_loop tokens fuel l) s) /\
  (forall s, 20 * remaining s + 3 <= fuel ->
     returns (parseUnary tokens fuel) s) /\
  (forall s, 20 * remaining s + 2 <= fuel ->
     returns (parsePostfix tokens fuel) s) /\
  (forall e s, 20 * remaining s + 1 <= fuel ->
     returns (parsePostfix_loop tokens fuel e) s) /\
  (forall acc s, 20 * remaining s + 12 <= fuel ->
     returns (parseExpressionList tokens fuel acc) s) /\
  (forall s, 20 * remaining s + 1 <= fuel ->
     returns (parsePrimary tokens fuel) s).
Proof.
  induction fuel as [|f IH].
  - repeat match goal with |- _ /\ _ => split end; intros; lia.
  - destruct IH as (H1 & H2 & H3 & H4 & H5 & H6 & H7 & H8 & H9 & H10 & H11
                    & H12 & H13 & H14 & H15 & H16 & H17 & H18 & H19).
    repeat match goal with |- _ /\ _ => split end; intros; simpl;
      returns_auto.
Qed.


Lemma returns_parseExpression fuel s :
  20 * remaining s + 11 <= fuel -> returns (parseExpression tokens fuel) s.
Proof. apply returns_expressions. Qed.

Lemma returns_parseAttributeNameParts fuel : forall name s,
  20 * remaining s + 1 <= fuel ->
  returns (parseAttributeNameParts tokens fuel name) s.
Proof.
  induction fuel as [|f IH]; intros name s H; [lia|]. simpl. returns_auto.
Qed.

Lemma returns_parseAttributes fuel : forall attrs s,
  20 * remaining s + 1 <= fuel ->
  returns (parseAttributes tokens fuel attrs) s.
Proof.
  pose proof returns_parseExpression as He.
  pose proof returns_parseAttributeNameParts as Hn.
  induction fuel as [|f IH]; intros attrs s H; [lia|]. simpl. returns_auto.
Qed.

Lemma returns_elements (fuel : nat) :
  (forall s, 20 * remaining s + 2 <= fuel ->
     returns (parseElement tokens fuel) s) /\
  (forall c s, 20 * remaining s + 14 <= fuel ->
     returns (parseChildren tokens fuel c) s) /\
  (forall s, 20 * remaining s + 13 <= fuel ->
     returns (parseConditional tokens fuel) s) /\
  (forall s, 20 * remaining s + 13 <= fuel ->
     returns (parseLoop tokens fuel) s).
Proof.
  pose proof returns_parseExpression as He.
  pose proof returns_parseAttributes as Ha.
  induction fuel as [|f IH].
  - repeat match goal with |- _ /\ _ => split end; intros; lia.
  - destruct IH as (H1 & H2 & H3 & H4).
    repeat match goal with |- _ /\ _ => split end; intros; simpl;
      returns_auto.
Qed.


Lemma returns_parseElement fuel s :
  20 * remaining s + 2 <= fuel -> returns (parseElement tokens fuel) s.
Proof. apply returns_elements. Qed.

Lemma returns_parseNameList fuel : forall msg acc s,
  20 * remaining s + 1 <= fuel ->
  returns (parseNameList tokens fuel msg acc) s.
Proof.
  induction fuel as [|f IH]; intros msg acc s H; [lia|]. simpl. returns_auto.
Qed.

Lemma returns_parseState fuel s :
  20 * remaining s + 11 <= fuel -> returns (parseState tokens fuel) s.
Proof.
  pose proof returns_parseExpression as He.
  intros H. unfold parseState. returns_auto.
Qed.

Lemma returns_parseComputed fuel s :
  20 * remaining s + 11 <= fuel -> returns (parseComputed tokens fuel) s.
Proof.
  pose proof returns_parseExpression as He.
  intros H. unfold parseComputed. returns_auto.
Qed.

Lemma returns_parseEffect fuel s :
  20 * remaining s + 1 <= fuel -> returns (parseEffect tokens fuel) s.
Proof.
  pose proof returns_parseNameList as Hn.
  intros H. unfold parseEffect. returns_auto.
Qed.

Lemma returns_parseArrowFunction fuel s :
  20 * remaining s + 11 <= fuel -> returns (parseArrowFunction tokens fuel) s.
Proof.
  pose proof returns_parseExpression as He.
  pose proof returns_parseNameList as Hn.
  intros H. unfold parseArrowFunction. returns_auto.
Qed.

Lemma returns_parseEventHandler fuel s :
  20 * remaining s + 11 <= fuel -> returns (parseEventHandler tokens fuel) s.
Proof.
  pose proof returns_parseArrowFunction as Ha.
  intros H. unfold parseEventHandler. returns_auto.
Qed.

Lemma returns_parseAnimationProperties fuel : forall props s,
  20 * remaining s + 1 <= fuel ->
  returns (parseAnimationProperties tokens fuel props) s.
Proof.
  pose proof returns_parseExpression as He.
  induction fuel as [|f IH]; intros props s H; [lia|]. simpl. returns_auto.
Qed.

Lemma returns_parseAnimation fuel s :
  20 * remaining s + 1 <= fuel -> returns (parseAnimation tokens fuel) s.
Proof.
  pose proof returns_parseAnimationProperties as Ha.
  intros H. unfold parseAnimation. returns_auto.
Qed.

Lemma returns_parseComponentBody fuel :
  style_free -> forall p s,
  20 * remaining s + 3 <= fuel ->
  returns (parseComponentBody tokens fuel p) s.
Proof.
  intros Hsf.
  pose proof returns_parseState as H1.
  pose proof returns_parseComputed as H2.
  pose proof returns_parseEffect as H3.
  pose proof returns_parseEventHandler as H4.
  pose proof returns_parseAnimation as H5.
  pose proof returns_parseElement as H6.
  induction fuel as [|f IH]; intros p s H; [lia|]. simpl. returns_auto.
Qed.

Lemma returns_parseComponent fuel s :
  style_free -> 20 * remaining s + 3 <= fuel ->
  returns (parseComponent tokens fuel) s.
Proof.
  intros Hsf H. pose proof (returns_parseComponentBody fuel Hsf) as Hb.
  unfold parseComponent. returns_auto.
Qed.

Lemma returns_parseSpaceBody fuel : forall p s,
  20 * remaining s + 1 <= fuel -> returns (parseSpaceBody tokens fuel p) s.
Proof.
  pose proof returns_parseState as H1.
  pose proof returns_parseComputed as H2.
  pose proof returns_parseEffect as H3.
  pose proof returns_parseEventHandler as H4.
  induction fuel as [|f IH]; intros p s H; [lia|]. simpl. returns_auto.
Qed.

Lemma returns_parseSpace fuel s :
  20 * remaining s + 1 <= fuel -> returns (parseSpace tokens fuel) s.
Proof.
  intros H. pose proof (returns_parseSpaceBody fuel) as Hb.
  unfold parseSpace. returns_auto.
Qed.

Lemma returns_synchronize_loop fuel : forall s,
  20 * remaining s + 1 <= fuel -> returns (synchronize_loop tokens fuel) s.
Proof.
  induction fuel as [|f IH]; intros s H; [lia|]. simpl. returns_auto.
Qed.

Lemma returns_synchronize fuel s :
  20 * remaining s + 1 <= fuel -> returns (synchronize tokens fuel) s.
Proof.
  intros H. pose proof (returns_synchronize_loop fuel) as Hb.
  unfold synchronize. returns_auto.
Qed.


Lemma returns_parse_loop fuel :
  style_free -> forall c sp st s,
  20 * remaining s + 4 <= fuel ->
  returns (parse_loop tokens fuel c sp st) s.
Proof.
  intros Hsf.
  pose proof (fun f s => returns_parseComponent f s Hsf) as H1.
  pose proof returns_parseSpace as H2.
  pose proof returns_synchronize as H3.
  induction fuel as [|f IH]; intros c sp st s H; [lia|]. simpl.
  apply returns_isAtEnd. cbv beta.
  destruct (isAtEnd_at tokens s) eqn:He; [apply returns_ret|].
  apply returns_check. cbv beta.
  destruct (check_at tokens COMPONENT s) eqn:Ec; [returns_auto|].
  apply returns_check. cbv beta.
  destruct (check_at tokens SPACE s) eqn:Es; [returns_auto|].
  apply returns_check. cbv beta. rewrite (check_style_false Hsf s).
  apply returns_error. intros s1 Hs1.
  pose proof (isAtEnd_at_current _ _ Hs1) as He1. rewrite He in He1.
  apply returns_bind; [within_budget|].
  intros a s2 E Hle. apply synchronize_progress in E; [|exact He1].
  within_budget.
Qed.

(** On a token list without a [style] keyword the parser returns, within
    a budget linear in the number of tokens. *)
Lemma run_parse_returns fuel :
  style_free -> 20 * List.length tokens + 4 <= fuel ->
  exists ast errs, run_parse tokens fuel = Some (ast, errs).
Proof.
  intros Hsf H. unfold run_parse.
  destruct (returns_parse_loop fuel Hsf [] [] [] (Parser.mkState 0 []))
    as ([[c sp] st] & s1 & E & _).
  { unfold remaining. simpl. lia. }
  rewrite E. eexists. eexists. reflexivity.
Qed.

End Termination.

End ParserFacts.

(** ** The parser returns *)

Section ParseReturns.
Import Lexer.

Definition no_style (toks : list Token) : Prop :=
  forall t, In t toks -> type t <> STYLE.

(** On tokens without a [style] keyword [parse] returns, within a budget
    linear in their number. *)
Lemma parse_returns toks fuel :
  no_style toks -> 20 * List.length toks + 4 <= fuel ->
  exists ast errs, Parser.parse fuel toks = Some (ast, errs).
Proof.
  intros Hn Hf. unfold Parser.parse. apply ParserFacts.run_parse_returns.
  - intros t Ht. apply Hn. unfold Parser.filter_tokens in Ht.
    apply filter_In in Ht. tauto.
  - pose proof (filter_length_le (fun t => negb (Parser.structural t)) toks).
    unfold Parser.filter_tokens. lia.
Qed.

End ParseReturns.



(** ** Declarations and keywords *)

(** The claim as the specification words it: a source that lexes and
    parses without a diagnostic yields a program with as many top-level
    declarations as it has [component], [space] and [style] keywords. *)
Definition C7_as_stated : Prop :=
  forall (src : string) (toks : list Lexer.Token),
    Lexer.tokenize src = Some (toks, []) ->
    forall fuel ast, Parser.parse fuel toks = Some (ast, []) ->
    exists p, ast = Some p /\
      Counting.declaration_count p = Counting.keyword_count toks.

Definition tokens_component_with_style : list Lexer.Token :=
  Eval vm_compute in
    match Lexer.tokenize Src.component_with_style with
    | Some (ts, _) => ts
    | None => []
    end.

Definition program_component_with_style : AST.Program :=
  Eval vm_compute in
    match Parser.parse 40 tokens_component_with_style with
    | Some (Some p, _) => p
    | _ => AST.mkProgram [] [] []
    end.


(** ** The compiler driver *)

Section Driver.
Import Lexer AST Compiler.

Definition no_component (toks : list Token) : Prop :=
  forall t, In t toks -> type t <> COMPONENT.

Lemma no_component_filter toks :
  no_component toks -> no_component (Parser.filter_tokens toks).
Proof.
  intros H t Ht. apply H. unfold Parser.filter_tokens in Ht.
  apply filter_In in Ht. tauto.
Qed.

Lemma check_component_false toks s :
  no_component toks -> Parser.check_at toks COMPONENT s = false.
Proof.
  intros H. destruct (Parser.check_at toks COMPONENT s) eqn:E; [|reflexivity].
  destruct (ParserFacts.check_at_true _ _ _ E) as [Hend Ht].
  exfalso. unfold Parser.peek_at, Parser.token_at in *.
  destruct (nth_in_or_default (Parser.current s) toks Parser.undefinedToken)
    as [Hin|Hd].
  - exact (H _ Hin Ht).
  - rewrite Hd in Ht. discriminate.
Qed.

(** Without a [component] token the top-level loop never adds a
    component. *)
Lemma parse_loop_no_component toks fuel :
  no_component toks ->
  forall c sp st s c' sp' st' s',
  Parser.parse_loop toks fuel c sp st s = Some ((c', sp', st'), s') ->
  c' = c.
Proof.
  intros Hn. induction fuel as [|f IH]; intros c sp st s c' sp' st' s' H;
    [discriminate|].
  simpl in H. unfold Parser.bind at 1, Parser.isAtEnd in H.
  destruct (Parser.isAtEnd_at toks s).
  { inversion H; subst. reflexivity. }
  unfold Parser.bind at 1, Parser.check at 1 in H.
  rewrite (check_component_false _ _ Hn) in H.
  unfold Parser.bind at 1, Parser.check at 1 in H.
  destruct (Parser.check_at toks SPACE s).
  { unfold Parser.bind at 1 in H.
    destruct (Parser.parseSpace toks f s) as [[x s1]|]; [|discriminate].
    apply IH in H. exact H. }
  unfold Parser.bind at 1, Parser.check at 1 in H.
  destruct (Parser.check_at toks STYLE s).
  { unfold Parser.bind at 1 in H.
    destruct (Parser.parseStyle toks f s) as [[x s1]|]; [|discriminate].
    apply IH in H. exact H. }
  unfold Parser.bind at 1 in H.
  destruct (Parser.error toks _ s) as [[u s1]|]; [|discriminate].
  unfold Parser.bind at 1 in H.
  destruct (Parser.synchronize toks f s1) as [[u2 s2]|]; [|discriminate].
  apply IH in H. exact H.
Qed.

Lemma parse_no_component toks fuel ast errs :
  no_component toks ->
  Parser.parse fuel toks = Some (ast, errs) -> ast = None.
Proof.
  intros Hn H. unfold Parser.parse, Parser.run_parse in H.
  destruct (Parser.parse_loop _ _ _ _ _ _) as [[[[c sp] st] s]|] eqn:E;
    [|discriminate].
  apply (parse_loop_no_component _ _ (no_component_filter _ Hn)) in E.
  subst c. inversion H. reflexivity.
Qed.

Variable generate : Program -> CompileOptions -> string.
Variable generateExplanation : Program -> string -> string.

Let compile := Compiler.compile generate generateExplanation.

Lemma compile_returns fuel src options toks lexErrs :
  tokenize src = Some (toks, lexErrs) ->
  no_style toks -> 20 * List.length toks + 4 <= fuel ->
  exists r, compile fuel src options = Some r.
Proof.
  intros Ht Hn Hf. unfold compile, Compiler.compile. rewrite Ht.
  destruct (parse_returns toks fuel Hn Hf) as (ast & pErrs & Hp).
  rewrite Hp. cbv zeta.
  repeat match goal with
  | |- exists r, Some _ = Some r => eexists; reflexivity
  | |- context [if ?b then _ else _] => destruct b
  | |- context [match ?x with _ => _ end] => destruct x
  end.
Qed.

(** What [compile] returns when the lexer reports errors, and when it
    reports none and the parser returns no program. *)
Lemma compile_lexer_errors fuel src options toks lexErrs r :
  tokenize src = Some (toks, lexErrs) -> lexErrs <> [] ->
  compile fuel src options = Some r ->
  r = mkResult EmptyString (map of_lexer_error lexErrs) [] None None.
Proof.
  intros Ht Hne H. unfold compile, Compiler.compile in H. rewrite Ht in H.
  destruct lexErrs as [|e l]; [congruence|]. simpl in H.
  inversion H. reflexivity.
Qed.

Lemma compile_no_program fuel src options toks pErrs r :
  tokenize src = Some (toks, []) ->
  Parser.parse fuel toks = Some (None, pErrs) ->
  compile fuel src options = Some r ->
  r = mkResult EmptyString (map of_parser_error pErrs) [] None None.
Proof.
  intros Ht Hp H. unfold compile, Compiler.compile in H.
  rewrite Ht in H. simpl in H. rewrite Hp in H. simpl in H.
  inversion H. reflexivity.
Qed.

End Driver.

Section StyleRuleLoop.
Import Lexer AST Parser.

Definition style_number : string := Src.lines [ "style:"; "  5" ].

Definition tokens_style_number : list Token :=
  Eval vm_compute in
    match tokenize style_number with
    | Some (ts, _) => ts
    | None => []
    end.

Lemma rules_at_number fuel : forall rules errs,
  parseStyleRules (filter_tokens tokens_style_number) fuel rules
    (Parser.mkState 2 errs) = None.
Proof.
  induction fuel as [|f IH]; intros rules errs; [reflexivity|].
  destruct f as [|f']; [reflexivity|].
  cbn. apply IH.
Qed.

(** The rule loop of [parseStyle] consumes nothing on a token that is
    neither [.], an identifier nor [:]: on the source [style: 5] the parser
    returns within no budget. *)
Lemma parse_style_number_never_returns fuel :
  Parser.parse fuel tokens_style_number = None.
Proof.
  destruct fuel as [|f]; [reflexivity|].
  unfold Parser.parse, run_parse. cbn.
  unfold bind at 1. unfold parseStyle.
  unfold bind, match_, check, advance, previous, consume, error, peek, ret.
  cbn.
  match goal with
  | |- context [parseStyleRules ?t f ?r ?s] =>
      assert (Hn : parseStyleRules t f r s = None)
        by apply rules_at_number;
      rewrite Hn
  end.
  reflexivity.
Qed.

End StyleRuleLoop.

Section DriverClaims.
Import Lexer AST Compiler.

Local Arguments Semantic.analyze : simpl never.
Local Arguments Parser.parse : simpl never.

(** The claim as worded: without a component declaration [parse] returns
    no program, and [compile] returns neither code nor diagnostics. *)
Definition C9_as_stated : Prop :=
  forall (toks : list Token), no_component toks ->
    (forall fuel ast errs,
       Parser.parse fuel toks = Some (ast, errs) -> ast = None) /\
    (forall generate generateExplanation src options fuel r,
       tokenize src = Some (toks, []) ->
       compile generate generateExplanation fuel src options = Some r ->
       code r = EmptyString /\ errors r = []).


(** Some stage before code generation has failed. *)
Definition stage_failure (fuel : nat) (toks : list Token)
    (lexErrs : list LexerError) (options : CompileOptions) : Prop :=
  lexErrs <> []
  \/ (exists ast pErrs,
        Parser.parse fuel toks = Some (ast, pErrs)
        /\ (pErrs <> [] \/ ast = None))
  \/ (strict options = true
      /\ exists p pErrs,
           Parser.parse fuel toks = Some (Some p, pErrs)
           /\ fst (Semantic.analyze p) <> []).

(** The claim as worded: after any failed stage the code is empty and
    the errors list is not. *)
Definition C4_as_stated : Prop :=
  forall generate generateExplanation fuel src options toks lexErrs r,
    tokenize src = Some (toks, lexErrs) ->
    compile generate generateExplanation fuel src options = Some r ->
    stage_failure fuel toks lexErrs options ->
    code r = EmptyString /\ errors r <> [].

(** For the empty source the parser yields no program and reports
    nothing: [compile] returns an empty errors list. *)
Lemma C4_counterexample : ~ C4_as_stated.
Proof.
  intros H.
  destruct (H (fun _ _ => EmptyString) (fun _ _ => EmptyString) 10 EmptyString
              (mkOptions false false true false)
              [mkToken EOF EmptyString 1 1] []
              (mkResult EmptyString [] [] None None)) as [_ He].
  - vm_compute. reflexivity.
  - vm_compute. reflexivity.
  - right. left. exists None, []. split; [vm_compute; reflexivity|].
    right. reflexivity.
  - apply He. reflexivity.
Qed.

End DriverClaims.


(** ** Formatter *)

Section FormatterClaims.
Import Lexer Formatter.

Definition tokens_paragraph : list Token :=
  Eval vm_compute in
    match tokenize Src.paragraph_component with
    | Some (ts, _) => ts
    | None => []
    end.

Definition program_paragraph : AST.Program :=
  Eval vm_compute in
    match Parser.parse 30 tokens_paragraph with
    | Some (Some p, _) => p
    | _ => AST.mkProgram [] [] []
    end.

Definition formatted_once : string :=
  Src.lines [ "component C:"; "  p: Hi"; EmptyString ].

Definition formatted_twice : string :=
  Src.lines [ "component C:"; "  p:"; "    Hi"; EmptyString ].

(** C8 (the code at the failing input).  The source
    [component C: p: "Hi"] lexes without errors and parses without
    diagnostics.  [format] prints the text of the string token without its
    quotes; formatting the result again reads [Hi] as a nested element
    and prints it on a line of its own: [format (format x)] differs from
    [format x]. *)
Theorem C8_format_twice_differs :
  tokenize Src.paragraph_component = Some (tokens_paragraph, [])
  /\ Parser.parse 30 tokens_paragraph = Some (Some program_paragraph, [])
  /\ format Src.paragraph_component = Returned formatted_once
  /\ format formatted_once = Returned formatted_twice
  /\ formatted_twice <> formatted_once.
Proof.
  split; [|split; [|split; [|split]]].
  - vm_compute. reflexivity.
  - vm_compute. reflexivity.
  - vm_compute. reflexivity.
  - vm_compute. reflexivity.
  - vm_compute. discriminate.
Qed.
End FormatterClaims.

(** ** Reactive runtime *)

Section SignalSteps.
Import Signal.

(** *** One step of each operation *)

Lemma run_Return f v rt : run (S f) (Return v) rt = Done (v, None) rt.
Proof. reflexivity. Qed.

Lemma run_ReturnCleanup f c rt :
  run (S f) (ReturnCleanup c) rt = Done (VUndefined, Some c) rt.
Proof. reflexivity. Qed.

Lemma run_Get f s k rt :
  run (S f) (Get s k) rt = run f (k (fst (get s rt))) (snd (get s rt)).
Proof. simpl. destruct (get s rt). reflexivity. Qed.

Lemma run_Peek f s k rt : run (S f) (Peek s k) rt = run f (k (peek s rt)) rt.
Proof. reflexivity. Qed.

Lemma run_SetSignal f s v k rt :
  run (S f) (SetSignal s v k) rt
  = then_ (set f s v rt) (fun _ rt' => run f k rt').
Proof. reflexivity. Qed.

Lemma run_Update f s g k rt :
  run (S f) (Update s g k) rt
  = then_ (set f s (g (value (signal_at s rt))) rt) (fun _ rt' => run f k rt').
Proof. reflexivity. Qed.

Lemma run_CreateSignal f v k rt :
  run (S f) (CreateSignal v k) rt
  = run f (k (fst (new_signal v rt))) (snd (new_signal v rt)).
Proof. reflexivity. Qed.

Lemma run_CreateEffect f body k rt :
  run (S f) (CreateEffect body k) rt
  = then_ (execute f (fst (new_effect body rt)) (snd (new_effect body rt)))
      (fun _ rt' => run f (k (fst (new_effect body rt))) rt').
Proof. reflexivity. Qed.

Lemma run_CreateComputed f body k rt :
  run (S f) (CreateComputed body k) rt
  = then_ (createComputed f body rt) (fun s rt' => run f (k s) rt').
Proof. reflexivity. Qed.

Lemma run_Dispose f e k rt :
  run (S f) (Dispose e k) rt
  = then_ (callCleanup f e rt) (fun _ rt' => run f k (teardown e rt')).
Proof. reflexivity. Qed.

Lemma run_Batch f body k rt :
  run (S f) (Batch body k) rt
  = then_ (batch f body rt) (fun _ rt' => run f k rt').
Proof. reflexivity. Qed.

Lemma run_Untrack f body k rt :
  run (S f) (Untrack body k) rt
  = then_ (run f body (set_currentEffect None rt))
      (fun r rt' =>
         run f (k (fst r)) (set_currentEffect (currentEffect rt) rt')).
Proof. reflexivity. Qed.

Lemma run_Call f body k rt :
  run (S f) (Call body k) rt
  = then_ (run f body rt) (fun r rt' => run f (k (fst r)) rt').
Proof. reflexivity. Qed.

Lemma run_Mark f n k rt :
  run (S f) (Mark n k) rt = run f k (log (EvMark n) rt).
Proof. reflexivity. Qed.

Definition store (s : SignalId) (v : Value) : Runtime -> Runtime :=
  update_signal s (fun n => mkSignalNode v (subscribers n)).

Lemma set_step f s v rt :
  set (S f) s v rt
  = if Object_is (value (signal_at s rt)) v then Done tt rt
    else if Nat.ltb 0 (batchDepth (store s v rt))
         then Done tt (defer s (store s v rt))
         else notifyAll f s 0 (store s v rt).
Proof. reflexivity. Qed.

Lemma notifyAll_step f s index rt :
  notifyAll (S f) s index rt
  = match nth_error (subscribers (signal_at s rt)) index with
    | None => Done tt rt
    | Some None => notifyAll f s (S index) rt
    | Some (Some e) =>
        then_ (execute f e rt) (fun _ rt' => notifyAll f s (S index) rt')
    end.
Proof. reflexivity. Qed.

(** The state in which [execute] calls the body, and the state in which
    it returns. *)
Definition torn (e : EffectId) (rt : Runtime) : Runtime :=
  teardown e
    (update_effect e
       (fun ef => mkEffect (dependencies ef) (fn ef) None (isRunning ef)) rt).

Definition enter (e : EffectId) (rt : Runtime) : Runtime :=
  let rt3 := torn e rt in
  let rt4 :=
    set_effectStack (effectStack rt3 ++ [e])
      (set_currentEffect (Some e) rt3) in
  log (EvRun e)
    (update_effect e
       (fun ef => mkEffect (dependencies ef) (fn ef) (cleanup ef) true) rt4).

Definition leave (e : EffectId) (prevEffect : option EffectId)
    (result : option Prog) (rt : Runtime) : Runtime :=
  let rt7 :=
    match result with
    | Some c =>
        update_effect e
          (fun ef => mkEffect (dependencies ef) (fn ef) (Some c)
                       (isRunning ef)) rt
    | None => rt
    end in
  let rt8 :=
    update_effect e
      (fun ef => mkEffect (dependencies ef) (fn ef) (cleanup ef) false) rt7 in
  set_currentEffect prevEffect
    (set_effectStack (removelast (effectStack rt8)) rt8).

Lemma execute_step f e rt :
  execute (S f) e rt
  = if isRunning (effect_at e rt) then Done tt rt
    else
      then_ (callCleanup f e rt) (fun _ rt1 =>
        then_ (run f (fn (effect_at e (enter e rt1))) (enter e rt1))
          (fun r rt6 =>
             Done tt (leave e (currentEffect (torn e rt1)) (snd r) rt6))).
Proof.
  simpl. destruct (isRunning (effect_at e rt)); [reflexivity|].
  destruct (callCleanup f e rt) as [[] rt1|rt1]; reflexivity.
Qed.

Lemma callCleanup_step f e rt :
  callCleanup (S f) e rt
  = match cleanup (effect_at e rt) with
    | Some c => then_ (run f c rt) (fun _ rt' => Done tt rt')
    | None => Done tt rt
    end.
Proof. reflexivity. Qed.

Lemma flush_nil f rt : flush (S f) [] rt = Done tt rt.
Proof. reflexivity. Qed.

Lemma flush_cons f e rest rt :
  flush (S f) (e :: rest) rt
  = then_ (execute f e rt) (fun _ rt' => flush f rest rt').
Proof. reflexivity. Qed.

Lemma batch_step f body rt :
  batch (S f) body rt
  = then_ (run f body (set_batchDepth (batchDepth rt + 1) rt))
      (fun _ rt1 =>
         if Nat.eqb (batchDepth rt1 - 1) 0 then
           flush f (JSSet.to_array (pendingEffects rt1))
             (set_pendingEffects (JSSet.clear (pendingEffects rt1))
                (set_batchDepth (batchDepth rt1 - 1) rt1))
         else Done tt (set_batchDepth (batchDepth rt1 - 1) rt1)).
Proof. reflexivity. Qed.

Lemma createComputed_step f body rt :
  createComputed (S f) body rt
  = let s := fst (new_signal VUndefined rt) in
    let rt1 := snd (new_signal VUndefined rt) in
    let e := fst (new_effect
                    (Call body (fun v => SetSignal s v (Return VUndefined)))
                    rt1) in
    let rt2 := snd (new_effect
                      (Call body (fun v => SetSignal s v (Return VUndefined)))
                      rt1) in
    then_ (execute f e rt2) (fun _ rt3 => Done s rt3).
Proof. reflexivity. Qed.

Lemma Object_is_false a b : a <> b -> Object_is a b = false.
Proof. intros H. unfold Object_is. destruct (Value_eq_dec a b); congruence. Qed.

Lemma Object_is_refl a : Object_is a a = true.
Proof. unfold Object_is. destruct (Value_eq_dec a a); congruence. Qed.

End SignalSteps.

Ltac runtime_simpl :=
  cbv beta iota zeta delta
    -[Signal.run Signal.set Signal.notifyAll Signal.execute
      Signal.callCleanup Signal.flush Signal.batch Signal.createComputed
      Signal.Object_is].

Ltac runtime_step :=
  first
    [ rewrite run_Return | rewrite run_ReturnCleanup | rewrite run_Get
    | rewrite run_Peek | rewrite run_SetSignal | rewrite run_Update
    | rewrite run_CreateSignal | rewrite run_CreateEffect
    | rewrite run_CreateComputed | rewrite run_Dispose | rewrite run_Batch
    | rewrite run_Untrack | rewrite run_Call | rewrite run_Mark
    | rewrite set_step | rewrite notifyAll_step | rewrite execute_step
    | rewrite callCleanup_step | rewrite flush_nil | rewrite flush_cons
    | rewrite batch_step | rewrite createComputed_step
    | rewrite Object_is_refl
    | match goal with
      | H : _ <> _ |- _ => rewrite (Object_is_false _ _ H)
      | |- context [Signal.Object_is ?a ?b] =>
          let r := eval vm_compute in (Signal.Object_is a b) in
          match r with
          | true => change (Signal.Object_is a b) with true
          | false => change (Signal.Object_is a b) with false
          end
      end ];
  runtime_simpl.

Ltac runtime_exec := runtime_simpl; repeat runtime_step.


Section Spinning.
Import Signal.

Lemma to_array_nones i x : JSSet.to_array (repeat None i ++ [Some x]) = [x].
Proof. induction i; simpl; auto. Qed.

Lemma has_nones i x : JSSet.has x (repeat None i) = false.
Proof. induction i; simpl; auto. Qed.

Lemma repeat_snoc {A} (a : A) i : repeat a i ++ [a] = repeat a (S i).
Proof. induction i; simpl; [reflexivity|]. rewrite IHi. reflexivity. Qed.

Lemma delete_nones i x :
  JSSet.delete x (repeat None i ++ [Some x]) = repeat None (S i).
Proof.
  unfold JSSet.delete. rewrite map_app, map_repeat. simpl.
  rewrite Nat.eqb_refl. apply repeat_snoc.
Qed.

Lemma clear_nones i x :
  JSSet.clear (repeat None i ++ [Some x]) = repeat None (S i).
Proof.
  unfold JSSet.clear. rewrite map_app, map_repeat. simpl. apply repeat_snoc.
Qed.

Lemma add_nones i x : JSSet.add x (repeat None i) = repeat None i ++ [Some x].
Proof. unfold JSSet.add. rewrite has_nones. reflexivity. Qed.

Lemma nth_error_nones i (x : nat) :
  nth_error (repeat None i ++ [Some x]) i = Some (Some x).
Proof.
  rewrite nth_error_app2; rewrite repeat_length; [|lia].
  rewrite Nat.sub_diag. reflexivity.
Qed.

Definition reader_body : Prog := Get 0 (fun _ => Return VUndefined).

(** One signal holding 1 and one effect reading it, subscribed through
    entry [i] of the subscribers. *)
Definition spinning (i j : nat) (tr : list Event) : Runtime :=
  mkRuntime [mkSignalNode (VNum 1) (repeat None i ++ [Some 0])]
            [mkEffect (repeat None j ++ [Some 0]) reader_body None false]
            None [] 0 JSSet.empty tr.

Local Arguments JSSet.add : simpl never.
Local Arguments JSSet.delete : simpl never.
Local Arguments JSSet.clear : simpl never.
Local Arguments JSSet.to_array : simpl never.
Local Arguments repeat : simpl never.

Lemma torn_spinning i j tr :
  torn 0 (spinning i j tr)
  = mkRuntime [mkSignalNode (VNum 1) (repeat None (S i))]
              [mkEffect (repeat None (S j)) reader_body None false]
              None [] 0 JSSet.empty tr.
Proof.
  unfold torn, teardown, spinning. cbn.
  rewrite to_array_nones.
  unfold unsubscribe, update_effect, update_signal, with_effects,
    with_signals. cbn.
  rewrite delete_nones, clear_nones. reflexivity.
Qed.

(** The state in which the body of the effect returns. *)
Definition resubscribed (i j : nat) (tr : list Event) : Runtime :=
  mkRuntime [mkSignalNode (VNum 1) (repeat None (S i) ++ [Some 0])]
            [mkEffect (repeat None (S j) ++ [Some 0]) reader_body None true]
            (Some 0) [0] 0 JSSet.empty (tr ++ [EvRun 0]).

Lemma get_entered i j tr :
  get 0 (enter 0 (spinning i j tr)) = (VNum 1, resubscribed i j tr).
Proof.
  unfold enter. rewrite torn_spinning. unfold get.
  unfold update_effect, update_signal, with_effects, with_signals, log,
    set_effectStack, set_currentEffect. cbn.
  rewrite !add_nones. reflexivity.
Qed.

Lemma body_entered i j tr :
  fn (effect_at 0 (enter 0 (spinning i j tr))) = reader_body.
Proof. unfold enter. rewrite torn_spinning. reflexivity. Qed.

Lemma leave_resubscribed i j tr :
  leave 0 (currentEffect (torn 0 (spinning i j tr))) None
    (resubscribed i j tr)
  = spinning (S i) (S j) (tr ++ [EvRun 0]).
Proof. rewrite torn_spinning. reflexivity. Qed.

Lemma execute_spinning f i j tr :
  (exists rt, execute f 0 (spinning i j tr) = Timeout rt)
  \/ execute f 0 (spinning i j tr)
     = Done tt (spinning (S i) (S j) (tr ++ [EvRun 0])).
Proof.
  destruct f as [|f]; [left; eexists; reflexivity|].
  rewrite execute_step.
  change (isRunning (effect_at 0 (spinning i j tr))) with false. cbv iota.
  destruct f as [|f]; [left; eexists; reflexivity|].
  rewrite callCleanup_step.
  change (cleanup (effect_at 0 (spinning i j tr))) with (@None Prog).
  cbv beta iota delta [then_].
  rewrite body_entered. unfold reader_body.
  rewrite run_Get, get_entered. cbv beta iota delta [fst snd].
  destruct f as [|f]; [left; eexists; reflexivity|].
  right. rewrite run_Return. cbv beta iota delta [snd].
  rewrite leave_resubscribed. reflexivity.
Qed.

(** Walking the subscribers of the signal from entry [i] never ends:
    the effect found there unsubscribes and subscribes again, which
    appends it as entry [i + 1]. *)
Lemma notifyAll_spinning f : forall i j tr,
  exists rt, notifyAll f 0 i (spinning i j tr) = Timeout rt.
Proof.
  induction f as [|f IH]; intros i j tr; [eexists; reflexivity|].
  rewrite notifyAll_step.
  change (subscribers (signal_at 0 (spinning i j tr)))
    with (repeat (@None nat) i ++ [Some 0]).
  rewrite nth_error_nones.
  destruct (execute_spinning f i j tr) as [[rt E]|E]; rewrite E.
  - eexists. reflexivity.
  - cbv beta iota delta [then_]. apply IH.
Qed.

Definition rerun_example : Prog :=
  CreateSignal (VNum 0) (fun s =>
  CreateEffect (Get s (fun _ => Return VUndefined)) (fun _ =>
  SetSignal s (VNum 0) (Mark 1
  (SetSignal s (VNum 1) (Mark 2 (Return VUndefined)))))).

Lemma rerun_example_never_returns fuel :
  exists rt, run fuel rerun_example initial = Timeout rt.
Proof.
  do 6 (destruct fuel as [|fuel]; [eexists; vm_compute; reflexivity|]).
  unfold rerun_example. runtime_exec.
  match goal with |- context [notifyAll ?f 0 0 ?r] =>
    change r with (spinning 0 0 [EvRun 0; EvMark 1]);
    destruct (notifyAll_spinning f 0 0 [EvRun 0; EvMark 1]) as [rt E];
    rewrite E
  end.
  eexists. reflexivity.
Qed.
End Spinning.

Section Reentrancy.
Import Signal.

Variable e : EffectId.

(** Effect [e] is inside its body. *)
Definition running (rt : Runtime) : Prop :=
  isRunning (effect_at e rt) = true.

(** From [rt] to [rt'] effect [e] has stayed inside its body and its
    body has not been invoked. *)
Definition undisturbed (rt rt' : Runtime) : Prop :=
  running rt' /\ runs e rt' = runs e rt.

Definition final {A : Type} (o : Outcome A) : Runtime :=
  match o with
  | Done _ rt => rt
  | Timeout rt => rt
  end.

Lemma undisturbed_refl rt : running rt -> undisturbed rt rt.
Proof. intros H. split; [exact H|reflexivity]. Qed.

Lemma undisturbed_via rt rt1 rt2 :
  undisturbed rt rt1 -> (running rt1 -> undisturbed rt1 rt2) ->
  undisturbed rt rt2.
Proof.
  intros [H1 H2] H. destruct (H H1) as [H3 H4].
  split; [exact H3|congruence].
Qed.

Lemma undisturbed_then {A B} (o : Outcome A) (k : A -> Runtime -> Outcome B)
    rt :
  undisturbed rt (final o) ->
  (forall a rt1, running rt1 -> undisturbed rt1 (final (k a rt1))) ->
  undisturbed rt (final (then_ o k)).
Proof.
  intros H1 H2. destruct o as [a rt1|rt1]; simpl in *; [|exact H1].
  eapply undisturbed_via; [exact H1|]. intros Hr. apply H2. exact Hr.
Qed.

(** **** State changes that leave [e] alone *)

Lemma nth_update_nth {A} (f : A -> A) (d : A) : forall l n m,
  nth n (update_nth m f l) d
  = if Nat.eqb n m then (if Nat.ltb n (List.length l) then f (nth n l d) else d)
    else nth n l d.
Proof.
  induction l as [|x l IH]; intros n m; simpl.
  - destruct n, m; simpl; try reflexivity.
    destruct (Nat.eqb n m); reflexivity.
  - destruct m as [|m], n as [|n]; simpl; try reflexivity.
    rewrite IH. reflexivity.
Qed.

(** [g] changes neither [isRunning]. *)
Definition keeps_flag (g : Effect -> Effect) : Prop :=
  forall ef, isRunning (g ef) = isRunning ef.

Lemma running_update_effect e' g rt :
  keeps_flag g -> running rt -> running (update_effect e' g rt).
Proof.
  unfold running, effect_at, update_effect, with_effects. simpl.
  intros Hg H. rewrite nth_update_nth.
  destruct (Nat.eqb e e'); [|exact H].
  destruct (Nat.ltb e _) eqn:El; [rewrite Hg; exact H|].
  apply Nat.ltb_ge in El. rewrite nth_overflow in H by exact El.
  discriminate.
Qed.

Lemma running_update_other e' g rt :
  e' <> e -> running rt -> running (update_effect e' g rt).
Proof.
  unfold running, effect_at, update_effect, with_effects. simpl.
  intros Hne H. rewrite nth_update_nth.
  destruct (Nat.eqb e e') eqn:E; [|exact H].
  apply Nat.eqb_eq in E. congruence.
Qed.

Lemma undisturbed_update_effect e' g rt :
  keeps_flag g -> running rt -> undisturbed rt (update_effect e' g rt).
Proof.
  intros Hg H. split; [apply running_update_effect; assumption|reflexivity].
Qed.

Lemma undisturbed_update_other e' g rt :
  e' <> e -> running rt -> undisturbed rt (update_effect e' g rt).
Proof.
  intros Hg H. split; [apply running_update_other; assumption|reflexivity].
Qed.

Lemma undisturbed_update_signal s g rt :
  running rt -> undisturbed rt (update_signal s g rt).
Proof. intros H. split; [exact H|reflexivity]. Qed.

Lemma undisturbed_get s rt : running rt -> undisturbed rt (snd (get s rt)).
Proof.
  intros H. unfold get. simpl. destruct (currentEffect rt) as [c|].
  - eapply undisturbed_via; [apply undisturbed_update_signal; exact H|].
    intros H1. apply undisturbed_update_effect; [|exact H1].
    intros ef. reflexivity.
  - apply undisturbed_refl. exact H.
Qed.

Lemma undisturbed_unsubscribes deps e' : forall rt,
  running rt ->
  undisturbed rt (fold_left (fun rt dep => unsubscribe dep e' rt) deps rt).
Proof.
  induction deps as [|d deps IH]; intros rt H; simpl.
  - apply undisturbed_refl. exact H.
  - eapply undisturbed_via; [|apply IH].
    unfold unsubscribe. apply undisturbed_update_signal. exact H.
Qed.

Lemma undisturbed_teardown e' rt : running rt -> undisturbed rt (teardown e' rt).
Proof.
  intros H. unfold teardown.
  eapply undisturbed_via; [apply undisturbed_unsubscribes; exact H|].
  intros H1. apply undisturbed_update_effect; [|exact H1].
  intros ef. reflexivity.
Qed.

Lemma running_in_range rt : running rt -> e < List.length (effects rt).
Proof.
  unfold running, effect_at. intros H.
  destruct (Nat.ltb e (List.length (effects rt))) eqn:E.
  - apply Nat.ltb_lt. exact E.
  - apply Nat.ltb_ge in E. rewrite nth_overflow in H by exact E.
    discriminate.
Qed.

Lemma undisturbed_new_effect body rt :
  running rt -> undisturbed rt (snd (new_effect body rt)).
Proof.
  intros H. split; [|reflexivity].
  unfold running, effect_at, new_effect, with_effects in *. simpl.
  rewrite app_nth1; [exact H|]. apply running_in_range. exact H.
Qed.

Lemma undisturbed_new_signal v rt :
  running rt -> undisturbed rt (snd (new_signal v rt)).
Proof. intros H. split; [exact H|reflexivity]. Qed.

Lemma undisturbed_mark n rt : running rt -> undisturbed rt (log (EvMark n) rt).
Proof.
  intros H. split; [exact H|].
  unfold runs, log. simpl. rewrite filter_app, length_app. simpl. lia.
Qed.

Lemma undisturbed_torn e' rt : running rt -> undisturbed rt (torn e' rt).
Proof.
  intros H. unfold torn.
  eapply undisturbed_via; [|apply undisturbed_teardown].
  apply undisturbed_update_effect; [|exact H]. intros ef. reflexivity.
Qed.

Lemma running_same_effects rt rt' :
  effects rt' = effects rt -> running rt -> running rt'.
Proof. unfold running, effect_at. intros E H. rewrite E. exact H. Qed.

Lemma runs_log_other e' rt : e' <> e -> runs e (log (EvRun e') rt) = runs e rt.
Proof.
  intros Hne. unfold runs, log. simpl. rewrite filter_app, length_app. simpl.
  destruct (Nat.eqb e e') eqn:E; [apply Nat.eqb_eq in E; congruence|].
  simpl. lia.
Qed.

Lemma undisturbed_enter e' rt :
  e' <> e -> running rt -> undisturbed rt (enter e' rt).
Proof.
  intros Hne H. unfold enter. cbv zeta.
  destruct (undisturbed_torn e' rt H) as [H1 H2].
  set (X := torn e' rt) in *.
  set (Y := set_effectStack (effectStack X ++ [e'])
              (set_currentEffect (Some e') X)).
  assert (HY : running Y) by (apply (running_same_effects X); auto).
  split.
  - apply (running_same_effects (update_effect e'
             (fun ef => mkEffect (dependencies ef) (fn ef) (cleanup ef) true)
             Y)); [reflexivity|].
    apply running_update_other; assumption.
  - rewrite runs_log_other by exact Hne. exact H2.
Qed.

Lemma undisturbed_leave e' prev result rt :
  e' <> e -> running rt -> undisturbed rt (leave e' prev result rt).
Proof.
  intros Hne H. unfold leave. cbv zeta.
  split; [|destruct result; reflexivity].
  match goal with |- running (set_currentEffect _ (set_effectStack _ ?Z)) =>
    apply (running_same_effects Z); [reflexivity|] end.
  apply running_update_other; [exact Hne|].
  destruct result; [apply running_update_other; [exact Hne|]|]; exact H.
Qed.

(** **** No computation started while [e] runs invokes the body of [e] *)

Lemma stays_undisturbed (fuel : nat) :
  (forall p rt, running rt -> undisturbed rt (final (run fuel p rt)))
  /\ (forall s v rt, running rt -> undisturbed rt (final (set fuel s v rt)))
  /\ (forall s i rt, running rt ->
        undisturbed rt (final (notifyAll fuel s i rt)))
  /\ (forall e' rt, running rt -> undisturbed rt (final (execute fuel e' rt)))
  /\ (forall e' rt, running rt ->
        undisturbed rt (final (callCleanup fuel e' rt)))
  /\ (forall l rt, running rt -> undisturbed rt (final (flush fuel l rt)))
  /\ (forall b rt, running rt -> undisturbed rt (final (batch fuel b rt)))
  /\ (forall b rt, running rt ->
        undisturbed rt (final (createComputed fuel b rt))).
Proof.
  induction fuel as [|f IH].
  - repeat match goal with |- _ /\ _ => split end;
      intros; simpl; apply undisturbed_refl; assumption.
  - destruct IH as (Hrun & Hset & Hnot & Hexe & Hcln & Hfl & Hbat & Hcc).
    repeat match goal with |- _ /\ _ => split end.
    + (* run *)
      intros q rt H.
      destruct q as [v|c|s k|s k|s v k|s g k|v k|body k|body k|e' k|body k
                    |body k|body k|n k].
      * rewrite run_Return. apply undisturbed_refl, H.
      * rewrite run_ReturnCleanup. apply undisturbed_refl, H.
      * rewrite run_Get.
        eapply undisturbed_via; [apply undisturbed_get, H|]. apply Hrun.
      * rewrite run_Peek. apply Hrun, H.
      * rewrite run_SetSignal.
        apply undisturbed_then; [apply Hset, H|]. intros _ rt1. apply Hrun.
      * rewrite run_Update.
        apply undisturbed_then; [apply Hset, H|]. intros _ rt1. apply Hrun.
      * rewrite run_CreateSignal.
        eapply undisturbed_via; [apply undisturbed_new_signal, H|]. apply Hrun.
      * rewrite run_CreateEffect.
        eapply undisturbed_via; [apply (undisturbed_new_effect body), H|].
        intros H1. apply undisturbed_then; [apply Hexe, H1|].
        intros _ rt1. apply Hrun.
      * rewrite run_CreateComputed.
        apply undisturbed_then; [apply Hcc, H|]. intros s rt1. apply Hrun.
      * rewrite run_Dispose.
        apply undisturbed_then; [apply Hcln, H|]. intros _ rt1 H1.
        eapply undisturbed_via; [apply undisturbed_teardown, H1|]. apply Hrun.
      * rewrite run_Batch.
        apply undisturbed_then; [apply Hbat, H|]. intros _ rt1. apply Hrun.
      * rewrite run_Untrack.
        apply undisturbed_then.
        -- eapply undisturbed_via;
             [apply (undisturbed_refl (set_currentEffect None rt)), H|].
           apply Hrun.
        -- intros r rt1 H1.
           eapply undisturbed_via;
             [apply (undisturbed_refl
                       (set_currentEffect (currentEffect rt) rt1)), H1|].
           apply Hrun.
      * rewrite run_Call.
        apply undisturbed_then; [apply Hrun, H|]. intros r rt1. apply Hrun.
      * rewrite run_Mark.
        eapply undisturbed_via; [apply undisturbed_mark, H|]. apply Hrun.
    + (* set *)
      intros s v rt H. rewrite set_step.
      destruct (Object_is _ _); [apply undisturbed_refl, H|].
      assert (H1 : undisturbed rt (store s v rt))
        by (apply undisturbed_update_signal, H).
      destruct (Nat.ltb 0 _).
      * simpl. eapply undisturbed_via; [exact H1|]. intros H2.
        split; [exact H2|reflexivity].
      * eapply undisturbed_via; [exact H1|]. apply Hnot.
    + (* notifyAll *)
      intros s i rt H. rewrite notifyAll_step.
      destruct (nth_error _ i) as [[e'|]|].
      * apply undisturbed_then; [apply Hexe, H|]. intros _ rt1. apply Hnot.
      * apply Hnot, H.
      * apply undisturbed_refl, H.
    + (* execute *)
      intros e' rt H. rewrite execute_step.
      destruct (isRunning (effect_at e' rt)) eqn:Er;
        [apply undisturbed_refl, H|].
      assert (Hne : e' <> e).
      { intros Heq. subst e'. unfold running in H. congruence. }
      apply undisturbed_then; [apply Hcln, H|]. intros _ rt1 H1.
      apply undisturbed_then.
      * eapply undisturbed_via; [apply (undisturbed_enter e' rt1 Hne H1)|].
        apply Hrun.
      * intros r rt6 H6. simpl. apply undisturbed_leave; assumption.
    + (* callCleanup *)
      intros e' rt H. rewrite callCleanup_step.
      destruct (cleanup (effect_at e' rt)); [|apply undisturbed_refl, H].
      apply undisturbed_then; [apply Hrun, H|].
      intros _ rt1 H1. apply undisturbed_refl, H1.
    + (* flush *)
      intros l rt H. destruct l as [|e' l].
      * rewrite flush_nil. apply undisturbed_refl, H.
      * rewrite flush_cons.
        apply undisturbed_then; [apply Hexe, H|]. intros _ rt1. apply Hfl.
    + (* batch *)
      intros b rt H. rewrite batch_step.
      apply undisturbed_then.
      * eapply undisturbed_via;
          [apply (undisturbed_refl (set_batchDepth (batchDepth rt + 1) rt)),
             H|].
        apply Hrun.
      * intros _ rt1 H1. destruct (Nat.eqb _ 0).
        -- eapply undisturbed_via; [|apply Hfl].
           split; [exact H1|reflexivity].
        -- simpl. split; [exact H1|reflexivity].
    + (* createComputed *)
      intros b rt H. rewrite createComputed_step. cbv zeta.
      apply undisturbed_then.
      * eapply undisturbed_via; [apply undisturbed_new_signal, H|].
        intros H1.
        eapply undisturbed_via; [apply undisturbed_new_effect, H1|].
        apply Hexe.
      * intros _ rt1 H1. apply undisturbed_refl, H1.
Qed.

End Reentrancy.

Section SignalClaims.
Import Signal.

(** *** A write of the same value, and a write of another one *)

Lemma set_same_value f s rt :
  set (S f) s (value (signal_at s rt)) rt = Done tt rt.
Proof. rewrite set_step, Object_is_refl. reflexivity. Qed.

(** C1 (the code at the failing input).  A write of the value a signal
    already holds changes nothing and invokes nothing.  For a signal
    created with 0 and an effect that reads it, the write of 0 leaves the
    trace at the single invocation of the creation; the write of 1, made
    outside a batch, starts a walk over the subscribers that never ends:
    [run] returns within no budget, and within a budget of 30 the effect has
    been invoked 22 times after the write (23 times in all), the
    statement that follows the write (mark 2) not being reached. *)
Theorem C1_write_reinvokes_effect_without_end :
  (forall f s rt, set (S f) s (value (signal_at s rt)) rt = Done tt rt)
  /\ (forall fuel, exists rt, run fuel rerun_example initial = Timeout rt)
  /\ (exists rt,
        run 30 rerun_example initial = Timeout rt
        /\ trace rt = [EvRun 0; EvMark 1] ++ repeat (EvRun 0) 22
        /\ runs 0 rt = 23
        /\ ~ In (EvMark 2) (trace rt)).
Proof.
  split; [exact set_same_value|].
  split; [exact rerun_example_never_returns|].
  eexists. split; [vm_compute; reflexivity|].
  split; [vm_compute; reflexivity|].
  split; [vm_compute; reflexivity|].
  vm_compute. intros H.
  repeat (destruct H as [H|H]; [discriminate|]). exact H.
Qed.

(** *** Batches *)

(** Two signals, one effect reading both, and two writes inside a batch
    nested in another batch.  Mark 1 follows the writes, mark 2 the exit
    of the inner batch, mark 3 the exit of the outer one. *)
Definition batch_example (va vb x y : Value) : Prog :=
  CreateSignal va (fun a =>
  CreateSignal vb (fun b =>
  CreateEffect (Get a (fun _ => Get b (fun _ => Return VUndefined))) (fun _ =>
  Batch
    (Batch (SetSignal a x (SetSignal b y (Mark 1 (Return VUndefined))))
       (Mark 2 (Return VUndefined)))
    (Mark 3 (Return VUndefined))))).

(** The same with one batch: mark 1 follows the writes inside the batch,
    mark 2 follows the batch. *)
Definition single_batch_example (va vb x y : Value) : Prog :=
  CreateSignal va (fun a =>
  CreateSignal vb (fun b =>
  CreateEffect (Get a (fun _ => Get b (fun _ => Return VUndefined))) (fun _ =>
  Batch (SetSignal a x (SetSignal b y (Mark 1 (Return VUndefined))))
    (Mark 2 (Return VUndefined))))).

(** C2.  Two signals are written once each, with values other than the
    ones they hold, inside a batch; one effect reads both.  After its
    invocation at creation the effect is invoked exactly once more, after
    the last statement of the batch (mark 1) and before the statement that
    follows the batch (mark 2).  With the writes inside a batch nested in
    another batch, the effect is invoked exactly once more as well, and
    that after the exit of the inner batch (mark 2) and before the
    statement following the outer batch (mark 3): at the exit of the
    outermost batch, when the depth counter is back to 0. *)
Theorem C2_batched_writes_run_effect_once (va vb x y : Value) :
  va <> x -> vb <> y ->
  (exists rt,
     run 30 (single_batch_example va vb x y) initial
     = Done (VUndefined, None) rt
     /\ trace rt = [EvRun 0; EvMark 1; EvRun 0; EvMark 2]
     /\ peek 0 rt = x /\ peek 1 rt = y
     /\ batchDepth rt = 0
     /\ JSSet.to_array (pendingEffects rt) = [])
  /\ (exists rt,
        run 30 (batch_example va vb x y) initial = Done (VUndefined, None) rt
        /\ trace rt = [EvRun 0; EvMark 1; EvMark 2; EvRun 0; EvMark 3]
        /\ peek 0 rt = x /\ peek 1 rt = y
        /\ batchDepth rt = 0
        /\ JSSet.to_array (pendingEffects rt) = []).
Proof.
  intros Ha Hb. split.
  - eexists. split.
    + unfold single_batch_example. runtime_exec. reflexivity.
    + lazy. repeat split; reflexivity.
  - eexists. split.
    + unfold batch_example. runtime_exec. reflexivity.
    + lazy. repeat split; reflexivity.
Qed.

Lemma C2_witness :
  VNum 0 <> VNum 1 /\ VNum 0 <> VNum 2
  /\ (exists rt,
        run 30 (single_batch_example (VNum 0) (VNum 0) (VNum 1) (VNum 2))
          initial
        = Done (VUndefined, None) rt
        /\ trace rt = [EvRun 0; EvMark 1; EvRun 0; EvMark 2]
        /\ peek 0 rt = VNum 1 /\ peek 1 rt = VNum 2
        /\ batchDepth rt = 0
        /\ JSSet.to_array (pendingEffects rt) = [])
  /\ (exists rt,
        run 30 (batch_example (VNum 0) (VNum 0) (VNum 1) (VNum 2)) initial
        = Done (VUndefined, None) rt
        /\ trace rt = [EvRun 0; EvMark 1; EvMark 2; EvRun 0; EvMark 3]
        /\ peek 0 rt = VNum 1 /\ peek 1 rt = VNum 2
        /\ batchDepth rt = 0
        /\ JSSet.to_array (pendingEffects rt) = []).
Proof.
  split; [discriminate|]. split; [discriminate|].
  apply (C2_batched_writes_run_effect_once (VNum 0) (VNum 0) (VNum 1) (VNum 2));
    discriminate.
Defined.

(** *** Re-entrancy *)

(** An effect that reads a signal and writes another value to it. *)
Definition self_write (v w : Value) : Prog :=
  CreateSignal v (fun s =>
  CreateEffect (Get s (fun _ => SetSignal s w (Return VUndefined))) (fun _ =>
  Return VUndefined)).

Lemma execute_running f e rt :
  running e rt -> execute (S f) e rt = Done tt rt.
Proof. intros H. rewrite execute_step. unfold running in H. rewrite H. reflexivity. Qed.

Lemma effects_unsubscribes deps e : forall rt,
  effects (fold_left (fun rt dep => unsubscribe dep e rt) deps rt)
  = effects rt.
Proof.
  induction deps as [|d deps IH]; intros rt; simpl; [reflexivity|].
  rewrite IH. reflexivity.
Qed.

Lemma update_nth_length {A} (g : A -> A) : forall l n,
  List.length (update_nth n g l) = List.length l.
Proof.
  induction l as [|x l IH]; intros n; destruct n; simpl;
    try reflexivity.
  rewrite IH. reflexivity.
Qed.

Lemma effects_torn_length e rt :
  List.length (effects (torn e rt)) = List.length (effects rt).
Proof.
  unfold torn, teardown, update_effect, with_effects. simpl.
  rewrite update_nth_length, effects_unsubscribes. simpl.
  apply update_nth_length.
Qed.

(** [execute] runs the body of [e] with [e] marked as running. *)
Lemma running_enter e rt :
  e < List.length (effects rt) -> running e (enter e rt).
Proof.
  intros H. unfold running, effect_at.
  change (effects (enter e rt))
    with (update_nth e
            (fun ef => mkEffect (dependencies ef) (fn ef) (cleanup ef) true)
            (effects (torn e rt))).
  rewrite nth_update_nth, Nat.eqb_refl.
  rewrite (proj2 (Nat.ltb_lt _ _)); [reflexivity|].
  rewrite effects_torn_length. exact H.
Qed.

(** C3.  [execute] on an effect that is running returns at once and
    changes nothing.  [execute] runs the body of an effect with that
    effect marked as running, and whatever is done while an effect is
    running (a write with its notifications, or any closure) leaves it
    running and does not invoke its body, whether the computation
    returns or exhausts its budget.  An effect that reads a signal and
    writes another value to it, outside a batch, is invoked once, at its
    creation: the notification of its own write finds it running. *)
Theorem C3_running_effect_is_not_reentered :
  (forall f e rt, running e rt -> execute (S f) e rt = Done tt rt)
  /\ (forall e rt, e < List.length (effects rt) -> running e (enter e rt))
  /\ (forall e fuel s v rt, running e rt ->
        running e (final (set fuel s v rt))
        /\ runs e (final (set fuel s v rt)) = runs e rt)
  /\ (forall e fuel p rt, running e rt ->
        running e (final (run fuel p rt))
        /\ runs e (final (run fuel p rt)) = runs e rt)
  /\ (forall v w, v <> w ->
        exists rt,
          run 20 (self_write v w) initial = Done (VUndefined, None) rt
          /\ trace rt = [EvRun 0]
          /\ peek 0 rt = w
          /\ JSSet.to_array (subscribers (signal_at 0 rt)) = [0]).
Proof.
  split; [exact execute_running|].
  split; [exact running_enter|].
  split; [intros e fuel s v rt H;
          exact (proj1 (proj2 (stays_undisturbed e fuel)) s v rt H)|].
  split; [intros e fuel p rt H;
          exact (proj1 (stays_undisturbed e fuel) p rt H)|].
  intros v w Hvw. eexists. split.
  - unfold self_write. runtime_exec. reflexivity.
  - lazy. repeat split; reflexivity.
Qed.

Definition mid_body : Runtime :=
  mkRuntime [mkSignalNode (VNum 0) [Some 0]]
            [mkEffect [Some 0]
               (Get 0 (fun _ => SetSignal 0 (VNum 1) (Return VUndefined)))
               None true]
            (Some 0) [0] 0 JSSet.empty [EvRun 0].

Lemma C3_witness :
  running 0 mid_body
  /\ execute 1 0 mid_body = Done tt mid_body
  /\ runs 0 (final (set 10 0 (VNum 1) mid_body)) = runs 0 mid_body.
Proof.
  assert (H : running 0 mid_body) by reflexivity.
  split; [exact H|].
  split.
  - exact (proj1 C3_running_effect_is_not_reentered 0 0 mid_body H).
  - exact (proj2 (proj1 (proj2 (proj2 C3_running_effect_is_not_reentered))
                    0 10 0 (VNum 1) mid_body H)).
Defined.

End SignalClaims.

(** *** Computed values *)

Section RuntimeFuel.
Import Signal.

(** What [o] returns, [o'] returns too. *)
Definition settles {A : Type} (o o' : Outcome A) : Prop :=
  forall a rt, o = Done a rt -> o' = Done a rt.

Lemma settles_refl {A} (o : Outcome A) : settles o o.
Proof. intros a rt H. exact H. Qed.

Lemma settles_then {A B} (o o' : Outcome A) (k k' : A -> Runtime -> Outcome B) :
  settles o o' -> (forall a rt, settles (k a rt) (k' a rt)) ->
  settles (then_ o k) (then_ o' k').
Proof.
  intros Ho Hk b rt H. destruct o as [a rt1|rt1]; simpl in H; [|discriminate].
  rewrite (Ho a rt1 eq_refl). simpl. apply Hk. exact H.
Qed.

(** A computation that returns within a budget returns the same within
    any larger one. *)
Lemma more_fuel (f : nat) :
  (forall f' p rt, f <= f' -> settles (run f p rt) (run f' p rt))
  /\ (forall f' s v rt, f <= f' -> settles (set f s v rt) (set f' s v rt))
  /\ (forall f' s i rt, f <= f' ->
        settles (notifyAll f s i rt) (notifyAll f' s i rt))
  /\ (forall f' e rt, f <= f' -> settles (execute f e rt) (execute f' e rt))
  /\ (forall f' e rt, f <= f' ->
        settles (callCleanup f e rt) (callCleanup f' e rt))
  /\ (forall f' l rt, f <= f' -> settles (flush f l rt) (flush f' l rt))
  /\ (forall f' b rt, f <= f' -> settles (batch f b rt) (batch f' b rt))
  /\ (forall f' b rt, f <= f' ->
        settles (createComputed f b rt) (createComputed f' b rt)).
Proof.
  induction f as [|f IH].
  - repeat match goal with |- _ /\ _ => split end;
      intros; intros a rt1 H1; discriminate.
  - destruct IH as (Hrun & Hset & Hnot & Hexe & Hcln & Hfl & Hbat & Hcc).
    repeat match goal with |- _ /\ _ => split end;
      intros f' x; intros; (destruct f' as [|f']; [lia|]);
      assert (Hle : f <= f') by lia.
    + (* run *)
      destruct x; try apply settles_refl.
      * rewrite !run_Get. apply Hrun, Hle.
      * rewrite !run_Peek. apply Hrun, Hle.
      * rewrite !run_SetSignal. apply settles_then; [apply Hset, Hle|].
        intros _ rt1. apply Hrun, Hle.
      * rewrite !run_Update. apply settles_then; [apply Hset, Hle|].
        intros _ rt1. apply Hrun, Hle.
      * rewrite !run_CreateSignal. apply Hrun, Hle.
      * rewrite !run_CreateEffect. apply settles_then; [apply Hexe, Hle|].
        intros _ rt1. apply Hrun, Hle.
      * rewrite !run_CreateComputed. apply settles_then; [apply Hcc, Hle|].
        intros s1 rt1. apply Hrun, Hle.
      * rewrite !run_Dispose. apply settles_then; [apply Hcln, Hle|].
        intros _ rt1. apply Hrun, Hle.
      * rewrite !run_Batch. apply settles_then; [apply Hbat, Hle|].
        intros _ rt1. apply Hrun, Hle.
      * rewrite !run_Untrack. apply settles_then; [apply Hrun, Hle|].
        intros r rt1. apply Hrun, Hle.
      * rewrite !run_Call. apply settles_then; [apply Hrun, Hle|].
        intros r rt1. apply Hrun, Hle.
      * rewrite !run_Mark. apply Hrun, Hle.
    + (* set *)
      rewrite !set_step. destruct (Object_is _ _); [apply settles_refl|].
      destruct (Nat.ltb 0 _); [apply settles_refl|]. apply Hnot, Hle.
    + (* notifyAll *)
      rewrite !notifyAll_step. destruct (nth_error _ _) as [[e'|]|].
      * apply settles_then; [apply Hexe, Hle|]. intros _ rt1. apply Hnot, Hle.
      * apply Hnot, Hle.
      * apply settles_refl.
    + (* execute *)
      rewrite !execute_step. destruct (isRunning _); [apply settles_refl|].
      apply settles_then; [apply Hcln, Hle|]. intros _ rt1.
      apply settles_then; [apply Hrun, Hle|]. intros r rt6. apply settles_refl.
    + (* callCleanup *)
      rewrite !callCleanup_step. destruct (cleanup _); [|apply settles_refl].
      apply settles_then; [apply Hrun, Hle|]. intros _ rt1. apply settles_refl.
    + (* flush *)
      destruct x as [|e' l].
      * rewrite !flush_nil. apply settles_refl.
      * rewrite !flush_cons. apply settles_then; [apply Hexe, Hle|].
        intros _ rt1. apply Hfl, Hle.
    + (* batch *)
      rewrite !batch_step. apply settles_then; [apply Hrun, Hle|].
      intros _ rt1. destruct (Nat.eqb _ 0); [apply Hfl, Hle|apply settles_refl].
    + (* createComputed *)
      rewrite !createComputed_step. cbv zeta.
      apply settles_then; [apply Hexe, Hle|]. intros _ rt1. apply settles_refl.
Qed.

Lemma run_more_fuel f f' p rt r rt' :
  run f p rt = Done r rt' -> f <= f' -> run f' p rt = Done r rt'.
Proof. intros H Hle. exact (proj1 (more_fuel f) f' p rt Hle r rt' H). Qed.

End RuntimeFuel.

Section Hygiene.
Import Signal.

(** The signal behind a computed is a local variable of [createComputed]:
    no closure written elsewhere can name it.  In the model handles are
    numbers, so this is a property of closures: [avoids p] says that [p]
    names signal [s0] nowhere, whatever handles it is given for the signals
    it creates itself. *)
Variable s0 : SignalId.
Variable e0 : EffectId.

Inductive avoids : Prog -> Prop :=
  | avoids_Return v : avoids (Return v)
  | avoids_ReturnCleanup c : avoids c -> avoids (ReturnCleanup c)
  | avoids_Get s k :
      s <> s0 -> (forall v, avoids (k v)) -> avoids (Get s k)
  | avoids_Peek s k :
      s <> s0 -> (forall v, avoids (k v)) -> avoids (Peek s k)
  | avoids_SetSignal s v k :
      s <> s0 -> avoids k -> avoids (SetSignal s v k)
  | avoids_Update s g k :
      s <> s0 -> avoids k -> avoids (Update s g k)
  | avoids_CreateSignal v k :
      (forall s, s <> s0 -> avoids (k s)) -> avoids (CreateSignal v k)
  | avoids_CreateEffect body k :
      avoids body -> (forall e, avoids (k e)) -> avoids (CreateEffect body k)
  | avoids_CreateComputed body k :
      avoids body -> (forall s, s <> s0 -> avoids (k s)) ->
      avoids (CreateComputed body k)
  | avoids_Dispose e k : avoids k -> avoids (Dispose e k)
  | avoids_Batch body k : avoids body -> avoids k -> avoids (Batch body k)
  | avoids_Untrack body k :
      avoids body -> (forall v, avoids (k v)) -> avoids (Untrack body k)
  | avoids_Call body k :
      avoids body -> (forall v, avoids (k v)) -> avoids (Call body k)
  | avoids_Mark n k : avoids k -> avoids (Mark n k).

Definition fresh_node : SignalNode := mkSignalNode VUndefined JSSet.empty.

(** Signal [s0] is as [createSignal(undefined)] made it, effect [e0] is
    inside its body, and no other closure the runtime holds names [s0]. *)
Definition sealed (rt : Runtime) : Prop :=
  s0 < List.length (signals rt)
  /\ signal_at s0 rt = fresh_node
  /\ running e0 rt
  /\ (forall e, e <> e0 -> avoids (fn (effect_at e rt)))
  /\ (forall e c, cleanup (effect_at e rt) = Some c -> avoids c).

Definition keeps {A : Type} (Q : A -> Prop) (o : Outcome A) : Prop :=
  sealed (final o) /\ forall a rt, o = Done a rt -> Q a.

Definition anything {A : Type} (a : A) : Prop := True.

Lemma keeps_done {A} (Q : A -> Prop) a rt :
  sealed rt -> Q a -> keeps Q (Done a rt).
Proof.
  intros H HQ. split; [exact H|]. intros a' rt' E. inversion E. subst. exact HQ.
Qed.

Lemma keeps_anything {A} (o : Outcome A) : sealed (final o) -> keeps anything o.
Proof. intros H. split; [exact H|]. intros. exact I. Qed.

Lemma keeps_then {A B} (Q : A -> Prop) (R : B -> Prop) (o : Outcome A)
    (k : A -> Runtime -> Outcome B) :
  keeps Q o -> (forall a rt, Q a -> sealed rt -> keeps R (k a rt)) ->
  keeps R (then_ o k).
Proof.
  intros [H1 H2] Hk. destruct o as [a rt1|rt1]; simpl in *.
  - apply Hk; [apply (H2 a rt1); reflexivity|exact H1].
  - split; [exact H1|]. intros a rt E. discriminate.
Qed.

Lemma sealed_same rt rt' :
  signals rt' = signals rt -> effects rt' = effects rt ->
  sealed rt -> sealed rt'.
Proof.
  unfold sealed, running, signal_at, effect_at. intros Es Ee. rewrite Es, Ee.
  exact (fun H => H).
Qed.

Lemma sealed_update_signal s g rt :
  (s = s0 -> g fresh_node = fresh_node) ->
  sealed rt -> sealed (update_signal s g rt).
Proof.
  intros Hg (H1 & H2 & H3).
  unfold sealed, running, signal_at, effect_at, update_signal, with_signals
    in *.
  simpl. rewrite update_nth_length, nth_update_nth.
  repeat match goal with |- _ /\ _ => split end; try tauto.
  destruct (Nat.eqb s0 s) eqn:E; [|exact H2].
  apply Nat.eqb_eq in E. rewrite (proj2 (Nat.ltb_lt _ _) H1), H2.
  apply Hg. congruence.
Qed.

Lemma sealed_update_effect e g rt :
  (forall ef, fn (g ef) = fn ef) ->
  (e = e0 -> forall ef, isRunning (g ef) = isRunning ef) ->
  (forall ef c, cleanup (g ef) = Some c -> avoids c \/ cleanup ef = Some c) ->
  sealed rt -> sealed (update_effect e g rt).
Proof.
  intros Hfn Hrun Hcl (H1 & H2 & H3 & H4 & H5).
  unfold sealed, running, signal_at, effect_at, update_effect, with_effects
    in *.
  simpl.
  repeat match goal with |- _ /\ _ => split end; try assumption.
  - rewrite nth_update_nth. destruct (Nat.eqb e0 e) eqn:E; [|exact H3].
    apply Nat.eqb_eq in E. destruct (Nat.ltb e0 _) eqn:El.
    + rewrite Hrun by congruence. exact H3.
    + apply Nat.ltb_ge in El. rewrite nth_overflow in H3 by exact El.
      discriminate.
  - intros e' Hne. rewrite nth_update_nth.
    destruct (Nat.eqb e' e); [|apply H4, Hne].
    destruct (Nat.ltb e' _); [rewrite Hfn; apply H4, Hne|constructor].
  - intros e' c. rewrite nth_update_nth.
    destruct (Nat.eqb e' e); [|apply H5].
    destruct (Nat.ltb e' _); [|discriminate].
    intros Hc. destruct (Hcl _ _ Hc) as [Ha|Ho]; [exact Ha|].
    apply (H5 e' c Ho).
Qed.

Lemma sealed_get s rt : s <> s0 -> sealed rt -> sealed (snd (get s rt)).
Proof.
  intros Hs H. unfold get. simpl. destruct (currentEffect rt) as [c|]; [|exact H].
  apply sealed_update_effect; try (intros; reflexivity).
  - intros ef c' Hc. right. exact Hc.
  - apply sealed_update_signal; [congruence|exact H].
Qed.

Lemma sealed_unsubscribes deps e : forall rt,
  sealed rt -> sealed (fold_left (fun rt dep => unsubscribe dep e rt) deps rt).
Proof.
  induction deps as [|d deps IH]; intros rt H; simpl; [exact H|].
  apply IH. unfold unsubscribe. apply sealed_update_signal; [|exact H].
  reflexivity.
Qed.

Lemma sealed_teardown e rt : sealed rt -> sealed (teardown e rt).
Proof.
  intros H. unfold teardown.
  apply sealed_update_effect; try (intros; reflexivity).
  - intros ef c' Hc. right. exact Hc.
  - apply sealed_unsubscribes. exact H.
Qed.

Lemma sealed_torn e rt : sealed rt -> sealed (torn e rt).
Proof.
  intros H. unfold torn. apply sealed_teardown.
  apply sealed_update_effect; try (intros; reflexivity); [|exact H].
  intros ef c' Hc. discriminate.
Qed.

Lemma sealed_enter e rt : e <> e0 -> sealed rt -> sealed (enter e rt).
Proof.
  intros Hne H. unfold enter. cbv zeta.
  match goal with |- sealed (log _ ?Z) =>
    apply (sealed_same Z); [reflexivity|reflexivity|] end.
  apply sealed_update_effect; try (intros; reflexivity).
  - intros Heq. congruence.
  - intros ef c' Hc. right. exact Hc.
  - match goal with |- sealed (set_effectStack _ (set_currentEffect _ ?Z)) =>
      apply (sealed_same Z); [reflexivity|reflexivity|] end.
    apply sealed_torn. exact H.
Qed.

Lemma sealed_leave e prev result rt :
  e <> e0 -> (forall c, result = Some c -> avoids c) ->
  sealed rt -> sealed (leave e prev result rt).
Proof.
  intros Hne Hres H. unfold leave. cbv zeta.
  match goal with |- sealed (set_currentEffect _ (set_effectStack _ ?Z)) =>
    apply (sealed_same Z); [reflexivity|reflexivity|] end.
  apply sealed_update_effect; try (intros; reflexivity).
  - intros Heq. congruence.
  - intros ef c' Hc. right. exact Hc.
  - destruct result as [c|]; [|exact H].
    apply sealed_update_effect; try (intros; reflexivity); [|exact H].
    intros ef c' Hc. left. apply Hres. exact Hc.
Qed.

Lemma sealed_new_signal v rt : sealed rt -> sealed (snd (new_signal v rt)).
Proof.
  intros (H1 & H2 & H3).
  unfold sealed, running, signal_at, effect_at, new_signal, with_signals in *.
  simpl. rewrite length_app, app_nth1 by exact H1.
  repeat match goal with |- _ /\ _ => split end; try tauto. lia.
Qed.

Lemma nth_snoc {A} (l : list A) (x d : A) n :
  nth n (l ++ [x]) d
  = if Nat.ltb n (List.length l) then nth n l d
    else if Nat.eqb n (List.length l) then x else d.
Proof.
  destruct (Nat.ltb n (List.length l)) eqn:El.
  - apply Nat.ltb_lt in El. apply app_nth1. exact El.
  - apply Nat.ltb_ge in El. rewrite app_nth2 by exact El.
    destruct (Nat.eqb n (List.length l)) eqn:E.
    + apply Nat.eqb_eq in E. subst n. rewrite Nat.sub_diag. reflexivity.
    + apply Nat.eqb_neq in E.
      destruct (n - List.length l) as [|[|m]] eqn:Em; simpl; try reflexivity.
      lia.
Qed.

Lemma sealed_new_effect body rt :
  avoids body -> sealed rt -> sealed (snd (new_effect body rt)).
Proof.
  intros Hb (H1 & H2 & H3 & H4 & H5).
  assert (Hin : e0 < List.length (effects rt)) by (apply running_in_range, H3).
  unfold sealed, running, signal_at, effect_at, new_effect, with_effects in *.
  simpl.
  repeat match goal with |- _ /\ _ => split end; try assumption.
  - rewrite app_nth1 by exact Hin. exact H3.
  - intros e Hne. rewrite nth_snoc.
    destruct (Nat.ltb e _); [apply H4, Hne|].
    destruct (Nat.eqb e _); [exact Hb|constructor].
  - intros e c. rewrite nth_snoc.
    destruct (Nat.ltb e _); [apply H5|].
    destruct (Nat.eqb e _); discriminate.
Qed.

End Hygiene.

Section HygieneRuns.
Import Signal.

Variable s0 : SignalId.
Variable e0 : EffectId.

Definition cleanup_avoids (r : Value * option Prog) : Prop :=
  forall c, snd r = Some c -> avoids s0 c.

Definition is_not_sealed (s : SignalId) : Prop := s <> s0.

(** A closure that does not name [s0] leaves it as it is, whatever it
    does and whichever effects it triggers. *)
Lemma stays_sealed (fuel : nat) :
  (forall p rt, avoids s0 p -> sealed s0 e0 rt ->
     keeps s0 e0 cleanup_avoids (run fuel p rt))
  /\ (forall s v rt, s <> s0 -> sealed s0 e0 rt ->
        keeps s0 e0 anything (set fuel s v rt))
  /\ (forall s i rt, sealed s0 e0 rt ->
        keeps s0 e0 anything (notifyAll fuel s i rt))
  /\ (forall e rt, sealed s0 e0 rt ->
        keeps s0 e0 anything (execute fuel e rt))
  /\ (forall e rt, sealed s0 e0 rt ->
        keeps s0 e0 anything (callCleanup fuel e rt))
  /\ (forall l rt, sealed s0 e0 rt ->
        keeps s0 e0 anything (flush fuel l rt))
  /\ (forall b rt, avoids s0 b -> sealed s0 e0 rt ->
        keeps s0 e0 anything (batch fuel b rt))
  /\ (forall b rt, avoids s0 b -> sealed s0 e0 rt ->
        keeps s0 e0 is_not_sealed (createComputed fuel b rt)).
Proof.
  induction fuel as [|f IH].
  - repeat match goal with |- _ /\ _ => split end;
      intros; simpl; (split; [assumption|intros; discriminate]).
  - destruct IH as (Hrun & Hset & Hnot & Hexe & Hcln & Hfl & Hbat & Hcc).
    repeat match goal with |- _ /\ _ => split end.
    + (* run *)
      intros p rt Hp H.
      destruct Hp as [v|c Hc|s k Hs Hk|s k Hs Hk|s v k Hs Hk|s g k Hs Hk
                     |v k Hk|body k Hb Hk|body k Hb Hk|e k Hk|body k Hb Hk
                     |body k Hb Hk|body k Hb Hk|n k Hk].
      * rewrite run_Return. apply keeps_done; [exact H|].
        intros c Hc. discriminate.
      * rewrite run_ReturnCleanup. apply keeps_done; [exact H|].
        intros c' E. inversion E. subst. exact Hc.
      * rewrite run_Get. apply Hrun; [apply Hk|apply sealed_get; assumption].
      * rewrite run_Peek. apply Hrun; [apply Hk|exact H].
      * rewrite run_SetSignal.
        apply (keeps_then s0 e0 anything); [apply Hset; assumption|].
        intros _ rt1 _ H1. apply Hrun; assumption.
      * rewrite run_Update.
        apply (keeps_then s0 e0 anything); [apply Hset; assumption|].
        intros _ rt1 _ H1. apply Hrun; assumption.
      * rewrite run_CreateSignal. apply Hrun.
        -- apply Hk. simpl. destruct H as [H _]. lia.
        -- apply sealed_new_signal. exact H.
      * rewrite run_CreateEffect.
        apply (keeps_then s0 e0 anything).
        -- apply Hexe. apply sealed_new_effect; assumption.
        -- intros _ rt1 _ H1. apply Hrun; [apply Hk|exact H1].
      * rewrite run_CreateComputed.
        apply (keeps_then s0 e0 is_not_sealed); [apply Hcc; assumption|].
        intros s rt1 Hs H1. apply Hrun; [apply Hk, Hs|exact H1].
      * rewrite run_Dispose.
        apply (keeps_then s0 e0 anything); [apply Hcln; assumption|].
        intros _ rt1 _ H1. apply Hrun; [exact Hk|].
        apply sealed_teardown. exact H1.
      * rewrite run_Batch.
        apply (keeps_then s0 e0 anything); [apply Hbat; assumption|].
        intros _ rt1 _ H1. apply Hrun; assumption.
      * rewrite run_Untrack.
        apply (keeps_then s0 e0 cleanup_avoids).
        -- apply Hrun; [exact Hb|].
           apply (sealed_same s0 e0 rt); [reflexivity|reflexivity|exact H].
        -- intros r rt1 _ H1. apply Hrun; [apply Hk|].
           apply (sealed_same s0 e0 rt1); [reflexivity|reflexivity|exact H1].
      * rewrite run_Call.
        apply (keeps_then s0 e0 cleanup_avoids); [apply Hrun; assumption|].
        intros r rt1 _ H1. apply Hrun; [apply Hk|exact H1].
      * rewrite run_Mark. apply Hrun; [exact Hk|].
        apply (sealed_same s0 e0 rt); [reflexivity|reflexivity|exact H].
    + (* set *)
      intros s v rt Hs H. rewrite set_step.
      destruct (Object_is _ _); [apply keeps_anything; exact H|].
      assert (H1 : sealed s0 e0 (store s v rt)).
      { apply sealed_update_signal; [congruence|exact H]. }
      destruct (Nat.ltb 0 _); [|apply Hnot, H1].
      apply keeps_anything. simpl.
      apply (sealed_same s0 e0 (store s v rt));
        [reflexivity|reflexivity|exact H1].
    + (* notifyAll *)
      intros s i rt H. rewrite notifyAll_step.
      destruct (nth_error _ i) as [[e|]|].
      * apply (keeps_then s0 e0 anything); [apply Hexe, H|].
        intros _ rt1 _ H1. apply Hnot, H1.
      * apply Hnot, H.
      * apply keeps_anything. exact H.
    + (* execute *)
      intros e rt H. rewrite execute_step.
      destruct (isRunning (effect_at e rt)) eqn:Er;
        [apply keeps_anything; exact H|].
      assert (Hne : e <> e0).
      { intros Heq. subst e. destruct H as (_ & _ & H & _).
        unfold running in H. congruence. }
      apply (keeps_then s0 e0 anything); [apply Hcln, H|].
      intros _ rt1 _ H1.
      assert (H2 : sealed s0 e0 (enter e rt1))
        by (apply sealed_enter; assumption).
      apply (keeps_then s0 e0 cleanup_avoids).
      * apply Hrun; [|exact H2].
        destruct H2 as (_ & _ & _ & H2 & _). apply H2, Hne.
      * intros r rt6 Hr H6. apply keeps_anything. simpl.
        apply sealed_leave; assumption.
    + (* callCleanup *)
      intros e rt H. rewrite callCleanup_step.
      destruct (cleanup (effect_at e rt)) as [c|] eqn:Ec;
        [|apply keeps_anything; exact H].
      apply (keeps_then s0 e0 cleanup_avoids).
      * apply Hrun; [|exact H].
        destruct H as (_ & _ & _ & _ & H). apply (H e c Ec).
      * intros _ rt1 _ H1. apply keeps_anything. exact H1.
    + (* flush *)
      intros l rt H. destruct l as [|e l].
      * rewrite flush_nil. apply keeps_anything. exact H.
      * rewrite flush_cons.
        apply (keeps_then s0 e0 anything); [apply Hexe, H|].
        intros _ rt1 _ H1. apply Hfl, H1.
    + (* batch *)
      intros b rt Hb H. rewrite batch_step.
      apply (keeps_then s0 e0 cleanup_avoids).
      * apply Hrun; [exact Hb|].
        apply (sealed_same s0 e0 rt); [reflexivity|reflexivity|exact H].
      * intros _ rt1 _ H1. destruct (Nat.eqb _ 0).
        -- apply Hfl.
           apply (sealed_same s0 e0 rt1); [reflexivity|reflexivity|exact H1].
        -- apply keeps_anything. simpl.
           apply (sealed_same s0 e0 rt1); [reflexivity|reflexivity|exact H1].
    + (* createComputed *)
      intros b rt Hb H. rewrite createComputed_step. cbv zeta.
      assert (Hs : List.length (signals rt) <> s0)
        by (destruct H as [H _]; lia).
      apply (keeps_then s0 e0 anything).
      * apply Hexe. apply sealed_new_effect.
        -- constructor; [exact Hb|]. intros v.
           constructor; [exact Hs|constructor].
        -- apply sealed_new_signal. exact H.
      * intros _ rt1 _ H1. apply keeps_done; [exact H1|exact Hs].
Qed.

End HygieneRuns.

Section ComputedSteps.
Import Signal.

(** [() => { setSignal(fn()) }] *)
Definition computed_body (s : SignalId) (body : Prog) : Prog :=
  Call body (fun v => SetSignal s v (Return VUndefined)).

(** The state in which [createComputed], called in [rt], calls the
    closure it was given. *)
Definition at_call (body : Prog) (rt : Runtime) : Runtime :=
  enter (List.length (effects rt))
    (snd (new_effect (computed_body (List.length (signals rt)) body)
            (snd (new_signal VUndefined rt)))).

Lemma update_nth_snoc {A} (g : A -> A) (x : A) : forall l,
  update_nth (List.length l) g (l ++ [x]) = l ++ [g x].
Proof.
  induction l as [|y l IH]; simpl; [reflexivity|]. rewrite IH. reflexivity.
Qed.

Lemma at_call_effects body rt :
  effects (at_call body rt)
  = effects rt
    ++ [mkEffect JSSet.empty
          (computed_body (List.length (signals rt)) body) None true].
Proof.
  unfold at_call, enter, torn, teardown, effect_at, new_effect, new_signal,
    update_effect, with_effects, with_signals.
  cbn [snd fst effects signals log set_effectStack set_currentEffect].
  rewrite !update_nth_snoc, nth_middle. cbn.
  rewrite !update_nth_snoc. reflexivity.
Qed.

Lemma at_call_signals body rt :
  signals (at_call body rt) = signals rt ++ [fresh_node].
Proof.
  unfold at_call, enter, torn, teardown, effect_at, new_effect, new_signal,
    update_effect, with_effects, with_signals.
  cbn [snd fst effects signals log set_effectStack set_currentEffect].
  rewrite !update_nth_snoc, nth_middle. reflexivity.
Qed.

Lemma at_call_trace body rt :
  trace (at_call body rt) = trace rt ++ [EvRun (List.length (effects rt))].
Proof.
  unfold at_call, enter, torn, teardown, effect_at, new_effect, new_signal,
    update_effect, with_effects, with_signals.
  cbn [snd fst effects signals log set_effectStack set_currentEffect trace].
  rewrite !update_nth_snoc, nth_middle. reflexivity.
Qed.

Lemma at_call_batchDepth body rt :
  batchDepth (at_call body rt) = batchDepth rt.
Proof.
  unfold at_call, enter, torn, teardown, effect_at, new_effect, new_signal,
    update_effect, with_effects, with_signals.
  cbn [snd fst effects signals log set_effectStack set_currentEffect
       batchDepth].
  rewrite !update_nth_snoc, nth_middle. reflexivity.
Qed.


Lemma created_effect B rt :
  effect_at (List.length (effects rt))
    (snd (new_effect B (snd (new_signal VUndefined rt))))
  = mkEffect JSSet.empty B None false.
Proof.
  unfold effect_at, new_effect, new_signal, with_effects, with_signals.
  cbn [snd fst effects]. apply nth_middle.
Qed.

Lemma peek_leave e prev result rt x :
  peek x (leave e prev result rt) = peek x rt.
Proof. destruct result; reflexivity. Qed.

Lemma trace_leave e prev result rt :
  trace (leave e prev result rt) = trace rt.
Proof. destruct result; reflexivity. Qed.

Lemma peek_store s v rt x :
  peek x (store s v rt)
  = if Nat.eqb x s
    then (if Nat.ltb x (List.length (signals rt)) then v else VUndefined)
    else peek x rt.
Proof.
  unfold peek, signal_at, store, update_signal, with_signals. simpl.
  rewrite nth_update_nth.
  destruct (Nat.eqb x s); [|reflexivity].
  destruct (Nat.ltb x _); reflexivity.
Qed.

(** The write [setSignal(v)] that ends the body of the effect of a
    computed, the signal being as it was created. *)
Lemma set_fresh f s v rt :
  s < List.length (signals rt) -> signal_at s rt = fresh_node ->
  exists rt',
    set (S (S f)) s v rt = Done tt rt'
    /\ peek s rt' = v
    /\ trace rt' = trace rt
    /\ (forall x, x <> s -> peek x rt' = peek x rt).
Proof.
  intros Hlen Hnode. rewrite set_step, Hnode. simpl value.
  unfold Object_is. destruct (Value_eq_dec VUndefined v) as [E|E].
  - exists rt. split; [reflexivity|].
    split; [unfold peek; rewrite Hnode; exact E|].
    split; [reflexivity|]. intros; reflexivity.
  - assert (Hs : peek s (store s v rt) = v).
    { rewrite peek_store, Nat.eqb_refl, (proj2 (Nat.ltb_lt _ _) Hlen).
      reflexivity. }
    assert (Ho : forall x, x <> s -> peek x (store s v rt) = peek x rt).
    { intros x Hx. rewrite peek_store.
      rewrite (proj2 (Nat.eqb_neq _ _) Hx). reflexivity. }
    destruct (Nat.ltb 0 (batchDepth (store s v rt))).
    + exists (defer s (store s v rt)).
      repeat match goal with |- _ /\ _ => split end;
        [reflexivity|exact Hs|reflexivity|exact Ho].
    + exists (store s v rt). rewrite notifyAll_step.
      assert (Hsub : subscribers (signal_at s (store s v rt)) = JSSet.empty).
      { unfold signal_at, store, update_signal, with_signals. simpl.
        rewrite nth_update_nth, Nat.eqb_refl, (proj2 (Nat.ltb_lt _ _) Hlen).
        simpl. unfold signal_at in Hnode. rewrite Hnode. reflexivity. }
      rewrite Hsub. simpl.
      repeat match goal with |- _ /\ _ => split end;
        [reflexivity|exact Hs|reflexivity|exact Ho].
Qed.

Lemma computed_assembly body rt f v c rt6 :
  run f body (at_call body rt) = Done (v, c) rt6 ->
  List.length (signals rt) < List.length (signals rt6) ->
  signal_at (List.length (signals rt)) rt6 = fresh_node ->
  exists rt',
    createComputed (6 + f) body rt = Done (List.length (signals rt)) rt'
    /\ peek (List.length (signals rt)) rt' = v
    /\ trace rt' = trace rt6
    /\ (forall x, x <> List.length (signals rt) -> peek x rt' = peek x rt6).
Proof.
  intros Hrun Hlen Hnode.
  assert (Hrun' : run (S (S (S f))) body (at_call body rt) = Done (v, c) rt6)
    by (apply (run_more_fuel f); [exact Hrun|lia]).
  destruct (set_fresh f _ v rt6 Hlen Hnode) as (rtX & Hset & Hs & Ht & Ho).
  change (6 + f) with (S (S (S (S (S (S f)))))).
  rewrite createComputed_step. cbv zeta.
  change (fst (new_signal VUndefined rt)) with (List.length (signals rt)).
  change (fst (new_effect
                 (Call body (fun v0 => SetSignal (List.length (signals rt)) v0
                                         (Return VUndefined)))
                 (snd (new_signal VUndefined rt))))
    with (List.length (effects rt)).
  rewrite execute_step, created_effect. cbn [isRunning].
  rewrite callCleanup_step, created_effect. cbn [cleanup then_].
  change (enter (List.length (effects rt)) _) with (at_call body rt).
  assert (Hfn : fn (effect_at (List.length (effects rt)) (at_call body rt))
                = computed_body (List.length (signals rt)) body).
  { unfold effect_at. rewrite at_call_effects, nth_middle. reflexivity. }
  rewrite Hfn. unfold computed_body.
  rewrite run_Call, Hrun'. cbn [then_ fst].
  rewrite run_SetSignal, Hset. cbn [then_]. rewrite run_Return. cbn [then_ snd].
  eexists. split; [reflexivity|].
  rewrite !peek_leave, trace_leave.
  repeat match goal with |- _ /\ _ => split end;
    [exact Hs|exact Ht|].
  intros x Hx. rewrite peek_leave. apply Ho, Hx.
Qed.

End ComputedSteps.

Section Computed.
Import Signal.

(** A closure that only reads signals created before the [n]-th one and
    returns a value. *)
Inductive reads_only (n : nat) : Prog -> Prop :=
  | reads_return v : reads_only n (Return v)
  | reads_get s k :
      s < n -> (forall v, reads_only n (k v)) -> reads_only n (Get s k)
  | reads_peek s k :
      s < n -> (forall v, reads_only n (k v)) -> reads_only n (Peek s k).

(** What such a closure returns when signal [s] holds [values s]. *)
Fixpoint result_of (p : Prog) (values : SignalId -> Value) : Value :=
  match p with
  | Return v => v
  | Get s k => result_of (k (values s)) values
  | Peek s k => result_of (k (values s)) values
  | _ => VUndefined
  end.

Lemma result_of_ext p : forall f g,
  (forall s, f s = g s) -> result_of p f = result_of p g.
Proof.
  induction p; intros f g Hfg; simpl; try reflexivity.
  - rewrite (Hfg s). apply H. exact Hfg.
  - rewrite (Hfg s). apply H. exact Hfg.
Qed.

(** [rt'] differs from [rt] at most in the subscribers of the signals
    below [n] and in the dependencies of effects. *)
Definition frame (n : nat) (rt rt' : Runtime) : Prop :=
  (forall x, peek x rt' = peek x rt)
  /\ (forall x, n <= x -> signal_at x rt' = signal_at x rt)
  /\ List.length (signals rt') = List.length (signals rt)
  /\ currentEffect rt' = currentEffect rt
  /\ effectStack rt' = effectStack rt
  /\ batchDepth rt' = batchDepth rt
  /\ pendingEffects rt' = pendingEffects rt
  /\ trace rt' = trace rt.

Lemma frame_refl n rt : frame n rt rt.
Proof.
  unfold frame. repeat match goal with |- _ /\ _ => split end; reflexivity.
Qed.

Lemma frame_trans n rt1 rt2 rt3 :
  frame n rt1 rt2 -> frame n rt2 rt3 -> frame n rt1 rt3.
Proof.
  unfold frame.
  intros (A1 & A2 & A3 & A4 & A5 & A6 & A7 & A8)
         (B1 & B2 & B3 & B4 & B5 & B6 & B7 & B8).
  repeat match goal with |- _ /\ _ => split end; try congruence.
  intros x Hx. rewrite B2 by exact Hx. apply A2. exact Hx.
Qed.

Lemma frame_get n s rt : s < n -> frame n rt (snd (get s rt)).
Proof.
  intros Hs. unfold get. simpl.
  destruct (currentEffect rt) as [c|] eqn:Ec; [|apply frame_refl].
  unfold frame, peek, signal_at, update_effect, update_signal, with_effects,
    with_signals. simpl.
  repeat match goal with |- _ /\ _ => split end; auto.
  - intros x. rewrite nth_update_nth.
    destruct (Nat.eqb x s); [|reflexivity].
    destruct (Nat.ltb x _) eqn:El; [reflexivity|].
    apply Nat.ltb_ge in El. rewrite nth_overflow by exact El. reflexivity.
  - intros x Hx. rewrite nth_update_nth.
    destruct (Nat.eqb x s) eqn:E; [|reflexivity].
    apply Nat.eqb_eq in E. lia.
  - apply update_nth_length.
Qed.

(** Such a closure returns, whatever the state, and changes edges only. *)
Lemma run_reads_only n fn :
  reads_only n fn ->
  forall rt, exists m, forall fuel, m <= fuel ->
    exists rt',
      run fuel fn rt = Done (result_of fn (fun s => peek s rt), None) rt'
      /\ frame n rt rt'.
Proof.
  induction 1 as [v|s k Hs Hk IH|s k Hs Hk IH]; intros rt.
  - exists 1. intros fuel Hf. destruct fuel as [|f]; [lia|].
    exists rt. split; [reflexivity|apply frame_refl].
  - destruct (IH (peek s rt) (snd (get s rt))) as [m Hm].
    exists (S m). intros fuel Hf. destruct fuel as [|f]; [lia|].
    destruct (Hm f ltac:(lia)) as (rt' & Hr & Hfr).
    exists rt'. rewrite run_Get. split.
    + change (fst (get s rt)) with (peek s rt). rewrite Hr. simpl.
      rewrite (result_of_ext _ (fun s0 => peek s0 (snd (get s rt)))
                 (fun s0 => peek s0 rt)); [reflexivity|].
      intros x. apply (frame_get n s rt Hs).
    + eapply frame_trans; [apply frame_get; exact Hs|exact Hfr].
  - destruct (IH (peek s rt) rt) as [m Hm].
    exists (S m). intros fuel Hf. destruct fuel as [|f]; [lia|].
    destruct (Hm f ltac:(lia)) as (rt' & Hr & Hfr).
    exists rt'. rewrite run_Peek. split; [exact Hr|exact Hfr].
Qed.

End Computed.

Section ComputedClaims.
Import Signal.

Lemma result_of_reads_only n p : forall f g,
  reads_only n p -> (forall s, s < n -> f s = g s) ->
  result_of p f = result_of p g.
Proof.
  intros f g Hp Hfg.
  induction Hp as [v|s k Hs Hk IH|s k Hs Hk IH]; simpl.
  - reflexivity.
  - rewrite (Hfg s Hs). apply IH.
  - rewrite (Hfg s Hs). apply IH.
Qed.

(** The closure is called with the signals holding what they held when
    [createComputed] was called. *)
Lemma at_call_peek body rt x :
  x < List.length (signals rt) -> peek x (at_call body rt) = peek x rt.
Proof.
  intros Hx. unfold peek, signal_at. rewrite at_call_signals.
  rewrite app_nth1 by exact Hx. reflexivity.
Qed.

Lemma at_call_runs body rt :
  runs (List.length (effects rt)) (at_call body rt)
  = S (runs (List.length (effects rt)) rt).
Proof.
  unfold runs. rewrite at_call_trace, filter_app, length_app. simpl.
  rewrite Nat.eqb_refl. simpl. lia.
Qed.

Lemma at_call_running body rt :
  running (List.length (effects rt)) (at_call body rt).
Proof.
  unfold running, effect_at. rewrite at_call_effects, nth_middle. reflexivity.
Qed.

Lemma at_call_sealed body rt :
  (forall e, avoids (List.length (signals rt)) (fn (effect_at e rt))) ->
  (forall e c, cleanup (effect_at e rt) = Some c ->
     avoids (List.length (signals rt)) c) ->
  sealed (List.length (signals rt)) (List.length (effects rt))
    (at_call body rt).
Proof.
  intros Hfn Hcl. unfold sealed.
  split; [rewrite at_call_signals, length_app; simpl; lia|].
  split; [unfold signal_at; rewrite at_call_signals; apply nth_middle|].
  split; [apply at_call_running|].
  unfold effect_at in *. rewrite at_call_effects. split.
  - intros e Hne. rewrite nth_snoc.
    destruct (Nat.ltb e _); [apply Hfn|].
    destruct (Nat.eqb e _) eqn:E; [|constructor].
    apply Nat.eqb_eq in E. congruence.
  - intros e c. rewrite nth_snoc.
    destruct (Nat.ltb e _); [apply Hcl|].
    destruct (Nat.eqb e _); discriminate.
Qed.

(** C10.  [createComputed(fn)], called in any state: when [fn], called
    in the state in which the effect of the computed calls it, returns
    the value [v], [createComputed] returns, the signal behind the computed holds
    [v] (so both a read and a peek of the computed give [v], whether or
    not [v] is [undefined]), and [fn] has been invoked exactly once.
    [fn] is any closure that, as the scoping of the source has it,
    cannot name the signal behind the computed, and the same for the
    closures of the effects that exist.  [fn] is called with every
    signal holding what it held when [createComputed] was called; for a
    [fn] that reads signals and returns a value computed from what it
    read, [createComputed] returns in every state, the computed holding
    that value of the signals' values at the call. *)
Theorem C10_computed_holds_what_fn_returned :
  (forall body rt f v rt6,
     avoids (List.length (signals rt)) body ->
     (forall e, avoids (List.length (signals rt)) (fn (effect_at e rt))) ->
     (forall e c', cleanup (effect_at e rt) = Some c' ->
        avoids (List.length (signals rt)) c') ->
     run f body (at_call body rt) = Done (v, None) rt6 ->
     exists rt',
       createComputed (6 + f) body rt = Done (List.length (signals rt)) rt'
       /\ peek (List.length (signals rt)) rt' = v
       /\ fst (get (List.length (signals rt)) rt') = v
       /\ runs (List.length (effects rt)) rt'
          = S (runs (List.length (effects rt)) rt))
  /\ (forall body rt x,
        x < List.length (signals rt) -> peek x (at_call body rt) = peek x rt)
  /\ (forall body rt,
        reads_only (List.length (signals rt)) body ->
        exists fuel rt',
          createComputed fuel body rt = Done (List.length (signals rt)) rt'
          /\ peek (List.length (signals rt)) rt'
             = result_of body (fun x => peek x rt)
          /\ fst (get (List.length (signals rt)) rt')
             = result_of body (fun x => peek x rt)
          /\ trace rt' = trace rt ++ [EvRun (List.length (effects rt))]
          /\ (forall x, x < List.length (signals rt) ->
                peek x rt' = peek x rt)).
Proof.
  split; [|split; [exact at_call_peek|]].
  - intros body rt f v rt6 Hb Hfn Hcl Hrun.
    pose proof (at_call_sealed body rt Hfn Hcl) as Hsealed.
    pose proof (proj1 (stays_sealed _ _ f) body _ Hb Hsealed) as [Hk _].
    pose proof (proj1 (stays_undisturbed _ f) body _ (at_call_running body rt))
      as [_ Hu].
    rewrite Hrun in Hk, Hu. simpl in Hk, Hu.
    destruct Hk as (Hlen & Hnode & _).
    destruct (computed_assembly body rt f v None rt6 Hrun Hlen Hnode)
      as (rt' & Hc & Hp & Ht & _).
    exists rt'. split; [exact Hc|]. split; [exact Hp|]. split; [exact Hp|].
    unfold runs in *. rewrite Ht, Hu. apply at_call_runs.
  - intros body rt Hro.
    destruct (run_reads_only _ body Hro (at_call body rt)) as [m Hm].
    destruct (Hm m (le_n m)) as (rt6 & Hrun & F1 & F2 & F3 & _ & _ & _ & _ & F8).
    destruct (computed_assembly body rt m _ None rt6 Hrun)
      as (rt' & Hc & Hp & Ht & Ho).
    + rewrite F3, at_call_signals, length_app. simpl. lia.
    + rewrite F2 by lia. unfold signal_at. rewrite at_call_signals.
      apply nth_middle.
    + assert (Hv : peek (List.length (signals rt)) rt'
                   = result_of body (fun x => peek x rt)).
      { rewrite Hp. apply (result_of_reads_only _ _ _ _ Hro).
        intros s Hs. apply at_call_peek, Hs. }
      exists (6 + m), rt'. split; [exact Hc|]. split; [exact Hv|].
      split; [exact Hv|]. split; [rewrite Ht, F8; apply at_call_trace|].
      intros x Hx. rewrite Ho by lia. rewrite F1. apply at_call_peek, Hx.
Qed.

(** A state with one signal holding 21, and a closure that reads it and
    returns twice its value. *)
Definition one_signal : Runtime :=
  mkRuntime [mkSignalNode (VNum 21) JSSet.empty] [] None [] 0 JSSet.empty [].

Definition doubled : Prog :=
  Get 0 (fun v =>
    Return match v with
           | VNum n => VNum (2 * n)
           | VUndefined => VUndefined
           end).

Lemma C10_witness :
  avoids 1 doubled
  /\ run 2 doubled (at_call doubled one_signal)
     = Done (VNum 42, None) (snd (get 0 (at_call doubled one_signal)))
  /\ exists rt',
       createComputed 8 doubled one_signal = Done 1 rt'
       /\ peek 1 rt' = VNum 42
       /\ fst (get 1 rt') = VNum 42
       /\ runs 0 rt' = 1.
Proof.
  assert (Hb : avoids 1 doubled).
  { unfold doubled. constructor; [lia|]. intros v. constructor. }
  split; [exact Hb|]. split; [reflexivity|].
  apply (proj1 C10_computed_holds_what_fn_returned doubled one_signal 2
           (VNum 42) (snd (get 0 (at_call doubled one_signal))) Hb).
  - intros e. destruct e as [|e]; constructor.
  - intros e c'. destruct e as [|e]; discriminate.
  - reflexivity.
Defined.

End ComputedClaims.

(* ===================================================================== *)
(** * Further properties of the code *)
(* ===================================================================== *)

(** ** Token kinds and indentation tokens *)

Section LexerTokens.
Import Lexer.

Definition count_type (t : TokenType) (ts : list Token) : nat :=
  List.length (filter (fun x => TokenType_eqb (type x) t) ts).

Lemma count_type_app t a b :
  count_type t (a ++ b) = count_type t a + count_type t b.
Proof. unfold count_type. rewrite filter_app, length_app. reflexivity. Qed.

Lemma count_type_snoc t ts x :
  count_type t (ts ++ [x])
  = count_type t ts + (if TokenType_eqb (type x) t then 1 else 0).
Proof.
  rewrite count_type_app. unfold count_type. simpl.
  destruct (TokenType_eqb (type x) t); reflexivity.
Qed.

Ltac count_tokens :=
  unfold addToken, push_token; simpl;
  repeat rewrite count_type_snoc; cbn [type];
  repeat match goal with
  | |- context [TokenType_eqb ?a ?b] =>
      let r := eval vm_compute in (TokenType_eqb a b) in
      change (TokenType_eqb a b) with r
  end;
  cbv beta iota.

(** Token types that any part of the scan other than the handling of
    indentation and the end of input emits. *)
Definition plain (t : TokenType) : bool :=
  match t with
  | INDENT | DEDENT | EOF | ILLEGAL => false
  | _ => true
  end.

Lemma assoc_In {A} k (l : list (string * A)) v :
  assoc k l = Some v -> In v (map snd l).
Proof.
  induction l as [|[k' v'] l IH]; simpl; [discriminate|].
  destruct (String.eqb k k'); [intros H; inversion H; left; reflexivity|].
  intros H. right. apply IH. exact H.
Qed.

Lemma plain_table (l : list (string * TokenType)) k t :
  forallb plain (map snd l) = true -> assoc k l = Some t -> plain t = true.
Proof.
  intros Hall H. apply assoc_In in H.
  rewrite forallb_forall in Hall. apply Hall. exact H.
Qed.

Lemma plain_KEYWORDS v : plain (KEYWORDS v) = true.
Proof.
  unfold KEYWORDS. destruct (assoc v own_KEYWORDS) as [t|] eqn:E.
  - eapply plain_table; [|exact E]. reflexivity.
  - destruct (existsb _ _); reflexivity.
Qed.

(** What one iteration of the main loop does to the tokens and to the
    indentation stack, the handling of a newline apart. *)
Lemma tokenize_step_cases lx lx' :
  tokenize_step lx = Some lx' ->
  lx' = handleNewline (skipWhitespaceExceptNewline lx)
  \/ (indentStack lx' = indentStack lx
      /\ (tokens lx' = tokens lx
          \/ exists t, tokens lx' = tokens lx ++ [t] /\ plain (type t) = true)).
Proof.
  unfold tokenize_step. destruct (rest lx) as [|a0 r0]; [discriminate|].
  assert (Hs : indentStack (skipWhitespaceExceptNewline lx) = indentStack lx
               /\ tokens (skipWhitespaceExceptNewline lx) = tokens lx).
  { unfold skipWhitespaceExceptNewline.
    destruct (skipWhitespace_go _ _). split; reflexivity. }
  destruct Hs as [Hs1 Hs2]. rewrite <- Hs1, <- Hs2.
  set (lx1 := skipWhitespaceExceptNewline lx).
  destruct (rest lx1) as [|a r] eqn:E1; [discriminate|].
  destruct (Ascii.eqb a char_newline).
  { intros H. inversion H. left. reflexivity. }
  right.
  destruct (Ascii.eqb a "#").
  { inversion H. unfold skipComment.
    destruct (skipComment_go _ _). split; [reflexivity|left; reflexivity]. }
  destruct (isLetter a || Ascii.eqb a "_").
  { inversion H. unfold readIdentifierOrKeyword.
    destruct (span_while _ _). split; [reflexivity|right].
    eexists. split; [reflexivity|]. apply plain_KEYWORDS. }
  destruct (isDigit a).
  { inversion H. unfold readNumber.
    destruct (span_while _ _) as [w r1].
    destruct r1 as [|b r1].
    - split; [reflexivity|right]. eexists. split; reflexivity.
    - destruct (Ascii.eqb b ".").
      + destruct (span_while _ _). split; [reflexivity|right].
        eexists. split; reflexivity.
      + split; [reflexivity|right]. eexists. split; reflexivity. }
  destruct (Ascii.eqb a char_dquote || Ascii.eqb a "'").
  { inversion H. unfold readString.
    destruct (readString_go _ _ _ _ _) as [[res r'] c'].
    destruct res; simpl.
    - split; [reflexivity|right]. eexists. split; reflexivity.
    - split; [reflexivity|left; reflexivity]. }
  destruct (readOperator lx1) as [lx2|] eqn:Eo.
  { inversion H. subst lx2. unfold readOperator in Eo. rewrite E1 in Eo.
    destruct (assoc _ twoCharOps) as [t|] eqn:E2.
    - inversion Eo. simpl. split; [reflexivity|right].
      eexists. split; [reflexivity|].
      eapply plain_table; [|exact E2]. reflexivity.
    - destruct (assoc _ singleCharOps) as [t|] eqn:E3; [|discriminate].
      inversion Eo. simpl. split; [reflexivity|right].
      eexists. split; [reflexivity|].
      eapply plain_table; [|exact E3]. reflexivity. }
  inversion H. simpl. split; [reflexivity|left; reflexivity].
Qed.


(** A property kept by every iteration is kept by the loop. *)
Lemma tokenize_loop_invariant (P : Lexer -> Prop) :
  (forall lx lx', P lx -> tokenize_step lx = Some lx' -> P lx') ->
  (forall lx, P lx -> P (after_loop lx)) ->
  forall fuel lx lxf, P lx -> tokenize_loop fuel lx = Some lxf -> P lxf.
Proof.
  intros Hstep Hafter. induction fuel as [|f IH]; intros lx lxf HP; simpl;
    destruct (tokenize_step lx) as [lx'|] eqn:E; intros H.
  - discriminate.
  - inversion H. apply Hafter, HP.
  - apply (IH lx'); [apply (Hstep lx); assumption|exact H].
  - inversion H. apply Hafter, HP.
Qed.

Lemma after_loop_tokens lx :
  tokens (after_loop lx) = tokens lx
  /\ indentStack (after_loop lx) = indentStack lx.
Proof.
  unfold after_loop. destruct (rest lx); [split; reflexivity|].
  unfold skipWhitespaceExceptNewline. destruct (skipWhitespace_go _ _).
  split; reflexivity.
Qed.

(** *** INDENT and DEDENT *)

(** Every open indentation level has its INDENT token, every closed one
    its DEDENT token. *)
Definition levels_accounted (lx : Lexer) : Prop :=
  indentStack lx <> []
  /\ count_type INDENT (tokens lx) + 1
     = count_type DEDENT (tokens lx) + List.length (indentStack lx).

Lemma popIndents_levels w : forall stack lx,
  stack <> [] ->
  fst (popIndents w stack lx) <> []
  /\ count_type INDENT (tokens (snd (popIndents w stack lx)))
     = count_type INDENT (tokens lx)
  /\ count_type DEDENT (tokens (snd (popIndents w stack lx)))
     + List.length (fst (popIndents w stack lx))
     = count_type DEDENT (tokens lx) + List.length stack.
Proof.
  induction stack as [|top below IH]; intros lx Hne; [congruence|].
  simpl. destruct below as [|b below'].
  - simpl. split; [discriminate|]. split; reflexivity.
  - destruct (Nat.ltb w top).
    + destruct (IH (addToken DEDENT EmptyString None lx)) as (H1 & H2 & H3);
        [discriminate|].
      split; [exact H1|]. split.
      * rewrite H2. count_tokens. lia.
      * rewrite H3. count_tokens. simpl. lia.
    + split; [discriminate|]. split; reflexivity.
Qed.

Lemma handleNewline_levels lx :
  levels_accounted lx -> levels_accounted (handleNewline lx).
Proof.
  intros [Hne Hb]. unfold handleNewline, measureIndent. simpl.
  destruct (measureIndent_go _ _ _) as [[w r'] c']. simpl.
  destruct (Nat.ltb _ w).
  { unfold levels_accounted. cbn [indentStack set_indentStack addToken
      push_token tokens advance].
    split; [discriminate|]. count_tokens. simpl. lia. }
  destruct (Nat.ltb w _).
  - match goal with |- context [popIndents ?w ?s ?l] =>
      destruct (popIndents_levels w s l Hne) as (H1 & H2 & H3);
      destruct (popIndents w s l) as [st' lx5] end.
    simpl in H1, H2, H3.
    rewrite !count_type_snoc in H2, H3. cbn [type] in H2, H3.
    change (TokenType_eqb NEWLINE INDENT) with false in H2.
    change (TokenType_eqb NEWLINE DEDENT) with false in H3.
    assert (levels_accounted (set_indentStack st' lx5)).
    { unfold levels_accounted. simpl. split; [exact H1|]. lia. }
    destruct (Nat.eqb _ w); [assumption|].
    unfold levels_accounted, push_error in *. simpl in *. assumption.
  - unfold levels_accounted. cbn [indentStack tokens].
    split; [exact Hne|]. count_tokens. lia.
Qed.

Lemma count_type_plain t ts x :
  plain t = false -> plain (type x) = true ->
  count_type t (ts ++ [x]) = count_type t ts.
Proof.
  intros Ht Hx. rewrite count_type_app. unfold count_type. simpl.
  unfold TokenType_eqb. destruct (TokenType_eq_dec (type x) t) as [E|E].
  - rewrite E in Hx. congruence.
  - simpl. lia.
Qed.

Lemma tokenize_step_levels lx lx' :
  levels_accounted lx -> tokenize_step lx = Some lx' -> levels_accounted lx'.
Proof.
  intros HP H. destruct (tokenize_step_cases lx lx' H) as [E|[Hs Ht]].
  - subst lx'. apply handleNewline_levels.
    unfold levels_accounted in *. unfold skipWhitespaceExceptNewline.
    destruct (skipWhitespace_go _ _). exact HP.
  - unfold levels_accounted in *. rewrite Hs.
    destruct Ht as [Ht|(t & Ht & Hp)]; rewrite Ht; [exact HP|].
    rewrite !count_type_plain by (try reflexivity; exact Hp). exact HP.
Qed.

Lemma closeIndents_levels : forall stack lx,
  stack <> [] ->
  count_type INDENT (tokens (closeIndents stack lx))
  = count_type INDENT (tokens lx)
  /\ count_type DEDENT (tokens (closeIndents stack lx)) + 1
     = count_type DEDENT (tokens lx) + List.length stack.
Proof.
  induction stack as [|top below IH]; intros lx Hne; [congruence|].
  simpl. destruct below as [|b below'].
  - simpl. split; [reflexivity|lia].
  - destruct (IH (addToken DEDENT EmptyString None lx)) as [H1 H2];
      [discriminate|].
    rewrite H1. split; [count_tokens; lia|].
    rewrite H2. count_tokens. simpl. lia.
Qed.

(** X1.  In the token list [tokenize] returns, for any input, there are
    as many DEDENT tokens as INDENT tokens: every indentation level that
    is opened is closed, at a dedent or at the end of the input, also
    when the indentation is inconsistent. *)
Theorem X1_indents_are_closed (input : string) :
  exists toks errs,
    tokenize input = Some (toks, errs)
    /\ count_type DEDENT toks = count_type INDENT toks.
Proof.
  destruct (tokenize_loop_total (String.length input) (new_Lexer input))
    as (lxf & Hloop & _).
  { simpl. rewrite length_list_ascii_of_string. lia. }
  unfold tokenize. rewrite Hloop. eexists. eexists. split; [reflexivity|].
  assert (HP : levels_accounted lxf).
  { apply (tokenize_loop_invariant levels_accounted tokenize_step_levels)
      with (fuel := String.length input) (lx := new_Lexer input).
    - intros lx [H1 H2]. destruct (after_loop_tokens lx) as [Et Es].
      unfold levels_accounted. rewrite Et, Es. split; assumption.
    - split; [discriminate|reflexivity].
    - exact Hloop. }
  destruct HP as [Hne Hb].
  destruct (closeIndents_levels (indentStack lxf) lxf Hne) as [H1 H2].
  unfold finish. count_tokens. lia.
Qed.


(** *** EOF and ILLEGAL *)

Definition inner_token (t : Token) : Prop :=
  type t <> EOF /\ type t <> ILLEGAL.

Definition inner_tokens (lx : Lexer) : Prop :=
  Forall inner_token (tokens lx).

Lemma inner_tokens_push t lx :
  inner_token t -> inner_tokens lx -> inner_tokens (push_token t lx).
Proof.
  intros Ht H. unfold inner_tokens, push_token. simpl.
  apply Forall_app. split; [exact H|]. constructor; [exact Ht|constructor].
Qed.

Lemma popIndents_inner w : forall stack lx,
  inner_tokens lx -> inner_tokens (snd (popIndents w stack lx)).
Proof.
  induction stack as [|top below IH]; intros lx H; [exact H|].
  simpl. destruct below as [|b below']; [exact H|].
  destruct (Nat.ltb w top); [|exact H].
  apply IH. apply inner_tokens_push; [split; discriminate|exact H].
Qed.

Lemma handleNewline_inner lx :
  inner_tokens lx -> inner_tokens (handleNewline lx).
Proof.
  intros H. unfold handleNewline, measureIndent. simpl.
  destruct (measureIndent_go _ _ _) as [[w r'] c']. simpl.
  assert (H1 : inner_tokens
                 (push_token
                    (mkToken NEWLINE (String char_newline EmptyString)
                       (cur_line lx) (cur_column lx)) lx)).
  { apply inner_tokens_push; [split; discriminate|exact H]. }
  unfold inner_tokens in H1. simpl in H1.
  destruct (Nat.ltb _ w).
  { unfold inner_tokens, addToken, push_token. simpl.
    apply Forall_app. split; [exact H1|].
    constructor; [split; discriminate|constructor]. }
  destruct (Nat.ltb w _); [|exact H1].
  match goal with |- context [popIndents ?w ?s ?l] =>
    pose proof (popIndents_inner w s l H1) as Hp;
    destruct (popIndents w s l) as [st' lx5] end.
  simpl in Hp. destruct (Nat.eqb _ w); exact Hp.
Qed.

Lemma tokenize_step_inner lx lx' :
  inner_tokens lx -> tokenize_step lx = Some lx' -> inner_tokens lx'.
Proof.
  intros HP H. destruct (tokenize_step_cases lx lx' H) as [E|[_ Ht]].
  - subst lx'. apply handleNewline_inner.
    unfold inner_tokens, skipWhitespaceExceptNewline in *.
    destruct (skipWhitespace_go _ _). exact HP.
  - unfold inner_tokens in *.
    destruct Ht as [Ht|(t & Ht & Hp)]; rewrite Ht; [exact HP|].
    apply Forall_app. split; [exact HP|].
    constructor; [|constructor].
    split; intros E; rewrite E in Hp; discriminate.
Qed.

Lemma closeIndents_inner : forall stack lx,
  inner_tokens lx -> inner_tokens (closeIndents stack lx).
Proof.
  induction stack as [|top below IH]; intros lx H; [exact H|].
  simpl. destruct below as [|b below']; [exact H|].
  apply IH. apply inner_tokens_push; [split; discriminate|exact H].
Qed.

(** The shape of the token list: inner tokens, then one EOF. *)
Lemma tokenize_shape (input : string) :
  exists toks last errs,
    tokenize input = Some (toks ++ [last], errs)
    /\ type last = EOF
    /\ forall t, In t toks -> type t <> EOF /\ type t <> ILLEGAL.
Proof.
  destruct (tokenize_loop_total (String.length input) (new_Lexer input))
    as (lxf & Hloop & _).
  { simpl. rewrite length_list_ascii_of_string. lia. }
  unfold tokenize. rewrite Hloop.
  assert (HP : inner_tokens lxf).
  { apply (tokenize_loop_invariant inner_tokens tokenize_step_inner)
      with (fuel := String.length input) (lx := new_Lexer input).
    - intros lx H. unfold inner_tokens.
      rewrite (proj1 (after_loop_tokens lx)). exact H.
    - constructor.
    - exact Hloop. }
  pose proof (closeIndents_inner (indentStack lxf) lxf HP) as Hc.
  unfold finish, addToken, push_token. simpl.
  eexists. eexists. eexists. split; [reflexivity|]. split; [reflexivity|].
  intros t Ht. unfold inner_tokens in Hc. rewrite Forall_forall in Hc.
  apply Hc. exact Ht.
Qed.

(** X2.  The token list [tokenize] returns, for any input, is a list of
    tokens none of which has type EOF or ILLEGAL, followed by one EOF
    token: EOF occurs exactly once, as the last token, and an illegal
    character never becomes a token (it is reported as an error and
    skipped). *)
Theorem X2_one_EOF_no_ILLEGAL (input : string) :
  exists toks last errs,
    tokenize input = Some (toks ++ [last], errs)
    /\ type last = EOF
    /\ forall t, In t toks -> type t <> EOF /\ type t <> ILLEGAL.
Proof. exact (tokenize_shape input). Qed.

End LexerTokens.

(** ** Where the parser's cursor can be *)

Section CursorInvariant.
Import Lexer AST Parser ParserFacts.
Local Open Scope parser_scope.

Variable tokens : list Token.

(** A property [P] of the cursor that holds on when a token is consumed
    that is neither the end of input nor a [component] keyword. *)
Variable P : nat -> Prop.

Hypothesis P_step : forall i,
  P i -> type (token_at tokens i) <> EOF ->
  type (token_at tokens i) <> COMPONENT -> P (S i).

(** [m], started in [s], ends with the cursor in [P]. *)
Definition lands {A : Type} (m : M A) (s : State) : Prop :=
  forall a s1, m s = Some (a, s1) -> P (current s1).

Lemma check_false_type t s :
  check_at tokens t s = false -> isAtEnd_at tokens s = false ->
  type (peek_at tokens s) <> t.
Proof.
  unfold check_at. intros H He. rewrite He in H.
  unfold TokenType_eqb in H.
  destruct (TokenType_eq_dec (type (peek_at tokens s)) t); [discriminate|].
  assumption.
Qed.

Lemma check_false_component s :
  check_at tokens COMPONENT s = false ->
  type (peek_at tokens s) <> COMPONENT.
Proof.
  unfold check_at, isAtEnd_at. intros H.
  destruct (TokenType_eq_dec (type (peek_at tokens s)) EOF) as [E|E].
  - rewrite E. discriminate.
  - unfold TokenType_eqb in H.
    destruct (TokenType_eq_dec (type (peek_at tokens s)) EOF);
      [contradiction|].
    destruct (TokenType_eq_dec (type (peek_at tokens s)) COMPONENT);
      [discriminate|assumption].
Qed.

Lemma advance_keeps s a s1 :
  check_at tokens COMPONENT s = false -> P (current s) ->
  advance tokens s = Some (a, s1) -> P (current s1).
Proof.
  intros Hc Hs H. unfold advance in H.
  destruct (isAtEnd_at tokens s) eqn:He; inversion H; subst; [exact Hs|].
  simpl. apply P_step; [exact Hs| |apply (check_false_component s Hc)].
  unfold isAtEnd_at, TokenType_eqb in He.
  destruct (TokenType_eq_dec (type (peek_at tokens s)) EOF);
    [discriminate|assumption].
Qed.

Lemma check_other_false t s :
  check_at tokens t s = true -> t <> COMPONENT ->
  check_at tokens COMPONENT s = false.
Proof.
  intros H Hne. destruct (check_at_true _ _ _ H) as [He Ht].
  unfold check_at. rewrite He. unfold TokenType_eqb.
  destruct (TokenType_eq_dec _ COMPONENT); [congruence|reflexivity].
Qed.

Lemma type_check_false s :
  type (peek_at tokens s) <> COMPONENT ->
  check_at tokens COMPONENT s = false.
Proof.
  intros H. unfold check_at. destruct (isAtEnd_at tokens s); [reflexivity|].
  unfold TokenType_eqb.
  destruct (TokenType_eq_dec _ COMPONENT); [contradiction|reflexivity].
Qed.

Lemma attribute_check_false s :
  isAttributeName (peek_at tokens s) = true ->
  check_at tokens COMPONENT s = false.
Proof.
  intros H. apply type_check_false. unfold isAttributeName in H.
  destruct (type (peek_at tokens s)); try discriminate; discriminate.
Qed.

Lemma lands_ret {A} (a : A) s :
  P (current s) -> lands (ret a) s.
Proof. intros H a' s1 E. inversion E as [[E1 E2]]. rewrite <- E2. exact H. Qed.

Lemma lands_bind {A B} (m : M A) (k : A -> M B) s :
  lands m s ->
  (forall a s1, P (current s1) -> lands (k a) s1) ->
  lands (bind m k) s.
Proof.
  intros Hm Hk b s2 E. unfold bind in E.
  destruct (m s) as [[a s1]|] eqn:Em; [|discriminate].
  exact (Hk a s1 (Hm a s1 Em) b s2 E).
Qed.

Lemma lands_peek {A} (k : Token -> M A) s :
  lands (k (peek_at tokens s)) s -> lands (bind (peek tokens) k) s.
Proof. intros H. exact H. Qed.

Lemma lands_previous {A} (k : Token -> M A) s :
  lands (k (previous_at tokens s)) s -> lands (bind (previous tokens) k) s.
Proof. intros H. exact H. Qed.

Lemma lands_isAtEnd {A} (k : bool -> M A) s :
  lands (k (isAtEnd_at tokens s)) s -> lands (bind (isAtEnd tokens) k) s.
Proof. intros H. exact H. Qed.

Lemma lands_check {A} t (k : bool -> M A) s :
  lands (k (check_at tokens t s)) s -> lands (bind (check tokens t) k) s.
Proof. intros H. exact H. Qed.

Lemma lands_checkNext {A} t (k : bool -> M A) s :
  (forall b, lands (k b) s) -> lands (bind (checkNext tokens t) k) s.
Proof. intros H. apply H. Qed.

Lemma lands_error {A} msg (k : unit -> M A) s :
  (forall s1, current s1 = current s -> lands (k tt) s1) ->
  lands (bind (error tokens msg) k) s.
Proof. intros H. unfold bind, error. apply H. reflexivity. Qed.

Lemma lands_advance {A} (k : Token -> M A) s :
  check_at tokens COMPONENT s = false ->
  P (current s) ->
  (forall a s1, P (current s1) -> lands (k a) s1) ->
  lands (bind (advance tokens) k) s.
Proof.
  intros Hc Hs Hk. apply lands_bind; [|exact Hk].
  intros a s1 E. apply (advance_keeps _ _ _ Hc Hs E).
Qed.

Lemma lands_match {A} ops (k : bool -> M A) s :
  ~ In COMPONENT ops ->
  P (current s) ->
  (forall s1, P (current s1) -> lands (k true) s1) ->
  lands (k false) s ->
  lands (bind (match_ tokens ops) k) s.
Proof.
  intros Hn Hs Ht Hf. induction ops as [|t ops IH].
  - exact Hf.
  - intros b s2 E. unfold bind in E. rewrite match_cons in E.
    destruct (check_at tokens t s) eqn:Ec.
    + refine (Ht _ _ b s2 E). simpl.
      destruct (check_at_true _ _ _ Ec) as [He Hty].
      unfold peek_at in Hty.
      apply P_step; [exact Hs| |].
      * unfold isAtEnd_at, peek_at, TokenType_eqb in He.
        destruct (TokenType_eq_dec (type (token_at tokens (current s))) EOF);
          [discriminate|assumption].
      * rewrite Hty. intros Heq. apply Hn. left. exact Heq.
    + refine (IH _ b s2 E). intros Hin. apply Hn. right. exact Hin.
Qed.

Lemma lands_consume {A} t msg (k : Token -> M A) s :
  t <> COMPONENT ->
  P (current s) ->
  (forall a s1, P (current s1) -> lands (k a) s1) ->
  lands (bind (consume tokens t msg) k) s.
Proof.
  intros Hne Hs Hk. apply lands_bind; [|exact Hk].
  intros a s1 E. unfold consume in E. unfold bind at 1 in E.
  unfold check in E. destruct (check_at tokens t s) eqn:Ec.
  - apply (advance_keeps _ _ _ (check_other_false _ _ Ec Hne) Hs E).
  - unfold bind, error, peek in E. inversion E as [[Ea Eb]].
    simpl. exact Hs.
Qed.

Lemma lands_error_here {A} msg (k : unit -> M A) s :
  P (current s) ->
  (forall s1, P (current s1) -> lands (k tt) s1) ->
  lands (bind (error tokens msg) k) s.
Proof.
  intros Hs H. apply lands_error. intros s1 E. apply H. rewrite E. exact Hs.
Qed.

Lemma attribute_and_check_false s b :
  isAttributeName (peek_at tokens s) && b = true ->
  check_at tokens COMPONENT s = false.
Proof.
  intros H. apply andb_prop in H. apply attribute_check_false. apply H.
Qed.

Local Arguments match_ : simpl never.

(** No [component] keyword under the cursor. *)
Ltac not_on_component :=
  first
    [ assumption
    | eapply check_other_false; [eassumption|discriminate]
    | eapply attribute_check_false; eassumption
    | eapply attribute_and_check_false; eassumption
    | apply type_check_false;
      match goal with
      | E : type (peek_at _ ?s) = _ |- type (peek_at _ ?s) <> _ =>
          rewrite E; discriminate
      end ].

Ltac no_component_listed :=
  simpl; intros Hin;
  repeat match goal with
  | H : _ \/ _ |- _ => destruct H
  | H : _ = COMPONENT |- _ => discriminate H
  | H : False |- _ => contradiction
  end.

Ltac lands_auto :=
  lazymatch goal with
  | |- lands (ret _) _ => apply lands_ret; assumption
  | |- lands (bind (peek _) _) _ =>
      apply lands_peek; cbv beta; lands_auto
  | |- lands (bind (previous _) _) _ =>
      apply lands_previous; cbv beta; lands_auto
  | |- lands (bind (isAtEnd _) _) _ =>
      apply lands_isAtEnd; cbv beta; lands_auto
  | |- lands (bind (check _ _) _) _ =>
      apply lands_check; cbv beta; lands_auto
  | |- lands (bind (checkNext _ _) _) _ =>
      apply lands_checkNext; intros ?; lands_auto
  | |- lands (bind (error _ _) _) _ =>
      apply lands_error_here; [assumption|intros ? ?]; lands_auto
  | |- lands (bind (advance _) _) _ =>
      apply lands_advance; [not_on_component|assumption|intros ? ? ?];
      lands_auto
  | |- lands (bind (consume _ _ _) _) _ =>
      apply lands_consume; [discriminate|assumption|intros ? ? ?]; lands_auto
  | |- lands (bind (match_ _ _) _) _ =>
      apply lands_match; [no_component_listed|assumption|intros ? ?|];
      lands_auto
  | |- lands (bind _ _) _ =>
      apply lands_bind; [|intros ? ? ?]; lands_auto
  | |- lands (if ?b then _ else _) _ =>
      lazymatch b with
      | context [isAtEnd_at ?t ?s] =>
          destruct (isAtEnd_at t s) eqn:?; cbn [negb andb]; lands_auto
      | context [check_at ?t ?ty ?s] =>
          destruct (check_at t ty s) eqn:?; cbn [negb andb]; lands_auto
      | _ => destruct b eqn:?; lands_auto
      end
  | |- lands (binaryLevel _ _ _ _ _) _ => unfold binaryLevel; lands_auto
  | |- lands (parseSlot _) _ => unfold parseSlot; lands_auto
  | |- lands (parseStringValue _) _ => unfold parseStringValue; lands_auto
  | |- lands (match ?p with mkParts _ _ _ _ _ _ _ _ => _ end) _ =>
      destruct p; lands_auto
  | |- lands (match ?p with mkSpaceParts _ _ _ _ => _ end) _ =>
      destruct p; lands_auto
  | |- lands (match type ?t with _ => _ end) _ =>
      destruct (type t) eqn:?; lands_auto
  | |- lands _ _ =>
      match goal with
      | H : context [lands] |- _ => apply H; assumption
      end
  end.

Lemma lands_expressions (fuel : nat) :
  (forall s, P (current s) ->
     lands (parseExpression tokens fuel) s) /\
  (forall s, P (current s) ->
     lands (parseTernary tokens fuel) s) /\
  (forall s, P (current s) ->
     lands (parseLogicalOr tokens fuel) s) /\
  (forall l s, P (current s) ->
     lands (parseLogicalOr_loop tokens fuel l) s) /\
  (forall s, P (current s) ->
     lands (parseLogicalAnd tokens fuel) s) /\
  (forall l s, P (current s) ->
     lands (parseLogicalAnd_loop tokens fuel l) s) /\
  (forall s, P (current s) ->
     lands (parseEquality tokens fuel) s) /\
  (forall l s, P (current s) ->
     lands (parseEquality_loop tokens fuel l) s) /\
  (forall s, P (current s) ->
     lands (parseComparison tokens fuel) s) /\
  (forall l s, P (current s) ->
     lands (parseComparison_loop tokens fuel l) s) /\
  (forall s, P (current s) ->
     lands (parseAdditive tokens fuel) s) /\
  (forall l s, P (current s) ->
     lands (parseAdditive_loop tokens fuel l) s) /\
  (forall s, P (current s) ->
     lands (parseMultiplicative tokens fuel) s) /\
  (forall l s, P (current s) ->
     lands (parseMultiplicative_loop tokens fuel l) s) /\
  (forall s, P (current s) ->
     lands (parseUnary tokens fuel) s) /\
  (forall s, P (current s) ->
     lands (parsePostfix tokens fuel) s) /\
  (forall e s, P (current s) ->
     lands (parsePostfix_loop tokens fuel e) s) /\
  (forall acc s, P (current s) ->
     lands (parseExpressionList tokens fuel acc) s) /\
  (forall s, P (current s) ->
     lands (parsePrimary tokens fuel) s).
Proof.
  induction fuel as [|f IH].
  - repeat match goal with |- _ /\ _ => split end; intros; intros ? ? E;
      discriminate E.
  - destruct IH as (H1 & H2 & H3 & H4 & H5 & H6 & H7 & H8 & H9 & H10 & H11
                    & H12 & H13 & H14 & H15 & H16 & H17 & H18 & H19).
    repeat match goal with |- _ /\ _ => split end; intros; simpl;
      lands_auto.
Qed.

Lemma lands_parseExpression fuel s :
  P (current s) -> lands (parseExpression tokens fuel) s.
Proof. apply lands_expressions. Qed.

Lemma lands_parseAttributeNameParts fuel : forall name s,
  P (current s) ->
  lands (parseAttributeNameParts tokens fuel name) s.
Proof.
  induction fuel as [|f IH]; intros name s H; [intros ? ? E; discriminate E|].
  simpl. lands_auto.
Qed.

Lemma lands_parseAttributes fuel : forall attrs s,
  P (current s) ->
  lands (parseAttributes tokens fuel attrs) s.
Proof.
  pose proof lands_parseExpression as He.
  pose proof lands_parseAttributeNameParts as Hn.
  induction fuel as [|f IH]; intros attrs s H;
    [intros ? ? E; discriminate E|].
  simpl. lands_auto.
Qed.

Lemma lands_elements (fuel : nat) :
  (forall s, P (current s) ->
     lands (parseElement tokens fuel) s) /\
  (forall ch s, P (current s) ->
     lands (parseChildren tokens fuel ch) s) /\
  (forall s, P (current s) ->
     lands (parseConditional tokens fuel) s) /\
  (forall s, P (current s) ->
     lands (parseLoop tokens fuel) s).
Proof.
  pose proof lands_parseExpression as He.
  pose proof lands_parseAttributes as Ha.
  induction fuel as [|f IH].
  - repeat match goal with |- _ /\ _ => split end; intros; intros ? ? E;
      discriminate E.
  - destruct IH as (H1 & H2 & H3 & H4).
    repeat match goal with |- _ /\ _ => split end; intros; simpl;
      lands_auto.
Qed.

Lemma lands_parseElement fuel s :
  P (current s) -> lands (parseElement tokens fuel) s.
Proof. apply lands_elements. Qed.

Lemma lands_parseNameList fuel : forall msg acc s,
  P (current s) ->
  lands (parseNameList tokens fuel msg acc) s.
Proof.
  induction fuel as [|f IH]; intros msg acc s H;
    [intros ? ? E; discriminate E|].
  simpl. lands_auto.
Qed.

Lemma lands_parseState fuel s :
  P (current s) -> lands (parseState tokens fuel) s.
Proof.
  pose proof lands_parseExpression as He.
  intros H. unfold parseState. lands_auto.
Qed.

Lemma lands_parseComputed fuel s :
  P (current s) -> lands (parseComputed tokens fuel) s.
Proof.
  pose proof lands_parseExpression as He.
  intros H. unfold parseComputed. lands_auto.
Qed.

Lemma lands_parseEffect fuel s :
  P (current s) -> lands (parseEffect tokens fuel) s.
Proof.
  pose proof lands_parseNameList as Hn.
  intros H. unfold parseEffect. lands_auto.
Qed.

Lemma lands_parseArrowFunction fuel s :
  P (current s) ->
  lands (parseArrowFunction tokens fuel) s.
Proof.
  pose proof lands_parseExpression as He.
  pose proof lands_parseNameList as Hn.
  intros H. unfold parseArrowFunction. lands_auto.
Qed.

Lemma lands_parseEventHandler fuel s :
  P (current s) ->
  lands (parseEventHandler tokens fuel) s.
Proof.
  pose proof lands_parseArrowFunction as Ha.
  intros H. unfold parseEventHandler. lands_auto.
Qed.

Lemma lands_parseAnimationProperties fuel : forall props s,
  P (current s) ->
  lands (parseAnimationProperties tokens fuel props) s.
Proof.
  pose proof lands_parseExpression as He.
  induction fuel as [|f IH]; intros props s H;
    [intros ? ? E; discriminate E|].
  simpl. lands_auto.
Qed.

Lemma lands_parseAnimation fuel s :
  P (current s) -> lands (parseAnimation tokens fuel) s.
Proof.
  pose proof lands_parseAnimationProperties as Ha.
  intros H. unfold parseAnimation. lands_auto.
Qed.

Lemma lands_parseStyleProperties fuel : forall props s,
  P (current s) ->
  lands (parseStyleProperties tokens fuel props) s.
Proof.
  pose proof lands_parseExpression as He.
  induction fuel as [|f IH]; intros props s H;
    [intros ? ? E; discriminate E|].
  simpl. lands_auto.
Qed.

Lemma lands_parseStyleRules fuel : forall rules s,
  P (current s) ->
  lands (parseStyleRules tokens fuel rules) s.
Proof.
  pose proof lands_parseStyleProperties as Hp.
  induction fuel as [|f IH]; intros rules s H;
    [intros ? ? E; discriminate E|].
  simpl. lands_auto.
Qed.

Lemma lands_parseStyle fuel s :
  P (current s) -> lands (parseStyle tokens fuel) s.
Proof.
  pose proof lands_parseStyleRules as Hr.
  intros H. unfold parseStyle. lands_auto.
Qed.

Lemma lands_parseComponentBody fuel : forall p s,
  P (current s) ->
  lands (parseComponentBody tokens fuel p) s.
Proof.
  pose proof lands_parseState as H1.
  pose proof lands_parseComputed as H2.
  pose proof lands_parseEffect as H3.
  pose proof lands_parseEventHandler as H4.
  pose proof lands_parseAnimation as H5.
  pose proof lands_parseElement as H6.
  pose proof lands_parseStyle as H7.
  induction fuel as [|f IH]; intros p s H;
    [intros ? ? E; discriminate E|].
  simpl. lands_auto.
Qed.

Lemma lands_parseSpaceBody fuel : forall p s,
  P (current s) ->
  lands (parseSpaceBody tokens fuel p) s.
Proof.
  pose proof lands_parseState as H1.
  pose proof lands_parseComputed as H2.
  pose proof lands_parseEffect as H3.
  pose proof lands_parseEventHandler as H4.
  induction fuel as [|f IH]; intros p s H;
    [intros ? ? E; discriminate E|].
  simpl. lands_auto.
Qed.

Lemma lands_parseSpace fuel s :
  P (current s) -> lands (parseSpace tokens fuel) s.
Proof.
  pose proof lands_parseSpaceBody as Hb.
  intros H. unfold parseSpace. lands_auto.
Qed.

Lemma lands_synchronize_loop fuel : forall s,
  P (current s) ->
  lands (synchronize_loop tokens fuel) s.
Proof.
  induction fuel as [|f IH]; intros s H; [intros ? ? E; discriminate E|].
  simpl. lands_auto.
Qed.

Lemma lands_synchronize fuel s :
  check_at tokens COMPONENT s = false ->
  P (current s) -> lands (synchronize tokens fuel) s.
Proof.
  pose proof lands_synchronize_loop as Hb.
  intros Hc H. unfold synchronize. lands_auto.
Qed.

(** A component, once its keyword has been consumed. *)
Lemma parseComponent_rest fuel s x s1 :
  check_at tokens COMPONENT s = true ->
  P (S (current s)) ->
  parseComponent tokens fuel s = Some (x, s1) ->
  (exists comp, x = Some comp) /\ P (current s1).
Proof.
  intros Hc HP H. unfold parseComponent in H. unfold bind at 1 in H.
  rewrite match_cons, Hc in H.
  set (s0 := Parser.mkState (S (current s)) (errors s)) in *.
  assert (Hk : lands
                 (token <- previous tokens ;;
                  name <- consume tokens IDENTIFIER "Expected component name" ;;
                  consume tokens COLON "Expected : after component name" ;;;
                  p <- parseComponentBody tokens fuel empty_parts ;;
                  ret (Some (mkComponent (value name) (p_states p)
                         (p_computed p) (p_effects p) (p_handlers p)
                         (p_animations p) (p_styles p) (p_body p)
                         (p_accessibility p) (line token) (column token))))
                 s0).
  { pose proof lands_parseComponentBody as Hb.
    assert (H0 : P (current s0)) by exact HP.
    lands_auto. }
  split.
  - unfold bind, previous in H.
    destruct (consume tokens IDENTIFIER _ s0) as [[a1 t1]|]; [|discriminate].
    destruct (consume tokens COLON _ t1) as [[a2 t2]|]; [|discriminate].
    destruct (parseComponentBody tokens fuel empty_parts t2) as [[a3 t3]|];
      [|discriminate].
    inversion H. eexists. reflexivity.
  - exact (Hk x s1 H).
Qed.

(** What is not a component, at top level. *)
Lemma parse_loop_other fuel s :
  isAtEnd_at tokens s = false -> check_at tokens COMPONENT s = false ->
  P (current s) ->
  forall (k : list SpaceNode -> list StyleNode ->
              M (list ComponentNode * list SpaceNode * list StyleNode))
         sp st r s',
  (isSpace <- check tokens SPACE ;;
   if isSpace then
     space <- parseSpace tokens fuel ;; k (push_opt sp space) st
   else
     isStyle <- check tokens STYLE ;;
     if isStyle then
       style <- parseStyle tokens fuel ;; k sp (push_opt st style)
     else
       error tokens "Expected component, space or style declaration" ;;;
       synchronize tokens fuel ;;;
       k sp st) s = Some (r, s') ->
  exists sp1 st1 s1, P (current s1) /\ k sp1 st1 s1 = Some (r, s').
Proof.
  intros He Hc HP k sp st r s' H.
  unfold bind at 1, check at 1 in H.
  destruct (check_at tokens SPACE s) eqn:Es.
  { unfold bind at 1 in H.
    destruct (parseSpace tokens fuel s) as [[x s1]|] eqn:E; [|discriminate].
    exists (push_opt sp x), st, s1. split; [|exact H].
    apply (lands_parseSpace fuel s HP x s1 E). }
  unfold bind at 1, check at 1 in H.
  destruct (check_at tokens STYLE s) eqn:Est.
  { unfold bind at 1 in H.
    destruct (parseStyle tokens fuel s) as [[x s1]|] eqn:E; [|discriminate].
    exists sp, (push_opt st x), s1. split; [|exact H].
    apply (lands_parseStyle fuel s HP x s1 E). }
  unfold bind at 1 in H. unfold error at 1 in H.
  unfold bind at 1 in H.
  match type of H with
  | context [synchronize tokens fuel ?s1] =>
      destruct (synchronize tokens fuel s1) as [[u2 s2]|] eqn:E2;
        [|discriminate];
      apply (lands_synchronize fuel s1) in E2; [|exact Hc|exact HP]
  end.
  exists sp, st, s2. split; [exact E2|exact H].
Qed.

End CursorInvariant.

(** ** Components and [component] keywords *)

Section ComponentKeywords.
Import Lexer AST Parser ParserFacts.
Local Open Scope parser_scope.

Variable tokens : list Token.

(** [component] keywords from index [i] on. *)
Definition components_from (i : nat) : nat :=
  count_type COMPONENT (skipn i tokens).

Lemma components_from_skip i :
  type (token_at tokens i) <> COMPONENT ->
  components_from (S i) = components_from i.
Proof.
  unfold components_from, token_at. revert i.
  induction tokens as [|t ts IH]; intros i H.
  - destruct i; reflexivity.
  - destruct i as [|i].
    + simpl in *. unfold count_type. simpl.
      unfold TokenType_eqb. destruct (TokenType_eq_dec (type t) COMPONENT);
        [contradiction|reflexivity].
    + simpl in *. apply IH. exact H.
Qed.

Lemma components_from_take i :
  type (token_at tokens i) = COMPONENT ->
  components_from i = S (components_from (S i)).
Proof.
  unfold components_from, token_at. revert i.
  induction tokens as [|t ts IH]; intros i H.
  - destruct i; simpl in H; discriminate.
  - destruct i as [|i].
    + simpl in *. unfold count_type. simpl.
      unfold TokenType_eqb. destruct (TokenType_eq_dec (type t) COMPONENT);
        [reflexivity|contradiction].
    + simpl in *. apply IH. exact H.
Qed.


Lemma components_step c i :
  components_from i = c -> type (token_at tokens i) <> EOF ->
  type (token_at tokens i) <> COMPONENT -> components_from (S i) = c.
Proof. intros H _ Hc. rewrite components_from_skip; assumption. Qed.

Lemma push_opt_Some {A} (l : list A) (a : A) :
  List.length (push_opt l (Some a)) = S (List.length l).
Proof. simpl. rewrite length_app. simpl. lia. Qed.

Lemma parse_loop_components fuel :
  forall c sp st s c' sp' st' s',
  parse_loop tokens fuel c sp st s = Some ((c', sp', st'), s') ->
  List.length c' + components_from (current s')
    = List.length c + components_from (current s)
  /\ isAtEnd_at tokens s' = true.
Proof.
  induction fuel as [|f IH]; intros c sp st s c' sp' st' s' H;
    [discriminate|].
  simpl in H. unfold bind at 1, isAtEnd in H.
  destruct (isAtEnd_at tokens s) eqn:Eend.
  { inversion H; subst. split; [reflexivity|exact Eend]. }
  unfold bind at 1, check at 1 in H.
  destruct (check_at tokens COMPONENT s) eqn:Ec.
  { unfold bind at 1 in H.
    destruct (parseComponent tokens f s) as [[x s1]|] eqn:E; [|discriminate].
    apply IH in H. destruct H as [H He]. split; [|exact He].
    pose proof (components_from_take (current s)
                  (proj2 (check_at_true _ _ _ Ec))) as Hone.
    destruct (parseComponent_rest tokens
                (fun i => components_from i = components_from (S (current s)))
                (components_step _) f s x s1 Ec eq_refl E)
      as [[comp ->] Hrest].
    rewrite push_opt_Some in H. lia. }
  destruct (parse_loop_other tokens
              (fun i => components_from i = components_from (current s))
              (components_step _) f s Eend Ec eq_refl
              (fun sp st => parse_loop tokens f c sp st) sp st _ _ H)
    as (sp1 & st1 & s1 & HP & H1).
  apply IH in H1. destruct H1 as [H1 He]. split; [|exact He].
  rewrite HP in H1. exact H1.
Qed.

(** Tokens of which only the last is EOF. *)
Definition EOF_last : Prop :=
  exists toks last, tokens = toks ++ [last] /\ type last = EOF
    /\ forall t, In t toks -> type t <> EOF.

Lemma at_end_no_components s :
  EOF_last -> isAtEnd_at tokens s = true -> components_from (current s) = 0.
Proof.
  intros (toks & last & Ht & Hl & Hin) He.
  unfold isAtEnd_at, peek_at in He.
  assert (Hty : type (token_at tokens (current s)) = EOF).
  { unfold TokenType_eqb in He.
    destruct (TokenType_eq_dec (type (token_at tokens (current s))) EOF);
      [assumption|discriminate]. }
  rewrite <- (components_from_skip (current s)) by (rewrite Hty; discriminate).
  unfold components_from. rewrite skipn_all2; [reflexivity|].
  destruct (Nat.ltb (current s) (List.length toks)) eqn:Elt.
  - apply Nat.ltb_lt in Elt. exfalso.
    unfold token_at in Hty. rewrite Ht in Hty.
    rewrite app_nth1 in Hty by exact Elt.
    apply (Hin (nth (current s) toks (undefinedToken))); [|exact Hty].
    apply nth_In. exact Elt.
  - apply Nat.ltb_ge in Elt. rewrite Ht, length_app. simpl. lia.
Qed.

Lemma run_parse_components fuel ast errs :
  EOF_last -> run_parse tokens fuel = Some (ast, errs) ->
  match ast with
  | Some p => List.length (components p) = count_type COMPONENT tokens
              /\ components p <> []
  | None => count_type COMPONENT tokens = 0
  end.
Proof.
  intros Hl H. unfold run_parse in H.
  destruct (parse_loop tokens fuel [] [] [] (Parser.mkState 0 []))
    as [[[[c sp] st] s']|] eqn:E; [|discriminate].
  apply parse_loop_components in E. destruct E as [E He].
  rewrite (at_end_no_components s' Hl He) in E. simpl in E.
  unfold components_from in E. simpl in E.
  inversion H; subst. destruct c as [|x c].
  - simpl in E. symmetry. lia.
  - simpl. split; [simpl in E; lia|discriminate].
Qed.

End ComponentKeywords.

Section ParsedComponents.
Import Lexer AST.

Lemma count_type_filter_tokens ty ts :
  Parser.structural (mkToken ty EmptyString 0 0) = false ->
  count_type ty (Parser.filter_tokens ts) = count_type ty ts.
Proof.
  intros Hty. unfold count_type, Parser.filter_tokens.
  induction ts as [|t ts IH]; [reflexivity|].
  simpl. destruct (Parser.structural t) eqn:Es; simpl.
  - unfold TokenType_eqb at 2.
    destruct (TokenType_eq_dec (type t) ty) as [E|E]; [|exact IH].
    exfalso. unfold Parser.structural in *. simpl in Hty. rewrite E in Es.
    congruence.
  - destruct (TokenType_eqb (type t) ty); simpl; rewrite IH; reflexivity.
Qed.

Lemma filter_tokens_EOF_last toks last :
  type last = EOF -> (forall t, In t toks -> type t <> EOF) ->
  EOF_last (Parser.filter_tokens (toks ++ [last])).
Proof.
  intros Hl Hin. exists (Parser.filter_tokens toks), last.
  split; [|split; [exact Hl|]].
  - unfold Parser.filter_tokens. rewrite filter_app. simpl.
    unfold Parser.structural. rewrite Hl. reflexivity.
  - intros t Ht. apply Hin. unfold Parser.filter_tokens in Ht.
    apply filter_In in Ht. tauto.
Qed.

Lemma tokenize_EOF_last input toks errs :
  tokenize input = Some (toks, errs) -> EOF_last (Parser.filter_tokens toks).
Proof.
  intros H. destruct (tokenize_shape input) as (ts & last & es & E & Hl & Hin).
  rewrite E in H. inversion H; subst.
  apply filter_tokens_EOF_last; [exact Hl|].
  intros t Ht. apply (Hin t Ht).
Qed.

Definition two_components : string :=
  Src.lines [ "component A:"; "  p"; "component B:"; "  state n = 1" ].

Definition tokens_two_components : list Token :=
  Eval vm_compute in
    match tokenize two_components with
    | Some (ts, _) => ts
    | None => []
    end.

Definition program_two_components : Program :=
  Eval vm_compute in
    match Parser.parse 60 tokens_two_components with
    | Some (Some p, _) => p
    | _ => mkProgram [] [] []
    end.

(** X3.  Whatever [parse] returns on the tokens of a source, the program
    has exactly one component per [component] keyword of the source, in
    whatever place the keyword stands; and [ast] is [null] exactly when the
    source has no [component] keyword. *)
Theorem X3_one_component_per_keyword
    (input : string) (toks : list Token) (lerrs : list LexerError)
    (fuel : nat) (ast : option Program) (perrs : list Parser.ParserError) :
  tokenize input = Some (toks, lerrs) ->
  Parser.parse fuel toks = Some (ast, perrs) ->
  match ast with
  | Some p => List.length (components p) = count_type COMPONENT toks
              /\ 0 < count_type COMPONENT toks
  | None => count_type COMPONENT toks = 0
  end.
Proof.
  intros Hl Hp. unfold Parser.parse in Hp.
  apply run_parse_components in Hp; [|exact (tokenize_EOF_last _ _ _ Hl)].
  rewrite count_type_filter_tokens in Hp by reflexivity.
  destruct ast as [p|]; [|exact Hp].
  destruct Hp as [Hc Hne]. split; [exact Hc|].
  destruct (components p); [contradiction|]. simpl in Hc. lia.
Qed.

Lemma X3_witness :
  List.length (components program_two_components) = 2.
Proof.
  apply (X3_one_component_per_keyword two_components tokens_two_components []
           60 (Some program_two_components) []); reflexivity.
Defined.

End ParsedComponents.

(** ** The cursor stays among the tokens *)

Section CursorBound.
Import Lexer AST Parser ParserFacts.
Local Open Scope parser_scope.

Variable tokens : list Token.
Hypothesis tokens_end : EOF_last tokens.

Definition inside (i : nat) : Prop := i < List.length tokens.

Lemma inside_step i :
  inside i -> type (token_at tokens i) <> EOF -> inside (S i).
Proof.
  destruct tokens_end as (toks & last & Ht & Hl & Hin).
  unfold inside, token_at. rewrite Ht, length_app. simpl. intros Hi Hne.
  destruct (Nat.eqb i (List.length toks)) eqn:E.
  - apply Nat.eqb_eq in E. subst i. rewrite nth_middle in Hne. contradiction.
  - apply Nat.eqb_neq in E. lia.
Qed.

Lemma inside_step' i :
  inside i -> type (token_at tokens i) <> EOF ->
  type (token_at tokens i) <> COMPONENT -> inside (S i).
Proof. intros H He _. apply inside_step; assumption. Qed.

Lemma at_end_last s :
  inside (current s) -> isAtEnd_at tokens s = true ->
  S (current s) = List.length tokens.
Proof.
  destruct tokens_end as (toks & last & Ht & Hl & Hin).
  unfold inside, isAtEnd_at, peek_at, token_at. rewrite Ht, length_app. simpl.
  intros Hi He.
  destruct (Nat.ltb (current s) (List.length toks)) eqn:E.
  - apply Nat.ltb_lt in E. rewrite app_nth1 in He by exact E.
    exfalso. apply (Hin (nth (current s) toks (undefinedToken))).
    + apply nth_In. exact E.
    + unfold TokenType_eqb in He.
      destruct (TokenType_eq_dec _ EOF); [assumption|discriminate].
  - apply Nat.ltb_ge in E. lia.
Qed.

Lemma parse_loop_inside fuel :
  forall c sp st s r s',
  inside (current s) ->
  parse_loop tokens fuel c sp st s = Some (r, s') ->
  inside (current s') /\ isAtEnd_at tokens s' = true.
Proof.
  induction fuel as [|f IH]; intros c sp st s r s' HP H; [discriminate|].
  simpl in H. unfold bind at 1, isAtEnd in H.
  destruct (isAtEnd_at tokens s) eqn:Eend.
  { inversion H; subst. split; assumption. }
  unfold bind at 1, check at 1 in H.
  destruct (check_at tokens COMPONENT s) eqn:Ec.
  { unfold bind at 1 in H.
    destruct (parseComponent tokens f s) as [[x s1]|] eqn:E; [|discriminate].
    assert (HS : inside (S (current s))).
    { apply inside_step; [exact HP|].
      unfold isAtEnd_at, peek_at, TokenType_eqb in Eend.
      destruct (TokenType_eq_dec (type (token_at tokens (current s))) EOF);
        [discriminate|assumption]. }
    destruct (parseComponent_rest tokens inside inside_step' f s x s1 Ec HS E)
      as [_ H1].
    apply (IH _ _ _ _ _ _ H1 H). }
  destruct (parse_loop_other tokens inside inside_step' f s Eend Ec HP
              (fun sp st => parse_loop tokens f c sp st) sp st _ _ H)
    as (sp1 & st1 & s1 & H1 & H2).
  apply (IH _ _ _ _ _ _ H1 H2).
Qed.

End CursorBound.

Section CursorBoundClaims.
Import Lexer AST Parser.

Definition cursor_after_two_components : State :=
  Eval vm_compute in
    match parse_loop (filter_tokens tokens_two_components) 60 [] [] []
            (Parser.mkState 0 []) with
    | Some (_, s) => s
    | None => Parser.mkState 0 []
    end.

(** X4.  On the tokens of a source, when the loop of [parse] returns
    the cursor is on the last token, the EOF: the parser has neither
    stopped before the end of the token list nor moved past it. *)
Theorem X4_parse_stops_on_EOF
    (input : string) (toks : list Token) (lerrs : list LexerError)
    (fuel : nat)
    (r : list ComponentNode * list SpaceNode * list StyleNode) (s' : State) :
  tokenize input = Some (toks, lerrs) ->
  parse_loop (filter_tokens toks) fuel [] [] [] (Parser.mkState 0 [])
  = Some (r, s') ->
  S (current s') = List.length (filter_tokens toks).
Proof.
  intros Hl H.
  pose proof (tokenize_EOF_last _ _ _ Hl) as Hend.
  assert (H0 : inside (filter_tokens toks) (current (Parser.mkState 0 []))).
  { destruct Hend as (ts & last & Ht & _). unfold inside. rewrite Ht.
    rewrite length_app. simpl. lia. }
  destruct (parse_loop_inside (filter_tokens toks) Hend fuel [] [] []
              (Parser.mkState 0 []) r s' H0 H) as [Hi He].
  apply (at_end_last (filter_tokens toks) Hend s' Hi He).
Qed.

Lemma X4_witness :
  S (current cursor_after_two_components)
  = List.length (filter_tokens tokens_two_components).
Proof.
  apply (X4_parse_stops_on_EOF two_components tokens_two_components [] 60
           (AST.components program_two_components, [], [])
           cursor_after_two_components); reflexivity.
Defined.

End CursorBoundClaims.

(** ** The rule loop of a style block *)

Section StyleBlocks.
Import Lexer AST Parser ParserFacts.
Local Open Scope parser_scope.

Variable tokens : list Token.

Local Arguments match_ : simpl never.

(** The token types on which an iteration of the rule loop of
    [parseStyle] neither stops nor consumes anything. *)
Definition stray (t : TokenType) : bool :=
  match t with
  | EOF | COMPONENT | SPACE | STYLE | DOT | IDENTIFIER | COLON => false
  | _ => true
  end.

Lemma check_at_type t s :
  check_at tokens t s
  = negb (TokenType_eqb (type (peek_at tokens s)) EOF)
    && TokenType_eqb (type (peek_at tokens s)) t.
Proof.
  unfold check_at, isAtEnd_at.
  destruct (TokenType_eqb (type (peek_at tokens s)) EOF); reflexivity.
Qed.

Lemma check_at_moved t s errs :
  check_at tokens t (Parser.mkState (current s) errs) = check_at tokens t s.
Proof. reflexivity. Qed.

Lemma check_exclusive t t' s :
  check_at tokens t s = true -> t' <> t -> check_at tokens t' s = false.
Proof.
  intros H Hne. destruct (check_at_true _ _ _ H) as [He Ht].
  unfold check_at. rewrite He. unfold TokenType_eqb.
  destruct (TokenType_eq_dec _ t'); [congruence|reflexivity].
Qed.

Lemma match_one t s :
  match_ tokens [t] s
  = if check_at tokens t s
    then Some (true, Parser.mkState (S (current s)) (errors s))
    else Some (false, s).
Proof. rewrite match_cons. reflexivity. Qed.

Lemma consume_missing t msg s :
  check_at tokens t s = false ->
  consume tokens t msg s
  = Some (peek_at tokens s,
          Parser.mkState (current s)
            (errors s ++ [mkParserError msg (line (peek_at tokens s))
                            (column (peek_at tokens s)) SevError])).
Proof.
  intros H. unfold consume. unfold bind at 1. unfold check. rewrite H.
  reflexivity.
Qed.

Lemma stray_checks s :
  stray (type (peek_at tokens s)) = true ->
  isAtEnd_at tokens s = false
  /\ check_at tokens COMPONENT s = false /\ check_at tokens SPACE s = false
  /\ check_at tokens STYLE s = false /\ check_at tokens DOT s = false
  /\ check_at tokens IDENTIFIER s = false /\ check_at tokens COLON s = false.
Proof.
  intros H. rewrite !check_at_type. unfold isAtEnd_at.
  destruct (type (peek_at tokens s)); try discriminate H;
    repeat split; reflexivity.
Qed.

Lemma stray_moved s errs :
  stray (type (peek_at tokens s)) = true ->
  stray (type (peek_at tokens (Parser.mkState (current s) errs))) = true.
Proof. intros H. exact H. Qed.

Lemma parseStyleProperties_stops fuel props s :
  check_at tokens IDENTIFIER s = false ->
  parseStyleProperties tokens (S fuel) props s = Some (props, s).
Proof.
  intros H. simpl. unfold bind, isAtEnd, check. rewrite H.
  rewrite andb_false_r. reflexivity.
Qed.

(** On a stray token the rule loop never ends. *)
Lemma parseStyleRules_spins fuel : forall rules s,
  stray (type (peek_at tokens s)) = true ->
  parseStyleRules tokens fuel rules s = None.
Proof.
  induction fuel as [|f IH]; intros rules s H; [reflexivity|].
  destruct (stray_checks s H) as (He & Hc & Hsp & Hst & Hd & Hi & Hco).
  simpl. unfold bind at 1, isAtEnd. unfold bind at 1, check at 1.
  unfold bind at 1, check at 1. unfold bind at 1, check at 1.
  rewrite He, Hc, Hsp, Hst. cbn [negb andb].
  unfold bind at 1. rewrite (consume_missing _ _ _ Hd).
  unfold bind at 1. rewrite consume_missing by exact Hi.
  unfold bind at 1. rewrite consume_missing by exact Hco.
  unfold bind at 1. destruct f as [|f']; [reflexivity|].
  rewrite parseStyleProperties_stops by exact Hi.
  apply IH. exact H.
Qed.

Lemma parseStyle_spins fuel s :
  check_at tokens STYLE s = true ->
  type (token_at tokens (current s + 1)) = COLON ->
  stray (type (token_at tokens (current s + 2))) = true ->
  parseStyle tokens fuel s = None.
Proof.
  intros Hs Hc Ht. rewrite Nat.add_1_r in Hc.
  replace (current s + 2) with (S (S (current s))) in Ht by lia.
  unfold parseStyle. unfold bind at 1.
  rewrite match_one, Hs. unfold bind at 1, previous.
  set (s1 := Parser.mkState (S (current s)) (errors s)).
  assert (Hcolon : check_at tokens COLON s1 = true).
  { rewrite check_at_type. unfold peek_at. simpl. rewrite Hc. reflexivity. }
  assert (He : isAtEnd_at tokens s1 = false)
    by apply (check_at_true _ _ _ Hcolon).
  unfold bind at 1. unfold consume. unfold bind at 1, check. rewrite Hcolon.
  unfold advance. rewrite He.
  unfold bind at 1. rewrite parseStyleRules_spins; [reflexivity|].
  exact Ht.
Qed.

Lemma parse_loop_style_spins fuel s c sp st :
  check_at tokens STYLE s = true ->
  parseStyle tokens (fuel - 1) s = None ->
  parse_loop tokens fuel c sp st s = None.
Proof.
  intros Hs Hn. destruct fuel as [|f]; [reflexivity|].
  simpl in Hn. rewrite Nat.sub_0_r in Hn.
  simpl. unfold bind at 1, isAtEnd.
  rewrite (proj1 (check_at_true _ _ _ Hs)).
  unfold bind at 1, check at 1.
  rewrite (check_exclusive STYLE COMPONENT s Hs) by discriminate.
  unfold bind at 1, check at 1.
  rewrite (check_exclusive STYLE SPACE s Hs) by discriminate.
  unfold bind at 1, check at 1. rewrite Hs.
  unfold bind at 1. rewrite Hn. reflexivity.
Qed.

Lemma parseComponentBody_style_spins fuel s p :
  check_at tokens STYLE s = true ->
  parseStyle tokens (fuel - 1) s = None ->
  parseComponentBody tokens fuel p s = None.
Proof.
  intros Hs Hn. destruct fuel as [|f]; [reflexivity|].
  simpl in Hn. rewrite Nat.sub_0_r in Hn.
  simpl. unfold bind at 1, isAtEnd.
  rewrite (proj1 (check_at_true _ _ _ Hs)).
  unfold bind at 1, check at 1.
  rewrite (check_exclusive STYLE COMPONENT s Hs) by discriminate.
  cbn [negb andb]. destruct p.
  repeat (unfold bind at 1; rewrite match_one;
          rewrite (check_exclusive STYLE _ s Hs) by discriminate).
  unfold bind at 1, check at 1. rewrite Hs.
  unfold bind at 1. rewrite Hn. reflexivity.
Qed.

End StyleBlocks.

Section StyleBlockClaims.
Import Lexer AST Parser.

(** X5.  The rule loop of [parseStyle] never ends once an iteration starts
    on a token that is neither [.], an identifier, [:], [component],
    [space], [style] nor the end of input: the three [consume] calls fail
    without consuming.  So a [style :] followed by such a token, at top
    level or inside a component, makes the parser run forever (no budget
    lets [parseStyle], [parseComponentBody] or the loop of [parse]
    return). *)
Theorem X5_stray_token_in_style_block_hangs (tokens : list Token) (fuel : nat) :
  (forall rules s,
     stray (type (peek_at tokens s)) = true ->
     parseStyleRules tokens fuel rules s = None)
  /\ (forall s,
        check_at tokens STYLE s = true ->
        type (token_at tokens (current s + 1)) = COLON ->
        stray (type (token_at tokens (current s + 2))) = true ->
        parseStyle tokens fuel s = None
        /\ (forall p, parseComponentBody tokens fuel p s = None)
        /\ (forall c sp st, parse_loop tokens fuel c sp st s = None)).
Proof.
  split; [intros rules s H; apply parseStyleRules_spins; exact H|].
  intros s Hs Hc Ht. split; [apply parseStyle_spins; assumption|]. split.
  - intros p. apply parseComponentBody_style_spins; [exact Hs|].
    apply parseStyle_spins; assumption.
  - intros c sp st. apply parse_loop_style_spins; [exact Hs|].
    apply parseStyle_spins; assumption.
Qed.

Definition component_style_number : string :=
  Src.lines [ "component C:"; "  style:"; "    .a:"; "      width: 5 5" ].

Definition tokens_component_style_number : list Token :=
  Eval vm_compute in
    match tokenize component_style_number with
    | Some (ts, _) => filter_tokens ts
    | None => []
    end.

Lemma X5_witness :
  parseStyleRules tokens_component_style_number 1000
    [mkStyleRule ".a" [("width", StyleText "5")]]
    (Parser.mkState 11 []) = None.
Proof.
  apply (proj1 (X5_stray_token_in_style_block_hangs
                  tokens_component_style_number 1000)).
  reflexivity.
Defined.

End StyleBlockClaims.

(** ** Expressions that are not there *)

Section MissingExpression.
Import Lexer AST Parser ParserFacts.
Local Open Scope parser_scope.

Variable tokens : list Token.

Local Arguments match_ : simpl never.

(** The token types an expression can start with or go on with. *)
Definition expression_token (t : TokenType) : bool :=
  match t with
  | NUMBER | STRING | BOOLEAN | IDENTIFIER | LBRACKET | LPAREN
  | BANG | MINUS | DOT | STAR | SLASH | PLUS | LT | GT | LE | GE | EQ | NE
  | AND | OR | QUESTION => true
  | _ => false
  end.

Lemma match_none ops s :
  (forall t, In t ops -> check_at tokens t s = false) ->
  match_ tokens ops s = Some (false, s).
Proof.
  induction ops as [|t ops IH]; intros H; [reflexivity|].
  rewrite match_cons, (H t) by (left; reflexivity).
  apply IH. intros t' Ht'. apply H. right. exact Ht'.
Qed.

Lemma no_expression_check s t :
  expression_token (type (peek_at tokens s)) = false ->
  expression_token t = true ->
  check_at tokens t s = false.
Proof.
  intros H Ht. unfold check_at.
  destruct (isAtEnd_at tokens s); [reflexivity|].
  unfold TokenType_eqb.
  destruct (TokenType_eq_dec (type (peek_at tokens s)) t) as [E|E];
    [|reflexivity].
  rewrite E in H. congruence.
Qed.

Lemma no_expression_match s ops :
  expression_token (type (peek_at tokens s)) = false ->
  forallb expression_token ops = true ->
  match_ tokens ops s = Some (false, s).
Proof.
  intros H Hops. apply match_none. intros t Ht.
  apply (no_expression_check s t H).
  rewrite forallb_forall in Hops. apply Hops. exact Ht.
Qed.

(** The literal [parsePrimary] puts where it found no expression. *)
Definition placeholder (token : Token) : Expression :=
  Literal (LNumber "0") "0" (line token) (column token).

Definition expected_expression (s : State) : State :=
  Parser.mkState (current s)
    (errors s ++ [mkParserError "Expected expression"
                    (line (peek_at tokens s)) (column (peek_at tokens s))
                    SevError]).

Lemma binaryLevel_none ops operand loop left s :
  expression_token (type (peek_at tokens s)) = false ->
  forallb expression_token ops = true ->
  binaryLevel tokens ops operand loop left s = Some (left, s).
Proof.
  intros H Hops. unfold binaryLevel. unfold bind.
  rewrite (no_expression_match s ops H Hops). reflexivity.
Qed.

Lemma parsePrimary_none f s :
  expression_token (type (peek_at tokens s)) = false ->
  parsePrimary tokens (S f) s
  = Some (placeholder (peek_at tokens s), expected_expression s).
Proof.
  intros H. simpl. unfold bind at 1, peek.
  repeat (unfold bind at 1;
          rewrite (no_expression_match s _ H) by reflexivity).
  reflexivity.
Qed.

Lemma parsePostfix_none f s :
  expression_token (type (peek_at tokens s)) = false ->
  parsePostfix tokens (S (S f)) s
  = Some (placeholder (peek_at tokens s), expected_expression s).
Proof.
  intros H. change (parsePostfix tokens (S (S f)))
    with (expr <- parsePrimary tokens (S f) ;;
          parsePostfix_loop tokens (S f) expr).
  unfold bind at 1. rewrite parsePrimary_none by exact H.
  simpl.
  repeat (unfold bind at 1;
          rewrite (no_expression_match (expected_expression s) _ H)
            by reflexivity).
  reflexivity.
Qed.

Lemma level_none (operand : M Expression) ops next loop s e s1 :
  operand s = Some (e, s1) ->
  expression_token (type (peek_at tokens s1)) = false ->
  forallb expression_token ops = true ->
  (left <- operand ;; binaryLevel tokens ops next loop left) s = Some (e, s1).
Proof.
  intros Ho H Hops. unfold bind at 1. rewrite Ho.
  apply binaryLevel_none; assumption.
Qed.

Lemma parseUnary_none f s :
  expression_token (type (peek_at tokens s)) = false ->
  parseUnary tokens (S (S (S f))) s
  = Some (placeholder (peek_at tokens s), expected_expression s).
Proof.
  intros H. change (parseUnary tokens (S (S (S f))))
    with (m <- match_ tokens [BANG; MINUS] ;;
          if m then
            operator <- previous tokens ;;
            argument <- parseUnary tokens (S (S f)) ;;
            ret (UnaryExpression (value operator) argument
                   (line operator) (column operator))
          else parsePostfix tokens (S (S f))).
  unfold bind at 1. rewrite (no_expression_match s _ H) by reflexivity.
  apply parsePostfix_none. exact H.
Qed.

(** Where the next token can neither start nor continue an expression
    (the end of input included), [parseExpression] consumes nothing,
    records one error and returns the literal 0. *)
Lemma parseExpression_none f s :
  expression_token (type (peek_at tokens s)) = false ->
  parseExpression tokens (11 + f) s
  = Some (placeholder (peek_at tokens s), expected_expression s).
Proof.
  intros H.
  assert (H1 : expression_token (type (peek_at tokens (expected_expression s)))
               = false) by exact H.
  change (parseExpression tokens (11 + f)) with (parseTernary tokens (10 + f)).
  change (parseTernary tokens (10 + f))
    with (expr <- parseLogicalOr tokens (9 + f) ;;
          m <- match_ tokens [QUESTION] ;;
          if m then
            question <- previous tokens ;;
            consequent <- parseExpression tokens (9 + f) ;;
            consume tokens COLON "Expected : in conditional expression" ;;;
            alternate <- parseTernary tokens (9 + f) ;;
            ret (ConditionalExpression expr consequent alternate
                   (line question) (column question))
          else ret expr).
  assert (Hor : parseLogicalOr tokens (9 + f) s
                = Some (placeholder (peek_at tokens s), expected_expression s)).
  { change (parseLogicalOr tokens (9 + f))
      with (left <- parseLogicalAnd tokens (8 + f) ;;
            binaryLevel tokens [OR] (parseLogicalAnd tokens (7 + f))
              (parseLogicalOr_loop tokens (7 + f)) left).
    apply level_none; [|exact H1|reflexivity].
    change (parseLogicalAnd tokens (8 + f))
      with (left <- parseEquality tokens (7 + f) ;;
            binaryLevel tokens [AND] (parseEquality tokens (6 + f))
              (parseLogicalAnd_loop tokens (6 + f)) left).
    apply level_none; [|exact H1|reflexivity].
    change (parseEquality tokens (7 + f))
      with (left <- parseComparison tokens (6 + f) ;;
            binaryLevel tokens [EQ; NE] (parseComparison tokens (5 + f))
              (parseEquality_loop tokens (5 + f)) left).
    apply level_none; [|exact H1|reflexivity].
    change (parseComparison tokens (6 + f))
      with (left <- parseAdditive tokens (5 + f) ;;
            binaryLevel tokens [LT; GT; LE; GE] (parseAdditive tokens (4 + f))
              (parseComparison_loop tokens (4 + f)) left).
    apply level_none; [|exact H1|reflexivity].
    change (parseAdditive tokens (5 + f))
      with (left <- parseMultiplicative tokens (4 + f) ;;
            binaryLevel tokens [PLUS; MINUS]
              (parseMultiplicative tokens (3 + f))
              (parseAdditive_loop tokens (3 + f)) left).
    apply level_none; [|exact H1|reflexivity].
    change (parseMultiplicative tokens (4 + f))
      with (left <- parseUnary tokens (3 + f) ;;
            binaryLevel tokens [STAR; SLASH] (parseUnary tokens (2 + f))
              (parseMultiplicative_loop tokens (2 + f)) left).
    apply level_none; [|exact H1|reflexivity].
    apply parseUnary_none. exact H. }
  unfold bind at 1. rewrite Hor.
  unfold bind at 1.
  rewrite (no_expression_match (expected_expression s) _ H1) by reflexivity.
  reflexivity.
Qed.

Lemma parseState_none f s :
  check_at tokens IDENTIFIER s = true ->
  type (token_at tokens (current s + 1)) = EQUALS ->
  expression_token (type (token_at tokens (current s + 2))) = false ->
  exists name e s1,
    parseState tokens (11 + f) s = Some (Some (AST.mkState name e
                                                 (line (previous_at tokens s))
                                                 (column (previous_at tokens s))),
                                         s1)
    /\ e = placeholder (token_at tokens (current s + 2))
    /\ current s1 = current s + 2
    /\ List.length (errors s1) = S (List.length (errors s)).
Proof.
  intros Hi He Hx. rewrite Nat.add_1_r in He.
  replace (current s + 2) with (S (S (current s))) in * by lia.
  unfold parseState. unfold bind at 1, previous.
  set (s1 := Parser.mkState (S (current s)) (errors s)).
  set (s2 := Parser.mkState (S (S (current s))) (errors s)).
  assert (Hc1 : consume tokens IDENTIFIER "Expected state name" s
                = Some (peek_at tokens s, s1)).
  { unfold consume. unfold bind at 1, check. rewrite Hi. unfold advance.
    rewrite (proj1 (check_at_true _ _ _ Hi)). unfold previous_at. simpl.
    rewrite ?Nat.sub_0_r. reflexivity. }
  assert (Heq : check_at tokens EQUALS s1 = true).
  { unfold check_at, isAtEnd_at, peek_at. simpl. rewrite He. reflexivity. }
  assert (Hc2 : consume tokens EQUALS "Expected = after state name" s1
                = Some (peek_at tokens s1, s2)).
  { unfold consume. unfold bind at 1, check. rewrite Heq. unfold advance.
    rewrite (proj1 (check_at_true _ _ _ Heq)). unfold previous_at. simpl.
    rewrite ?Nat.sub_0_r. reflexivity. }
  unfold bind at 1. rewrite Hc1. unfold bind at 1. rewrite Hc2.
  unfold bind at 1. rewrite (parseExpression_none f s2) by exact Hx.
  eexists. eexists. eexists. split; [reflexivity|].
  split; [reflexivity|]. split; [reflexivity|].
  simpl. rewrite length_app. simpl. lia.
Qed.

End MissingExpression.

Section MissingExpressionClaims.
Import Lexer AST Parser.

Definition state_without_value : string :=
  Src.lines [ "component C:"; "  state x ="; "  state y = 1" ].

Definition tokens_state_without_value : list Token :=
  Eval vm_compute in
    match tokenize state_without_value with
    | Some (ts, _) => filter_tokens ts
    | None => []
    end.

End MissingExpressionClaims.

(** ** Dependencies of a computed value *)

Section Dependencies.
Import AST Parser.

Section ExpressionInduction.
Variable P : Expression -> Prop.
Hypothesis HIdentifier : forall name l c, P (Identifier name l c).
Hypothesis HLiteral : forall v raw l c, P (Literal v raw l c).
Hypothesis HBinary : forall op a b l c,
  P a -> P b -> P (BinaryExpression op a b l c).
Hypothesis HUnary : forall op a l c, P a -> P (UnaryExpression op a l c).
Hypothesis HCall : forall callee args l c,
  P callee -> Forall P args -> P (CallExpression callee args l c).
Hypothesis HMember : forall obj prop computed l c,
  P obj -> P prop -> P (MemberExpression obj prop computed l c).
Hypothesis HArray : forall elements l c,
  Forall P elements -> P (ArrayExpression elements l c).
Hypothesis HConditional : forall t a b l c,
  P t -> P a -> P b -> P (ConditionalExpression t a b l c).

Fixpoint Expression_induction (e : Expression) : P e :=
  match e with
  | Identifier name l c => HIdentifier name l c
  | Literal v raw l c => HLiteral v raw l c
  | BinaryExpression op a b l c =>
      HBinary op a b l c (Expression_induction a) (Expression_induction b)
  | UnaryExpression op a l c => HUnary op a l c (Expression_induction a)
  | CallExpression callee args l c =>
      HCall callee args l c (Expression_induction callee)
        ((fix all (es : list Expression) : Forall P es :=
            match es with
            | [] => Forall_nil P
            | x :: es' => Forall_cons x (Expression_induction x) (all es')
            end) args)
  | MemberExpression obj prop computed l c =>
      HMember obj prop computed l c (Expression_induction obj)
        (Expression_induction prop)
  | ArrayExpression elements l c =>
      HArray elements l c
        ((fix all (es : list Expression) : Forall P es :=
            match es with
            | [] => Forall_nil P
            | x :: es' => Forall_cons x (Expression_induction x) (all es')
            end) elements)
  | ConditionalExpression t a b l c =>
      HConditional t a b l c (Expression_induction t) (Expression_induction a)
        (Expression_induction b)
  end.

End ExpressionInduction.

(** The identifier [x] stands in [e] where [walk] looks: below binary
    operators, in the object of a member access, in the callee and the
    arguments of a call. *)
Inductive tracked (x : string) : Expression -> Prop :=
  | tracked_identifier l c : tracked x (Identifier x l c)
  | tracked_left op a b l c :
      tracked x a -> tracked x (BinaryExpression op a b l c)
  | tracked_right op a b l c :
      tracked x b -> tracked x (BinaryExpression op a b l c)
  | tracked_object obj prop computed l c :
      tracked x obj -> tracked x (MemberExpression obj prop computed l c)
  | tracked_callee callee args l c :
      tracked x callee -> tracked x (CallExpression callee args l c)
  | tracked_argument callee args a l c :
      In a args -> tracked x a -> tracked x (CallExpression callee args l c).

Lemma walk_tracked x e : In x (walk e) <-> tracked x e.
Proof.
  induction e using Expression_induction; simpl.
  - split.
    + intros [E|[]]. subst. constructor.
    + intros H. inversion H. left. reflexivity.
  - split; [intros []|intros H; inversion H].
  - rewrite in_app_iff, IHe1, IHe2. split.
    + intros [H|H]; [apply tracked_left|apply tracked_right]; exact H.
    + intros H. inversion H; subst; [left|right]; assumption.
  - split; [intros []|intros H; inversion H].
  - rewrite in_app_iff, IHe, in_flat_map. split.
    + intros [Hc|(a & Ha & Hx)]; [apply tracked_callee; exact Hc|].
      apply (tracked_argument x e args a); [exact Ha|].
      rewrite Forall_forall in H. apply (H a Ha). exact Hx.
    + intros Ht. inversion Ht; subst; [left; assumption|].
      right. exists a. split; [assumption|].
      rewrite Forall_forall in H. apply (H a); assumption.
  - rewrite IHe1. split.
    + intros H. apply tracked_object. exact H.
    + intros H. inversion H. assumption.
  - split; [intros []|intros Ht; inversion Ht].
  - split; [intros []|intros Ht; inversion Ht].
Qed.

Lemma dedupe_In seen l x :
  In x (dedupe seen l) <-> In x l /\ ~ In x seen.
Proof.
  revert seen. induction l as [|y l IH]; intros seen; simpl.
  - tauto.
  - destruct (existsb (String.eqb y) seen) eqn:E.
    + rewrite IH. apply existsb_exists in E. destruct E as (z & Hz & Ez).
      apply String.eqb_eq in Ez. subst z. split.
      * intros [H1 H2]. tauto.
      * intros [[H1|H1] H2]; [subst; contradiction|tauto].
    + assert (Hy : ~ In y seen).
      { intros Hy. assert (existsb (String.eqb y) seen = true).
        { apply existsb_exists. exists y. split; [exact Hy|].
          apply String.eqb_refl. }
        congruence. }
      simpl. rewrite IH. simpl. split.
      * intros [H|[H1 H2]]; [subst; tauto|tauto].
      * intros [[H|H] H2]; [left; exact H|].
        destruct (string_dec y x); [left; assumption|right; tauto].
Qed.

Lemma dedupe_NoDup seen l : NoDup (dedupe seen l).
Proof.
  revert seen. induction l as [|y l IH]; intros seen; simpl.
  - constructor.
  - destruct (existsb (String.eqb y) seen); [apply IH|].
    constructor; [|apply IH].
    rewrite dedupe_In. simpl. tauto.
Qed.

(** X7.  [extractDependencies] lists every identifier that stands below
    binary operators, in the object of a member access or in the callee
    or the arguments of a call, each once; identifiers below a unary
    operator, in a conditional, in an array literal or in a computed
    property are not among the dependencies. *)
Theorem X7_dependencies_are_the_tracked_identifiers (e : Expression) :
  NoDup (extractDependencies e)
  /\ forall x, In x (extractDependencies e) <-> tracked x e.
Proof.
  unfold extractDependencies. split; [apply dedupe_NoDup|].
  intros x. rewrite dedupe_In, walk_tracked. simpl. tauto.
Qed.

End Dependencies.

(** ** The formatter comes to an end *)

Section FormatterFacts.
Import Lexer Formatter.

Variable tokens : list Token.

(** [r] is not the exhausted budget, and an index it returns is at
    least [lo]. *)
Definition fine {A : Type} (lo : nat) (r : Result (nat * A)) : Prop :=
  match r with
  | Returned (j, _) => lo <= j
  | TypeError => True
  | OutOfFuel => False
  end.

Lemma fine_weaken {A} lo lo' (r : Result (nat * A)) :
  lo' <= lo -> fine lo r -> fine lo' r.
Proof. destruct r as [[j a]| |]; simpl; intros; [lia|trivial|assumption]. Qed.

Lemma at_lt i t : at_ tokens i = Some t -> i < List.length tokens.
Proof.
  unfold at_. intros H. apply nth_error_Some. congruence.
Qed.

Lemma collect_go_ge stop ts i :
  i <= snd (collect_go stop ts i).
Proof.
  revert i. induction ts as [|t ts IH]; intros i; simpl; [lia|].
  destruct (stop t); simpl; [lia|].
  specialize (IH (S i)). destruct (collect_go stop ts (S i)). simpl in *. lia.
Qed.

Lemma collect_ge stop i : i <= snd (collect tokens stop i).
Proof. apply collect_go_ge. Qed.

Lemma fine_formatAssignment prefix infix start st :
  fine (start + 3) (formatAssignment tokens prefix infix start st).
Proof.
  unfold formatAssignment.
  pose proof (collect_ge isStatementEnd (start + 1 + 1 + 1)) as H.
  destruct (collect tokens isStatementEnd (start + 1 + 1 + 1)) as [c j].
  destruct (at_ tokens (start + 1)); simpl in *; [lia|trivial].
Qed.

Lemma effectDeps_go_ge ts : forall i deps d j,
  effectDeps_go ts i deps = Some (d, j) -> i <= j.
Proof.
  induction ts as [|t ts IH]; intros i deps d j H; simpl in H;
    [discriminate|].
  destruct (TokenType_eqb (type t) RPAREN).
  - inversion H. lia.
  - apply IH in H. lia.
Qed.

Lemma fine_formatEffect start st :
  fine (start + 4) (formatEffect tokens start st).
Proof.
  unfold formatEffect.
  destruct (effectDeps_go (skipn (start + 1 + 1) tokens) (start + 1 + 1) [])
    as [[d j]|] eqn:E; simpl; [|trivial].
  apply effectDeps_go_ge in E. lia.
Qed.

Lemma fine_animationProperties fuel : forall i st,
  List.length tokens - i < fuel ->
  fine i (animationProperties tokens fuel i st).
Proof.
  induction fuel as [|f IH]; intros i st H; [lia|].
  simpl. destruct (at_ tokens i) as [t|] eqn:Et; [|simpl; lia].
  apply at_lt in Et.
  destruct (TokenType_eqb (type t) IDENTIFIER); [|simpl; lia].
  match goal with
  | |- context [collect tokens ?stop ?k] =>
      pose proof (collect_ge stop k) as Hc;
      destruct (collect tokens stop k) as [c j]
  end.
  simpl in Hc.
  destruct (at_ tokens j) as [t'|]; [|exact I].
  destruct (TokenType_eqb (type t') COMMA); [|simpl; lia].
  eapply fine_weaken; [|apply IH; lia]. lia.
Qed.

Lemma fine_formatAnimation start st :
  fine (start + 3) (formatAnimation tokens start st).
Proof.
  unfold formatAnimation.
  destruct (at_ tokens (start + 1)) as [t|] eqn:Et; [|exact I].
  apply at_lt in Et.
  match goal with
  | |- context [animationProperties tokens ?fu ?k ?s] =>
      pose proof (fine_animationProperties fu k s) as H;
      destruct (animationProperties tokens fu k s) as [[j st']| |]
  end; simpl in *; [|exact I|apply H; lia].
  assert (start + 1 + 1 + 1 <= j) by (apply H; lia). lia.
Qed.

Lemma fine_formatKeywordValue prefix start st :
  fine (start + 2) (formatKeywordValue tokens prefix start st).
Proof.
  unfold formatKeywordValue.
  destruct (at_ tokens (start + 1)); simpl; [lia|trivial].
Qed.

Lemma fine_elementAttrs fuel : forall i attrs,
  List.length tokens - i < fuel ->
  fine i (elementAttrs tokens fuel i attrs).
Proof.
  induction fuel as [|f IH]; intros i attrs H; [lia|].
  simpl. destruct (at_ tokens i) as [t|] eqn:Et; [|simpl; lia].
  apply at_lt in Et.
  destruct (at_ tokens (i + 1)) as [t1|]; [|simpl; lia].
  destruct (TokenType_eqb (type t) IDENTIFIER && TokenType_eqb (type t1) EQUALS);
    [|simpl; lia].
  destruct (at_ tokens (i + 2)); [|exact I].
  eapply fine_weaken; [|apply IH; lia]. lia.
Qed.

Lemma fine_elements fuel :
  (forall i st, 2 * (List.length tokens - i) + 1 <= fuel ->
     fine (S i) (formatElement tokens fuel i st))
  /\ (forall i st, 2 * (List.length tokens - i) + 2 <= fuel ->
        fine i (nestedElements tokens fuel i st)).
Proof.
  induction fuel as [|f [IHe IHn]]; [split; intros; lia|]. split.
  - intros i st H. simpl.
    destruct (at_ tokens i) as [tag|] eqn:Et; [|exact I].
    apply at_lt in Et.
    pose proof (fine_elementAttrs (List.length tokens) (i + 1) []) as Ha.
    destruct (elementAttrs tokens (List.length tokens) (i + 1) [])
      as [[j attrs]| |]; simpl in Ha; [|exact I|apply Ha; lia].
    assert (Hj : i + 1 <= j) by (apply Ha; lia). clear Ha.
    destruct (at_ tokens j) as [t|] eqn:Ej; [|simpl; lia].
    apply at_lt in Ej.
    destruct (TokenType_eqb (type t) COLON); [|simpl; lia].
    destruct (at_ tokens (j + 1)) as [content|]; [|exact I].
    destruct (TokenType_eqb (type content) STRING); [simpl; lia|].
    match goal with
    | |- context [nestedElements tokens f ?k ?s] =>
        pose proof (IHn k s) as Hn;
        destruct (nestedElements tokens f k s) as [[j' st']| |]
    end; simpl in *; [|exact I|apply Hn; lia].
    assert (j + 1 <= j') by (apply Hn; lia). lia.
  - intros i st H. simpl.
    destruct (at_ tokens i) as [t|] eqn:Et; [|simpl; lia].
    apply at_lt in Et.
    destruct (TokenType_eqb (type t) IDENTIFIER); [|simpl; lia].
    pose proof (IHe i st) as He.
    destruct (formatElement tokens f i st) as [[j st']| |];
      simpl in He; [|exact I|apply He; lia].
    assert (Hj : S i <= j) by (apply He; lia).
    eapply fine_weaken; [|apply IHn; lia]. lia.
Qed.

Lemma fine_continue {A} lo (r : Result (nat * State))
    (k : nat -> State -> Result (nat * A)) :
  fine (S lo) r ->
  (forall j st, S lo <= j -> fine j (k j st)) ->
  fine lo (match r with
           | Returned (j, st) => k j st
           | TypeError => TypeError
           | OutOfFuel => OutOfFuel
           end).
Proof.
  intros Hr Hk. destruct r as [[j st]| |]; simpl in *;
    [|exact I|exact Hr].
  eapply fine_weaken; [|apply Hk; exact Hr]. lia.
Qed.

Lemma fine_componentBody fuel : forall i st,
  2 * (List.length tokens - i) + 2 <= fuel ->
  fine i (componentBody tokens fuel i st).
Proof.
  induction fuel as [|f IH]; intros i st H; [lia|].
  simpl. destruct (at_ tokens i) as [token|] eqn:Et; [|simpl; lia].
  apply at_lt in Et.
  assert (Hk : forall j st', S i <= j -> fine j (componentBody tokens f j st'))
    by (intros j st' Hj; apply IH; lia).
  assert (Hnext : fine i (componentBody tokens f (i + 1) st))
    by (eapply fine_weaken; [|apply IH; lia]; lia).
  destruct (type token); try exact Hnext; try (simpl; lia);
    apply fine_continue; try exact Hk.
  all: try (eapply fine_weaken;
              [|first [ apply fine_formatAssignment | apply fine_formatEffect
                      | apply fine_formatAnimation
                      | apply fine_formatKeywordValue ]]; lia).
  apply fine_elements. lia.
Qed.

Lemma fine_formatComponent fuel start st :
  2 * (List.length tokens - (start + 2)) + 2 <= fuel ->
  fine (start + 2) (formatComponent tokens fuel start st).
Proof.
  intros H. unfold formatComponent.
  destruct (at_ tokens (start + 1)) as [n|]; [|exact I].
  match goal with
  | |- context [componentBody tokens fuel ?k ?s] =>
      pose proof (fine_componentBody fuel k s) as Hb;
      destruct (componentBody tokens fuel k s) as [[j st']| |]
  end; simpl in *; [|exact I|apply Hb; lia].
  assert (start + 1 + 1 <= j) by (apply Hb; lia). lia.
Qed.

(** The main loop is not stopped by the budget. *)
Lemma format_loop_ends fuel : forall i st,
  2 * (List.length tokens - i) + 2 <= fuel ->
  format_loop tokens fuel i st <> OutOfFuel.
Proof.
  induction fuel as [|f IH]; intros i st H; [lia|].
  simpl. destruct (at_ tokens i) as [token|] eqn:Et; [|discriminate].
  apply at_lt in Et.
  assert (Hnext : format_loop tokens f (i + 1) st <> OutOfFuel)
    by (apply IH; lia).
  destruct (type token); try exact Hnext; try discriminate.
  pose proof (fine_formatComponent f i st) as Hc.
  destruct (formatComponent tokens f i st) as [[j st']| |];
    simpl in Hc; [|discriminate|exfalso; apply Hc; lia].
  apply IH. assert (i + 2 <= j) by (apply Hc; lia). lia.
Qed.

(** Without a [component] keyword the main loop emits nothing. *)
Lemma format_loop_no_component fuel : forall i st,
  (forall t, In t tokens -> type t <> COMPONENT) ->
  List.length tokens - i < fuel ->
  format_loop tokens fuel i st = Returned st.
Proof.
  induction fuel as [|f IH]; intros i st Hn H; [lia|].
  simpl. destruct (at_ tokens i) as [token|] eqn:Et; [|reflexivity].
  pose proof (at_lt _ _ Et) as Hlt.
  assert (Hin : In token tokens) by (apply (nth_error_In _ _ Et)).
  specialize (Hn token Hin) as Hty.
  destruct (type token); try reflexivity; try contradiction;
    apply IH; try exact Hn; lia.
Qed.

End FormatterFacts.

Section FormatterEnds.
Import Lexer Formatter.

Lemma endsWith_newline_app s :
  endsWith_newline (s ++ String char_newline EmptyString) = true.
Proof.
  induction s as [|c s IH]; [reflexivity|].
  simpl. destruct (s ++ String char_newline EmptyString)%string eqn:E.
  - destruct s; discriminate E.
  - exact IH.
Qed.

(** X8.  [format] never runs without end: for every source it returns or
    throws the TypeError of reading past the last token.  When the source
    lexes without errors the text it returns ends with a newline. *)
Theorem X8_format_returns_or_throws (source : string) :
  format source = TypeError
  \/ exists out, format source = Returned out
       /\ forall toks, tokenize source = Some (toks, []) ->
            endsWith_newline out = true.
Proof.
  destruct (tokenize_shape source) as (ts & last & errs & E & _).
  unfold format. rewrite E.
  destruct errs as [|e errs].
  - pose proof (format_loop_ends (ts ++ [last])
                  (2 * List.length (ts ++ [last]) + 2) 0 (mkState 0 [])) as H.
    destruct (format_loop (ts ++ [last]) _ 0 (mkState 0 [])) as [st| |].
    + right. eexists. split; [reflexivity|]. intros _ _.
      destruct (endsWith_newline (join (String char_newline EmptyString)
                                    (output st))) eqn:En;
        [exact En|apply endsWith_newline_app].
    + left. reflexivity.
    + exfalso. apply H; [lia|reflexivity].
  - right. eexists. split; [reflexivity|]. intros toks Ht. discriminate Ht.
Qed.

(** X9.  A source that lexes without errors and has no [component]
    keyword is formatted to a single newline: whatever it declares
    ([space] and [style] blocks included) is dropped. *)
Theorem X9_format_without_component_is_empty
    (source : string) (toks : list Token) :
  tokenize source = Some (toks, []) ->
  (forall t, In t toks -> type t <> COMPONENT) ->
  format source = Returned (String char_newline EmptyString).
Proof.
  intros E Hn. unfold format. rewrite E.
  rewrite format_loop_no_component; [reflexivity|exact Hn|lia].
Qed.

Definition space_only_tokens : list Token :=
  Eval vm_compute in
    match tokenize Src.space_only with
    | Some (ts, _) => ts
    | None => []
    end.

Lemma X9_witness :
  format Src.space_only = Returned (String char_newline EmptyString).
Proof.
  apply (X9_format_without_component_is_empty Src.space_only
           space_only_tokens).
  - reflexivity.
  - intros t Ht. vm_compute in Ht.
    repeat match goal with
    | H : _ \/ _ |- _ => destruct H as [H|H]
    end; try contradiction; subst t; discriminate.
Defined.

Lemma effectDeps_go_None ts : forall i deps,
  effectDeps_go ts i deps = None
  <-> forall t, In t ts -> type t <> RPAREN.
Proof.
  induction ts as [|t ts IH]; intros i deps; simpl.
  - split; [intros _ t []|reflexivity].
  - unfold TokenType_eqb at 1.
    destruct (TokenType_eq_dec (type t) RPAREN) as [E|E].
    + split; [discriminate|]. intros H. exfalso. apply (H t); [left|];
        [reflexivity|exact E].
    + rewrite IH. split.
      * intros H t' [Ht'|Ht']; [subst; exact E|apply H; exact Ht'].
      * intros H t' Ht'. apply H. right. exact Ht'.
Qed.

(** X10.  [formatEffect] throws exactly when no [)] token stands after the
    token that follows [effect]: its loop reads token after token until
    it meets one, past the end of the array if there is none. *)
Theorem X10_formatEffect_needs_closing_paren
    (tokens : list Token) (start : nat) (st : State) :
  formatEffect tokens start st = TypeError
  <-> forall t, In t (skipn (start + 2) tokens) -> type t <> RPAREN.
Proof.
  unfold formatEffect. replace (start + 1 + 1) with (start + 2) by lia.
  rewrite <- (effectDeps_go_None (skipn (start + 2) tokens) (start + 2) []).
  destruct (effectDeps_go (skipn (start + 2) tokens) (start + 2) [])
    as [[d j]|]; split; intros H; try reflexivity; discriminate H.
Qed.

End FormatterEnds.

(** ** What the formatter reads of a token *)

Section FormatterReads.
Import Lexer Formatter.

(** A token without its position. *)
Definition unplaced (t : Token) : Token := mkToken (type t) (value t) 0 0.

Variable tokens : list Token.

Lemma at_unplaced i :
  at_ (map unplaced tokens) i = option_map unplaced (at_ tokens i).
Proof. unfold at_. apply nth_error_map. Qed.

Lemma collect_go_unplaced stop ts : forall i,
  (forall t, stop (unplaced t) = stop t) ->
  collect_go stop (map unplaced ts) i
  = (map unplaced (fst (collect_go stop ts i)), snd (collect_go stop ts i)).
Proof.
  induction ts as [|t ts IH]; intros i Hs; simpl; [reflexivity|].
  rewrite Hs. destruct (stop t); [reflexivity|].
  rewrite IH by exact Hs. destruct (collect_go stop ts (S i)). reflexivity.
Qed.

Lemma collect_unplaced stop i :
  (forall t, stop (unplaced t) = stop t) ->
  collect (map unplaced tokens) stop i
  = (map unplaced (fst (collect tokens stop i)), snd (collect tokens stop i)).
Proof.
  intros Hs. unfold collect. rewrite skipn_map.
  apply collect_go_unplaced. exact Hs.
Qed.

Lemma values_unplaced ts : values (map unplaced ts) = values ts.
Proof. unfold values. rewrite map_map. reflexivity. Qed.

Lemma formatAssignment_unplaced prefix infix start st :
  formatAssignment (map unplaced tokens) prefix infix start st
  = formatAssignment tokens prefix infix start st.
Proof.
  unfold formatAssignment. rewrite collect_unplaced by reflexivity.
  rewrite at_unplaced.
  destruct (collect tokens isStatementEnd (start + 1 + 1 + 1)) as [c j].
  simpl. destruct (at_ tokens (start + 1)); simpl; [|reflexivity].
  rewrite values_unplaced. reflexivity.
Qed.

Lemma effectDeps_go_unplaced ts : forall i deps,
  effectDeps_go (map unplaced ts) i deps = effectDeps_go ts i deps.
Proof.
  induction ts as [|t ts IH]; intros i deps; simpl; [reflexivity|].
  rewrite IH. reflexivity.
Qed.

Lemma formatEffect_unplaced start st :
  formatEffect (map unplaced tokens) start st = formatEffect tokens start st.
Proof.
  unfold formatEffect. rewrite skipn_map, effectDeps_go_unplaced.
  reflexivity.
Qed.

Lemma animationProperties_unplaced fuel : forall i st,
  animationProperties (map unplaced tokens) fuel i st
  = animationProperties tokens fuel i st.
Proof.
  induction fuel as [|f IH]; intros i st; [reflexivity|].
  simpl. rewrite at_unplaced.
  destruct (at_ tokens i) as [t|]; simpl; [|reflexivity].
  destruct (TokenType_eqb (type t) IDENTIFIER); [|reflexivity].
  rewrite collect_unplaced by reflexivity.
  match goal with
  | |- context [collect tokens ?stop ?k] =>
      destruct (collect tokens stop k) as [c j]
  end.
  simpl. rewrite at_unplaced, values_unplaced.
  destruct (at_ tokens j) as [t'|]; simpl; [|reflexivity].
  destruct (TokenType_eqb (type t') COMMA); [apply IH|reflexivity].
Qed.

Lemma formatAnimation_unplaced start st :
  formatAnimation (map unplaced tokens) start st
  = formatAnimation tokens start st.
Proof.
  unfold formatAnimation. rewrite at_unplaced, length_map.
  destruct (at_ tokens (start + 1)); simpl; [|reflexivity].
  rewrite animationProperties_unplaced. reflexivity.
Qed.

Lemma formatKeywordValue_unplaced prefix start st :
  formatKeywordValue (map unplaced tokens) prefix start st
  = formatKeywordValue tokens prefix start st.
Proof.
  unfold formatKeywordValue. rewrite at_unplaced.
  destruct (at_ tokens (start + 1)); reflexivity.
Qed.

Lemma elementAttrs_unplaced fuel : forall i attrs,
  elementAttrs (map unplaced tokens) fuel i attrs
  = elementAttrs tokens fuel i attrs.
Proof.
  induction fuel as [|f IH]; intros i attrs; [reflexivity|].
  simpl. rewrite !at_unplaced.
  destruct (at_ tokens i) as [t|]; simpl; [|reflexivity].
  destruct (at_ tokens (i + 1)) as [t1|]; simpl; [|reflexivity].
  destruct (TokenType_eqb (type t) IDENTIFIER && TokenType_eqb (type t1) EQUALS);
    [|reflexivity].
  destruct (at_ tokens (i + 2)); simpl; [apply IH|reflexivity].
Qed.

Lemma elements_unplaced fuel :
  (forall i st, formatElement (map unplaced tokens) fuel i st
                = formatElement tokens fuel i st)
  /\ (forall i st, nestedElements (map unplaced tokens) fuel i st
                   = nestedElements tokens fuel i st).
Proof.
  induction fuel as [|f [IHe IHn]]; [split; reflexivity|]. split.
  - intros i st. simpl. rewrite at_unplaced, length_map.
    destruct (at_ tokens i) as [tag|]; simpl; [|reflexivity].
    rewrite elementAttrs_unplaced.
    destruct (elementAttrs tokens (List.length tokens) (i + 1) [])
      as [[j attrs]| |]; try reflexivity.
    rewrite !at_unplaced.
    destruct (at_ tokens j) as [t|]; simpl; [|reflexivity].
    destruct (TokenType_eqb (type t) COLON); [|reflexivity].
    destruct (at_ tokens (j + 1)) as [content|]; simpl; [|reflexivity].
    destruct (TokenType_eqb (type content) STRING); [reflexivity|].
    rewrite IHn. reflexivity.
  - intros i st. simpl. rewrite at_unplaced.
    destruct (at_ tokens i) as [t|]; simpl; [|reflexivity].
    destruct (TokenType_eqb (type t) IDENTIFIER); [|reflexivity].
    rewrite IHe. destruct (formatElement tokens f i st) as [[j st']| |];
      try reflexivity.
    apply IHn.
Qed.

Lemma componentBody_unplaced fuel : forall i st,
  componentBody (map unplaced tokens) fuel i st = componentBody tokens fuel i st.
Proof.
  induction fuel as [|f IH]; intros i st; [reflexivity|].
  simpl. rewrite at_unplaced.
  destruct (at_ tokens i) as [token|]; simpl; [|reflexivity].
  unfold formatState, formatComputed, formatEventHandler, formatRole,
    formatLabel.
  rewrite !formatAssignment_unplaced, formatEffect_unplaced,
    formatAnimation_unplaced, !formatKeywordValue_unplaced,
    (proj1 (elements_unplaced f)).
  destruct (type token); try reflexivity; try apply IH;
    match goal with
    | |- match ?r with _ => _ end = _ =>
        destruct r as [[j st']| |]; try reflexivity; apply IH
    end.
Qed.

Lemma formatComponent_unplaced fuel start st :
  formatComponent (map unplaced tokens) fuel start st
  = formatComponent tokens fuel start st.
Proof.
  unfold formatComponent. rewrite at_unplaced.
  destruct (at_ tokens (start + 1)); simpl; [|reflexivity].
  rewrite componentBody_unplaced. reflexivity.
Qed.

Lemma format_loop_unplaced fuel : forall i st,
  format_loop (map unplaced tokens) fuel i st = format_loop tokens fuel i st.
Proof.
  induction fuel as [|f IH]; intros i st; [reflexivity|].
  simpl. rewrite at_unplaced.
  destruct (at_ tokens i) as [token|]; simpl; [|reflexivity].
  rewrite formatComponent_unplaced.
  destruct (type token); try reflexivity; try apply IH.
  destruct (formatComponent tokens f i st) as [[j st']| |];
    try reflexivity. apply IH.
Qed.

End FormatterReads.

Section FormatterReadsClaims.
Import Lexer Formatter.

Definition tidy_source : string :=
  Src.lines [ "component C:"; "  state x = 1"; "  p" ].

Definition untidy_source : string :=
  Src.lines [ "component   C :   # the component";
              "  state x=1";
              "  p     # a paragraph" ].

Definition tokens_tidy : list Token :=
  Eval vm_compute in
    match tokenize tidy_source with Some (ts, _) => ts | None => [] end.

Definition tokens_untidy : list Token :=
  Eval vm_compute in
    match tokenize untidy_source with Some (ts, _) => ts | None => [] end.

(** X11.  What [format] prints depends on the types and the texts of the
    tokens only: two sources that lex without errors to the same sequence
    of token types and values are formatted to the same text, whatever
    their spacing and their comments. *)
Theorem X11_format_reads_types_and_values
    (source1 source2 : string) (tokens1 tokens2 : list Token) :
  tokenize source1 = Some (tokens1, []) ->
  tokenize source2 = Some (tokens2, []) ->
  map (fun t => (type t, value t)) tokens1
  = map (fun t => (type t, value t)) tokens2 ->
  format source1 = format source2.
Proof.
  intros E1 E2 H. unfold format. rewrite E1, E2.
  assert (Hu : map unplaced tokens1 = map unplaced tokens2).
  { transitivity (map (fun p => mkToken (fst p) (snd p) 0 0)
                    (map (fun t => (type t, value t)) tokens1)).
    - rewrite map_map. reflexivity.
    - rewrite H, map_map. reflexivity. }
  assert (Hl : List.length tokens1 = List.length tokens2).
  { rewrite <- (length_map unplaced tokens1), Hu. apply length_map. }
  rewrite <- (format_loop_unplaced tokens1), <- (format_loop_unplaced tokens2).
  rewrite Hu, Hl. reflexivity.
Qed.

Lemma X11_witness : format tidy_source = format untidy_source.
Proof.
  apply (X11_format_reads_types_and_values tidy_source untidy_source
           tokens_tidy tokens_untidy); vm_compute; reflexivity.
Defined.

End FormatterReadsClaims.

(** ** The semantic analyzer *)

Section ElementInduction.
Import AST.

Variable P : ElementNode -> Prop.
Variable Q : Child -> Prop.

Definition all_option (o : option (list Child)) : Prop :=
  match o with
  | Some l => Forall Q l
  | None => True
  end.

Hypothesis HElement : forall tag attributes children ariaLabel l c,
  Forall Q children -> P (Element tag attributes children ariaLabel l c).
Hypothesis HChildElement : forall e, P e -> Q (ChildElement e).
Hypothesis HChildText : forall content interpolations l c,
  Q (ChildText content interpolations l c).
Hypothesis HChildConditional : forall condition consequent alternate l c,
  Forall Q consequent -> all_option alternate ->
  Q (ChildConditional condition consequent alternate l c).
Hypothesis HChildLoop : forall item index iterable body l c,
  Forall Q body -> Q (ChildLoop item index iterable body l c).
Hypothesis HChildSlot : forall l c, Q (ChildSlot l c).

Fixpoint Element_induction (e : ElementNode) : P e :=
  match e with
  | Element tag attributes children ariaLabel l c =>
      HElement tag attributes children ariaLabel l c
        ((fix all (cs : list Child) : Forall Q cs :=
            match cs with
            | [] => Forall_nil Q
            | x :: cs' => Forall_cons x (Child_induction x) (all cs')
            end) children)
  end
with Child_induction (ch : Child) : Q ch :=
  match ch with
  | ChildElement e => HChildElement e (Element_induction e)
  | ChildText content interpolations l c =>
      HChildText content interpolations l c
  | ChildConditional condition consequent alternate l c =>
      HChildConditional condition consequent alternate l c
        ((fix all (cs : list Child) : Forall Q cs :=
            match cs with
            | [] => Forall_nil Q
            | x :: cs' => Forall_cons x (Child_induction x) (all cs')
            end) consequent)
        (match alternate as o return all_option o with
         | Some alt =>
             (fix all (cs : list Child) : Forall Q cs :=
                match cs with
                | [] => Forall_nil Q
                | x :: cs' => Forall_cons x (Child_induction x) (all cs')
                end) alt
         | None => I
         end)
  | ChildLoop item index iterable body l c =>
      HChildLoop item index iterable body l c
        ((fix all (cs : list Child) : Forall Q cs :=
            match cs with
            | [] => Forall_nil Q
            | x :: cs' => Forall_cons x (Child_induction x) (all cs')
            end) body)
  | ChildSlot l c => HChildSlot l c
  end.

Lemma Element_Child_induction :
  (forall e, P e) /\ (forall ch, Q ch).
Proof. split; [exact Element_induction|exact Child_induction]. Qed.

End ElementInduction.

Section AnalyzerFacts.
Import AST Semantic.

(** The loops of [analyzeElement], [analyzeConditional] and
    [analyzeLoop], by name. *)
Definition forChildren (cs : list Child) (a : Analyzer) : Analyzer :=
  fold_left (fun a child => analyzeChild child a) cs a.

Definition forNodes (ns : list Child) (a : Analyzer) : Analyzer :=
  fold_left (fun a n => match n with
                        | ChildElement e => analyzeElement e a
                        | _ => a
                        end) ns a.

Lemma forChildren_eq cs : forall a,
  (fix forChildren (cs : list Child) (a : Analyzer) : Analyzer :=
     match cs with
     | [] => a
     | child :: cs' => forChildren cs' (analyzeChild child a)
     end) cs a = forChildren cs a.
Proof. induction cs as [|c cs IH]; intros a; [reflexivity|apply IH]. Qed.

Lemma forNodes_eq ns : forall a,
  (fix forNodes (ns : list Child) (a : Analyzer) : Analyzer :=
     match ns with
     | [] => a
     | ChildElement e :: ns' => forNodes ns' (analyzeElement e a)
     | _ :: ns' => forNodes ns' a
     end) ns a = forNodes ns a.
Proof.
  induction ns as [|n ns IH]; intros a; [reflexivity|].
  destruct n; simpl; apply IH.
Qed.

(** [analyzeElement] and the three cases of its loop, unfolded once. *)
Lemma analyzeElement_eq tag attributes children ariaLabel line column a :
  analyzeElement (Element tag attributes children ariaLabel line column) a
  = let a1 :=
      if String.eqb tag "button" && negb (truthy ariaLabel) then
        if existsb isTextChild children then a
        else push_warning
               (mkSemanticWarning
                  "Button element without text content or aria-label"
                  line column) a
      else a in
    let a2 :=
      if String.eqb tag "img" then
        if existsb (fun attr => String.eqb (attr_name attr) "alt") attributes
        then a1
        else push_error (mkSemanticError missing_alt_message line column) a1
      else a1 in
    forChildren children a2.
Proof. simpl. rewrite forChildren_eq. reflexivity. Qed.

Lemma analyzeConditional_eq condition consequent alternate l c a :
  analyzeChild (ChildConditional condition consequent alternate l c) a
  = match alternate with
    | Some alt => forNodes alt (forNodes consequent a)
    | None => forNodes consequent a
    end.
Proof.
  simpl. destruct alternate; rewrite ?forNodes_eq; reflexivity.
Qed.

Lemma analyzeLoop_eq item index iterable body l c a :
  analyzeChild (ChildLoop item index iterable body l c) a
  = set_declared (declaredVariables a)
      (forNodes body
         (match index with
          | Some i => if truthy index then add i (add item a) else add item a
          | None => add item a
          end)).
Proof. simpl. rewrite forNodes_eq. reflexivity. Qed.

(** [a] with diagnostics recorded earlier put in front. *)
Definition prepend (e : list SemanticError) (w : list SemanticWarning)
    (a : Analyzer) : Analyzer :=
  mkAnalyzer (e ++ errors a) (w ++ warnings a) (declaredVariables a).

(** [F] appends its diagnostics, and what it appends does not depend on
    the diagnostics recorded before. *)
Definition uniform (F : Analyzer -> Analyzer) : Prop :=
  forall e w a, F (prepend e w a) = prepend e w (F a).

Lemma uniform_id : uniform (fun a => a).
Proof. intros e w a. reflexivity. Qed.

Lemma uniform_compose F G :
  uniform F -> uniform G -> uniform (fun a => G (F a)).
Proof. intros HF HG e w a. rewrite HF, HG. reflexivity. Qed.

Lemma uniform_push_error x : uniform (push_error x).
Proof.
  intros e w a. unfold push_error, prepend. simpl. rewrite app_assoc.
  reflexivity.
Qed.

Lemma uniform_push_warning x : uniform (push_warning x).
Proof.
  intros e w a. unfold push_warning, prepend. simpl. rewrite app_assoc.
  reflexivity.
Qed.

Lemma has_prepend x e w a : has x (prepend e w a) = has x a.
Proof. reflexivity. Qed.

Lemma uniform_add x : uniform (add x).
Proof. intros e w a. reflexivity. Qed.

Lemma uniform_if (c : Analyzer -> bool) F G :
  (forall e w a, c (prepend e w a) = c a) ->
  uniform F -> uniform G -> uniform (fun a => if c a then F a else G a).
Proof.
  intros Hc HF HG e w a. rewrite Hc. destruct (c a); [apply HF|apply HG].
Qed.

Lemma uniform_fold {X} (step : X -> Analyzer -> Analyzer) (l : list X) :
  (forall x, In x l -> uniform (step x)) ->
  uniform (fun a => fold_left (fun a x => step x a) l a).
Proof.
  induction l as [|x l IH]; intros H e w a; [reflexivity|].
  simpl. rewrite (H x) by (left; reflexivity).
  apply IH. intros y Hy. apply H. right. exact Hy.
Qed.

Lemma uniform_forNodes ns :
  Forall (fun ch => uniform (analyzeChild ch)) ns -> uniform (forNodes ns).
Proof.
  intros H. unfold forNodes.
  apply (uniform_fold (fun n a => match n with
                                  | ChildElement e => analyzeElement e a
                                  | _ => a
                                  end)).
  intros n Hn. rewrite Forall_forall in H. specialize (H n Hn).
  destruct n; try exact uniform_id. exact H.
Qed.

Lemma uniform_elements :
  (forall e, uniform (analyzeElement e))
  /\ (forall ch, uniform (analyzeChild ch)).
Proof.
  apply Element_Child_induction.
  - intros tag attributes children ariaLabel l c H e w a.
    rewrite !analyzeElement_eq. cbv zeta.
    assert (Hf : uniform (forChildren children)).
    { unfold forChildren.
      apply (uniform_fold (fun child a => analyzeChild child a)).
      intros x Hx. rewrite Forall_forall in H. exact (H x Hx). }
    destruct (String.eqb tag "button" && negb (truthy ariaLabel));
      destruct (existsb isTextChild children);
      destruct (String.eqb tag "img");
      destruct (existsb (fun attr => String.eqb (attr_name attr) "alt")
                  attributes);
      rewrite <- Hf; try reflexivity;
      rewrite <- ?uniform_push_error, <- ?uniform_push_warning; reflexivity.
  - intros e H. exact H.
  - intros content interpolations l c e w a. reflexivity.
  - intros condition consequent alternate l c Hc Ha e w a.
    rewrite !analyzeConditional_eq.
    pose proof (uniform_forNodes consequent Hc) as H1.
    destruct alternate as [alt|]; [|apply H1].
    pose proof (uniform_forNodes alt Ha) as H2.
    rewrite H1, H2. reflexivity.
  - intros item index iterable body l c Hb e w a.
    rewrite !analyzeLoop_eq.
    pose proof (uniform_forNodes body Hb) as H1.
    destruct index as [i|]; [destruct (truthy (Some i))|];
      rewrite ?(uniform_add item e w), ?(uniform_add _ e w), H1; reflexivity.
  - intros l c e w a. reflexivity.
Qed.

Lemma uniform_analyzeState st : uniform (analyzeState st).
Proof.
  intros e w a. unfold analyzeState. rewrite has_prepend.
  destruct (has (state_name st) a);
    rewrite ?(uniform_push_error _ e w a); apply uniform_add.
Qed.

Lemma uniform_dependencies (warn : string -> SemanticWarning) deps :
  uniform (fun a =>
    fold_left (fun a dep => if has dep a then a else push_warning (warn dep) a)
      deps a).
Proof.
  apply (uniform_fold
           (fun dep a => if has dep a then a else push_warning (warn dep) a)).
  intros dep _.
  apply (uniform_if (has dep) (fun a => a) (push_warning (warn dep)));
    [reflexivity|apply uniform_id|apply uniform_push_warning].
Qed.

Lemma uniform_analyzeComputed c : uniform (analyzeComputed c).
Proof.
  intros e w a. unfold analyzeComputed. cbv zeta. rewrite has_prepend.
  rewrite <- (uniform_dependencies
                (fun dep => mkSemanticWarning
                   ("Computed '" ++ computed_name c ++
                    "' depends on undeclared variable: " ++ dep)%string
                   (computed_line c) (computed_column c))).
  destruct (has (computed_name c) a);
    rewrite <- uniform_add, <- ?uniform_push_error; reflexivity.
Qed.

Lemma uniform_analyzeEffect ef : uniform (analyzeEffect ef).
Proof.
  unfold analyzeEffect.
  apply (uniform_dependencies
           (fun dep => mkSemanticWarning
              ("Effect depends on undeclared variable: " ++ dep)%string
              (effect_line ef) (effect_column ef))).
Qed.

Lemma uniform_validateAccessibility c : uniform (validateAccessibility c).
Proof.
  intros e w a. unfold validateAccessibility. cbv zeta.
  destruct (hasInteractiveElements (body c)
            && negb (truthy (role (accessibility c))));
    destruct (negb (Nat.eqb (List.length (handlers c)) 0)
              && negb (truthy (label (accessibility c))));
    rewrite <- ?uniform_push_warning; reflexivity.
Qed.

Lemma uniform_analyzeComponent c : uniform (analyzeComponent c).
Proof.
  unfold analyzeComponent. cbv zeta.
  apply (uniform_compose (fun a =>
           validateAccessibility c
             (fold_left (fun a e => analyzeEffect e a) (effects c)
                (fold_left (fun a c => analyzeComputed c a) (computed c)
                   (fold_left (fun a s => analyzeState s a) (states c)
                      (set_declared [] a)))))).
  - apply (uniform_compose (fun a =>
             fold_left (fun a e => analyzeEffect e a) (effects c)
               (fold_left (fun a c => analyzeComputed c a) (computed c)
                  (fold_left (fun a s => analyzeState s a) (states c)
                     (set_declared [] a))))).
    + apply (uniform_compose (fun a =>
               fold_left (fun a c => analyzeComputed c a) (computed c)
                 (fold_left (fun a s => analyzeState s a) (states c)
                    (set_declared [] a)))).
      * apply (uniform_compose (fun a =>
                 fold_left (fun a s => analyzeState s a) (states c)
                   (set_declared [] a))).
        -- apply (uniform_compose (set_declared [])).
           ++ intros e w a. reflexivity.
           ++ apply (uniform_fold analyzeState). intros x _.
              apply uniform_analyzeState.
        -- apply (uniform_fold analyzeComputed). intros x _.
           apply uniform_analyzeComputed.
      * apply (uniform_fold analyzeEffect). intros x _.
        apply uniform_analyzeEffect.
    + apply uniform_validateAccessibility.
  - apply (uniform_fold analyzeElement). intros x _.
    apply uniform_elements.
Qed.

(** The diagnostics of a component analysed on its own. *)
Definition alone (c : ComponentNode) : Analyzer :=
  analyzeComponent c (mkAnalyzer [] [] []).

Lemma analyzeComponent_alone c a :
  analyzeComponent c a
  = mkAnalyzer (errors a ++ errors (alone c)) (warnings a ++ warnings (alone c))
      (declaredVariables (alone c)).
Proof.
  assert (Ha : analyzeComponent c a
               = analyzeComponent c
                   (prepend (errors a) (warnings a) (mkAnalyzer [] [] []))).
  { unfold analyzeComponent, prepend. simpl. rewrite !app_nil_r.
    reflexivity. }
  rewrite Ha, uniform_analyzeComponent. reflexivity.
Qed.

Lemma analyze_components cs : forall a,
  let a' := fold_left (fun a c => analyzeComponent c a) cs a in
  errors a' = errors a ++ flat_map (fun c => errors (alone c)) cs
  /\ warnings a' = warnings a ++ flat_map (fun c => warnings (alone c)) cs.
Proof.
  induction cs as [|c cs IH]; intros a; simpl.
  - rewrite !app_nil_r. split; reflexivity.
  - destruct (IH (analyzeComponent c a)) as [He Hw].
    rewrite He, Hw, analyzeComponent_alone. simpl.
    rewrite !app_assoc. split; reflexivity.
Qed.

End AnalyzerFacts.

Section AnalyzerClaims.
Import AST Semantic.

Lemma analyze_alone (p : Program) :
  analyze p
  = (flat_map (fun c => fst (analyze (mkProgram [c] [] []))) (components p),
     flat_map (fun c => snd (analyze (mkProgram [c] [] []))) (components p)).
Proof.
  unfold analyze.
  destruct (analyze_components (components p) (mkAnalyzer [] [] []))
    as [He Hw].
  cbv zeta in He, Hw. rewrite He, Hw. reflexivity.
Qed.

(** X12.  [analyze] treats the components of a program one by one: its
    errors and its warnings are, in order, those of each component
    analysed alone.  Nothing recorded for one component (the declared
    names included) bears on the next. *)
Theorem X12_components_are_analysed_independently (p : Program) :
  analyze p
  = (flat_map (fun c => fst (analyze (mkProgram [c] [] []))) (components p),
     flat_map (fun c => snd (analyze (mkProgram [c] [] []))) (components p)).
Proof. exact (analyze_alone p). Qed.

(** [F] appends to the errors recorded before. *)
Lemma uniform_errors F a :
  uniform F ->
  errors (F a)
  = errors a ++ errors (F (mkAnalyzer [] [] (declaredVariables a))).
Proof.
  intros H.
  assert (Ha : a = prepend (errors a) (warnings a)
                     (mkAnalyzer [] [] (declaredVariables a))).
  { destruct a. unfold prepend. simpl. rewrite !app_nil_r. reflexivity. }
  rewrite Ha at 1. rewrite H. reflexivity.
Qed.

Lemma uniform_keeps F a x :
  uniform F -> In x (errors a) -> In x (errors (F a)).
Proof.
  intros H Hx. rewrite (uniform_errors F a H). apply in_or_app. left.
  exact Hx.
Qed.

(** [F] records the error [x], whatever it starts from. *)
Definition reports (x : SemanticError) (F : Analyzer -> Analyzer) : Prop :=
  forall a, In x (errors (F a)).

Lemma fold_reports {X} (step : X -> Analyzer -> Analyzer) (l : list X) x y :
  (forall z, uniform (step z)) ->
  In y l -> reports x (step y) ->
  reports x (fun a => fold_left (fun a z => step z a) l a).
Proof.
  intros Hu Hy Hr. induction l as [|z l IH]; [contradiction|].
  intros a. simpl. destruct Hy as [->|Hy].
  - apply (uniform_keeps (fun a => fold_left (fun a z => step z a) l a)).
    + apply uniform_fold. intros z _. apply Hu.
    + apply Hr.
  - apply (IH Hy).
Qed.

Lemma forNodes_reports ns e x :
  In (ChildElement e) ns -> reports x (analyzeElement e) ->
  reports x (forNodes ns).
Proof.
  intros Hin Hr. unfold forNodes.
  apply (fold_reports (fun n a => match n with
                                  | ChildElement e => analyzeElement e a
                                  | _ => a
                                  end) ns x (ChildElement e)).
  - intros z. destruct z; try exact uniform_id. apply uniform_elements.
  - exact Hin.
  - exact Hr.
Qed.

Lemma forNodes_uniform ns : uniform (forNodes ns).
Proof.
  apply uniform_forNodes. rewrite Forall_forall. intros ch _.
  apply uniform_elements.
Qed.

Lemma forChildren_reports children ch x :
  In ch children -> reports x (analyzeChild ch) ->
  reports x (forChildren children).
Proof.
  intros Hin Hr. unfold forChildren.
  apply (fold_reports (fun child a => analyzeChild child a) children x ch).
  - intros z. apply uniform_elements.
  - exact Hin.
  - exact Hr.
Qed.

(** The elements [analyzeElement] comes to from an element: itself, its
    child elements, the elements of the branches of its conditionals and
    of the bodies of its loops, and what it comes to from these. *)
Inductive comes_to (x : ElementNode) : ElementNode -> Prop :=
  | comes_to_self : comes_to x x
  | comes_to_child tag attributes children ariaLabel l c e :
      In (ChildElement e) children -> comes_to x e ->
      comes_to x (Element tag attributes children ariaLabel l c)
  | comes_to_consequent tag attributes children ariaLabel l c
      condition consequent alternate l' c' e :
      In (ChildConditional condition consequent alternate l' c') children ->
      In (ChildElement e) consequent -> comes_to x e ->
      comes_to x (Element tag attributes children ariaLabel l c)
  | comes_to_alternate tag attributes children ariaLabel l c
      condition consequent alt l' c' e :
      In (ChildConditional condition consequent (Some alt) l' c') children ->
      In (ChildElement e) alt -> comes_to x e ->
      comes_to x (Element tag attributes children ariaLabel l c)
  | comes_to_loop tag attributes children ariaLabel l c
      item index iterable body l' c' e :
      In (ChildLoop item index iterable body l' c') children ->
      In (ChildElement e) body -> comes_to x e ->
      comes_to x (Element tag attributes children ariaLabel l c).

Lemma element_reports x tag attributes children ariaLabel l c ch :
  In ch children -> reports x (analyzeChild ch) ->
  reports x (analyzeElement (Element tag attributes children ariaLabel l c)).
Proof.
  intros Hin Hr a. rewrite analyzeElement_eq. cbv zeta.
  apply (forChildren_reports children ch x Hin Hr).
Qed.

Lemma comes_to_reports img e x :
  comes_to img e -> reports x (analyzeElement img) ->
  reports x (analyzeElement e).
Proof.
  intros Hr Himg. induction Hr as
    [ | tag attributes children ariaLabel l c e Hin Hr IH
      | tag attributes children ariaLabel l c condition consequent alternate
          l' c' e Hin Hcons Hr IH
      | tag attributes children ariaLabel l c condition consequent alt
          l' c' e Hin Halt Hr IH
      | tag attributes children ariaLabel l c item index iterable body
          l' c' e Hin Hbody Hr IH ].
  - exact Himg.
  - apply (element_reports x _ _ _ _ _ _ (ChildElement e) Hin). exact IH.
  - apply (element_reports x _ _ _ _ _ _ _ Hin).
    intros a. rewrite analyzeConditional_eq.
    pose proof (forNodes_reports consequent e x Hcons IH) as H1.
    destruct alternate as [alt|]; [|apply H1].
    apply (uniform_keeps (forNodes alt)); [apply forNodes_uniform|apply H1].
  - apply (element_reports x _ _ _ _ _ _ _ Hin).
    intros a. rewrite analyzeConditional_eq.
    apply (forNodes_reports alt e x Halt IH).
  - apply (element_reports x _ _ _ _ _ _ _ Hin).
    intros a. rewrite analyzeLoop_eq. unfold set_declared. simpl.
    apply (forNodes_reports body e x Hbody IH).
Qed.

Lemma img_reports attributes children ariaLabel l c :
  existsb (fun attr => String.eqb (attr_name attr) "alt") attributes = false ->
  reports (mkSemanticError missing_alt_message l c)
    (analyzeElement (Element "img" attributes children ariaLabel l c)).
Proof.
  intros Halt a. rewrite analyzeElement_eq. cbv zeta. rewrite Halt.
  change (String.eqb "img" "img") with true. cbv iota.
  apply (uniform_keeps (forChildren children)).
  - unfold forChildren.
    apply (uniform_fold (fun child a => analyzeChild child a)).
    intros z _. apply uniform_elements.
  - unfold push_error. simpl. apply in_or_app. right. left. reflexivity.
Qed.

(** X13.  An [img] element without an [alt] attribute is reported as an
    error wherever [analyzeElement] comes to it from the body of a
    component: as a child at any depth, in a branch of a conditional or
    in the body of a loop. *)
Theorem X13_image_without_alt_is_an_error
    (p : Program) (component : ComponentNode) (e : ElementNode)
    (attributes : list Attribute) (children : list Child)
    (ariaLabel : option string) (l c : nat) :
  In component (components p) ->
  In e (body component) ->
  comes_to (Element "img" attributes children ariaLabel l c) e ->
  existsb (fun attr => String.eqb (attr_name attr) "alt") attributes = false ->
  In (mkSemanticError missing_alt_message l c) (fst (analyze p)).
Proof.
  intros Hc He Hr Halt.
  rewrite analyze_alone.
  simpl. apply in_flat_map. exists component. split; [exact Hc|].
  simpl. unfold analyzeComponent. cbv zeta.
  apply (fold_reports analyzeElement (body component) _ e).
  - intros z. apply uniform_elements.
  - exact He.
  - apply (comes_to_reports _ e _ Hr). apply img_reports. exact Halt.
Qed.

Definition image_in_loop : ElementNode :=
  Element "img" [mkAttribute "src" (Identifier "photo" 3 13)] [] None 3 5.

Definition gallery : ComponentNode :=
  mkComponent "Gallery" [] [] [] [] [] []
    [Element "ul" []
       [ChildLoop "photo" None (Identifier "photos" 2 17)
          [ChildElement image_in_loop] 2 3] None 1 3]
    (mkAccessibility None None None) 1 1.

Lemma X13_witness :
  In (mkSemanticError missing_alt_message 3 5)
     (fst (analyze (mkProgram [gallery] [] []))).
Proof.
  apply (X13_image_without_alt_is_an_error (mkProgram [gallery] [] [])
           gallery
           (Element "ul" []
              [ChildLoop "photo" None (Identifier "photos" 2 17)
                 [ChildElement image_in_loop] 2 3] None 1 3)
           [mkAttribute "src" (Identifier "photo" 3 13)] [] None 3 5).
  - left. reflexivity.
  - left. reflexivity.
  - apply (comes_to_loop _ "ul" [] _ None 1 3 "photo" None
             (Identifier "photos" 2 17) [ChildElement image_in_loop] 2 3
             image_in_loop).
    + left. reflexivity.
    + left. reflexivity.
    + apply comes_to_self.
  - reflexivity.
Defined.

End AnalyzerClaims.

(** ** Buttons and [aria-label] *)

Section ButtonLabels.
Import Lexer AST Parser Semantic.
Local Open Scope parser_scope.

Lemma uniform_warnings F a :
  uniform F ->
  warnings (F a)
  = warnings a ++ warnings (F (mkAnalyzer [] [] (declaredVariables a))).
Proof.
  intros H.
  assert (Ha : a = prepend (Semantic.errors a) (warnings a)
                     (mkAnalyzer [] [] (declaredVariables a))).
  { destruct a. unfold prepend. simpl. rewrite !app_nil_r. reflexivity. }
  rewrite Ha at 1. rewrite H. reflexivity.
Qed.

Lemma bind_Some {A B} (m : M A) (k : A -> M B) s b s' :
  bind m k s = Some (b, s') ->
  exists a s1, m s = Some (a, s1) /\ k a s1 = Some (b, s').
Proof.
  unfold bind. intros H. destruct (m s) as [[a s1]|]; [|discriminate].
  exists a, s1. split; [reflexivity|exact H].
Qed.

(** [parseElement] leaves [ariaLabel] unset. *)
Lemma parseElement_ariaLabel tokens fuel s e s' :
  parseElement tokens fuel s = Some (e, s') ->
  exists tag attributes children l c,
    e = Element tag attributes children None l c.
Proof.
  intros H. destruct fuel as [|f]; [discriminate|].
  change (parseElement tokens (S f))
    with (token <- peek tokens ;;
          tag <- consume tokens IDENTIFIER "Expected element tag" ;;
          attributes <- parseAttributes tokens f [] ;;
          isColon <- match_ tokens [COLON] ;;
          children <-
            (if isColon then
               isString <- match_ tokens [STRING] ;;
               if isString then
                 text <- previous tokens ;;
                 ret [ChildText (value text) [] (line text) (column text)]
               else parseChildren tokens f []
             else ret []) ;;
          ret (Element (value tag) attributes children None
                 (line token) (column token))) in H.
  repeat (apply bind_Some in H; destruct H as (? & ? & _ & H)).
  inversion H. eexists. eexists. eexists. eexists. eexists. reflexivity.
Qed.

Definition button_warning (l c : nat) : SemanticWarning :=
  mkSemanticWarning "Button element without text content or aria-label" l c.

Lemma unlabelled_button_warns attributes children l c a :
  existsb isTextChild children = false ->
  In (button_warning l c)
     (warnings (analyzeElement
                  (Element "button" attributes children None l c) a)).
Proof.
  intros Ht. rewrite analyzeElement_eq. cbv zeta. rewrite Ht.
  change (String.eqb "button" "button" && negb (truthy None)) with true.
  change (String.eqb "button" "img") with false. cbv iota.
  rewrite (uniform_warnings (forChildren children)).
  - apply in_or_app. left. unfold push_warning. simpl.
    apply in_or_app. right. left. reflexivity.
  - unfold forChildren.
    apply (uniform_fold (fun child a => analyzeChild child a)).
    intros z _. apply uniform_elements.
Qed.

Definition labelled_button : string :=
  Src.lines [ "component C:";
              ("  button aria-label=" ++ Src.quoted "Close")%string ].

Definition tokens_labelled_button : list Token :=
  Eval vm_compute in
    match tokenize labelled_button with
    | Some (ts, _) => filter_tokens ts
    | None => []
    end.

Definition parsed_labelled_button : ElementNode * State :=
  Eval vm_compute in
    match parseElement tokens_labelled_button 30 (Parser.mkState 3 []) with
    | Some r => r
    | None => (Element EmptyString [] [] None 0 0, Parser.mkState 0 [])
    end.

(** X14.  No element that [parseElement] builds has its [ariaLabel] set
    (an [aria-label] written in the source is kept among the attributes),
    so [analyzeElement] warns of every parsed [button] without a text
    child, whatever its attributes are. *)
Theorem X14_parsed_button_without_text_is_warned
    (tokens : list Token) (fuel : nat) (s s' : State) (e : ElementNode)
    (a : Analyzer) :
  parseElement tokens fuel s = Some (e, s') ->
  tag_of e = "button" ->
  existsb isTextChild (children_of e) = false ->
  exists l c,
    In (mkSemanticWarning
          "Button element without text content or aria-label" l c)
       (warnings (analyzeElement e a)).
Proof.
  intros H Htag Htext.
  destruct (parseElement_ariaLabel tokens fuel s e s' H)
    as (tag & attributes & children & l & c & ->).
  simpl in Htag, Htext. subst tag. exists l, c.
  apply (unlabelled_button_warns attributes children l c a Htext).
Qed.

Lemma X14_witness :
  exists l c,
    In (mkSemanticWarning
          "Button element without text content or aria-label" l c)
       (warnings (analyzeElement (fst parsed_labelled_button)
                    (mkAnalyzer [] [] []))).
Proof.
  apply (X14_parsed_button_without_text_is_warned tokens_labelled_button 30
           (Parser.mkState 3 []) (snd parsed_labelled_button)
           (fst parsed_labelled_button) (mkAnalyzer [] [] []));
    reflexivity.
Defined.

End ButtonLabels.

(** ** Strings written by the generator, read by the lexer *)

Section EscapedStrings.
Import Lexer CodeGenerator.
Local Open Scope char_scope.

(** What [escapeString] makes of one character. *)
Definition escaped (x : ascii) : list ascii :=
  if Ascii.eqb x "\" then ["\"; "\"]
  else if Ascii.eqb x "'" then ["\"; "'"]
  else if Ascii.eqb x char_dquote then ["\"; char_dquote]
  else if Ascii.eqb x char_newline then ["\"; "n"]
  else if Ascii.eqb x char_cr then ["\"; "r"]
  else if Ascii.eqb x char_tab then ["\"; "t"]
  else [x].

Lemma replaceAll_app c r a b :
  replaceAll c r (a ++ b) = replaceAll c r a ++ replaceAll c r b.
Proof. unfold replaceAll. apply flat_map_app. Qed.

Definition passes (l : list ascii) : list ascii :=
  replaceAll char_tab ["\"; "t"]
    (replaceAll char_cr ["\"; "r"]
       (replaceAll char_newline ["\"; "n"]
          (replaceAll char_dquote ["\"; char_dquote]
             (replaceAll "'" ["\"; "'"]
                (replaceAll "\" ["\"; "\"] l))))).

Lemma passes_app a b : passes (a ++ b) = passes a ++ passes b.
Proof. unfold passes. rewrite !replaceAll_app. reflexivity. Qed.

Lemma passes_one x : passes [x] = escaped x.
Proof.
  unfold escaped.
  destruct (Ascii.eqb x "\") eqn:E1;
    [apply Ascii.eqb_eq in E1; subst x; reflexivity|].
  destruct (Ascii.eqb x "'") eqn:E2;
    [apply Ascii.eqb_eq in E2; subst x; reflexivity|].
  destruct (Ascii.eqb x char_dquote) eqn:E3;
    [apply Ascii.eqb_eq in E3; subst x; reflexivity|].
  destruct (Ascii.eqb x char_newline) eqn:E4;
    [apply Ascii.eqb_eq in E4; subst x; reflexivity|].
  destruct (Ascii.eqb x char_cr) eqn:E5;
    [apply Ascii.eqb_eq in E5; subst x; reflexivity|].
  destruct (Ascii.eqb x char_tab) eqn:E6;
    [apply Ascii.eqb_eq in E6; subst x; reflexivity|].
  unfold passes, replaceAll. simpl. rewrite E1. simpl. rewrite E2. simpl.
  rewrite E3. simpl. rewrite E4. simpl. rewrite E5. simpl. rewrite E6.
  reflexivity.
Qed.

Lemma passes_escaped l : passes l = flat_map escaped l.
Proof.
  induction l as [|x l IH]; [reflexivity|].
  change (x :: l) with ([x] ++ l). rewrite passes_app, passes_one, IH.
  reflexivity.
Qed.

Definition is_quote (q : ascii) : Prop := q = "'" \/ q = char_dquote.

Lemma read_escaped q : is_quote q -> forall v acc col,
  readString_go q (flat_map escaped v ++ [q]) acc false col
  = (Some (rev acc ++ v), [], col + List.length (flat_map escaped v) + 1).
Proof.
  intros Hq. induction v as [|x v IH]; intros acc col.
  - simpl. destruct Hq as [-> | ->]; simpl; rewrite app_nil_r;
      repeat f_equal; lia.
  - simpl flat_map. unfold escaped at 1.
    assert (Hstep : forall d, 
              rev (d :: acc) ++ v = rev acc ++ d :: v).
    { intros d. simpl. rewrite <- app_assoc. reflexivity. }
    destruct (Ascii.eqb x "\") eqn:E1.
    { apply Ascii.eqb_eq in E1; subst x. simpl.
      rewrite IH, Hstep, ?length_app. simpl. repeat f_equal; lia. }
    destruct (Ascii.eqb x "'") eqn:E2.
    { apply Ascii.eqb_eq in E2; subst x.
      destruct Hq as [-> | ->]; simpl;
        rewrite IH, Hstep, ?length_app; simpl; repeat f_equal; lia. }
    destruct (Ascii.eqb x char_dquote) eqn:E3.
    { apply Ascii.eqb_eq in E3; subst x.
      destruct Hq as [-> | ->]; simpl;
        rewrite IH, Hstep, ?length_app; simpl; repeat f_equal; lia. }
    destruct (Ascii.eqb x char_newline) eqn:E4.
    { apply Ascii.eqb_eq in E4; subst x.
      destruct Hq as [-> | ->]; simpl;
        rewrite IH, Hstep, ?length_app; simpl; repeat f_equal; lia. }
    destruct (Ascii.eqb x char_cr) eqn:E5.
    { apply Ascii.eqb_eq in E5; subst x.
      destruct Hq as [-> | ->]; simpl;
        rewrite IH, Hstep, ?length_app; simpl; repeat f_equal; lia. }
    destruct (Ascii.eqb x char_tab) eqn:E6.
    { apply Ascii.eqb_eq in E6; subst x.
      destruct Hq as [-> | ->]; simpl;
        rewrite IH, Hstep, ?length_app; simpl; repeat f_equal; lia. }
    change (([x] ++ flat_map escaped v) ++ [q])
      with (x :: (flat_map escaped v ++ [q])).
    cbn [readString_go]. rewrite E1.
    assert (Eq : Ascii.eqb x q = false)
      by (destruct Hq as [-> | ->]; assumption).
    assert (Hx : escaped x = [x])
      by (unfold escaped; rewrite E1, E2, E3, E4, E5, E6; reflexivity).
    rewrite Eq, IH, Hstep, Hx. simpl. repeat f_equal; lia.
Qed.

Lemma escapeString_escaped v :
  list_ascii_of_string (escapeString v)
  = flat_map escaped (list_ascii_of_string v).
Proof.
  unfold escapeString. rewrite list_ascii_of_string_of_list_ascii.
  apply passes_escaped.
Qed.

Lemma list_ascii_of_string_app a b :
  list_ascii_of_string (a ++ b)
  = list_ascii_of_string a ++ list_ascii_of_string b.
Proof.
  induction a as [|c a IH]; [reflexivity|]. simpl. rewrite IH. reflexivity.
Qed.

Lemma tokenize_loop_done fuel lx :
  rest lx = [] -> tokenize_loop fuel lx = Some lx.
Proof.
  intros H. destruct fuel; simpl; unfold tokenize_step, after_loop;
    rewrite H; reflexivity.
Qed.

(** The string literal the generator writes for [v]. *)
Definition literal (q : ascii) (v : string) : string :=
  String q (escapeString v ++ String q EmptyString).

Lemma tokenize_literal q v :
  is_quote q ->
  exists eof,
    tokenize (literal q v) = Some ([mkToken STRING v 1 1; eof], [])
    /\ type eof = EOF.
Proof.
  intros Hq. unfold tokenize, literal.
  set (body := list_ascii_of_string (escapeString v ++ String q EmptyString)).
  assert (Hbody : body = flat_map escaped (list_ascii_of_string v) ++ [q]).
  { unfold body. rewrite list_ascii_of_string_app, escapeString_escaped.
    reflexivity. }
  assert (Hlen : String.length
                   (String q (escapeString v ++ String q EmptyString))
                 = S (List.length body)).
  { unfold body. rewrite length_list_ascii_of_string. reflexivity. }
  rewrite Hlen.
  assert (Hstep : tokenize_step
                    (new_Lexer
                       (String q (escapeString v ++ String q EmptyString)))
                  = Some (readString q
                            (mkLexer (q :: body) 1 1 [0] [] []))).
  { unfold tokenize_step, new_Lexer. simpl rest.
    change (list_ascii_of_string (escapeString v ++ String q EmptyString))
      with body.
    destruct Hq as [-> | ->]; reflexivity. }
  assert (Hread : exists col,
            readString q (mkLexer (q :: body) 1 1 [0] [] [])
            = mkLexer [] 1 col [0] [mkToken STRING v 1 1] []).
  { unfold readString, advance. simpl rest. simpl cur_column.
    rewrite Hbody, read_escaped by exact Hq.
    simpl rev. rewrite app_nil_l, string_of_list_ascii_of_string.
    eexists. reflexivity. }
  destruct Hread as [col Hread].
  cbn [tokenize_loop]. rewrite Hstep, Hread.
  rewrite tokenize_loop_done by reflexivity.
  eexists. split; reflexivity.
Qed.

End EscapedStrings.

Section EscapedStringsClaims.
Import Lexer CodeGenerator.

(** X15.  The escapes [escapeString] writes are the ones [readString]
    reads: for every text [v] and either quote, the literal made of the
    quote, [escapeString v] and the quote again lexes, without errors,
    to the one STRING token whose value is [v] (followed by EOF). *)
Theorem X15_escaped_string_reads_back (q : ascii) (v : string) :
  q = "'"%char \/ q = char_dquote ->
  exists eof,
    tokenize (String q (escapeString v ++ String q EmptyString))
    = Some ([mkToken STRING v 1 1; eof], [])
    /\ type eof = EOF.
Proof. intros Hq. apply (tokenize_literal q v Hq). Qed.

Lemma X15_witness :
  exists eof,
    tokenize (String "'"%char
                (escapeString ("it's " ++ String char_newline "\")
                 ++ String "'"%char EmptyString))
    = Some ([mkToken STRING ("it's " ++ String char_newline "\") 1 1; eof], [])
    /\ type eof = EOF.
Proof.
  apply (X15_escaped_string_reads_back "'"%char
           ("it's " ++ String char_newline "\")).
  left. reflexivity.
Defined.

End EscapedStringsClaims.

(** ** The context of the runtime *)

Section RuntimeContext.
Import Signal.

(** The three module-level variables that an operation changes while it
    runs: the running effect, the stack of effects and the batch depth. *)
Definition same_context (rt rt' : Runtime) : Prop :=
  currentEffect rt' = currentEffect rt
  /\ effectStack rt' = effectStack rt
  /\ batchDepth rt' = batchDepth rt.

Definition restores {A : Type} (rt : Runtime) (o : Outcome A) : Prop :=
  forall a rt', o = Done a rt' -> same_context rt rt'.

Lemma same_context_refl rt : same_context rt rt.
Proof. repeat split. Qed.

Lemma same_context_trans rt1 rt2 rt3 :
  same_context rt1 rt2 -> same_context rt2 rt3 -> same_context rt1 rt3.
Proof.
  intros (A1 & A2 & A3) (B1 & B2 & B3). unfold same_context.
  repeat split; congruence.
Qed.

Lemma restores_done {A} rt (a : A) rt' :
  same_context rt rt' -> restores rt (Done a rt').
Proof. intros H b rt2 E. inversion E. subst. exact H. Qed.

Lemma restores_via {A} rt rt1 (o : Outcome A) :
  same_context rt rt1 -> restores rt1 o -> restores rt o.
Proof.
  intros H Ho a rt' E. apply (same_context_trans rt rt1 rt' H).
  apply (Ho a rt' E).
Qed.

Lemma restores_then {A B} rt (o : Outcome A) (k : A -> Runtime -> Outcome B) :
  restores rt o ->
  (forall a rt1, same_context rt rt1 -> restores rt (k a rt1)) ->
  restores rt (then_ o k).
Proof.
  intros Ho Hk b rt' E. destruct o as [a rt1|rt1]; simpl in E; [|discriminate].
  apply (Hk a rt1 (Ho a rt1 eq_refl) b rt' E).
Qed.

Lemma context_update_signal s g rt : same_context rt (update_signal s g rt).
Proof. repeat split. Qed.

Lemma context_update_effect e g rt : same_context rt (update_effect e g rt).
Proof. repeat split. Qed.

Lemma context_get s rt : same_context rt (snd (get s rt)).
Proof. unfold get. simpl. destruct (currentEffect rt); repeat split. Qed.

Lemma context_unsubscribes deps e : forall rt,
  same_context rt (fold_left (fun rt dep => unsubscribe dep e rt) deps rt).
Proof.
  induction deps as [|d deps IH]; intros rt; [apply same_context_refl|].
  simpl. eapply same_context_trans; [|apply IH]. repeat split.
Qed.

Lemma context_teardown e rt : same_context rt (teardown e rt).
Proof.
  unfold teardown. eapply same_context_trans; [apply context_unsubscribes|].
  apply context_update_effect.
Qed.

Lemma context_torn e rt : same_context rt (torn e rt).
Proof.
  unfold torn. eapply same_context_trans; [|apply context_teardown].
  apply context_update_effect.
Qed.

Lemma context_leave e rt1 r rt6 :
  same_context (enter e rt1) rt6 ->
  same_context rt1 (leave e (currentEffect (torn e rt1)) r rt6).
Proof.
  intros (H1 & H2 & H3).
  destruct (context_torn e rt1) as (T1 & T2 & T3).
  unfold same_context, leave. simpl.
  split; [exact T1|]. split.
  - destruct r; simpl; rewrite H2; simpl; rewrite removelast_last; exact T2.
  - destruct r; simpl; rewrite H3; simpl; exact T3.
Qed.

(** Whatever returns has put the context back. *)
Lemma context_restored (fuel : nat) :
  (forall p rt, restores rt (run fuel p rt))
  /\ (forall s v rt, restores rt (set fuel s v rt))
  /\ (forall s i rt, restores rt (notifyAll fuel s i rt))
  /\ (forall e rt, restores rt (execute fuel e rt))
  /\ (forall e rt, restores rt (callCleanup fuel e rt))
  /\ (forall l rt, restores rt (flush fuel l rt))
  /\ (forall b rt, restores rt (batch fuel b rt))
  /\ (forall b rt, restores rt (createComputed fuel b rt)).
Proof.
  induction fuel as [|f IH].
  - repeat match goal with |- _ /\ _ => split end;
      intros; intros a rt' E; discriminate E.
  - destruct IH as (Hrun & Hset & Hnot & Hexe & Hcln & Hfl & Hbat & Hcc).
    repeat match goal with |- _ /\ _ => split end.
    + intros p rt. destruct p.
      * rewrite run_Return. apply restores_done, same_context_refl.
      * rewrite run_ReturnCleanup. apply restores_done, same_context_refl.
      * rewrite run_Get. eapply restores_via; [apply context_get|apply Hrun].
      * rewrite run_Peek. apply Hrun.
      * rewrite run_SetSignal. apply restores_then; [apply Hset|].
        intros _ rt1 H1. eapply restores_via; [exact H1|apply Hrun].
      * rewrite run_Update. apply restores_then; [apply Hset|].
        intros _ rt1 H1. eapply restores_via; [exact H1|apply Hrun].
      * rewrite run_CreateSignal.
        eapply restores_via; [|apply Hrun]. repeat split.
      * rewrite run_CreateEffect.
        apply (restores_via rt (snd (new_effect p rt))); [repeat split|].
        apply restores_then; [apply Hexe|].
        intros _ rt1 H1. eapply restores_via; [exact H1|apply Hrun].
      * rewrite run_CreateComputed. apply restores_then; [apply Hcc|].
        intros s1 rt1 H1. eapply restores_via; [exact H1|apply Hrun].
      * rewrite run_Dispose. apply restores_then; [apply Hcln|].
        intros _ rt1 H1. eapply restores_via; [|apply Hrun].
        eapply same_context_trans; [exact H1|apply context_teardown].
      * rewrite run_Batch. apply restores_then; [apply Hbat|].
        intros _ rt1 H1. eapply restores_via; [exact H1|apply Hrun].
      * rewrite run_Untrack. intros a rt' E.
        destruct (run f p (set_currentEffect None rt)) as [r rt1|rt1] eqn:Er;
          simpl in E; [|discriminate].
        destruct (Hrun _ _ _ _ Er) as (_ & R2 & R3). simpl in R2, R3.
        apply (same_context_trans rt
                 (set_currentEffect (currentEffect rt) rt1)).
        -- repeat split; assumption.
        -- apply (Hrun _ _ _ _ E).
      * rewrite run_Call. apply restores_then; [apply Hrun|].
        intros r rt1 H1. eapply restores_via; [exact H1|apply Hrun].
      * rewrite run_Mark. eapply restores_via; [|apply Hrun]. repeat split.
    + intros s v rt. rewrite set_step.
      destruct (Object_is _ _); [apply restores_done, same_context_refl|].
      destruct (Nat.ltb 0 _); [apply restores_done; repeat split|].
      eapply restores_via; [|apply Hnot]. repeat split.
    + intros s i rt. rewrite notifyAll_step.
      destruct (nth_error _ i) as [[e|]|].
      * apply restores_then; [apply Hexe|].
        intros _ rt1 H1. eapply restores_via; [exact H1|apply Hnot].
      * apply Hnot.
      * apply restores_done, same_context_refl.
    + intros e rt. rewrite execute_step.
      destruct (isRunning (effect_at e rt));
        [apply restores_done, same_context_refl|].
      apply restores_then; [apply Hcln|].
      intros _ rt1 H1. intros a rt' E.
      destruct (run f (fn (effect_at e (enter e rt1))) (enter e rt1))
        as [r rt6|rt6] eqn:Er; simpl in E; [|discriminate].
      inversion E; subst.
      apply (same_context_trans rt rt1 _ H1).
      apply context_leave. apply (Hrun _ _ _ _ Er).
    + intros e rt. rewrite callCleanup_step.
      destruct (cleanup (effect_at e rt)) as [c|];
        [|apply restores_done, same_context_refl].
      apply restores_then; [apply Hrun|].
      intros _ rt1 H1. apply restores_done. exact H1.
    + intros l rt. destruct l as [|e l].
      * rewrite flush_nil. apply restores_done, same_context_refl.
      * rewrite flush_cons. apply restores_then; [apply Hexe|].
        intros _ rt1 H1. eapply restores_via; [exact H1|apply Hfl].
    + intros b rt. rewrite batch_step. intros a rt' E.
      destruct (run f b (set_batchDepth (batchDepth rt + 1) rt))
        as [r rt1|rt1] eqn:Er; simpl in E; [|discriminate].
      destruct (Hrun _ _ _ _ Er) as (R1 & R2 & R3). simpl in R1, R2, R3.
      assert (Hback : same_context rt
                        (set_batchDepth (batchDepth rt1 - 1) rt1)).
      { unfold same_context. simpl. repeat split; try assumption. lia. }
      destruct (Nat.eqb (batchDepth rt1 - 1) 0).
      * apply (same_context_trans rt _ _ Hback).
        eapply same_context_trans; [|apply (Hfl _ _ _ _ E)]. repeat split.
      * inversion E; subst. exact Hback.
    + intros b rt. rewrite createComputed_step. cbv zeta.
      match goal with
      | |- restores rt (then_ (execute f ?e ?rt2) _) =>
          apply (restores_via rt rt2); [repeat split|]
      end.
      apply restores_then; [apply Hexe|].
      intros _ rt1 H1. apply restores_done. exact H1.
Qed.

End RuntimeContext.

Section RuntimeContextClaims.
Import Signal.

Definition batched_write : Prog :=
  CreateSignal (VNum 0) (fun s =>
    CreateEffect (Get s (fun _ => Return VUndefined)) (fun _ =>
      Batch (SetSignal s (VNum 1) (Return VUndefined))
        (Return VUndefined))).

Definition after_batched_write : Runtime :=
  Eval vm_compute in
    match run 20 batched_write initial with
    | Done _ rt => rt
    | Timeout rt => rt
    end.

(** X16.  Every operation of the runtime that returns has put back the
    module-level context it found: the running effect ([currentEffect]),
    the stack of effects and the batch depth are, after a closure has
    run, what they were before, whatever the closure did (effects
    executed, batches, [untrack], nested creations). *)
Theorem X16_context_is_restored
    (fuel : nat) (p : Prog) (rt : Runtime)
    (r : Value * option Prog) (rt' : Runtime) :
  run fuel p rt = Done r rt' ->
  currentEffect rt' = currentEffect rt
  /\ effectStack rt' = effectStack rt
  /\ batchDepth rt' = batchDepth rt.
Proof. intros H. exact (proj1 (context_restored fuel) p rt r rt' H). Qed.

Lemma X16_witness :
  currentEffect after_batched_write = None
  /\ effectStack after_batched_write = []
  /\ batchDepth after_batched_write = 0.
Proof.
  apply (X16_context_is_restored 20 batched_write initial (VUndefined, None)
           after_batched_write).
  vm_compute. reflexivity.
Defined.

(** A closure that only reads, run while no effect is current, changes
    nothing. *)
Lemma run_reads_untracked n body :
  reads_only n body ->
  forall rt, currentEffect rt = None ->
  exists m, forall fuel, m <= fuel ->
    run fuel body rt = Done (result_of body (fun s => peek s rt), None) rt.
Proof.
  induction 1 as [v|s k Hs Hk IH|s k Hs Hk IH]; intros rt Hc.
  - exists 1. intros fuel Hf. destruct fuel as [|f]; [lia|]. reflexivity.
  - destruct (IH (peek s rt) rt Hc) as [m Hm].
    exists (S m). intros fuel Hf. destruct fuel as [|f]; [lia|].
    rewrite run_Get. unfold get. rewrite Hc. simpl.
    apply Hm. lia.
  - destruct (IH (peek s rt) rt Hc) as [m Hm].
    exists (S m). intros fuel Hf. destruct fuel as [|f]; [lia|].
    rewrite run_Peek. apply Hm. lia.
Qed.

Lemma set_currentEffect_back rt :
  set_currentEffect (currentEffect rt) (set_currentEffect None rt) = rt.
Proof. destruct rt. reflexivity. Qed.

(** X17.  [untrack(fn)] for a closure [fn] that only reads signals is
    the value [fn] computes from the current values, and nothing else:
    the runtime is left as it was, so the effect that is running is
    subscribed to none of the signals [fn] read. *)
Theorem X17_untracked_reads_subscribe_nothing
    (n : nat) (body : Prog) (k : Value -> Prog) (rt : Runtime) :
  reads_only n body ->
  exists m, forall fuel, m <= fuel ->
    run (S fuel) (Untrack body k) rt
    = run fuel (k (result_of body (fun s => peek s rt))) rt.
Proof.
  intros H.
  destruct (run_reads_untracked n body H (set_currentEffect None rt) eq_refl)
    as [m Hm].
  exists m. intros fuel Hf. rewrite run_Untrack, (Hm fuel Hf). simpl.
  rewrite set_currentEffect_back. reflexivity.
Qed.

Lemma X17_witness :
  exists m, forall fuel, m <= fuel ->
    run (S fuel) (Untrack doubled (fun v => Return v)) one_signal
    = run fuel
        (Return (result_of doubled (fun s => peek s one_signal))) one_signal.
Proof.
  apply (X17_untracked_reads_subscribe_nothing 1
           doubled (fun v => Return v) one_signal).
  apply reads_get; [lia|]. intros v. apply reads_return.
Defined.

End RuntimeContextClaims.

(** ** Subscribers and dependencies *)

Section SetFacts.

Lemma has_app x s1 s2 :
  JSSet.has x (s1 ++ s2) = JSSet.has x s1 || JSSet.has x s2.
Proof. unfold JSSet.has. apply existsb_app. Qed.

Lemma has_add x y s :
  JSSet.has x (JSSet.add y s) = Nat.eqb x y || JSSet.has x s.
Proof.
  unfold JSSet.add. destruct (JSSet.has y s) eqn:E.
  - destruct (Nat.eqb x y) eqn:Exy; [|reflexivity].
    apply Nat.eqb_eq in Exy. subst. exact E.
  - rewrite has_app. simpl. rewrite orb_false_r. apply orb_comm.
Qed.

Lemma has_delete x y s :
  JSSet.has x (JSSet.delete y s) = negb (Nat.eqb x y) && JSSet.has x s.
Proof.
  induction s as [|[z|] s IH]; simpl.
  - rewrite andb_false_r. reflexivity.
  - fold (JSSet.has x (JSSet.delete y s)) (JSSet.has x s). rewrite IH.
    destruct (Nat.eqb y z) eqn:Eyz; simpl.
    + apply Nat.eqb_eq in Eyz. subst z.
      destruct (Nat.eqb x y); reflexivity.
    + destruct (Nat.eqb x z) eqn:Exz; simpl; [|reflexivity].
      apply Nat.eqb_eq in Exz. subst z.
      rewrite Nat.eqb_sym, Eyz. reflexivity.
  - fold (JSSet.has x (JSSet.delete y s)) (JSSet.has x s). exact IH.
Qed.

Lemma has_clear x s : JSSet.has x (JSSet.clear s) = false.
Proof. induction s as [|z s IH]; [reflexivity|exact IH]. Qed.

Lemma has_to_array x s :
  JSSet.has x s = existsb (Nat.eqb x) (JSSet.to_array s).
Proof.
  induction s as [|[z|] s IH]; simpl; [reflexivity| |exact IH].
  fold (JSSet.has x s). rewrite IH. reflexivity.
Qed.

Lemma to_array_has x s : In x (JSSet.to_array s) -> JSSet.has x s = true.
Proof.
  intros H. rewrite has_to_array. apply existsb_exists. exists x.
  split; [exact H|apply Nat.eqb_refl].
Qed.

Lemma nth_error_has s i x :
  nth_error s i = Some (Some x) -> JSSet.has x s = true.
Proof.
  intros H. apply nth_error_In in H. unfold JSSet.has.
  apply existsb_exists. exists (Some x). split; [exact H|].
  simpl. apply Nat.eqb_refl.
Qed.

End SetFacts.

Section Subscriptions.
Import Signal.

(** Effect [e] is among the subscribers of signal [s]; signal [s] is
    among the dependencies of effect [e]; effect [e] is pending. *)
Definition subscribed (e : EffectId) (s : SignalId) (rt : Runtime) : bool :=
  JSSet.has e (subscribers (signal_at s rt)).

Definition depends (e : EffectId) (s : SignalId) (rt : Runtime) : bool :=
  JSSet.has s (dependencies (effect_at e rt)).

Definition pending (e : EffectId) (rt : Runtime) : bool :=
  JSSet.has e (pendingEffects rt).

Definition consistent (rt : Runtime) : Prop :=
  (forall s e, subscribed e s rt = true -> depends e s rt = true)
  /\ (forall e, currentEffect rt = Some e -> e < List.length (effects rt))
  /\ (forall e, pending e rt = true -> e < List.length (effects rt))
  /\ (batchDepth rt = 0 -> forall e, pending e rt = false).

Lemma depends_in_range e s rt :
  depends e s rt = true -> e < List.length (effects rt).
Proof.
  unfold depends, effect_at. intros H.
  destruct (Nat.ltb e (List.length (effects rt))) eqn:E.
  - apply Nat.ltb_lt. exact E.
  - apply Nat.ltb_ge in E. rewrite nth_overflow in H by exact E.
    discriminate.
Qed.

Lemma subscribed_in_range e s rt :
  consistent rt -> subscribed e s rt = true -> e < List.length (effects rt).
Proof.
  intros (H & _) Hs. apply (depends_in_range e s). apply H. exact Hs.
Qed.

(** [g] changes no dependency; [g] changes no subscriber. *)
Definition keeps_dependencies (g : Effect -> Effect) : Prop :=
  forall ef, dependencies (g ef) = dependencies ef.

Definition keeps_subscribers (g : SignalNode -> SignalNode) : Prop :=
  forall n, subscribers (g n) = subscribers n.

Lemma depends_update_effect e' g rt e s :
  keeps_dependencies g ->
  depends e s (update_effect e' g rt) = depends e s rt.
Proof.
  intros Hg. unfold depends, effect_at, update_effect, with_effects. simpl.
  rewrite nth_update_nth. destruct (Nat.eqb e e'); [|reflexivity].
  destruct (Nat.ltb e (List.length (effects rt))) eqn:El.
  - rewrite Hg. reflexivity.
  - apply Nat.ltb_ge in El. rewrite nth_overflow by exact El. reflexivity.
Qed.

Lemma subscribed_update_signal s' g rt e s :
  keeps_subscribers g ->
  subscribed e s (update_signal s' g rt) = subscribed e s rt.
Proof.
  intros Hg. unfold subscribed, signal_at, update_signal, with_signals. simpl.
  rewrite nth_update_nth. destruct (Nat.eqb s s'); [|reflexivity].
  destruct (Nat.ltb s (List.length (signals rt))) eqn:El.
  - rewrite Hg. reflexivity.
  - apply Nat.ltb_ge in El. rewrite nth_overflow by exact El. reflexivity.
Qed.

Lemma consistent_same rt rt' :
  (forall e s, subscribed e s rt' = subscribed e s rt) ->
  (forall e s, depends e s rt' = depends e s rt) ->
  currentEffect rt' = currentEffect rt ->
  pendingEffects rt' = pendingEffects rt ->
  batchDepth rt' = batchDepth rt ->
  List.length (effects rt') = List.length (effects rt) ->
  consistent rt -> consistent rt'.
Proof.
  intros Hs Hd Hc Hp Hb Hl (W1 & W2 & W3 & W4).
  unfold consistent, pending in *. rewrite Hc, Hp, Hb, Hl.
  repeat match goal with |- _ /\ _ => split end; try assumption.
  intros s e H. rewrite Hs in H. rewrite Hd. apply W1. exact H.
Qed.

Lemma consistent_update_effect e' g rt :
  keeps_dependencies g -> consistent rt -> consistent (update_effect e' g rt).
Proof.
  intros Hg. apply consistent_same; try reflexivity.
  - intros e s. apply depends_update_effect. exact Hg.
  - unfold update_effect, with_effects. simpl. apply update_nth_length.
Qed.

Lemma consistent_update_signal s' g rt :
  keeps_subscribers g -> consistent rt -> consistent (update_signal s' g rt).
Proof.
  intros Hg. apply consistent_same; try reflexivity.
  intros e s. apply subscribed_update_signal. exact Hg.
Qed.

Lemma subscribed_add s' e' rt e s :
  subscribed e s
    (update_signal s'
       (fun n => mkSignalNode (value n) (JSSet.add e' (subscribers n))) rt)
  = subscribed e s rt
    || (Nat.eqb s s' && Nat.ltb s (List.length (signals rt)) && Nat.eqb e e').
Proof.
  unfold subscribed, signal_at, update_signal, with_signals. simpl.
  rewrite nth_update_nth. destruct (Nat.eqb s s'); simpl;
    [|rewrite orb_false_r; reflexivity].
  destruct (Nat.ltb s (List.length (signals rt))) eqn:El; simpl.
  - rewrite has_add. apply orb_comm.
  - apply Nat.ltb_ge in El. rewrite nth_overflow by exact El.
    rewrite orb_false_r. reflexivity.
Qed.

Lemma depends_add e' s' rt e s :
  e' < List.length (effects rt) ->
  depends e s
    (update_effect e'
       (fun ef => mkEffect (JSSet.add s' (dependencies ef)) (fn ef)
                    (cleanup ef) (isRunning ef)) rt)
  = depends e s rt || (Nat.eqb e e' && Nat.eqb s s').
Proof.
  intros Hr. unfold depends, effect_at, update_effect, with_effects. simpl.
  rewrite nth_update_nth. destruct (Nat.eqb e e') eqn:E; simpl;
    [|rewrite orb_false_r; reflexivity].
  apply Nat.eqb_eq in E. subst e'.
  apply Nat.ltb_lt in Hr. rewrite Hr. simpl. rewrite has_add. apply orb_comm.
Qed.

Lemma consistent_get s rt : consistent rt -> consistent (snd (get s rt)).
Proof.
  intros H. unfold get. simpl.
  destruct (currentEffect rt) as [c|] eqn:Ec; [|exact H].
  destruct H as (W1 & W2 & W3 & W4).
  assert (Hc : c < List.length (effects rt)) by (apply W2; exact Ec).
  unfold consistent.
  assert (Hl : List.length
                 (effects
                    (update_effect c
                       (fun ef => mkEffect (JSSet.add s (dependencies ef))
                                    (fn ef) (cleanup ef) (isRunning ef))
                       (update_signal s
                          (fun n => mkSignalNode (value n)
                                      (JSSet.add c (subscribers n))) rt)))
               = List.length (effects rt)).
  { unfold update_effect, with_effects. simpl. apply update_nth_length. }
  rewrite Hl.
  repeat match goal with |- _ /\ _ => split end.
  - intros s1 e1 Hs.
    rewrite depends_add by exact Hc.
    change (subscribed e1 s1
              (update_signal s
                 (fun n => mkSignalNode (value n)
                             (JSSet.add c (subscribers n))) rt) = true) in Hs.
    rewrite subscribed_add in Hs.
    change (depends e1 s1
              (update_signal s
                 (fun n => mkSignalNode (value n)
                             (JSSet.add c (subscribers n))) rt))
      with (depends e1 s1 rt).
    apply orb_prop in Hs. destruct Hs as [Hs|Hs].
    + rewrite (W1 _ _ Hs). reflexivity.
    + apply andb_prop in Hs. destruct Hs as [Hs He].
      apply andb_prop in Hs. destruct Hs as [Hs _].
      rewrite He, Hs. apply orb_true_r.
  - intros e1 He1. apply W2. exact He1.
  - intros e1 He1. apply W3. exact He1.
  - exact W4.
Qed.

Lemma subscribed_unsubscribe s' e' rt e s :
  subscribed e s (unsubscribe s' e' rt)
  = subscribed e s rt && negb (Nat.eqb s s' && Nat.eqb e e').
Proof.
  unfold subscribed, signal_at, unsubscribe, update_signal, with_signals.
  simpl. rewrite nth_update_nth. destruct (Nat.eqb s s'); simpl;
    [|rewrite andb_true_r; reflexivity].
  destruct (Nat.ltb s (List.length (signals rt))) eqn:El; simpl.
  - rewrite has_delete. apply andb_comm.
  - apply Nat.ltb_ge in El. rewrite nth_overflow by exact El. reflexivity.
Qed.

Lemma subscribed_unsubscribes deps e' e s : forall rt,
  subscribed e s (fold_left (fun rt dep => unsubscribe dep e' rt) deps rt)
  = subscribed e s rt && negb (Nat.eqb e e' && existsb (Nat.eqb s) deps).
Proof.
  induction deps as [|d deps IH]; intros rt; simpl.
  - rewrite andb_false_r, andb_true_r. reflexivity.
  - rewrite IH, subscribed_unsubscribe.
    destruct (subscribed e s rt), (Nat.eqb e e'), (Nat.eqb s d),
      (existsb (Nat.eqb s) deps); reflexivity.
Qed.

Lemma depends_unsubscribes deps e' e s : forall rt,
  depends e s (fold_left (fun rt dep => unsubscribe dep e' rt) deps rt)
  = depends e s rt.
Proof.
  intros rt. unfold depends, effect_at. rewrite effects_unsubscribes.
  reflexivity.
Qed.

Lemma subscribed_teardown e' rt e s :
  subscribed e s (teardown e' rt)
  = subscribed e s rt && negb (Nat.eqb e e' && depends e' s rt).
Proof.
  unfold teardown.
  change (subscribed e s (update_effect e' ?g ?r)) with (subscribed e s r).
  rewrite subscribed_unsubscribes. unfold depends.
  rewrite <- has_to_array. reflexivity.
Qed.

Lemma depends_teardown e' rt e s :
  depends e s (teardown e' rt)
  = negb (Nat.eqb e e') && depends e s rt.
Proof.
  unfold teardown, depends, effect_at, update_effect, with_effects. simpl.
  rewrite nth_update_nth, effects_unsubscribes.
  destruct (Nat.eqb e e'); simpl; [|reflexivity].
  destruct (Nat.ltb e (List.length (effects rt))); [|reflexivity].
  simpl. apply has_clear.
Qed.

Lemma unsubscribes_fields deps e' : forall rt,
  let rt' := fold_left (fun rt dep => unsubscribe dep e' rt) deps rt in
  currentEffect rt' = currentEffect rt
  /\ pendingEffects rt' = pendingEffects rt
  /\ batchDepth rt' = batchDepth rt
  /\ trace rt' = trace rt.
Proof.
  induction deps as [|d deps IH]; intros rt; simpl; [repeat split|].
  apply (IH (unsubscribe d e' rt)).
Qed.

Lemma teardown_fields e' rt :
  currentEffect (teardown e' rt) = currentEffect rt
  /\ pendingEffects (teardown e' rt) = pendingEffects rt
  /\ batchDepth (teardown e' rt) = batchDepth rt
  /\ trace (teardown e' rt) = trace rt
  /\ List.length (effects (teardown e' rt)) = List.length (effects rt).
Proof.
  unfold teardown.
  destruct (unsubscribes_fields
              (JSSet.to_array (dependencies (effect_at e' rt))) e' rt)
    as (H1 & H2 & H3 & H4).
  cbv zeta in H1, H2, H3, H4. simpl.
  repeat match goal with |- _ /\ _ => split end; try assumption.
  unfold update_effect, with_effects. simpl.
  rewrite update_nth_length, effects_unsubscribes. reflexivity.
Qed.

Lemma consistent_teardown e' rt : consistent rt -> consistent (teardown e' rt).
Proof.
  intros (W1 & W2 & W3 & W4).
  destruct (teardown_fields e' rt) as (F1 & F2 & F3 & _ & F5).
  unfold consistent, pending. rewrite F1, F2, F3, F5.
  repeat match goal with |- _ /\ _ => split end; try assumption.
  intros s e H. rewrite subscribed_teardown in H.
  rewrite depends_teardown.
  apply andb_prop in H. destruct H as [Hs Hn].
  pose proof (W1 s e Hs) as Hd. rewrite Hd, andb_true_r.
  destruct (Nat.eqb e e') eqn:E; [|reflexivity].
  apply Nat.eqb_eq in E. subst e'. rewrite Hd in Hn. discriminate Hn.
Qed.

Lemma consistent_torn e rt : consistent rt -> consistent (torn e rt).
Proof.
  intros H. unfold torn. apply consistent_teardown.
  apply consistent_update_effect; [intros ef; reflexivity|exact H].
Qed.

Lemma consistent_current c rt :
  (forall e, c = Some e -> e < List.length (effects rt)) ->
  consistent rt -> consistent (set_currentEffect c rt).
Proof.
  intros Hc (W1 & W2 & W3 & W4). unfold consistent.
  repeat match goal with |- _ /\ _ => split end; try assumption.
Qed.

Lemma consistent_enter e rt :
  e < List.length (effects rt) -> consistent rt -> consistent (enter e rt).
Proof.
  intros He H. unfold enter. cbv zeta.
  apply (consistent_same
           (update_effect e
              (fun ef => mkEffect (dependencies ef) (fn ef) (cleanup ef) true)
              (set_effectStack (effectStack (torn e rt) ++ [e])
                 (set_currentEffect (Some e) (torn e rt)))));
    try reflexivity.
  apply consistent_update_effect; [intros ef; reflexivity|].
  apply (consistent_same (set_currentEffect (Some e) (torn e rt)));
    try reflexivity.
  apply consistent_current; [|apply consistent_torn; exact H].
  intros e1 E. inversion E. subst. rewrite effects_torn_length. exact He.
Qed.

Lemma consistent_leave e prev r rt :
  (forall e1, prev = Some e1 -> e1 < List.length (effects rt)) ->
  consistent rt -> consistent (leave e prev r rt).
Proof.
  intros Hp H. unfold leave. cbv zeta.
  set (rt7 := match r with
              | Some c =>
                  update_effect e
                    (fun ef => mkEffect (dependencies ef) (fn ef) (Some c)
                                 (isRunning ef)) rt
              | None => rt
              end).
  assert (H7 : consistent rt7).
  { unfold rt7. destruct r; [|exact H].
    apply consistent_update_effect; [intros ef; reflexivity|exact H]. }
  assert (L7 : List.length (effects rt7) = List.length (effects rt)).
  { unfold rt7. destruct r; [|reflexivity].
    unfold update_effect, with_effects. simpl. apply update_nth_length. }
  set (rt8 := update_effect e
                (fun ef => mkEffect (dependencies ef) (fn ef) (cleanup ef)
                             false) rt7).
  assert (H8 : consistent rt8).
  { apply consistent_update_effect; [intros ef; reflexivity|exact H7]. }
  assert (L8 : List.length (effects rt8) = List.length (effects rt)).
  { unfold rt8, update_effect, with_effects. simpl.
    rewrite update_nth_length. exact L7. }
  apply consistent_current.
  - intros e1 E. change (e1 < List.length (effects rt8)).
    rewrite L8. apply Hp. exact E.
  - apply (consistent_same rt8); try reflexivity. exact H8.
Qed.

Lemma consistent_store s v rt : consistent rt -> consistent (store s v rt).
Proof.
  unfold store. apply consistent_update_signal. intros n. reflexivity.
Qed.

Lemma has_adds l : forall p x,
  JSSet.has x (fold_left (fun p e => JSSet.add e p) l p)
  = JSSet.has x p || existsb (Nat.eqb x) l.
Proof.
  induction l as [|y l IH]; intros p x; simpl.
  - rewrite orb_false_r. reflexivity.
  - rewrite IH, has_add.
    destruct (JSSet.has x p), (Nat.eqb x y); reflexivity.
Qed.

Lemma pending_defer s rt e :
  pending e (defer s rt) = pending e rt || subscribed e s rt.
Proof.
  unfold pending, defer, subscribed. simpl. rewrite has_adds.
  rewrite <- has_to_array. reflexivity.
Qed.

Lemma consistent_defer s rt :
  batchDepth rt <> 0 -> consistent rt -> consistent (defer s rt).
Proof.
  intros Hb H. pose proof H as (W1 & W2 & W3 & W4).
  unfold consistent.
  repeat match goal with |- _ /\ _ => split end; try assumption.
  - intros e He. rewrite pending_defer in He.
    apply orb_prop in He. destruct He as [He|He].
    + apply W3. exact He.
    + apply (subscribed_in_range e s rt H He).
  - intros Hz. simpl in Hz. contradiction.
Qed.

Lemma effect_at_new body rt e :
  e < List.length (effects rt) ->
  effect_at e (snd (new_effect body rt)) = effect_at e rt.
Proof.
  intros H. unfold effect_at, new_effect, with_effects. simpl.
  apply app_nth1. exact H.
Qed.

Lemma consistent_new_effect body rt :
  consistent rt -> consistent (snd (new_effect body rt)).
Proof.
  intros (W1 & W2 & W3 & W4). unfold consistent.
  assert (Hl : List.length (effects (snd (new_effect body rt)))
               = S (List.length (effects rt))).
  { unfold new_effect, with_effects. simpl. rewrite length_app. simpl. lia. }
  rewrite Hl.
  repeat match goal with |- _ /\ _ => split end.
  - intros s e Hs. change (subscribed e s rt = true) in Hs.
    pose proof (W1 s e Hs) as Hd. unfold depends.
    rewrite effect_at_new; [exact Hd|].
    apply (depends_in_range e s rt Hd).
  - intros e He. apply W2 in He. lia.
  - intros e He. apply W3 in He. lia.
  - exact W4.
Qed.

Lemma subscribed_new_signal v rt e s :
  subscribed e s (snd (new_signal v rt)) = subscribed e s rt.
Proof.
  unfold subscribed, signal_at, new_signal, with_signals. simpl.
  destruct (Nat.ltb s (List.length (signals rt))) eqn:El.
  - apply Nat.ltb_lt in El. rewrite app_nth1 by exact El. reflexivity.
  - apply Nat.ltb_ge in El. rewrite (nth_overflow (signals rt)) by exact El.
    destruct (Nat.eqb s (List.length (signals rt))) eqn:Es.
    + apply Nat.eqb_eq in Es. subst s. rewrite nth_middle. reflexivity.
    + apply Nat.eqb_neq in Es. rewrite nth_overflow; [reflexivity|].
      rewrite length_app. simpl. lia.
Qed.

Lemma consistent_new_signal v rt :
  consistent rt -> consistent (snd (new_signal v rt)).
Proof.
  apply consistent_same; try reflexivity.
  intros e s. apply subscribed_new_signal.
Qed.

Lemma consistent_log ev rt : consistent rt -> consistent (log ev rt).
Proof. apply consistent_same; reflexivity. Qed.

Lemma consistent_deeper d rt :
  d <> 0 -> consistent rt -> consistent (set_batchDepth d rt).
Proof.
  intros Hd (W1 & W2 & W3 & W4). unfold consistent.
  repeat match goal with |- _ /\ _ => split end; try assumption.
  intros Hz. simpl in Hz. contradiction.
Qed.

Lemma consistent_cleared d rt :
  consistent rt ->
  consistent (set_pendingEffects (JSSet.clear (pendingEffects rt))
                (set_batchDepth d rt)).
Proof.
  intros (W1 & W2 & W3 & W4). unfold consistent, pending. simpl.
  repeat match goal with |- _ /\ _ => split end; try assumption.
  - intros e He. rewrite has_clear in He. discriminate He.
  - intros _ e. apply has_clear.
Qed.

(** [rt'] is consistent and has the effects of [rt], and maybe more. *)
Definition sound (rt rt' : Runtime) : Prop :=
  consistent rt' /\ List.length (effects rt) <= List.length (effects rt').

Definition stays_sound {A : Type} (rt : Runtime) (o : Outcome A) : Prop :=
  forall a rt', o = Done a rt' -> sound rt rt'.

Lemma stays_sound_done {A} rt (a : A) rt' :
  consistent rt' -> List.length (effects rt) <= List.length (effects rt') ->
  stays_sound rt (Done a rt').
Proof. intros H Hl b rt2 E. inversion E. subst. split; assumption. Qed.

Lemma stays_sound_via {A} rt rt1 (o : Outcome A) :
  List.length (effects rt) <= List.length (effects rt1) ->
  stays_sound rt1 o -> stays_sound rt o.
Proof.
  intros Hl Ho a rt' E. destruct (Ho a rt' E) as [H1 H2].
  split; [exact H1|lia].
Qed.

Lemma stays_sound_then {A B} rt (o : Outcome A)
    (k : A -> Runtime -> Outcome B) :
  stays_sound rt o ->
  (forall a rt1, sound rt rt1 -> stays_sound rt (k a rt1)) ->
  stays_sound rt (then_ o k).
Proof.
  intros Ho Hk b rt' E. destruct o as [a rt1|rt1]; simpl in E; [|discriminate].
  apply (Hk a rt1 (Ho a rt1 eq_refl) b rt' E).
Qed.

Lemma stays_sound_bind {A B} rt (o : Outcome A)
    (k : A -> Runtime -> Outcome B) :
  (forall a rt1, o = Done a rt1 -> stays_sound rt (k a rt1)) ->
  stays_sound rt (then_ o k).
Proof.
  intros Hk b rt' E. destruct o as [a rt1|rt1]; simpl in E; [|discriminate].
  apply (Hk a rt1 eq_refl b rt' E).
Qed.

Lemma effects_get s rt :
  List.length (effects (snd (get s rt))) = List.length (effects rt).
Proof.
  unfold get. simpl. destruct (currentEffect rt); [|reflexivity].
  unfold update_effect, with_effects. simpl. apply update_nth_length.
Qed.

Lemma effects_enter e rt :
  List.length (effects (enter e rt)) = List.length (effects rt).
Proof.
  unfold enter. cbv zeta. unfold log, update_effect, with_effects. simpl.
  rewrite update_nth_length. apply effects_torn_length.
Qed.

Lemma effects_leave e prev r rt :
  List.length (effects (leave e prev r rt)) = List.length (effects rt).
Proof.
  unfold leave. cbv zeta. unfold update_effect, with_effects. simpl.
  rewrite update_nth_length. destruct r; simpl;
    [apply update_nth_length|reflexivity].
Qed.

(** The runtime keeps its state consistent. *)
Lemma consistent_kept (fuel : nat) :
  (forall p rt, consistent rt -> stays_sound rt (run fuel p rt))
  /\ (forall s v rt, consistent rt -> stays_sound rt (set fuel s v rt))
  /\ (forall s i rt, consistent rt -> stays_sound rt (notifyAll fuel s i rt))
  /\ (forall e rt, consistent rt -> e < List.length (effects rt) ->
        stays_sound rt (execute fuel e rt))
  /\ (forall e rt, consistent rt -> stays_sound rt (callCleanup fuel e rt))
  /\ (forall l rt, consistent rt ->
        (forall e, In e l -> e < List.length (effects rt)) ->
        stays_sound rt (flush fuel l rt))
  /\ (forall b rt, consistent rt -> stays_sound rt (batch fuel b rt))
  /\ (forall b rt, consistent rt ->
        stays_sound rt (createComputed fuel b rt)).
Proof.
  induction fuel as [|f IH].
  - repeat match goal with |- _ /\ _ => split end;
      intros; intros a rt' E; discriminate E.
  - destruct IH as (Hrun & Hset & Hnot & Hexe & Hcln & Hfl & Hbat & Hcc).
    repeat match goal with |- _ /\ _ => split end.
    + intros p rt H. destruct p.
      * rewrite run_Return. apply stays_sound_done; [exact H|lia].
      * rewrite run_ReturnCleanup. apply stays_sound_done; [exact H|lia].
      * rewrite run_Get.
        apply (stays_sound_via rt (snd (get s rt)));
          [rewrite effects_get; lia|].
        apply Hrun. apply consistent_get. exact H.
      * rewrite run_Peek. apply Hrun. exact H.
      * rewrite run_SetSignal. apply stays_sound_then; [apply Hset, H|].
        intros _ rt1 [H1 L1].
        apply (stays_sound_via rt rt1 _ L1). apply Hrun, H1.
      * rewrite run_Update. apply stays_sound_then; [apply Hset, H|].
        intros _ rt1 [H1 L1].
        apply (stays_sound_via rt rt1 _ L1). apply Hrun, H1.
      * rewrite run_CreateSignal.
        apply (stays_sound_via rt (snd (new_signal initialValue rt)));
          [simpl; lia|].
        apply Hrun. apply consistent_new_signal. exact H.
      * rewrite run_CreateEffect.
        assert (Hl : List.length (effects (snd (new_effect p rt)))
                     = S (List.length (effects rt))).
        { unfold new_effect, with_effects. simpl. rewrite length_app.
          simpl. lia. }
        apply (stays_sound_via rt (snd (new_effect p rt))); [lia|].
        apply stays_sound_then.
        -- apply Hexe; [apply consistent_new_effect; exact H|].
           rewrite Hl. simpl. lia.
        -- intros _ rt1 [H1 L1].
           apply (stays_sound_via _ rt1 _ L1). apply Hrun, H1.
      * rewrite run_CreateComputed. apply stays_sound_then; [apply Hcc, H|].
        intros s1 rt1 [H1 L1].
        apply (stays_sound_via rt rt1 _ L1). apply Hrun, H1.
      * rewrite run_Dispose. apply stays_sound_then; [apply Hcln, H|].
        intros _ rt1 [H1 L1].
        destruct (teardown_fields e rt1) as (_ & _ & _ & _ & F5).
        apply (stays_sound_via rt (teardown e rt1)); [lia|].
        apply Hrun. apply consistent_teardown. exact H1.
      * rewrite run_Batch. apply stays_sound_then; [apply Hbat, H|].
        intros _ rt1 [H1 L1].
        apply (stays_sound_via rt rt1 _ L1). apply Hrun, H1.
      * rewrite run_Untrack. apply stays_sound_then.
        -- apply (stays_sound_via rt (set_currentEffect None rt)); [simpl; lia|].
           apply Hrun. apply consistent_current; [intros e E; discriminate E|].
           exact H.
        -- intros r rt1 [H1 L1].
           apply (stays_sound_via rt
                    (set_currentEffect (currentEffect rt) rt1)); [exact L1|].
           apply Hrun. apply consistent_current; [|exact H1].
           intros e E. destruct H as (_ & W2 & _). apply W2 in E. lia.
      * rewrite run_Call. apply stays_sound_then; [apply Hrun, H|].
        intros r rt1 [H1 L1].
        apply (stays_sound_via rt rt1 _ L1). apply Hrun, H1.
      * rewrite run_Mark.
        apply (stays_sound_via rt (log (EvMark n) rt)); [simpl; lia|].
        apply Hrun. apply consistent_log. exact H.
    + intros s v rt H. rewrite set_step.
      destruct (Object_is _ _); [apply stays_sound_done; [exact H|lia]|].
      destruct (Nat.ltb 0 (batchDepth (store s v rt))) eqn:Eb.
      * apply stays_sound_done; [|simpl; lia].
        apply consistent_defer; [|apply consistent_store; exact H].
        apply Nat.ltb_lt in Eb. lia.
      * apply (stays_sound_via rt (store s v rt)); [simpl; lia|].
        apply Hnot. apply consistent_store. exact H.
    + intros s i rt H. rewrite notifyAll_step.
      destruct (nth_error _ i) as [[e|]|] eqn:En.
      * apply stays_sound_then.
        -- apply Hexe; [exact H|].
           apply (subscribed_in_range e s rt H).
           apply (nth_error_has _ i). exact En.
        -- intros _ rt1 [H1 L1].
           apply (stays_sound_via rt rt1 _ L1). apply Hnot, H1.
      * apply Hnot, H.
      * apply stays_sound_done; [exact H|lia].
    + intros e rt H He. rewrite execute_step.
      destruct (isRunning (effect_at e rt));
        [apply stays_sound_done; [exact H|lia]|].
      apply stays_sound_bind. intros u rt1 Ec.
      destruct (Hcln e rt H u rt1 Ec) as [H1 L1].
      apply stays_sound_bind. intros r rt6 Er.
      assert (H2 : consistent (enter e rt1))
        by (apply consistent_enter; [lia|exact H1]).
      destruct (Hrun _ _ H2 r rt6 Er) as [H6 L6].
      rewrite effects_enter in L6.
      apply stays_sound_done; [|rewrite effects_leave; lia].
      apply consistent_leave; [|exact H6].
      intros e1 E1.
      destruct (context_torn e rt1) as (T1 & _). rewrite T1 in E1.
      destruct H1 as (_ & W2 & _). apply W2 in E1. lia.
    + intros e rt H. rewrite callCleanup_step.
      destruct (cleanup (effect_at e rt)) as [c|];
        [|apply stays_sound_done; [exact H|lia]].
      apply stays_sound_then; [apply Hrun, H|].
      intros _ rt1 [H1 L1]. apply stays_sound_done; assumption.
    + intros l rt H Hl. destruct l as [|e l].
      * rewrite flush_nil. apply stays_sound_done; [exact H|lia].
      * rewrite flush_cons. apply stays_sound_then.
        -- apply Hexe; [exact H|]. apply Hl. left. reflexivity.
        -- intros _ rt1 [H1 L1].
           apply (stays_sound_via rt rt1 _ L1). apply Hfl; [exact H1|].
           intros e1 He1. specialize (Hl e1 (or_intror He1)). lia.
    + intros b rt H. rewrite batch_step. apply stays_sound_then.
      * apply (stays_sound_via rt (set_batchDepth (batchDepth rt + 1) rt));
          [simpl; lia|].
        apply Hrun. apply consistent_deeper; [lia|exact H].
      * intros _ rt1 [H1 L1].
        destruct (Nat.eqb (batchDepth rt1 - 1) 0) eqn:Eb.
        -- apply (stays_sound_via rt
                    (set_pendingEffects (JSSet.clear (pendingEffects rt1))
                       (set_batchDepth (batchDepth rt1 - 1) rt1)));
             [exact L1|].
           apply Hfl; [apply consistent_cleared; exact H1|].
           intros e He. simpl. destruct H1 as (_ & _ & W3 & _).
           apply W3. apply to_array_has. exact He.
        -- apply stays_sound_done; [|exact L1].
           apply consistent_deeper; [|exact H1].
           apply Nat.eqb_neq in Eb. exact Eb.
    + intros b rt H. rewrite createComputed_step. cbv zeta.
      match goal with
      | |- stays_sound rt (then_ (execute f ?e ?rt2) _) =>
          assert (Hl : List.length (effects rt2)
                       = S (List.length (effects rt)))
            by (unfold new_effect, new_signal, with_effects, with_signals;
                simpl; rewrite length_app; simpl; lia);
          apply (stays_sound_via rt rt2); [lia|];
          apply stays_sound_then
      end.
      * apply Hexe.
        -- apply consistent_new_effect, consistent_new_signal. exact H.
        -- rewrite Hl. simpl. lia.
      * intros _ rt1 [H1 L1]. apply stays_sound_done; assumption.
Qed.

Lemma consistent_initial : consistent initial.
Proof.
  unfold consistent. repeat match goal with |- _ /\ _ => split end.
  - intros s e H. unfold subscribed, signal_at in H. simpl in H.
    destruct s; discriminate H.
  - intros e H. discriminate H.
  - intros e H. discriminate H.
  - intros _ e. reflexivity.
Qed.

End Subscriptions.

Section Detached.
Import Signal.

Variable e : EffectId.

(** Effect [e] exists, no signal has it as a subscriber, it is not
    pending and it is not the running effect. *)
Definition detached (rt : Runtime) : Prop :=
  (forall s, subscribed e s rt = false)
  /\ pending e rt = false
  /\ currentEffect rt <> Some e
  /\ e < List.length (effects rt).

(** From [rt] to [rt'] effect [e] has stayed detached and its body has
    not been invoked. *)
Definition quiet (rt rt' : Runtime) : Prop :=
  detached rt' /\ runs e rt' = runs e rt.

Definition stays_quiet {A : Type} (rt : Runtime) (o : Outcome A) : Prop :=
  forall a rt', o = Done a rt' -> quiet rt rt'.

Lemma stays_quiet_done {A} rt (a : A) rt' :
  detached rt' -> runs e rt' = runs e rt -> stays_quiet rt (Done a rt').
Proof. intros H Hr b rt2 E. inversion E. subst. split; assumption. Qed.

Lemma stays_quiet_via {A} rt rt1 (o : Outcome A) :
  runs e rt1 = runs e rt -> stays_quiet rt1 o -> stays_quiet rt o.
Proof.
  intros Hr Ho a rt' E. destruct (Ho a rt' E) as [H1 H2].
  split; [exact H1|congruence].
Qed.

Lemma stays_quiet_bind {A B} rt (o : Outcome A)
    (k : A -> Runtime -> Outcome B) :
  stays_quiet rt o ->
  (forall a rt1, quiet rt rt1 -> stays_quiet rt1 (k a rt1)) ->
  stays_quiet rt (then_ o k).
Proof.
  intros Ho Hk b rt' E. destruct o as [a rt1|rt1]; simpl in E; [|discriminate].
  destruct (Ho a rt1 eq_refl) as [H1 R1].
  destruct (Hk a rt1 (conj H1 R1) b rt' E) as [H2 R2].
  split; [exact H2|congruence].
Qed.

Lemma detached_same rt rt' :
  (forall s, subscribed e s rt' = subscribed e s rt) ->
  pendingEffects rt' = pendingEffects rt ->
  currentEffect rt' = currentEffect rt ->
  List.length (effects rt) <= List.length (effects rt') ->
  detached rt -> detached rt'.
Proof.
  intros Hs Hp Hc Hl (D1 & D2 & D3 & D4). unfold detached, pending.
  rewrite Hp, Hc. repeat match goal with |- _ /\ _ => split end;
    try assumption; [|lia].
  intros s. rewrite Hs. apply D1.
Qed.

Lemma runs_same rt rt' : trace rt' = trace rt -> runs e rt' = runs e rt.
Proof. intros H. unfold runs. rewrite H. reflexivity. Qed.

Lemma runs_mark n rt : runs e (log (EvMark n) rt) = runs e rt.
Proof.
  unfold runs, log. simpl. rewrite filter_app, length_app. simpl. lia.
Qed.

Lemma detached_get s rt : detached rt -> detached (snd (get s rt)).
Proof.
  intros H. pose proof H as (D1 & D2 & D3 & D4). unfold get. simpl.
  destruct (currentEffect rt) as [c|] eqn:Ec; [|exact H].
  unfold detached, pending. simpl.
  repeat match goal with |- _ /\ _ => split end; try assumption.
  - intros s1.
    change (subscribed e s1
              (update_signal s
                 (fun n => mkSignalNode (value n)
                             (JSSet.add c (subscribers n))) rt) = false).
    rewrite subscribed_add, D1. simpl.
    destruct (Nat.eqb e c) eqn:E; [|rewrite andb_false_r; reflexivity].
    apply Nat.eqb_eq in E. subst c. contradiction.
  - rewrite Ec. exact D3.
  - rewrite update_nth_length. exact D4.
Qed.

Lemma detached_teardown e' rt : detached rt -> detached (teardown e' rt).
Proof.
  intros (D1 & D2 & D3 & D4).
  destruct (teardown_fields e' rt) as (F1 & F2 & _ & _ & F5).
  unfold detached, pending. rewrite F1, F2, F5.
  repeat match goal with |- _ /\ _ => split end; try assumption.
  intros s. rewrite subscribed_teardown, D1. reflexivity.
Qed.

Lemma detached_update_effect e' g rt :
  detached rt -> detached (update_effect e' g rt).
Proof.
  apply detached_same; try reflexivity.
  unfold update_effect, with_effects. simpl. rewrite update_nth_length. lia.
Qed.

Lemma detached_torn e' rt : detached rt -> detached (torn e' rt).
Proof.
  intros H. unfold torn. apply detached_teardown, detached_update_effect, H.
Qed.

Lemma detached_current c rt :
  c <> Some e -> detached rt -> detached (set_currentEffect c rt).
Proof.
  intros Hc (D1 & D2 & D3 & D4). unfold detached.
  repeat match goal with |- _ /\ _ => split end; assumption.
Qed.

Lemma trace_torn e' rt : trace (torn e' rt) = trace rt.
Proof.
  unfold torn.
  destruct (teardown_fields e'
              (update_effect e'
                 (fun ef => mkEffect (dependencies ef) (fn ef) None
                              (isRunning ef)) rt)) as (_ & _ & _ & F4 & _).
  rewrite F4. reflexivity.
Qed.

Lemma quiet_enter e' rt :
  e' <> e -> detached rt -> quiet rt (enter e' rt).
Proof.
  intros Hne H. split.
  - unfold enter. cbv zeta.
    apply (detached_same
             (set_currentEffect (Some e') (torn e' rt)));
      try reflexivity.
    + unfold log, update_effect, with_effects, set_effectStack,
        set_currentEffect. cbn [effects].
      rewrite update_nth_length. apply Nat.le_refl.
    + apply detached_current; [congruence|]. apply detached_torn, H.
  - unfold enter. cbv zeta.
    rewrite runs_log_other by exact Hne.
    apply runs_same. simpl. apply trace_torn.
Qed.

Lemma quiet_leave e' prev r rt :
  prev <> Some e -> detached rt -> quiet rt (leave e' prev r rt).
Proof.
  intros Hp H. split.
  - unfold leave. cbv zeta. apply detached_current; [exact Hp|].
    match goal with
    | |- detached (set_effectStack ?st ?rt8) =>
        apply (detached_same rt8); try reflexivity
    end.
    apply detached_update_effect.
    destruct r; [apply detached_update_effect|]; exact H.
  - apply runs_same. unfold leave. destruct r; reflexivity.
Qed.

Lemma detached_store s v rt : detached rt -> detached (store s v rt).
Proof.
  apply detached_same; try reflexivity.
  intros s1. apply subscribed_update_signal. intros n. reflexivity.
Qed.

Lemma detached_defer s rt : detached rt -> detached (defer s rt).
Proof.
  intros (D1 & D2 & D3 & D4). unfold detached.
  repeat match goal with |- _ /\ _ => split end; try assumption.
  rewrite pending_defer, D2, D1. reflexivity.
Qed.

Lemma detached_new_signal v rt :
  detached rt -> detached (snd (new_signal v rt)).
Proof.
  apply detached_same; try reflexivity.
  intros s. apply subscribed_new_signal.
Qed.

Lemma detached_new_effect body rt :
  detached rt -> detached (snd (new_effect body rt)).
Proof.
  apply detached_same; try reflexivity.
  unfold new_effect, with_effects. simpl. rewrite length_app. lia.
Qed.

Lemma quiet_refl rt : detached rt -> quiet rt rt.
Proof. intros H. split; [exact H|reflexivity]. Qed.

Lemma not_subscribed_entry s i rt e' :
  detached rt ->
  nth_error (subscribers (signal_at s rt)) i = Some (Some e') -> e' <> e.
Proof.
  intros (D1 & _) Hn He. subst e'. apply nth_error_has in Hn.
  specialize (D1 s). unfold subscribed in D1. congruence.
Qed.

(** A detached effect stays detached, and is not run. *)
Lemma stays_detached (fuel : nat) :
  (forall p rt, detached rt -> stays_quiet rt (run fuel p rt))
  /\ (forall s v rt, detached rt -> stays_quiet rt (set fuel s v rt))
  /\ (forall s i rt, detached rt -> stays_quiet rt (notifyAll fuel s i rt))
  /\ (forall e' rt, e' <> e -> detached rt ->
        stays_quiet rt (execute fuel e' rt))
  /\ (forall e' rt, detached rt -> stays_quiet rt (callCleanup fuel e' rt))
  /\ (forall l rt, ~ In e l -> detached rt -> stays_quiet rt (flush fuel l rt))
  /\ (forall b rt, detached rt -> stays_quiet rt (batch fuel b rt))
  /\ (forall b rt, detached rt -> stays_quiet rt (createComputed fuel b rt)).
Proof.
  induction fuel as [|f IH].
  - repeat match goal with |- _ /\ _ => split end;
      intros; intros a rt' E; discriminate E.
  - destruct IH as (Hrun & Hset & Hnot & Hexe & Hcln & Hfl & Hbat & Hcc).
    repeat match goal with |- _ /\ _ => split end.
    + intros p rt H. destruct p.
      * rewrite run_Return. apply stays_quiet_done; [exact H|reflexivity].
      * rewrite run_ReturnCleanup.
        apply stays_quiet_done; [exact H|reflexivity].
      * rewrite run_Get.
        apply (stays_quiet_via rt (snd (get s rt))).
        -- apply runs_same. unfold get. simpl.
           destruct (currentEffect rt); reflexivity.
        -- apply Hrun. apply detached_get. exact H.
      * rewrite run_Peek. apply Hrun. exact H.
      * rewrite run_SetSignal. apply stays_quiet_bind; [apply Hset, H|].
        intros _ rt1 [H1 _]. apply Hrun, H1.
      * rewrite run_Update. apply stays_quiet_bind; [apply Hset, H|].
        intros _ rt1 [H1 _]. apply Hrun, H1.
      * rewrite run_CreateSignal.
        apply (stays_quiet_via rt (snd (new_signal initialValue rt)));
          [reflexivity|].
        apply Hrun. apply detached_new_signal. exact H.
      * rewrite run_CreateEffect.
        apply (stays_quiet_via rt (snd (new_effect p rt))); [reflexivity|].
        apply stays_quiet_bind.
        -- apply Hexe; [|apply detached_new_effect; exact H].
           simpl. destruct H as (_ & _ & _ & D4). lia.
        -- intros _ rt1 [H1 _]. apply Hrun, H1.
      * rewrite run_CreateComputed. apply stays_quiet_bind; [apply Hcc, H|].
        intros s1 rt1 [H1 _]. apply Hrun, H1.
      * rewrite run_Dispose. apply stays_quiet_bind; [apply Hcln, H|].
        intros _ rt1 [H1 _].
        apply (stays_quiet_via rt1 (teardown e0 rt1)).
        -- apply runs_same.
           destruct (teardown_fields e0 rt1) as (_ & _ & _ & F4 & _).
           exact F4.
        -- apply Hrun. apply detached_teardown. exact H1.
      * rewrite run_Batch. apply stays_quiet_bind; [apply Hbat, H|].
        intros _ rt1 [H1 _]. apply Hrun, H1.
      * rewrite run_Untrack. apply stays_quiet_bind.
        -- apply (stays_quiet_via rt (set_currentEffect None rt));
             [reflexivity|].
           apply Hrun. apply detached_current; [discriminate|exact H].
        -- intros r rt1 [H1 _].
           apply (stays_quiet_via rt1
                    (set_currentEffect (currentEffect rt) rt1));
             [reflexivity|].
           apply Hrun. apply detached_current; [|exact H1].
           destruct H as (_ & _ & D3 & _). exact D3.
      * rewrite run_Call. apply stays_quiet_bind; [apply Hrun, H|].
        intros r rt1 [H1 _]. apply Hrun, H1.
      * rewrite run_Mark.
        apply (stays_quiet_via rt (log (EvMark n) rt)); [apply runs_mark|].
        apply Hrun. revert H. apply detached_same; reflexivity.
    + intros s v rt H. rewrite set_step.
      destruct (Object_is _ _); [apply stays_quiet_done; [exact H|reflexivity]|].
      destruct (Nat.ltb 0 (batchDepth (store s v rt))).
      * apply stays_quiet_done; [|reflexivity].
        apply detached_defer, detached_store, H.
      * apply (stays_quiet_via rt (store s v rt)); [reflexivity|].
        apply Hnot. apply detached_store. exact H.
    + intros s i rt H. rewrite notifyAll_step.
      destruct (nth_error _ i) as [[e'|]|] eqn:En.
      * apply stays_quiet_bind.
        -- apply Hexe; [|exact H]. apply (not_subscribed_entry s i rt e' H En).
        -- intros _ rt1 [H1 _]. apply Hnot, H1.
      * apply Hnot, H.
      * apply stays_quiet_done; [exact H|reflexivity].
    + intros e' rt Hne H. rewrite execute_step.
      destruct (isRunning (effect_at e' rt));
        [apply stays_quiet_done; [exact H|reflexivity]|].
      apply stays_quiet_bind; [apply Hcln, H|].
      intros _ rt1 [H1 _].
      destruct (quiet_enter e' rt1 Hne H1) as [H2 R2].
      apply (stays_quiet_via rt1 (enter e' rt1) _ R2).
      apply stays_quiet_bind; [apply Hrun, H2|].
      intros r rt6 [H6 _].
      assert (Hp : currentEffect (torn e' rt1) <> Some e).
      { destruct (context_torn e' rt1) as (T1 & _). rewrite T1.
        destruct H1 as (_ & _ & D3 & _). exact D3. }
      destruct (quiet_leave e' _ (snd r) rt6 Hp H6) as [H7 R7].
      apply stays_quiet_done; assumption.
    + intros e' rt H. rewrite callCleanup_step.
      destruct (cleanup (effect_at e' rt)) as [c|];
        [|apply stays_quiet_done; [exact H|reflexivity]].
      apply stays_quiet_bind; [apply Hrun, H|].
      intros _ rt1 [H1 _]. apply stays_quiet_done; [exact H1|reflexivity].
    + intros l rt Hl H. destruct l as [|e' l].
      * rewrite flush_nil. apply stays_quiet_done; [exact H|reflexivity].
      * rewrite flush_cons. apply stays_quiet_bind.
        -- apply Hexe; [|exact H]. intros He. apply Hl. left. exact He.
        -- intros _ rt1 [H1 _]. apply Hfl; [|exact H1].
           intros He. apply Hl. right. exact He.
    + intros b rt H. rewrite batch_step. apply stays_quiet_bind.
      * apply (stays_quiet_via rt (set_batchDepth (batchDepth rt + 1) rt));
          [reflexivity|].
        apply Hrun. revert H. apply detached_same; reflexivity.
      * intros _ rt1 [H1 _].
        destruct (Nat.eqb (batchDepth rt1 - 1) 0).
        -- apply (stays_quiet_via rt1
                    (set_pendingEffects (JSSet.clear (pendingEffects rt1))
                       (set_batchDepth (batchDepth rt1 - 1) rt1)));
             [reflexivity|].
           apply Hfl.
           ++ intros He. apply to_array_has in He.
              destruct H1 as (_ & D2 & _). unfold pending in D2. congruence.
           ++ destruct H1 as (D1 & D2 & D3 & D4). unfold detached, pending.
              simpl. repeat match goal with |- _ /\ _ => split end;
                try assumption. apply has_clear.
        -- apply stays_quiet_done; [|reflexivity].
           revert H1. apply detached_same; reflexivity.
    + intros b rt H. rewrite createComputed_step. cbv zeta.
      match goal with
      | |- stays_quiet rt (then_ (execute f ?e1 ?rt2) _) =>
          apply (stays_quiet_via rt rt2); [reflexivity|];
          apply stays_quiet_bind
      end.
      * apply Hexe.
        -- simpl. destruct H as (_ & _ & _ & D4). lia.
        -- apply detached_new_effect, detached_new_signal. exact H.
      * intros _ rt1 [H1 _]. apply stays_quiet_done; [exact H1|reflexivity].
Qed.

End Detached.

Section SubscriptionClaims.
Import Signal.

Lemma reached_consistent fuel p r rt :
  run fuel p initial = Done r rt ->
  consistent rt /\ currentEffect rt = None /\ batchDepth rt = 0.
Proof.
  intros H.
  destruct (proj1 (consistent_kept fuel) p initial consistent_initial r rt H)
    as [Hc _].
  destruct (proj1 (context_restored fuel) p initial r rt H) as (C1 & _ & C3).
  split; [exact Hc|]. split; [exact C1|exact C3].
Qed.

Definition subscriber_example : Prog :=
  CreateSignal (VNum 0) (fun s =>
    CreateEffect (Get s (fun _ => Return VUndefined)) (fun _ =>
      Return VUndefined)).

Definition after_subscriber_example : Runtime :=
  Eval vm_compute in
    match run 20 subscriber_example initial with
    | Done _ rt => rt
    | Timeout rt => rt
    end.

(** X18.  In every state the runtime comes to from its initial state,
    the subscriber sets mirror the dependency sets: an effect that is
    among the subscribers of a signal exists and has that signal among
    its dependencies.  And no effect is left pending once the outermost
    batch has ended. *)
Theorem X18_subscribers_are_dependents
    (fuel : nat) (p : Prog) (r : Value * option Prog) (rt : Runtime) :
  run fuel p initial = Done r rt ->
  (forall s e,
     JSSet.has e (subscribers (signal_at s rt)) = true ->
     e < List.length (effects rt)
     /\ JSSet.has s (dependencies (effect_at e rt)) = true)
  /\ (forall e, JSSet.has e (pendingEffects rt) = false).
Proof.
  intros H. destruct (reached_consistent fuel p r rt H) as (Hc & _ & Hb).
  split.
  - intros s e Hs. split.
    + apply (subscribed_in_range e s rt Hc Hs).
    + destruct Hc as (W1 & _). apply (W1 s e Hs).
  - destruct Hc as (_ & _ & _ & W4). apply (W4 Hb).
Qed.

Lemma X18_witness :
  (forall s e,
     JSSet.has e (subscribers (signal_at s after_subscriber_example)) = true ->
     e < List.length (effects after_subscriber_example)
     /\ JSSet.has s (dependencies (effect_at e after_subscriber_example))
        = true)
  /\ (forall e, JSSet.has e (pendingEffects after_subscriber_example) = false).
Proof.
  apply (X18_subscribers_are_dependents 20 subscriber_example
           (VUndefined, None) after_subscriber_example).
  vm_compute. reflexivity.
Defined.

Lemma detached_after_teardown e rt :
  consistent rt -> currentEffect rt = None -> batchDepth rt = 0 ->
  e < List.length (effects rt) ->
  detached e (teardown e rt).
Proof.
  intros (W1 & _ & _ & W4) Hc Hb He.
  destruct (teardown_fields e rt) as (F1 & F2 & _ & _ & F5).
  unfold detached, pending. rewrite F1, F2, F5, Hc.
  repeat match goal with |- _ /\ _ => split end.
  - intros s. rewrite subscribed_teardown, Nat.eqb_refl. simpl.
    destruct (subscribed e s rt) eqn:Es; [|reflexivity].
    rewrite (W1 s e Es). reflexivity.
  - apply (W4 Hb).
  - discriminate.
  - exact He.
Qed.

Definition write_after_dispose : Prog :=
  Dispose 0 (SetSignal 0 (VNum 5) (Return VUndefined)).

Definition after_write_after_dispose : Runtime :=
  Eval vm_compute in
    match run 20 write_after_dispose after_subscriber_example with
    | Done _ rt => rt
    | Timeout rt => rt
    end.

(** X19.  An effect disposed of between two top-level operations is not
    run again: once its cleanup has returned and [dispose] has
    unsubscribed it, nothing that is done afterwards (writes, batches,
    new effects, in this call or in the calls that follow) invokes its
    body. *)
Theorem X19_disposed_effect_is_not_run_again
    (f0 : nat) (p0 : Prog) (r0 : Value * option Prog) (rt : Runtime)
    (e : EffectId) (fuel : nat) (k : Prog)
    (r : Value * option Prog) (rt' : Runtime) :
  run f0 p0 initial = Done r0 rt ->
  e < List.length (effects rt) ->
  run (S fuel) (Dispose e k) rt = Done r rt' ->
  exists rt1,
    callCleanup fuel e rt = Done tt rt1
    /\ runs e rt' = runs e rt1
    /\ forall fuel2 p2 r2 rt2,
         run fuel2 p2 rt' = Done r2 rt2 -> runs e rt2 = runs e rt1.
Proof.
  intros H0 He H. rewrite run_Dispose in H.
  destruct (callCleanup fuel e rt) as [[] rt1|rt1] eqn:Ec;
    cbn [then_] in H; [|discriminate].
  exists rt1. split; [reflexivity|].
  destruct (reached_consistent f0 p0 r0 rt H0) as (Hc & Hcur & Hb).
  destruct (proj1 (proj2 (proj2 (proj2 (proj2 (consistent_kept fuel)))))
              e rt Hc tt rt1 Ec) as [Hc1 Hl1].
  destruct (proj1 (proj2 (proj2 (proj2 (proj2 (context_restored fuel)))))
              e rt tt rt1 Ec) as (C1 & _ & C3).
  assert (Hd : detached e (teardown e rt1)).
  { apply detached_after_teardown; [exact Hc1|congruence|congruence|lia]. }
  destruct (proj1 (stays_detached e fuel) k (teardown e rt1) Hd r rt' H)
    as [Hd' Hr'].
  assert (Ht : runs e (teardown e rt1) = runs e rt1).
  { apply runs_same.
    destruct (teardown_fields e rt1) as (_ & _ & _ & F4 & _). exact F4. }
  split; [congruence|].
  intros fuel2 p2 r2 rt2 H2.
  destruct (proj1 (stays_detached e fuel2) p2 rt' Hd' r2 rt2 H2) as [_ Hr2].
  congruence.
Qed.

Lemma X19_witness :
  exists rt1,
    callCleanup 19 0 after_subscriber_example = Done tt rt1
    /\ runs 0 after_write_after_dispose = runs 0 rt1
    /\ forall fuel2 p2 r2 rt2,
         run fuel2 p2 after_write_after_dispose = Done r2 rt2 ->
         runs 0 rt2 = runs 0 rt1.
Proof.
  apply (X19_disposed_effect_is_not_run_again 20 subscriber_example
           (VUndefined, None) after_subscriber_example 0 19
           (SetSignal 0 (VNum 5) (Return VUndefined)) (VUndefined, None)
           after_write_after_dispose).
  - vm_compute. reflexivity.
  - vm_compute. lia.
  - vm_compute. reflexivity.
Defined.

End SubscriptionClaims.

(** ** What an effect is subscribed to after it has run *)

Section Tracking.
Import Signal.

(** The signals a closure that only reads gets (reads that subscribe), when
    signal [s] holds [values s]. *)
Fixpoint reads (p : Prog) (values : SignalId -> Value) : list SignalId :=
  match p with
  | Get s k => s :: reads (k (values s)) values
  | Peek s k => reads (k (values s)) values
  | _ => []
  end.

Variable e : EffectId.

(** From [rt] to [rt'] effect [e] has been subscribed to the signals of
    [l], and nothing else has changed among subscribers and
    dependencies. *)
Definition subscribes (l : list SignalId) (rt rt' : Runtime) : Prop :=
  (forall e' s,
     subscribed e' s rt'
     = subscribed e' s rt
       || (Nat.eqb e' e && Nat.ltb s (List.length (signals rt))
           && existsb (Nat.eqb s) l))
  /\ (forall e' s,
        depends e' s rt'
        = depends e' s rt || (Nat.eqb e' e && existsb (Nat.eqb s) l))
  /\ (forall x, peek x rt' = peek x rt)
  /\ List.length (signals rt') = List.length (signals rt)
  /\ List.length (effects rt') = List.length (effects rt)
  /\ currentEffect rt' = currentEffect rt.

Lemma subscribes_nil rt : subscribes [] rt rt.
Proof.
  unfold subscribes. repeat match goal with |- _ /\ _ => split end;
    try reflexivity; intros; simpl;
    rewrite ?andb_false_r, orb_false_r; reflexivity.
Qed.

Lemma peek_get s rt x : peek x (snd (get s rt)) = peek x rt.
Proof.
  unfold get. simpl. destruct (currentEffect rt) as [c|]; [|reflexivity].
  unfold peek, signal_at, update_effect, update_signal, with_effects,
    with_signals. simpl.
  rewrite nth_update_nth. destruct (Nat.eqb x s); [|reflexivity].
  destruct (Nat.ltb x (List.length (signals rt))) eqn:El; [reflexivity|].
  apply Nat.ltb_ge in El. rewrite nth_overflow by exact El. reflexivity.
Qed.

Lemma subscribes_get s rt :
  currentEffect rt = Some e -> e < List.length (effects rt) ->
  subscribes [s] rt (snd (get s rt)).
Proof.
  intros Hc He. unfold subscribes.
  repeat match goal with |- _ /\ _ => split end.
  - intros e' s'. unfold get. simpl. rewrite Hc.
    change (subscribed e' s'
              (update_effect e ?g ?r)) with (subscribed e' s' r).
    rewrite subscribed_add. simpl. rewrite orb_false_r.
    destruct (subscribed e' s' rt), (Nat.eqb s' s), (Nat.eqb e' e),
      (Nat.ltb s' (List.length (signals rt))); reflexivity.
  - intros e' s'. unfold get. simpl. rewrite Hc.
    rewrite depends_add by (simpl; exact He).
    change (depends e' s' (update_signal s ?g rt)) with (depends e' s' rt).
    simpl. rewrite orb_false_r. reflexivity.
  - intros x. apply peek_get.
  - unfold get. simpl. rewrite Hc. simpl. apply update_nth_length.
  - apply effects_get.
  - destruct (context_get s rt) as (C1 & _). exact C1.
Qed.

Lemma subscribes_cons s l rt rt1 rt2 :
  subscribes [s] rt rt1 -> subscribes l rt1 rt2 -> subscribes (s :: l) rt rt2.
Proof.
  intros (A1 & A2 & A3 & A4 & A5 & A6) (B1 & B2 & B3 & B4 & B5 & B6).
  unfold subscribes. repeat match goal with |- _ /\ _ => split end;
    try congruence.
  - intros e' s'. rewrite B1, A1, A4. simpl. rewrite orb_false_r.
    destruct (subscribed e' s' rt), (Nat.eqb e' e),
      (Nat.ltb s' (List.length (signals rt))), (Nat.eqb s' s),
      (existsb (Nat.eqb s') l); reflexivity.
  - intros e' s'. rewrite B2, A2. simpl. rewrite orb_false_r.
    destruct (depends e' s' rt), (Nat.eqb e' e), (Nat.eqb s' s),
      (existsb (Nat.eqb s') l); reflexivity.
Qed.

(** A closure that only reads, run as the body of [e], subscribes [e]
    to what it gets. *)
Lemma run_tracks n body :
  reads_only n body ->
  forall rt, currentEffect rt = Some e -> e < List.length (effects rt) ->
  exists m, forall fuel, m <= fuel ->
    exists rt',
      run fuel body rt = Done (result_of body (fun s => peek s rt), None) rt'
      /\ subscribes (reads body (fun s => peek s rt)) rt rt'.
Proof.
  induction 1 as [v|s k Hs Hk IH|s k Hs Hk IH]; intros rt Hc He.
  - exists 1. intros fuel Hf. destruct fuel as [|f]; [lia|].
    exists rt. split; [reflexivity|apply subscribes_nil].
  - pose proof (subscribes_get s rt Hc He) as Hg.
    destruct Hg as (G1 & G2 & G3 & G4 & G5 & G6).
    destruct (IH (peek s rt) (snd (get s rt))) as [m Hm];
      [congruence|lia|].
    exists (S m). intros fuel Hf. destruct fuel as [|f]; [lia|].
    destruct (Hm f ltac:(lia)) as (rt' & Hr & Ht).
    exists rt'. rewrite run_Get.
    change (fst (get s rt)) with (peek s rt).
    assert (Hv : forall p,
              result_of p (fun s0 => peek s0 (snd (get s rt)))
              = result_of p (fun s0 => peek s0 rt)).
    { intros p. apply result_of_ext. exact G3. }
    assert (Hl : forall p,
              reads p (fun s0 => peek s0 (snd (get s rt)))
              = reads p (fun s0 => peek s0 rt)).
    { intros p. induction p; simpl; try reflexivity.
      - rewrite G3. f_equal. apply H.
      - rewrite G3. apply H. }
    split.
    + rewrite Hr, Hv. reflexivity.
    + simpl. rewrite Hl in Ht.
      apply (subscribes_cons s _ rt (snd (get s rt)) rt');
        [apply subscribes_get; assumption|exact Ht].
  - destruct (IH (peek s rt) rt Hc He) as [m Hm].
    exists (S m). intros fuel Hf. destruct fuel as [|f]; [lia|].
    destruct (Hm f ltac:(lia)) as (rt' & Hr & Ht).
    exists rt'. rewrite run_Peek. split; [exact Hr|exact Ht].
Qed.

End Tracking.

Section TrackingRuns.
Import Signal.

Lemma peek_unsubscribes deps e x : forall rt,
  peek x (fold_left (fun rt dep => unsubscribe dep e rt) deps rt) = peek x rt.
Proof.
  induction deps as [|d deps IH]; intros rt; [reflexivity|].
  simpl. rewrite IH.
  unfold peek, signal_at, unsubscribe, update_signal, with_signals. simpl.
  rewrite nth_update_nth. destruct (Nat.eqb x d); [|reflexivity].
  destruct (Nat.ltb x (List.length (signals rt))) eqn:El; [reflexivity|].
  apply Nat.ltb_ge in El. rewrite nth_overflow by exact El. reflexivity.
Qed.

Lemma signals_unsubscribes deps e : forall rt,
  List.length
    (signals (fold_left (fun rt dep => unsubscribe dep e rt) deps rt))
  = List.length (signals rt).
Proof.
  induction deps as [|d deps IH]; intros rt; [reflexivity|].
  simpl. rewrite IH. unfold unsubscribe, update_signal, with_signals. simpl.
  apply update_nth_length.
Qed.

Lemma peek_enter e rt x : peek x (enter e rt) = peek x rt.
Proof.
  unfold enter, torn, teardown. cbv zeta.
  change (peek x (fold_left (fun rt dep => unsubscribe dep e rt)
                    (JSSet.to_array
                       (dependencies
                          (effect_at e
                             (update_effect e
                                (fun ef => mkEffect (dependencies ef) (fn ef)
                                             None (isRunning ef)) rt))))
                    (update_effect e
                       (fun ef => mkEffect (dependencies ef) (fn ef) None
                                    (isRunning ef)) rt))
          = peek x rt).
  rewrite peek_unsubscribes. reflexivity.
Qed.

Lemma signals_enter e rt :
  List.length (signals (enter e rt)) = List.length (signals rt).
Proof.
  unfold enter, torn, teardown. cbv zeta.
  change (List.length
            (signals
               (fold_left (fun rt dep => unsubscribe dep e rt)
                  (JSSet.to_array
                     (dependencies
                        (effect_at e
                           (update_effect e
                              (fun ef => mkEffect (dependencies ef) (fn ef)
                                           None (isRunning ef)) rt))))
                  (update_effect e
                     (fun ef => mkEffect (dependencies ef) (fn ef) None
                                  (isRunning ef)) rt)))
          = List.length (signals rt)).
  rewrite signals_unsubscribes. reflexivity.
Qed.

Lemma subscribed_enter e rt e' s :
  subscribed e' s (enter e rt)
  = subscribed e' s rt && negb (Nat.eqb e' e && depends e s rt).
Proof.
  unfold enter. cbv zeta.
  change (subscribed e' s (torn e rt)
          = subscribed e' s rt && negb (Nat.eqb e' e && depends e s rt)).
  unfold torn. rewrite subscribed_teardown.
  rewrite depends_update_effect by (intros ef; reflexivity).
  reflexivity.
Qed.

Lemma depends_enter e rt e' s :
  depends e' s (enter e rt) = negb (Nat.eqb e' e) && depends e' s rt.
Proof.
  unfold enter. cbv zeta.
  change (depends e' s (log (EvRun e) ?r)) with (depends e' s r).
  rewrite depends_update_effect by (intros ef; reflexivity).
  change (depends e' s (torn e rt)
          = negb (Nat.eqb e' e) && depends e' s rt).
  unfold torn. rewrite depends_teardown.
  rewrite depends_update_effect by (intros ef; reflexivity).
  reflexivity.
Qed.

Lemma fn_update_effect e g rt e' :
  (forall ef, fn (g ef) = fn ef) ->
  fn (effect_at e' (update_effect e g rt)) = fn (effect_at e' rt).
Proof.
  intros Hg. unfold effect_at, update_effect, with_effects. simpl.
  rewrite nth_update_nth. destruct (Nat.eqb e' e); [|reflexivity].
  destruct (Nat.ltb e' (List.length (effects rt))) eqn:El.
  - apply Hg.
  - apply Nat.ltb_ge in El. rewrite nth_overflow by exact El. reflexivity.
Qed.

Lemma fn_enter e rt : fn (effect_at e (enter e rt)) = fn (effect_at e rt).
Proof.
  unfold enter. cbv zeta.
  change (effect_at e (log (EvRun e) ?r)) with (effect_at e r).
  rewrite fn_update_effect by (intros ef; reflexivity).
  change (fn (effect_at e (torn e rt)) = fn (effect_at e rt)).
  unfold torn, teardown.
  rewrite fn_update_effect by (intros ef; reflexivity).
  unfold effect_at. rewrite effects_unsubscribes.
  change (fn (effect_at e
                (update_effect e
                   (fun ef => mkEffect (dependencies ef) (fn ef) None
                                (isRunning ef)) rt))
          = fn (effect_at e rt)).
  apply fn_update_effect. intros ef. reflexivity.
Qed.

Lemma subscribed_leave e prev rt e' s :
  subscribed e' s (leave e prev None rt) = subscribed e' s rt.
Proof. reflexivity. Qed.

Lemma depends_leave e prev rt e' s :
  depends e' s (leave e prev None rt) = depends e' s rt.
Proof.
  unfold leave. cbv zeta.
  change (depends e' s
            (update_effect e
               (fun ef => mkEffect (dependencies ef) (fn ef) (cleanup ef)
                            false) rt)
          = depends e' s rt).
  apply depends_update_effect. intros ef. reflexivity.
Qed.

(** After its body has run, an effect is subscribed to the signals the
    body got, and to no other. *)
Lemma execute_tracks e rt :
  consistent rt ->
  e < List.length (effects rt) ->
  isRunning (effect_at e rt) = false ->
  cleanup (effect_at e rt) = None ->
  reads_only (List.length (signals rt)) (fn (effect_at e rt)) ->
  exists fuel rt',
    execute fuel e rt = Done tt rt'
    /\ forall s,
         depends e s rt'
         = existsb (Nat.eqb s)
             (reads (fn (effect_at e rt)) (fun x => peek x rt))
         /\ (s < List.length (signals rt) ->
             subscribed e s rt' = depends e s rt').
Proof.
  intros Hc He Hr Hcl Hb.
  assert (Hcur : currentEffect (enter e rt) = Some e) by reflexivity.
  assert (Hin : e < List.length (effects (enter e rt)))
    by (rewrite effects_enter; exact He).
  rewrite <- (fn_enter e rt) in Hb.
  destruct (run_tracks e _ _ Hb (enter e rt) Hcur Hin) as [m Hm].
  destruct (Hm m (Nat.le_refl m)) as (rt6 & Hrun & Ht).
  exists (S (S m)).
  exists (leave e (currentEffect (torn e rt)) None rt6).
  split.
  - rewrite execute_step, Hr.
    change (callCleanup (S m) e rt)
      with (match cleanup (effect_at e rt) with
            | Some c => then_ (run m c rt) (fun _ rt' => Done tt rt')
            | None => Done tt rt
            end).
    rewrite Hcl. cbn [then_].
    rewrite (run_more_fuel m (S m) _ _ _ _ Hrun) by lia.
    reflexivity.
  - intros s. destruct Ht as (T1 & T2 & T3 & T4 & _).
    assert (Hreads : reads (fn (effect_at e (enter e rt)))
                       (fun x => peek x (enter e rt))
                     = reads (fn (effect_at e rt)) (fun x => peek x rt)).
    { rewrite fn_enter. generalize (fn (effect_at e rt)).
      intros p. induction p; simpl; try reflexivity.
      - rewrite peek_enter. f_equal. apply H.
      - rewrite peek_enter. apply H. }
    rewrite Hreads in T1, T2.
    rewrite depends_leave, subscribed_leave, T1, T2.
    rewrite depends_enter, subscribed_enter, signals_enter, Nat.eqb_refl.
    simpl. split; [reflexivity|].
    intros Hs. apply Nat.ltb_lt in Hs. rewrite Hs. simpl.
    destruct (subscribed e s rt) eqn:Es; [|reflexivity].
    destruct Hc as (W1 & _). rewrite (W1 s e Es). reflexivity.
Qed.

End TrackingRuns.

Section TrackingClaims.
Import Signal.

(** An effect that gets the second signal only while the first holds 1. *)
Definition conditional_reader : Prog :=
  Get 0 (fun flag =>
    match flag with
    | VNum 1 => Get 1 (fun _ => Return VUndefined)
    | _ => Return VUndefined
    end).

Definition conditional_example : Prog :=
  CreateSignal (VNum 1) (fun flag =>
    CreateSignal (VNum 5) (fun _ =>
      CreateEffect conditional_reader (fun _ =>
        Batch (SetSignal flag (VNum 0) (Return VUndefined))
          (Return VUndefined)))).

Definition after_conditional_example : Runtime :=
  Eval vm_compute in
    match run 30 conditional_example initial with
    | Done _ rt => rt
    | Timeout rt => rt
    end.

(** X20.  Dependencies are collected anew at every run: when an effect
    whose body only reads signals is executed, it ends subscribed to
    exactly the signals the body got in that run, whatever it was
    subscribed to before; and its dependency set lists the same
    signals. *)
Theorem X20_effect_is_subscribed_to_what_it_read
    (f0 : nat) (p0 : Prog) (r0 : Value * option Prog) (rt : Runtime)
    (e : EffectId) :
  run f0 p0 initial = Done r0 rt ->
  e < List.length (effects rt) ->
  isRunning (effect_at e rt) = false ->
  cleanup (effect_at e rt) = None ->
  reads_only (List.length (signals rt)) (fn (effect_at e rt)) ->
  exists fuel rt',
    execute fuel e rt = Done tt rt'
    /\ forall s, s < List.length (signals rt) ->
         JSSet.has e (subscribers (signal_at s rt'))
         = existsb (Nat.eqb s)
             (reads (fn (effect_at e rt)) (fun x => peek x rt))
         /\ JSSet.has s (dependencies (effect_at e rt'))
            = existsb (Nat.eqb s)
                (reads (fn (effect_at e rt)) (fun x => peek x rt)).
Proof.
  intros H0 He Hr Hcl Hb.
  destruct (reached_consistent f0 p0 r0 rt H0) as (Hc & _).
  destruct (execute_tracks e rt Hc He Hr Hcl Hb) as (fuel & rt' & Hx & Ht).
  exists fuel, rt'. split; [exact Hx|].
  intros s Hs. destruct (Ht s) as [Hd Hsub].
  split; [|exact Hd].
  change (subscribed e s rt'
          = existsb (Nat.eqb s)
              (reads (fn (effect_at e rt)) (fun x => peek x rt))).
  rewrite (Hsub Hs). exact Hd.
Qed.

Lemma X20_witness :
  exists fuel rt',
    execute fuel 0 after_conditional_example = Done tt rt'
    /\ forall s, s < List.length (signals after_conditional_example) ->
         JSSet.has 0 (subscribers (signal_at s rt'))
         = existsb (Nat.eqb s)
             (reads (fn (effect_at 0 after_conditional_example))
                (fun x => peek x after_conditional_example))
         /\ JSSet.has s (dependencies (effect_at 0 rt'))
            = existsb (Nat.eqb s)
                (reads (fn (effect_at 0 after_conditional_example))
                   (fun x => peek x after_conditional_example)).
Proof.
  apply (X20_effect_is_subscribed_to_what_it_read 30 conditional_example
           (VUndefined, None) after_conditional_example 0).
  - vm_compute. reflexivity.
  - vm_compute. lia.
  - reflexivity.
  - reflexivity.
  - apply reads_get; [vm_compute; lia|]. intros v.
    destruct v as [|[|[p|p|]|p]]; try apply reads_return.
    apply reads_get; [vm_compute; lia|]. intros _. apply reads_return.
Defined.

End TrackingClaims.

(* ===================================================================== *)
(** * General statements on the driver, the grammar and the declarations *)
(* ===================================================================== *)

(** ** The errors of the analyzer *)

Section AnalyzerErrors.
Import AST Semantic.

Definition line_of (e : ElementNode) : nat :=
  match e with Element _ _ _ _ l _ => l end.
Definition column_of (e : ElementNode) : nat :=
  match e with Element _ _ _ _ _ c => c end.

(** An [img] element with no attribute named [alt]. *)
Definition image_without_alt (e : ElementNode) : bool :=
  String.eqb (tag_of e) "img"
  && negb (existsb (fun attr => String.eqb (attr_name attr) "alt")
             (attributes_of e)).

(** The [img] elements without [alt] of an element tree, in document
    order: the element itself, then those of its child elements, of the
    elements in the branches of its conditionals and of the elements in
    the bodies of its loops. *)
Fixpoint images_without_alt (e : ElementNode) : list ElementNode :=
  (if image_without_alt e then [e] else [])
  ++ match e with
     | Element _ _ children _ _ _ => flat_map images_below children
     end
with images_below (ch : Child) : list ElementNode :=
  match ch with
  | ChildElement e => images_without_alt e
  | ChildConditional _ consequent alternate _ _ =>
      flat_map (fun n => match n with
                         | ChildElement e => images_without_alt e
                         | _ => []
                         end) consequent
      ++ match alternate with
         | Some alt =>
             flat_map (fun n => match n with
                                | ChildElement e => images_without_alt e
                                | _ => []
                                end) alt
         | None => []
         end
  | ChildLoop _ _ _ body _ _ =>
      flat_map (fun n => match n with
                         | ChildElement e => images_without_alt e
                         | _ => []
                         end) body
  | ChildText _ _ _ _ => []
  | ChildSlot _ _ => []
  end.

(** The error the analyzer records for an [img] without [alt]. *)
Definition missing_alt (e : ElementNode) : SemanticError :=
  mkSemanticError missing_alt_message (line_of e) (column_of e).

(** The [img] elements without [alt] of a program. *)
Definition program_images_without_alt (p : Program) : list ElementNode :=
  flat_map (fun c => flat_map images_without_alt (body c)) (components p).

(** No name is declared twice among the states and the computed values
    of the component. *)
Definition declared_once (c : ComponentNode) : Prop :=
  NoDup (map state_name (states c) ++ map computed_name (computed c)).

End AnalyzerErrors.

Section AnalyzerErrorFacts.
Import AST Semantic.

Lemma errors_push_warning w a : errors (push_warning w a) = errors a.
Proof. reflexivity. Qed.

Lemma errors_add x a : errors (add x a) = errors a.
Proof. reflexivity. Qed.

Lemma has_after_add x y a : has x (add y a) = has x a || String.eqb x y.
Proof.
  unfold add, has. simpl.
  destruct (existsb (String.eqb y) (declaredVariables a)) eqn:E.
  - destruct (String.eqb x y) eqn:Exy; [|rewrite orb_false_r; reflexivity].
    apply String.eqb_eq in Exy. subst y. rewrite E. reflexivity.
  - rewrite existsb_app. simpl. rewrite orb_false_r. reflexivity.
Qed.

(** A loop over nodes records what its steps record. *)
Lemma errors_fold {X} (step : X -> Analyzer -> Analyzer)
    (found : X -> list SemanticError) (l : list X) :
  (forall x, In x l ->
     forall a, errors (step x a) = errors a ++ found x) ->
  forall a,
    errors (fold_left (fun a x => step x a) l a)
    = errors a ++ flat_map found l.
Proof.
  induction l as [|x l IH]; intros H a; simpl.
  - rewrite app_nil_r. reflexivity.
  - rewrite IH by (intros y Hy; apply H; right; exact Hy).
    rewrite (H x) by (left; reflexivity).
    rewrite <- app_assoc. reflexivity.
Qed.

Lemma map_of_flat_map {X Y Z} (f : Y -> Z) (g : X -> list Y) (l : list X) :
  flat_map (fun x => map f (g x)) l = map f (flat_map g l).
Proof.
  induction l as [|x l IH]; simpl; [reflexivity|].
  rewrite map_app, IH. reflexivity.
Qed.

Definition images_of_node (n : Child) : list ElementNode :=
  match n with
  | ChildElement e => images_without_alt e
  | _ => []
  end.

Lemma errors_forNodes ns :
  Forall (fun ch => forall a,
            errors (analyzeChild ch a)
            = errors a ++ map missing_alt (images_below ch)) ns ->
  forall a,
    errors (forNodes ns a)
    = errors a ++ map missing_alt (flat_map images_of_node ns).
Proof.
  intros H a. unfold forNodes.
  rewrite (errors_fold
             (fun n a => match n with
                         | ChildElement e => analyzeElement e a
                         | _ => a
                         end)
             (fun n => map missing_alt (images_of_node n))).
  - rewrite map_of_flat_map. reflexivity.
  - intros n Hn a'. rewrite Forall_forall in H. specialize (H n Hn).
    destruct n; simpl; rewrite ?app_nil_r; try reflexivity.
    apply (H a').
Qed.

(** The errors [analyzeElement] records are the missing [alt] of the
    [img] elements of the tree, in document order. *)
Lemma errors_elements :
  (forall e a,
     errors (analyzeElement e a)
     = errors a ++ map missing_alt (images_without_alt e))
  /\ (forall ch a,
        errors (analyzeChild ch a)
        = errors a ++ map missing_alt (images_below ch)).
Proof.
  apply Element_Child_induction.
  - intros tag attributes children ariaLabel l c H a.
    rewrite analyzeElement_eq. cbv zeta. unfold forChildren.
    rewrite (errors_fold (fun child a => analyzeChild child a)
               (fun ch => map missing_alt (images_below ch)))
      by (intros x Hx; rewrite Forall_forall in H; exact (H x Hx)).
    change (images_without_alt (Element tag attributes children ariaLabel l c))
      with ((if image_without_alt
                  (Element tag attributes children ariaLabel l c)
             then [Element tag attributes children ariaLabel l c] else [])
            ++ flat_map images_below children).
    rewrite map_app, map_of_flat_map, app_assoc. f_equal.
    unfold image_without_alt. simpl.
    destruct (String.eqb tag "button" && negb (truthy ariaLabel));
      destruct (existsb isTextChild children);
      destruct (String.eqb tag "img");
      destruct (existsb (fun attr => String.eqb (attr_name attr) "alt")
                  attributes);
      simpl; rewrite ?app_nil_r; reflexivity.
  - intros e H. exact H.
  - intros content interpolations l c a. simpl. rewrite app_nil_r.
    reflexivity.
  - intros condition consequent alternate l c Hc Ha a.
    rewrite analyzeConditional_eq.
    change (images_below
              (ChildConditional condition consequent alternate l c))
      with (flat_map images_of_node consequent
            ++ match alternate with
               | Some alt => flat_map images_of_node alt
               | None => []
               end).
    destruct alternate as [alt|].
    + rewrite (errors_forNodes alt Ha), (errors_forNodes consequent Hc).
      rewrite map_app, app_assoc. reflexivity.
    + rewrite (errors_forNodes consequent Hc), app_nil_r. reflexivity.
  - intros item index iterable body l c Hb a.
    rewrite analyzeLoop_eq.
    change (images_below (ChildLoop item index iterable body l c))
      with (flat_map images_of_node body).
    unfold set_declared. simpl.
    rewrite (errors_forNodes body Hb).
    destruct index as [i|]; [destruct (truthy (Some i))|]; reflexivity.
  - intros l c a. simpl. rewrite app_nil_r. reflexivity.
Qed.

Lemma errors_dependencies (warn : string -> SemanticWarning) deps : forall a,
  let a' := fold_left
              (fun a dep => if has dep a then a
                            else push_warning (warn dep) a) deps a in
  errors a' = errors a /\ declaredVariables a' = declaredVariables a.
Proof.
  induction deps as [|d deps IH]; intros a; simpl; [split; reflexivity|].
  destruct (IH (if has d a then a else push_warning (warn d) a)) as [He Hd].
  rewrite He, Hd. destruct (has d a); split; reflexivity.
Qed.

(** States with names that are new and distinct record no error. *)
Lemma errors_states sts : forall a,
  NoDup (map state_name sts) ->
  (forall x, In x (map state_name sts) -> has x a = false) ->
  let a' := fold_left (fun a s => analyzeState s a) sts a in
  errors a' = errors a
  /\ forall x, has x a'
               = has x a || existsb (String.eqb x) (map state_name sts).
Proof.
  induction sts as [|st sts IH]; intros a Hn Hf; simpl.
  - split; [reflexivity|]. intros x. rewrite orb_false_r. reflexivity.
  - inversion Hn as [|y l Hy Hn']; subst.
    assert (Hst : analyzeState st a = add (state_name st) a).
    { unfold analyzeState. rewrite (Hf (state_name st)); [reflexivity|].
      left. reflexivity. }
    rewrite Hst.
    destruct (IH (add (state_name st) a) Hn') as [He Hh].
    + intros x Hx. rewrite has_after_add, (Hf x) by (right; exact Hx).
      simpl. destruct (String.eqb x (state_name st)) eqn:E; [|reflexivity].
      apply String.eqb_eq in E. subst x. contradiction.
    + split; [rewrite He; reflexivity|].
      intros x. rewrite Hh, has_after_add, orb_assoc. reflexivity.
Qed.

Lemma errors_computed cs : forall a,
  NoDup (map computed_name cs) ->
  (forall x, In x (map computed_name cs) -> has x a = false) ->
  errors (fold_left (fun a c => analyzeComputed c a) cs a) = errors a.
Proof.
  induction cs as [|c cs IH]; intros a Hn Hf; simpl; [reflexivity|].
  inversion Hn as [|y l Hy Hn']; subst.
  assert (Hc : errors (analyzeComputed c a) = errors a
               /\ declaredVariables (analyzeComputed c a)
                  = declaredVariables (add (computed_name c) a)).
  { unfold analyzeComputed. cbv zeta.
    rewrite (Hf (computed_name c)) by (left; reflexivity).
    exact (errors_dependencies
             (fun dep => mkSemanticWarning
                ("Computed '" ++ computed_name c ++
                 "' depends on undeclared variable: " ++ dep)%string
                (computed_line c) (computed_column c))
             (computed_dependencies c) (add (computed_name c) a)). }
  destruct Hc as [He Hd].
  rewrite IH; [exact He|exact Hn'|].
  intros x Hx.
  assert (Hh : has x (analyzeComputed c a) = has x (add (computed_name c) a)).
  { unfold has. rewrite Hd. reflexivity. }
  rewrite Hh, has_after_add, (Hf x) by (right; exact Hx). simpl.
  destruct (String.eqb x (computed_name c)) eqn:E; [|reflexivity].
  apply String.eqb_eq in E. subst x. contradiction.
Qed.

Lemma errors_effects efs : forall a,
  errors (fold_left (fun a e => analyzeEffect e a) efs a) = errors a.
Proof.
  induction efs as [|ef efs IH]; intros a; simpl; [reflexivity|].
  rewrite IH. unfold analyzeEffect.
  exact (proj1 (errors_dependencies
                  (fun dep => mkSemanticWarning
                     ("Effect depends on undeclared variable: " ++ dep)%string
                     (effect_line ef) (effect_column ef))
                  (effect_dependencies ef) a)).
Qed.

Lemma errors_validateAccessibility c a :
  errors (validateAccessibility c a) = errors a.
Proof.
  unfold validateAccessibility. cbv zeta.
  destruct (hasInteractiveElements (body c)
            && negb (truthy (role (accessibility c))));
    destruct (negb (Nat.eqb (List.length (handlers c)) 0)
              && negb (truthy (label (accessibility c))));
    reflexivity.
Qed.

(** The errors of a component that declares no name twice are the
    missing [alt] of its [img] elements. *)
Lemma errors_component c a :
  declared_once c ->
  errors (analyzeComponent c a)
  = errors a ++ map missing_alt (flat_map images_without_alt (body c)).
Proof.
  intros Hn. unfold declared_once in Hn. unfold analyzeComponent. cbv zeta.
  rewrite (errors_fold analyzeElement
             (fun e => map missing_alt (images_without_alt e)))
    by (intros x _; apply errors_elements).
  rewrite map_of_flat_map. f_equal.
  rewrite errors_validateAccessibility, errors_effects.
  destruct (errors_states (states c) (set_declared [] a)) as [He Hh].
  - apply (NoDup_app_remove_r _ _ Hn).
  - intros x _. reflexivity.
  - cbv zeta in He, Hh. rewrite errors_computed.
    + rewrite He. reflexivity.
    + apply (NoDup_app_remove_l _ _ Hn).
    + intros x Hx. rewrite Hh. simpl.
      destruct (existsb (String.eqb x) (map state_name (states c))) eqn:E;
        [|reflexivity].
      apply existsb_exists in E. destruct E as (y & Hy & Exy).
      apply String.eqb_eq in Exy. subst y.
      exfalso. revert Hy Hx. clear -Hn.
      generalize (map state_name (states c)) (map computed_name (computed c))
        Hn.
      intros l1 l2 Hnd H1 H2.
      induction l1 as [|z l1 IH]; [contradiction|].
      simpl in Hnd. inversion Hnd as [|? ? Hz Hnd']; subst.
      destruct H1 as [->|H1].
      * apply Hz. apply in_or_app. right. exact H2.
      * exact (IH Hnd' H1).
Qed.

(** The errors of a program whose components declare no name twice. *)
Lemma errors_program (p : Program) :
  (forall c, In c (components p) -> declared_once c) ->
  fst (analyze p) = map missing_alt (program_images_without_alt p).
Proof.
  intros H. unfold analyze, program_images_without_alt. simpl.
  rewrite (errors_fold analyzeComponent
             (fun c => map missing_alt
                         (flat_map images_without_alt (body c)))).
  - simpl. rewrite map_of_flat_map. reflexivity.
  - intros c Hc a. apply errors_component. apply H. exact Hc.
Qed.

(** The elements listed are those [analyzeElement] comes to that are
    [img] elements without [alt]. *)
Lemma images_without_alt_comes_to :
  (forall e x, In x (images_without_alt e) ->
     comes_to x e /\ image_without_alt x = true)
  /\ (forall ch x, In x (images_below ch) ->
        match ch with
        | ChildElement e => comes_to x e /\ image_without_alt x = true
        | ChildConditional _ consequent alternate _ _ =>
            exists e, comes_to x e /\ image_without_alt x = true
                      /\ (In (ChildElement e) consequent
                          \/ exists alt, alternate = Some alt
                                         /\ In (ChildElement e) alt)
        | ChildLoop _ _ _ body _ _ =>
            exists e, comes_to x e /\ image_without_alt x = true
                      /\ In (ChildElement e) body
        | _ => False
        end).
Proof.
  assert (Hnodes : forall ns x,
            Forall (fun ch => forall x, In x (images_below ch) ->
                      match ch with
                      | ChildElement e =>
                          comes_to x e /\ image_without_alt x = true
                      | _ => True
                      end) ns ->
            In x (flat_map images_of_node ns) ->
            exists e, comes_to x e /\ image_without_alt x = true
                      /\ In (ChildElement e) ns).
  { intros ns x H Hx. apply in_flat_map in Hx. destruct Hx as (n & Hn & Hx).
    rewrite Forall_forall in H. specialize (H n Hn).
    destruct n; simpl in Hx; try contradiction.
    destruct (H x Hx) as [H1 H2]. exists e. auto. }
  apply Element_Child_induction.
  - intros tag attributes children ariaLabel l c H x Hx.
    change (images_without_alt (Element tag attributes children ariaLabel l c))
      with ((if image_without_alt
                  (Element tag attributes children ariaLabel l c)
             then [Element tag attributes children ariaLabel l c] else [])
            ++ flat_map images_below children) in Hx.
    apply in_app_or in Hx. destruct Hx as [Hx|Hx].
    + destruct (image_without_alt
                  (Element tag attributes children ariaLabel l c)) eqn:E;
        [|contradiction].
      destruct Hx as [<-|[]]. split; [apply comes_to_self|exact E].
    + apply in_flat_map in Hx. destruct Hx as (ch & Hch & Hx).
      rewrite Forall_forall in H. specialize (H ch Hch x Hx).
      destruct ch as [e| |condition consequent alternate l' c'
                      |item index iterable body l' c'|]; try contradiction.
      * destruct H as [H1 H2]. split; [|exact H2].
        exact (comes_to_child x _ _ _ _ _ _ e Hch H1).
      * destruct H as (e & H1 & H2 & [H3|(alt & -> & H3)]);
          (split; [|exact H2]).
        -- exact (comes_to_consequent x _ _ _ _ _ _ _ _ _ _ _ e Hch H3 H1).
        -- exact (comes_to_alternate x _ _ _ _ _ _ _ _ _ _ _ e Hch H3 H1).
      * destruct H as (e & H1 & H2 & H3). split; [|exact H2].
        exact (comes_to_loop x _ _ _ _ _ _ _ _ _ _ _ _ e Hch H3 H1).
  - intros e H x Hx. exact (H x Hx).
  - intros content interpolations l c x Hx. exact Hx.
  - intros condition consequent alternate l c Hc Ha x Hx.
    change (images_below
              (ChildConditional condition consequent alternate l c))
      with (flat_map images_of_node consequent
            ++ match alternate with
               | Some alt => flat_map images_of_node alt
               | None => []
               end) in Hx.
    apply in_app_or in Hx. destruct Hx as [Hx|Hx].
    + destruct (Hnodes consequent x) as (e & H1 & H2 & H3); [|exact Hx|].
      * eapply Forall_impl; [|exact Hc]. intros ch Hq y Hy.
        specialize (Hq y Hy). destruct ch; try exact I. exact Hq.
      * exists e. auto.
    + destruct alternate as [alt|]; [|contradiction].
      destruct (Hnodes alt x) as (e & H1 & H2 & H3); [|exact Hx|].
      * eapply Forall_impl; [|exact Ha]. intros ch Hq y Hy.
        specialize (Hq y Hy). destruct ch; try exact I. exact Hq.
      * exists e. split; [exact H1|]. split; [exact H2|].
        right. exists alt. auto.
  - intros item index iterable body l c Hb x Hx.
    change (images_below (ChildLoop item index iterable body l c))
      with (flat_map images_of_node body) in Hx.
    destruct (Hnodes body x) as (e & H1 & H2 & H3); [|exact Hx|].
    + eapply Forall_impl; [|exact Hb]. intros ch Hq y Hy.
      specialize (Hq y Hy). destruct ch; try exact I. exact Hq.
    + exists e. auto.
  - intros l c x Hx. exact Hx.
Qed.

End AnalyzerErrorFacts.

Section AnalyzerErrorsComplete.
Import AST Semantic.

Lemma images_of_node_In e ns x :
  In (ChildElement e) ns -> In x (images_without_alt e) ->
  In x (flat_map images_of_node ns).
Proof.
  intros Hn Hx. apply in_flat_map. exists (ChildElement e).
  split; [exact Hn|exact Hx].
Qed.

(** Every [img] without [alt] that [analyzeElement] comes to is
    listed. *)
Lemma comes_to_images_without_alt x e :
  comes_to x e -> image_without_alt x = true ->
  In x (images_without_alt e).
Proof.
  intros Hr Hx. induction Hr as
    [ | tag attributes children ariaLabel l c e Hin Hr IH
      | tag attributes children ariaLabel l c condition consequent alternate
          l' c' e Hin Hcons Hr IH
      | tag attributes children ariaLabel l c condition consequent alt
          l' c' e Hin Halt Hr IH
      | tag attributes children ariaLabel l c item index iterable body
          l' c' e Hin Hbody Hr IH ].
  - destruct x as [tag attributes children ariaLabel l c].
    change (images_without_alt (Element tag attributes children ariaLabel l c))
      with ((if image_without_alt
                  (Element tag attributes children ariaLabel l c)
             then [Element tag attributes children ariaLabel l c] else [])
            ++ flat_map images_below children).
    rewrite Hx. left. reflexivity.
  - change (images_without_alt (Element tag attributes children ariaLabel l c))
      with ((if image_without_alt
                  (Element tag attributes children ariaLabel l c)
             then [Element tag attributes children ariaLabel l c] else [])
            ++ flat_map images_below children).
    apply in_or_app. right. apply in_flat_map.
    exists (ChildElement e). split; [exact Hin|exact IH].
  - change (images_without_alt (Element tag attributes children ariaLabel l c))
      with ((if image_without_alt
                  (Element tag attributes children ariaLabel l c)
             then [Element tag attributes children ariaLabel l c] else [])
            ++ flat_map images_below children).
    apply in_or_app. right. apply in_flat_map.
    exists (ChildConditional condition consequent alternate l' c').
    split; [exact Hin|].
    change (images_below
              (ChildConditional condition consequent alternate l' c'))
      with (flat_map images_of_node consequent
            ++ match alternate with
               | Some alt => flat_map images_of_node alt
               | None => []
               end).
    apply in_or_app. left. exact (images_of_node_In e _ x Hcons IH).
  - change (images_without_alt (Element tag attributes children ariaLabel l c))
      with ((if image_without_alt
                  (Element tag attributes children ariaLabel l c)
             then [Element tag attributes children ariaLabel l c] else [])
            ++ flat_map images_below children).
    apply in_or_app. right. apply in_flat_map.
    exists (ChildConditional condition consequent (Some alt) l' c').
    split; [exact Hin|].
    change (images_below
              (ChildConditional condition consequent (Some alt) l' c'))
      with (flat_map images_of_node consequent
            ++ flat_map images_of_node alt).
    apply in_or_app. right. exact (images_of_node_In e _ x Halt IH).
  - change (images_without_alt (Element tag attributes children ariaLabel l c))
      with ((if image_without_alt
                  (Element tag attributes children ariaLabel l c)
             then [Element tag attributes children ariaLabel l c] else [])
            ++ flat_map images_below children).
    apply in_or_app. right. apply in_flat_map.
    exists (ChildLoop item index iterable body l' c').
    split; [exact Hin|].
    change (images_below (ChildLoop item index iterable body l' c'))
      with (flat_map images_of_node body).
    exact (images_of_node_In e _ x Hbody IH).
Qed.

End AnalyzerErrorsComplete.

Section FailedStageClaims.
Import Lexer AST Compiler.

Local Arguments Semantic.analyze : simpl never.
Local Arguments Parser.parse : simpl never.

(** In strict mode, what [compile] returns for a source that lexes and
    parses without a diagnostic and for which the analyzer reports
    errors. *)
Lemma compile_semantic_errors generate generateExplanation fuel src options
    toks p :
  tokenize src = Some (toks, []) ->
  Parser.parse fuel toks = Some (Some p, []) ->
  strict options = true ->
  fst (Semantic.analyze p) <> [] ->
  compile generate generateExplanation fuel src options
  = Some (mkResult EmptyString
            (map of_semantic_error (fst (Semantic.analyze p)))
            (map of_semantic_warning (snd (Semantic.analyze p)))
            (if explain options then Some p else None) None).
Proof.
  intros Ht Hp Hs He.
  destruct (Semantic.analyze p) as [sErrs sWarns] eqn:Ea.
  unfold compile. rewrite Ht. cbn. rewrite Hp. cbn. rewrite Hs, Ea.
  cbn in He. destruct sErrs as [|e sErrs]; [congruence|]. reflexivity.
Qed.

(** C4 (amended).  If the lexer reports an error, or the parser reports
    an error or yields no program, or (in strict mode) the semantic
    analyzer reports an error, then [compile] returns empty code; its
    errors list is non-empty, except when the lexer reported nothing and
    the parser yielded no program without reporting anything.
    For every source that lexes and parses without a diagnostic, whose
    components declare no state or computed name twice and that holds
    one [img] element without an [alt] attribute (at any depth below a
    component: as a child, in a branch of a conditional or in the body of
    a loop), the analyzer reports exactly one error, the missing [alt] at
    the position of that element, and in strict mode [compile] returns
    that error and empty code.
    For a source without a [style] keyword [compile] does return, within
    a budget linear in the number of tokens. *)
Theorem C4_no_code_after_a_failed_stage :
  (forall generate generateExplanation fuel src options toks lexErrs r,
     tokenize src = Some (toks, lexErrs) ->
     compile generate generateExplanation fuel src options = Some r ->
     stage_failure fuel toks lexErrs options ->
     code r = EmptyString
     /\ (errors r = [] ->
         lexErrs = [] /\ Parser.parse fuel toks = Some (None, [])))
  /\ (forall generate generateExplanation fuel src options toks p img,
        tokenize src = Some (toks, []) ->
        Parser.parse fuel toks = Some (Some p, []) ->
        (forall c, In c (components p) -> declared_once c) ->
        program_images_without_alt p = [img] ->
        fst (Semantic.analyze p)
        = [Semantic.mkSemanticError Semantic.missing_alt_message
             (line_of img) (column_of img)]
        /\ (strict options = true ->
            compile generate generateExplanation fuel src options
            = Some (mkResult EmptyString
                      [mkCompileError Semantic.missing_alt_message
                         (line_of img) (column_of img)]
                      (map of_semantic_warning (snd (Semantic.analyze p)))
                      (if explain options then Some p else None) None)))
  /\ (forall generate generateExplanation fuel src options toks lexErrs,
        tokenize src = Some (toks, lexErrs) ->
        no_style toks -> 20 * List.length toks + 4 <= fuel ->
        exists r,
          compile generate generateExplanation fuel src options = Some r).
Proof.
  split; [|split].
  - intros generate generateExplanation fuel src options toks lexErrs r
      Ht Hc Hf.
    unfold compile in Hc. rewrite Ht in Hc.
    destruct lexErrs as [|le lexErrs].
    + cbn in Hc.
      destruct (Parser.parse fuel toks) as [[ast pErrs]|] eqn:Ep;
        [|discriminate].
      destruct ast as [p|].
      * destruct pErrs as [|pe pErrs].
        -- cbn in Hc.
           destruct Hf as [Hf|[(ast & pErrs & Hp & Hf)
                              |(Hs & p' & pErrs & Hp & Hf)]].
           ++ congruence.
           ++ rewrite Ep in Hp. inversion Hp; subst.
              destruct Hf; congruence.
           ++ rewrite Ep in Hp. inversion Hp; subst. rewrite Hs in Hc.
              destruct (Semantic.analyze p') as [sErrs sWarns].
              cbn in Hf. destruct sErrs as [|se sErrs]; [congruence|].
              cbn in Hc. inversion Hc; subst. cbn.
              split; [reflexivity|discriminate].
        -- cbn in Hc. inversion Hc; subst. cbn.
           split; [reflexivity|discriminate].
      * inversion Hc; subst. simpl. split; [reflexivity|].
        intros He. split; [reflexivity|].
        destruct pErrs; [reflexivity|discriminate].
    + simpl in Hc. inversion Hc; subst. simpl.
      split; [reflexivity|discriminate].
  - intros generate generateExplanation fuel src options toks p img
      Ht Hp Hd Hi.
    assert (He : fst (Semantic.analyze p)
                 = [Semantic.mkSemanticError Semantic.missing_alt_message
                      (line_of img) (column_of img)]).
    { rewrite (errors_program p Hd), Hi. reflexivity. }
    split; [exact He|].
    intros Hs.
    rewrite (compile_semantic_errors generate generateExplanation fuel src
               options toks p Ht Hp Hs)
      by (rewrite He; discriminate).
    rewrite He. reflexivity.
  - intros generate generateExplanation fuel src options toks lexErrs
      Ht Hs Hf.
    exact (compile_returns generate generateExplanation fuel src options
             toks lexErrs Ht Hs Hf).
Qed.

(** A component with an [img] without [alt] three levels below its
    body. *)
Definition card_source : string :=
  Src.lines [ "component Card:";
              "  state title = 0";
              ("  div class=" ++ Src.quoted "card" ++ ":")%string;
              "    h2: title";
              "    figure:";
              ("      img src=" ++ Src.quoted "a.png")%string ].

Definition tokens_card : list Token :=
  Eval vm_compute in
    match tokenize card_source with
    | Some (ts, _) => ts
    | None => []
    end.

Definition program_card : Program :=
  Eval vm_compute in
    match Parser.parse 60 tokens_card with
    | Some (Some p, _) => p
    | _ => mkProgram [] [] []
    end.

Definition image_of_card : ElementNode :=
  Element "img"
    [mkAttribute "src" (Literal (LString "a.png") "a.png" 6 15)] [] None 6 7.

Lemma C4_witness :
  (tokenize "@" = Some ([mkToken EOF EmptyString 1 2],
                        [mkLexerError "Illegal character: @" 1 1])
   /\ stage_failure 10 [mkToken EOF EmptyString 1 2]
        [mkLexerError "Illegal character: @" 1 1]
        (mkOptions false false true false)
   /\ (code (mkResult EmptyString
               [mkCompileError "Illegal character: @" 1 1] [] None None)
       = EmptyString
       /\ (errors (mkResult EmptyString
                     [mkCompileError "Illegal character: @" 1 1] [] None None)
           = [] ->
           [mkLexerError "Illegal character: @" 1 1] = []
           /\ Parser.parse 10 [mkToken EOF EmptyString 1 2]
              = Some (None, []))))
  /\ (tokenize card_source = Some (tokens_card, [])
      /\ Parser.parse 60 tokens_card = Some (Some program_card, [])
      /\ program_images_without_alt program_card = [image_of_card]
      /\ fst (Semantic.analyze program_card)
         = [Semantic.mkSemanticError Semantic.missing_alt_message 6 7]
      /\ compile (fun _ _ => EmptyString) (fun _ _ => EmptyString) 60
           card_source (mkOptions false false true false)
         = Some (mkResult EmptyString
                   [mkCompileError Semantic.missing_alt_message 6 7]
                   (map of_semantic_warning
                      (snd (Semantic.analyze program_card)))
                   None None)).
Proof.
  split.
  - split; [vm_compute; reflexivity|].
    split; [left; discriminate|].
    refine (proj1 C4_no_code_after_a_failed_stage
              (fun _ _ => EmptyString) (fun _ _ => EmptyString)
              10 "@" (mkOptions false false true false)
              [mkToken EOF EmptyString 1 2]
              [mkLexerError "Illegal character: @" 1 1]
              _ _ _ _).
    + vm_compute. reflexivity.
    + vm_compute. reflexivity.
    + left. discriminate.
  - assert (Ht : tokenize card_source = Some (tokens_card, []))
      by (vm_compute; reflexivity).
    assert (Hp : Parser.parse 60 tokens_card = Some (Some program_card, []))
      by (vm_compute; reflexivity).
    assert (Hd : forall c, In c (components program_card) -> declared_once c).
    { intros c [<-|[]]. unfold declared_once. simpl.
      constructor; [intros []|constructor]. }
    assert (Hi : program_images_without_alt program_card = [image_of_card])
      by reflexivity.
    destruct (proj1 (proj2 C4_no_code_after_a_failed_stage)
                (fun _ _ => EmptyString) (fun _ _ => EmptyString) 60
                card_source (mkOptions false false true false)
                tokens_card program_card image_of_card Ht Hp Hd Hi)
      as [He Hc].
    split; [exact Ht|]. split; [exact Hp|]. split; [exact Hi|].
    split; [exact He|]. exact (Hc eq_refl).
Defined.

End FailedStageClaims.

(** ** The expression grammar: precedence and associativity

    The grammar the specification fixes, written down on its own:
    expressions as they are written (the tokens of every operator kept),
    the level of every operator, and the trees that respect the levels.
    Nothing here is taken from the parser. *)

Module Grammar.
Import Lexer AST.

(** An expression as written: atoms (number, string, boolean,
    identifier), a parenthesised expression, [.name] and [[index]] after
    an expression, a prefix operator, a binary operator, and the
    conditional [test ? consequent : alternate]. *)
Inductive Syntax : Type :=
  | Atom (token : Token)
  | Group (opening : Token) (inner : Syntax) (closing : Token)
  | Select (object : Syntax) (dot property : Token)
  | Index (object : Syntax) (opening : Token) (index : Syntax)
      (closing : Token)
  | Prefix (operator : Token) (argument : Syntax)
  | Infix (operator : Token) (lhs rhs : Syntax)
  | Ternary (test : Syntax) (question : Token) (consequent : Syntax)
      (colon : Token) (alternate : Syntax).

(** The tokens of an expression, in the order they are written. *)
Fixpoint yield (t : Syntax) : list Token :=
  match t with
  | Atom token => [token]
  | Group opening inner closing => opening :: yield inner ++ [closing]
  | Select object dot property => yield object ++ [dot; property]
  | Index object opening index closing =>
      yield object ++ opening :: yield index ++ [closing]
  | Prefix operator argument => operator :: yield argument
  | Infix operator lhs rhs => yield lhs ++ operator :: yield rhs
  | Ternary test question consequent colon alternate =>
      yield test ++ question :: yield consequent ++ colon :: yield alternate
  end.

(** The node every form stands for: the operands nested as the tree
    nests them, each node at the position of the token that makes it. *)
Fixpoint ast_of (t : Syntax) : Expression :=
  match t with
  | Atom token =>
      match type token with
      | NUMBER =>
          Literal (LNumber (value token)) (value token)
            (line token) (column token)
      | STRING =>
          Literal (LString (value token)) (value token)
            (line token) (column token)
      | BOOLEAN =>
          Literal (LBoolean (String.eqb (value token) "true")) (value token)
            (line token) (column token)
      | _ => Identifier (value token) (line token) (column token)
      end
  | Group _ inner _ => ast_of inner
  | Select object _ property =>
      MemberExpression (ast_of object)
        (Identifier (value property) (line property) (column property))
        false (line property) (column property)
  | Index object _ index closing =>
      MemberExpression (ast_of object) (ast_of index) true
        (line closing) (column closing)
  | Prefix operator argument =>
      UnaryExpression (value operator) (ast_of argument)
        (line operator) (column operator)
  | Infix operator lhs rhs =>
      BinaryExpression (value operator) (ast_of lhs) (ast_of rhs)
        (line operator) (column operator)
  | Ternary test question consequent _ alternate =>
      ConditionalExpression (ast_of test) (ast_of consequent)
        (ast_of alternate) (line question) (column question)
  end.

(** The fixed precedence: ternary (0) < logical-or (1) < logical-and (2)
    < equality (3) < relational (4) < additive (5) < multiplicative (6)
    < unary (7) < postfix (8) < primary (9).  [continues t] is the level
    at which a token of type [t] carries an expression on (for the
    opening parenthesis: a call). *)
Definition continues (t : TokenType) : option nat :=
  match t with
  | QUESTION => Some 0
  | OR => Some 1
  | AND => Some 2
  | EQ | NE => Some 3
  | LT | GT | LE | GE => Some 4
  | PLUS | MINUS => Some 5
  | STAR | SLASH => Some 6
  | DOT | LBRACKET | LPAREN => Some 8
  | _ => None
  end.

(** The level of a binary operator. *)
Definition binary_level (t : TokenType) : option nat :=
  match continues t with
  | Some k => if Nat.leb 1 k && Nat.leb k 6 then Some k else None
  | None => None
  end.

(** The level of the outermost operator of an expression. *)
Definition rank (t : Syntax) : nat :=
  match t with
  | Atom _ | Group _ _ _ => 9
  | Select _ _ _ | Index _ _ _ _ => 8
  | Prefix _ _ => 7
  | Infix operator _ _ =>
      match binary_level (type operator) with
      | Some k => k
      | None => 0
      end
  | Ternary _ _ _ _ _ => 0
  end.

Definition atomic (t : TokenType) : bool :=
  match t with
  | NUMBER | STRING | BOOLEAN | IDENTIFIER => true
  | _ => false
  end.

Definition is_type (t : TokenType) (token : Token) : bool :=
  TokenType_eqb (type token) t.

(** The expressions that need no further parentheses: an operand binds
    at least as tightly as its operator.  Binary operators associate to
    the left (the right operand binds strictly tighter), the conditional
    to the right (its alternate may be a conditional, its test may not);
    between parentheses and brackets, and between [?] and [:], any
    expression stands. *)
Fixpoint well_formed (t : Syntax) : bool :=
  match t with
  | Atom token => atomic (type token)
  | Group opening inner closing =>
      is_type LPAREN opening && is_type RPAREN closing && well_formed inner
  | Select object dot property =>
      is_type DOT dot && is_type IDENTIFIER property
      && well_formed object && Nat.leb 8 (rank object)
  | Index object opening index closing =>
      is_type LBRACKET opening && is_type RBRACKET closing
      && well_formed object && Nat.leb 8 (rank object)
      && well_formed index
  | Prefix operator argument =>
      (is_type BANG operator || is_type MINUS operator)
      && well_formed argument && Nat.leb 7 (rank argument)
  | Infix operator lhs rhs =>
      match binary_level (type operator) with
      | Some k =>
          well_formed lhs && well_formed rhs
          && Nat.leb k (rank lhs) && Nat.ltb k (rank rhs)
      | None => false
      end
  | Ternary test question consequent colon alternate =>
      is_type QUESTION question && is_type COLON colon
      && well_formed test && Nat.leb 1 (rank test)
      && well_formed consequent && well_formed alternate
  end.

(** A budget for the parser that suffices for the expression. *)
Fixpoint need (t : Syntax) : nat :=
  match t with
  | Atom _ => 4
  | Group _ inner _ => need inner + 24
  | Select object _ _ => need object + 4
  | Index object _ index _ => need object + need index + 24
  | Prefix _ argument => need argument + 4
  | Infix _ lhs rhs => need lhs + need rhs + 20
  | Ternary test _ consequent _ alternate =>
      need test + need consequent + need alternate + 40
  end.

End Grammar.

Section TokenPositions.

Lemma nth_skipn_head {A} (l : list A) : forall i x r d,
  skipn i l = x :: r -> nth i l d = x.
Proof.
  induction l as [|a l IH]; intros i x r d H.
  - destruct i; discriminate.
  - destruct i as [|i]; simpl in *.
    + inversion H. reflexivity.
    + exact (IH i x r d H).
Qed.

Lemma skipn_next {A} (l : list A) i x r :
  skipn i l = x :: r -> skipn (S i) l = r.
Proof.
  intros H. change (S i) with (1 + i). rewrite <- skipn_skipn, H.
  reflexivity.
Qed.

Lemma skipn_after {A} (l : list A) i l1 l2 :
  skipn i l = l1 ++ l2 -> skipn (i + List.length l1) l = l2.
Proof.
  intros H. rewrite Nat.add_comm, <- skipn_skipn, H, skipn_app, skipn_all,
    Nat.sub_diag. reflexivity.
Qed.

End TokenPositions.

Section Climbing.
Import Lexer AST Parser ParserFacts Grammar.
Local Open Scope parser_scope.

Variable tokens : list Token.

Local Arguments match_ : simpl never.

(** *** The primitives on a known token *)

Lemma token_at_skipn i x r : skipn i tokens = x :: r -> token_at tokens i = x.
Proof. intros H. unfold token_at. exact (nth_skipn_head _ _ _ _ _ H). Qed.

Lemma check_at_hit ty i errs :
  type (token_at tokens i) = ty -> ty <> EOF ->
  check_at tokens ty (Parser.mkState i errs) = true.
Proof.
  intros Ht Hn. unfold check_at, isAtEnd_at, peek_at. simpl. rewrite Ht.
  unfold TokenType_eqb.
  destruct (TokenType_eq_dec ty EOF); [contradiction|].
  destruct (TokenType_eq_dec ty ty); [reflexivity|contradiction].
Qed.

Lemma check_at_miss ty i errs :
  type (token_at tokens i) <> ty ->
  check_at tokens ty (Parser.mkState i errs) = false.
Proof.
  intros Hn. unfold check_at, isAtEnd_at, peek_at. simpl.
  destruct (TokenType_eqb (type (token_at tokens i)) EOF); [reflexivity|].
  unfold TokenType_eqb.
  destruct (TokenType_eq_dec (type (token_at tokens i)) ty);
    [contradiction|reflexivity].
Qed.

Lemma match_hit ops i errs :
  In (type (token_at tokens i)) ops -> type (token_at tokens i) <> EOF ->
  match_ tokens ops (Parser.mkState i errs)
  = Some (true, Parser.mkState (S i) errs).
Proof.
  intros Hin Hn. induction ops as [|t ops IH]; [contradiction|].
  rewrite match_cons.
  destruct (TokenType_eq_dec (type (token_at tokens i)) t) as [E|E].
  - rewrite (check_at_hit t i errs E) by (rewrite <- E; exact Hn).
    reflexivity.
  - rewrite (check_at_miss t i errs E). apply IH.
    destruct Hin as [Hin|Hin]; [congruence|exact Hin].
Qed.

Lemma match_miss ops i errs :
  ~ In (type (token_at tokens i)) ops ->
  match_ tokens ops (Parser.mkState i errs)
  = Some (false, Parser.mkState i errs).
Proof.
  intros Hn. induction ops as [|t ops IH]; [reflexivity|].
  rewrite match_cons, check_at_miss.
  - apply IH. intros H. apply Hn. right. exact H.
  - intros H. apply Hn. left. symmetry. exact H.
Qed.

Lemma consume_hit ty msg i errs :
  type (token_at tokens i) = ty -> ty <> EOF ->
  consume tokens ty msg (Parser.mkState i errs)
  = Some (token_at tokens i, Parser.mkState (S i) errs).
Proof.
  intros Ht Hn. unfold consume. unfold bind at 1. unfold check.
  rewrite (check_at_hit ty i errs Ht Hn). unfold advance.
  assert (He : isAtEnd_at tokens (Parser.mkState i errs) = false).
  { unfold isAtEnd_at, peek_at. simpl. rewrite Ht. unfold TokenType_eqb.
    destruct (TokenType_eq_dec ty EOF); [contradiction|reflexivity]. }
  rewrite He. unfold previous_at. simpl. rewrite Nat.sub_0_r. reflexivity.
Qed.

Lemma previous_after i errs :
  previous tokens (Parser.mkState (S i) errs)
  = Some (token_at tokens i, Parser.mkState (S i) errs).
Proof. unfold previous, previous_at. simpl. rewrite Nat.sub_0_r. reflexivity. Qed.

Lemma peek_here i errs :
  peek tokens (Parser.mkState i errs)
  = Some (token_at tokens i, Parser.mkState i errs).
Proof. reflexivity. Qed.

(** *** The parser's functions, one step unfolded *)

Lemma parseExpression_step f :
  parseExpression tokens (S f) = parseTernary tokens f.
Proof. reflexivity. Qed.

Lemma parseTernary_step f :
  parseTernary tokens (S f)
  = (expr <- parseLogicalOr tokens f ;;
     m <- match_ tokens [QUESTION] ;;
     if m then
       question <- previous tokens ;;
       consequent <- parseExpression tokens f ;;
       consume tokens COLON "Expected : in conditional expression" ;;;
       alternate <- parseTernary tokens f ;;
       ret (ConditionalExpression expr consequent alternate
              (line question) (column question))
     else ret expr).
Proof. reflexivity. Qed.

Lemma parseUnary_step f :
  parseUnary tokens (S f)
  = (m <- match_ tokens [BANG; MINUS] ;;
     if m then
       operator <- previous tokens ;;
       argument <- parseUnary tokens f ;;
       ret (UnaryExpression (value operator) argument
              (line operator) (column operator))
     else parsePostfix tokens f).
Proof. reflexivity. Qed.

Lemma parsePostfix_step f :
  parsePostfix tokens (S f)
  = (expr <- parsePrimary tokens f ;; parsePostfix_loop tokens f expr).
Proof. reflexivity. Qed.

Lemma parsePostfix_loop_step f expr :
  parsePostfix_loop tokens (S f) expr
  = (isDot <- match_ tokens [DOT] ;;
     if isDot then
       property <- consume tokens IDENTIFIER "Expected property name" ;;
       parsePostfix_loop tokens f
         (MemberExpression expr
            (Identifier (value property) (line property) (column property))
            false (line property) (column property))
     else
       isBracket <- match_ tokens [LBRACKET] ;;
       if isBracket then
         property <- parseExpression tokens f ;;
         consume tokens RBRACKET "Expected ] after computed property" ;;;
         prev <- previous tokens ;;
         parsePostfix_loop tokens f
           (MemberExpression expr property true (line prev) (column prev))
       else
         isParen <- match_ tokens [LPAREN] ;;
         if isParen then
           closing <- check tokens RPAREN ;;
           args <- (if closing then ret []
                    else parseExpressionList tokens f []) ;;
           consume tokens RPAREN "Expected ) after arguments" ;;;
           prev <- previous tokens ;;
           parsePostfix_loop tokens f
             (CallExpression expr args (line prev) (column prev))
         else ret expr).
Proof. reflexivity. Qed.

Lemma parsePrimary_step f :
  parsePrimary tokens (S f)
  = (token <- peek tokens ;;
     isNumber <- match_ tokens [NUMBER] ;;
     if isNumber then
       prev <- previous tokens ;;
       ret (Literal (LNumber (value prev)) (value prev)
              (line token) (column token))
     else
     isString <- match_ tokens [STRING] ;;
     if isString then
       prev <- previous tokens ;;
       ret (Literal (LString (value prev)) (value prev)
              (line token) (column token))
     else
     isBoolean <- match_ tokens [BOOLEAN] ;;
     if isBoolean then
       prev <- previous tokens ;;
       ret (Literal (LBoolean (String.eqb (value prev) "true")) (value prev)
              (line token) (column token))
     else
     isIdentifier <- match_ tokens [IDENTIFIER] ;;
     if isIdentifier then
       prev <- previous tokens ;;
       ret (Identifier (value prev) (line token) (column token))
     else
     isBracket <- match_ tokens [LBRACKET] ;;
     if isBracket then
       closing <- check tokens RBRACKET ;;
       elements <- (if closing then ret []
                    else parseExpressionList tokens f []) ;;
       consume tokens RBRACKET "Expected ] after array elements" ;;;
       ret (ArrayExpression elements (line token) (column token))
     else
     isParen <- match_ tokens [LPAREN] ;;
     if isParen then
       expr <- parseExpression tokens f ;;
       consume tokens RPAREN "Expected ) after expression" ;;;
       ret expr
     else
       error tokens "Expected expression" ;;;
       ret (Literal (LNumber "0") "0" (line token) (column token))).
Proof. reflexivity. Qed.

(** *** The binary levels, by number *)

Definition level_ops (k : nat) : list TokenType :=
  match k with
  | 1 => [OR]
  | 2 => [AND]
  | 3 => [EQ; NE]
  | 4 => [LT; GT; LE; GE]
  | 5 => [PLUS; MINUS]
  | 6 => [STAR; SLASH]
  | _ => []
  end.

Definition level_parser (k : nat) : nat -> M Expression :=
  match k with
  | 1 => parseLogicalOr tokens
  | 2 => parseLogicalAnd tokens
  | 3 => parseEquality tokens
  | 4 => parseComparison tokens
  | 5 => parseAdditive tokens
  | 6 => parseMultiplicative tokens
  | _ => parseUnary tokens
  end.

Definition level_loop (k : nat) : nat -> Expression -> M Expression :=
  match k with
  | 1 => parseLogicalOr_loop tokens
  | 2 => parseLogicalAnd_loop tokens
  | 3 => parseEquality_loop tokens
  | 4 => parseComparison_loop tokens
  | 5 => parseAdditive_loop tokens
  | 6 => parseMultiplicative_loop tokens
  | _ => fun _ e => ret e
  end.

Lemma level_parser_step k f :
  1 <= k <= 6 ->
  level_parser k (S f)
  = (left <- level_parser (S k) f ;; level_loop k f left).
Proof.
  intros H. destruct k as [|[|[|[|[|[|[|k]]]]]]]; try lia; reflexivity.
Qed.

Lemma level_loop_step k f left :
  1 <= k <= 6 ->
  level_loop k (S f) left
  = binaryLevel tokens (level_ops k) (level_parser (S k) f)
      (level_loop k f) left.
Proof.
  intros H. destruct k as [|[|[|[|[|[|[|k]]]]]]]; try lia; reflexivity.
Qed.

Lemma level_parser_grows k f f' s r :
  f <= f' -> level_parser k f s = Some r -> level_parser k f' s = Some r.
Proof.
  intros Hle.
  destruct (grows_expressions tokens f)
    as (H1 & H2 & H3 & H4 & H5 & H6 & H7 & H8 & H9 & H10 & H11
        & H12 & H13 & H14 & H15 & H16 & H17 & H18 & H19).
  destruct k as [|[|[|[|[|[|[|k]]]]]]]; simpl;
    first [ apply (H3 f' Hle) | apply (H5 f' Hle) | apply (H7 f' Hle)
          | apply (H9 f' Hle) | apply (H11 f' Hle) | apply (H13 f' Hle)
          | apply (H15 f' Hle) ].
Qed.

Lemma level_loop_grows k f f' e s r :
  f <= f' -> level_loop k f e s = Some r -> level_loop k f' e s = Some r.
Proof.
  intros Hle.
  destruct (grows_expressions tokens f)
    as (H1 & H2 & H3 & H4 & H5 & H6 & H7 & H8 & H9 & H10 & H11
        & H12 & H13 & H14 & H15 & H16 & H17 & H18 & H19).
  destruct k as [|[|[|[|[|[|[|k]]]]]]]; simpl;
    first [ apply (H4 f' Hle) | apply (H6 f' Hle) | apply (H8 f' Hle)
          | apply (H10 f' Hle) | apply (H12 f' Hle) | apply (H14 f' Hle)
          | intros H; exact H ].
Qed.

Lemma parsePostfix_loop_grows f f' e s r :
  f <= f' -> parsePostfix_loop tokens f e s = Some r ->
  parsePostfix_loop tokens f' e s = Some r.
Proof.
  intros Hle.
  destruct (grows_expressions tokens f)
    as (H1 & H2 & H3 & H4 & H5 & H6 & H7 & H8 & H9 & H10 & H11
        & H12 & H13 & H14 & H15 & H16 & H17 & H18 & H19).
  apply (H17 f' Hle).
Qed.

(** The operators of a level are the tokens the grammar puts there. *)
Lemma level_ops_continues k ty :
  1 <= k <= 6 -> (In ty (level_ops k) <-> continues ty = Some k).
Proof.
  intros H.
  destruct k as [|[|[|[|[|[|[|k]]]]]]]; try lia;
    destruct ty; simpl; intuition (try discriminate; try congruence).
Qed.


(** *** Where a loop stops *)

(** The token type [ty] does not carry on an expression at a level above
    [k]. *)
Definition loose (k : nat) (ty : TokenType) : Prop :=
  match continues ty with
  | Some j => j <= k
  | None => True
  end.

Lemma loose_not k j ty : loose k ty -> k < j -> continues ty <> Some j.
Proof.
  unfold loose. intros H Hlt E. rewrite E in H. lia.
Qed.

Lemma loose_up k j ty : loose k ty -> k <= j -> loose j ty.
Proof.
  unfold loose. destruct (continues ty); [lia|trivial].
Qed.

Lemma level_loop_returns k n left i errs :
  1 <= k <= 7 -> continues (type (token_at tokens i)) <> Some k ->
  level_loop k (S n) left (Parser.mkState i errs)
  = Some (left, Parser.mkState i errs).
Proof.
  intros Hk Hc. destruct (Nat.eq_dec k 7) as [->|Hne]; [reflexivity|].
  rewrite level_loop_step by lia. unfold binaryLevel. unfold bind at 1.
  rewrite match_miss; [reflexivity|].
  rewrite level_ops_continues by lia. exact Hc.
Qed.

Lemma postfix_loop_returns n e i errs :
  continues (type (token_at tokens i)) <> Some 8 ->
  parsePostfix_loop tokens (S n) e (Parser.mkState i errs)
  = Some (e, Parser.mkState i errs).
Proof.
  intros Hc. rewrite parsePostfix_loop_step.
  unfold bind at 1. rewrite match_miss
    by (intros [H|[]]; apply Hc; rewrite <- H; reflexivity).
  unfold bind at 1. rewrite match_miss
    by (intros [H|[]]; apply Hc; rewrite <- H; reflexivity).
  unfold bind at 1. rewrite match_miss
    by (intros [H|[]]; apply Hc; rewrite <- H; reflexivity).
  reflexivity.
Qed.

(** *** What is proved of every expression *)

(** The tokens of [t] stand at index [i], followed by [nxt]. *)
Definition written (t : Syntax) (i : nat) (nxt : Token) (rest : list Token)
    : Prop :=
  skipn i tokens = yield t ++ nxt :: rest.

Lemma written_next t i nxt rest :
  written t i nxt rest ->
  token_at tokens (i + List.length (yield t)) = nxt.
Proof.
  intros H. apply skipn_after in H. exact (token_at_skipn _ _ _ H).
Qed.

(** On the tokens of [t], [parsePostfix] comes to its loop with the node
    of [t] in hand. *)
Definition climbs_postfix (t : Syntax) : Prop :=
  forall i nxt rest errs, written t i nxt rest ->
  forall n x fin,
    parsePostfix_loop tokens n (ast_of t)
      (Parser.mkState (i + List.length (yield t)) errs) = Some (x, fin) ->
  forall F, n + need t <= F ->
    parsePostfix tokens F (Parser.mkState i errs) = Some (x, fin).

(** On the tokens of [t], followed by a token that binds no tighter than
    level [k], the parser of level [k] comes to its loop with the node of
    [t] in hand. *)
Definition climbs_loop (t : Syntax) (k : nat) : Prop :=
  forall i nxt rest errs, written t i nxt rest -> loose k (type nxt) ->
  forall n x fin,
    level_loop k n (ast_of t)
      (Parser.mkState (i + List.length (yield t)) errs) = Some (x, fin) ->
  forall F, n + need t + 2 * (8 - k) <= F ->
    level_parser k F (Parser.mkState i errs) = Some (x, fin).

(** On the tokens of [t], followed by a token that carries no expression
    on, [parseTernary] returns the node of [t]. *)
Definition climbs_top (t : Syntax) : Prop :=
  forall i nxt rest errs, written t i nxt rest ->
  continues (type nxt) = None ->
  forall F, need t + 16 <= F ->
    parseTernary tokens F (Parser.mkState i errs)
    = Some (ast_of t, Parser.mkState (i + List.length (yield t)) errs).

Definition climbs (t : Syntax) : Prop :=
  (8 <= rank t -> climbs_postfix t)
  /\ (forall k, 1 <= k <= 7 -> k <= rank t -> climbs_loop t k)
  /\ climbs_top t.

(** *** From one level to the next lower one *)

Lemma climbs_down t k :
  1 <= k <= 6 -> climbs_loop t (S k) -> climbs_loop t k.
Proof.
  intros Hk H i nxt rest errs Hw Hl n x fin Hloop F HF.
  destruct F as [|F]; [lia|].
  rewrite level_parser_step by exact Hk. unfold bind at 1.
  assert (E : level_parser (S k) F (Parser.mkState i errs)
              = Some (ast_of t,
                      Parser.mkState (i + List.length (yield t)) errs)).
  { apply (H i nxt rest errs Hw (loose_up _ _ _ Hl (Nat.le_succ_diag_r k)) 1).
    - apply level_loop_returns; [lia|].
      rewrite (written_next _ _ _ _ Hw). apply (loose_not k); [exact Hl|lia].
    - lia. }
  rewrite E. apply (level_loop_grows k n F); [lia|exact Hloop].
Qed.

Lemma climbs_range t k0 :
  k0 <= 7 -> climbs_loop t k0 ->
  forall k, 1 <= k <= k0 -> climbs_loop t k.
Proof.
  intros H7 H0 k Hk.
  assert (Hd : forall d k, k + d = k0 -> 1 <= k -> climbs_loop t k).
  { induction d as [|d IH]; intros k' E H1.
    - rewrite Nat.add_0_r in E. subst k'. exact H0.
    - apply climbs_down; [lia|]. apply IH; lia. }
  apply (Hd (k0 - k) k); lia.
Qed.

Lemma climbs_top_of_loop t : climbs_loop t 1 -> climbs_top t.
Proof.
  intros H i nxt rest errs Hw Hc F HF.
  destruct F as [|F]; [lia|].
  rewrite parseTernary_step. unfold bind at 1.
  assert (Hl : loose 1 (type nxt)) by (unfold loose; rewrite Hc; exact I).
  assert (E : parseLogicalOr tokens F (Parser.mkState i errs)
              = Some (ast_of t,
                      Parser.mkState (i + List.length (yield t)) errs)).
  { apply (H i nxt rest errs Hw Hl 1).
    - apply (level_loop_returns 1 0); [lia|].
      rewrite (written_next _ _ _ _ Hw), Hc. discriminate.
    - lia. }
  rewrite E. unfold bind at 1. rewrite match_miss; [reflexivity|].
  rewrite (written_next _ _ _ _ Hw).
  intros [He|[]]. rewrite <- He in Hc. discriminate.
Qed.

(** *** The first token of an operand of a prefix operator *)

Lemma is_type_eq ty token : is_type ty token = true -> type token = ty.
Proof. unfold is_type. apply TokenType_eqb_eq. Qed.

Lemma binary_level_range ty k :
  binary_level ty = Some k -> 1 <= k <= 6 /\ continues ty = Some k.
Proof.
  unfold binary_level. destruct (continues ty) as [j|]; [|discriminate].
  destruct (Nat.leb 1 j) eqn:E1; [|discriminate].
  destruct (Nat.leb j 6) eqn:E2; [|discriminate].
  simpl. intros H. inversion H; subst.
  apply Nat.leb_le in E1. apply Nat.leb_le in E2. split; [lia|reflexivity].
Qed.

Lemma rank_infix operator lhs rhs : rank (Infix operator lhs rhs) <= 6.
Proof.
  simpl. destruct (binary_level (type operator)) as [k|] eqn:E; [|lia].
  apply binary_level_range in E. lia.
Qed.

Ltac split_andb :=
  repeat match goal with
  | H : _ && _ = true |- _ => apply andb_prop in H; destruct H
  end.

Lemma well_formed_group opening inner closing :
  well_formed (Group opening inner closing) = true ->
  type opening = LPAREN /\ type closing = RPAREN /\ well_formed inner = true.
Proof.
  cbn [well_formed]. intros H. split_andb.
  repeat split; try apply is_type_eq; assumption.
Qed.

Lemma well_formed_select object dot property :
  well_formed (Select object dot property) = true ->
  type dot = DOT /\ type property = IDENTIFIER
  /\ well_formed object = true /\ 8 <= rank object.
Proof.
  cbn [well_formed]. intros H. split_andb.
  repeat split; try apply is_type_eq; try assumption.
  apply Nat.leb_le. assumption.
Qed.

Lemma well_formed_index object opening index closing :
  well_formed (Index object opening index closing) = true ->
  type opening = LBRACKET /\ type closing = RBRACKET
  /\ well_formed object = true /\ 8 <= rank object
  /\ well_formed index = true.
Proof.
  cbn [well_formed]. intros H. split_andb.
  repeat split; try apply is_type_eq; try assumption.
  apply Nat.leb_le. assumption.
Qed.

Lemma well_formed_prefix operator argument :
  well_formed (Prefix operator argument) = true ->
  (type operator = BANG \/ type operator = MINUS)
  /\ well_formed argument = true /\ 7 <= rank argument.
Proof.
  cbn [well_formed]. intros H. split_andb.
  repeat split; try assumption.
  - match goal with
    | H : _ || _ = true |- _ =>
        apply orb_prop in H; destruct H as [H|H]; apply is_type_eq in H;
        [left|right]; exact H
    end.
  - apply Nat.leb_le. assumption.
Qed.

Lemma well_formed_infix operator lhs rhs :
  well_formed (Infix operator lhs rhs) = true ->
  exists k,
    binary_level (type operator) = Some k
    /\ rank (Infix operator lhs rhs) = k
    /\ well_formed lhs = true /\ well_formed rhs = true
    /\ k <= rank lhs /\ k < rank rhs.
Proof.
  cbn [well_formed rank].
  destruct (binary_level (type operator)) as [k|]; [|discriminate].
  intros H. split_andb. exists k.
  repeat split; try assumption.
  - apply Nat.leb_le. assumption.
  - apply Nat.ltb_lt. assumption.
Qed.

Lemma well_formed_ternary test question consequent colon alternate :
  well_formed (Ternary test question consequent colon alternate) = true ->
  type question = QUESTION /\ type colon = COLON
  /\ well_formed test = true /\ 1 <= rank test
  /\ well_formed consequent = true /\ well_formed alternate = true.
Proof.
  cbn [well_formed]. intros H. split_andb.
  repeat split; try apply is_type_eq; try assumption.
  apply Nat.leb_le. assumption.
Qed.

Lemma first_token t :
  well_formed t = true -> 8 <= rank t ->
  exists tok l, yield t = tok :: l
                /\ (atomic (type tok) = true \/ type tok = LPAREN).
Proof.
  induction t as [token|opening inner IH closing|object IH dot property
                  |object IH opening index IHi closing|operator argument IH
                  |operator lhs IHl rhs IHr
                  |test IHt question consequent IHc colon alternate IHa];
    intros Hwf Hr.
  - exists token, []. split; [reflexivity|left; exact Hwf].
  - exists opening, (yield inner ++ [closing]). split; [reflexivity|].
    right. apply (well_formed_group _ _ _ Hwf).
  - destruct (well_formed_select _ _ _ Hwf) as (_ & _ & Hwo & Hro).
    destruct (IH Hwo Hro) as (tok & l & E & Ht).
    exists tok, (l ++ [dot; property]). cbn [yield]. rewrite E.
    split; [reflexivity|exact Ht].
  - destruct (well_formed_index _ _ _ _ Hwf) as (_ & _ & Hwo & Hro & _).
    destruct (IH Hwo Hro) as (tok & l & E & Ht).
    exists tok, (l ++ opening :: yield index ++ [closing]). cbn [yield].
    rewrite E. split; [reflexivity|exact Ht].
  - cbn [rank] in Hr. lia.
  - pose proof (rank_infix operator lhs rhs). lia.
  - cbn [rank] in Hr. lia.
Qed.

Lemma climbs_unary_of_postfix t :
  well_formed t = true -> 8 <= rank t ->
  climbs_postfix t -> climbs_loop t 7.
Proof.
  intros Hwf Hr H i nxt rest errs Hw Hl n x fin Hloop F HF.
  destruct F as [|F]; [lia|].
  change (level_parser 7 (S F)) with (parseUnary tokens (S F)).
  change (level_loop 7 n (ast_of t)) with (@ret Expression (ast_of t))
    in Hloop.
  inversion Hloop; subst x fin.
  rewrite parseUnary_step. unfold bind at 1.
  destruct (first_token t Hwf Hr) as (tok & l & E & Ht).
  assert (Htok : token_at tokens i = tok).
  { unfold written in Hw. rewrite E in Hw. simpl in Hw.
    exact (token_at_skipn _ _ _ Hw). }
  rewrite match_miss.
  - apply (H i nxt rest errs Hw 1).
    + apply postfix_loop_returns.
      rewrite (written_next _ _ _ _ Hw). apply (loose_not 7); [exact Hl|lia].
    + lia.
  - rewrite Htok. destruct Ht as [Ht|Ht].
    + destruct (type tok); try discriminate Ht; simpl; intuition discriminate.
    + rewrite Ht. simpl. intuition discriminate.
Qed.


(** *** The forms of the grammar, one by one *)

Ltac miss Htok Et :=
  unfold bind at 1;
  rewrite match_miss by (rewrite Htok, Et; simpl; intuition discriminate);
  cbv beta iota.

Ltac hit Htok Et :=
  unfold bind at 1;
  rewrite match_hit
    by (rewrite Htok, Et; first [discriminate | simpl; auto]);
  cbv beta iota.

Lemma parsePrimary_atom tok f i errs :
  atomic (type tok) = true -> token_at tokens i = tok ->
  parsePrimary tokens (S f) (Parser.mkState i errs)
  = Some (ast_of (Atom tok), Parser.mkState (S i) errs).
Proof.
  intros Ha Htok. rewrite parsePrimary_step.
  unfold bind at 1. rewrite peek_here. cbv beta iota. cbn [ast_of].
  destruct (type tok) eqn:Et; try discriminate Ha.
  - miss Htok Et. miss Htok Et. miss Htok Et. hit Htok Et.
    unfold bind at 1. rewrite previous_after. cbv beta iota.
    rewrite Htok. reflexivity.
  - miss Htok Et. hit Htok Et.
    unfold bind at 1. rewrite previous_after. cbv beta iota.
    rewrite Htok. reflexivity.
  - hit Htok Et.
    unfold bind at 1. rewrite previous_after. cbv beta iota.
    rewrite Htok. reflexivity.
  - miss Htok Et. miss Htok Et. hit Htok Et.
    unfold bind at 1. rewrite previous_after. cbv beta iota.
    rewrite Htok. reflexivity.
Qed.

Lemma climbs_atom tok : atomic (type tok) = true -> climbs_postfix (Atom tok).
Proof.
  intros Ha i nxt rest errs Hw n x fin Hloop F HF.
  cbn [need] in HF. destruct F as [|[|F]]; try lia.
  assert (Htok : token_at tokens i = tok)
    by exact (token_at_skipn _ _ _ Hw).
  rewrite parsePostfix_step. unfold bind at 1.
  rewrite (parsePrimary_atom tok F i errs Ha Htok).
  cbn [yield List.length] in Hloop. rewrite Nat.add_1_r in Hloop.
  apply (parsePostfix_loop_grows n (S F)); [lia|exact Hloop].
Qed.

Lemma parsePrimary_group opening inner closing f i nxt rest errs :
  type opening = LPAREN -> type closing = RPAREN -> climbs_top inner ->
  written (Group opening inner closing) i nxt rest ->
  need inner + 17 <= f ->
  parsePrimary tokens (S f) (Parser.mkState i errs)
  = Some (ast_of inner,
          Parser.mkState
            (i + List.length (yield (Group opening inner closing))) errs).
Proof.
  intros Ho Hc IH Hw Hf.
  assert (Hw' : skipn i tokens
                = opening :: (yield inner ++ closing :: nxt :: rest)).
  { unfold written in Hw. cbn [yield] in Hw. rewrite Hw. simpl.
    rewrite <- app_assoc. reflexivity. }
  assert (Htok : token_at tokens i = opening)
    by exact (token_at_skipn _ _ _ Hw').
  assert (Hin : written inner (S i) closing (nxt :: rest))
    by exact (skipn_next _ _ _ _ Hw').
  pose proof (written_next _ _ _ _ Hin) as Hclose.
  rewrite parsePrimary_step.
  unfold bind at 1. rewrite peek_here. cbv beta iota.
  miss Htok Ho. miss Htok Ho. miss Htok Ho. miss Htok Ho. miss Htok Ho.
  hit Htok Ho.
  destruct f as [|f]; [lia|]. rewrite parseExpression_step.
  unfold bind at 1.
  rewrite (IH (S i) closing (nxt :: rest) errs Hin)
    by (first [rewrite Hc; reflexivity | lia]).
  cbv beta iota. unfold bind at 1.
  rewrite (consume_hit RPAREN) by (first [discriminate | rewrite Hclose; exact Hc]).
  cbv beta iota. unfold ret. f_equal. f_equal. f_equal.
  cbn [yield List.length]. rewrite length_app. simpl. lia.
Qed.

Lemma climbs_group opening inner closing :
  type opening = LPAREN -> type closing = RPAREN -> climbs_top inner ->
  climbs_postfix (Group opening inner closing).
Proof.
  intros Ho Hc IH i nxt rest errs Hw n x fin Hloop F HF.
  cbn [need] in HF. destruct F as [|[|F]]; try lia.
  rewrite parsePostfix_step. unfold bind at 1.
  rewrite (parsePrimary_group opening inner closing F i nxt rest errs
             Ho Hc IH Hw) by lia.
  apply (parsePostfix_loop_grows n (S F)); [lia|exact Hloop].
Qed.

Lemma climbs_select object dot property :
  type dot = DOT -> type property = IDENTIFIER ->
  climbs_postfix object -> climbs_postfix (Select object dot property).
Proof.
  intros Hd Hp IH i nxt rest errs Hw n x fin Hloop F HF.
  assert (Hw' : written object i dot (property :: nxt :: rest)).
  { unfold written in *. cbn [yield] in Hw. rewrite Hw, <- app_assoc.
    reflexivity. }
  pose proof (written_next _ _ _ _ Hw') as Hdot.
  assert (Hprop : token_at tokens (S (i + List.length (yield object)))
                  = property).
  { apply skipn_after in Hw'. apply skipn_next in Hw'.
    exact (token_at_skipn _ _ _ Hw'). }
  apply (IH i dot (property :: nxt :: rest) errs Hw' (S n));
    [|cbn [need] in HF; lia].
  rewrite parsePostfix_loop_step.
  hit Hdot Hd.
  unfold bind at 1.
  rewrite (consume_hit IDENTIFIER)
    by (first [discriminate | rewrite Hprop; exact Hp]).
  cbv beta iota. rewrite Hprop.
  cbn [ast_of] in Hloop.
  replace (i + List.length (yield (Select object dot property)))
    with (S (S (i + List.length (yield object)))) in Hloop
    by (cbn [yield]; rewrite length_app; simpl; lia).
  exact Hloop.
Qed.

Lemma climbs_index object opening index closing :
  type opening = LBRACKET -> type closing = RBRACKET ->
  climbs_postfix object -> climbs_top index ->
  climbs_postfix (Index object opening index closing).
Proof.
  intros Ho Hc IH IHi i nxt rest errs Hw n x fin Hloop F HF.
  assert (Hw' : written object i opening
                  (yield index ++ closing :: nxt :: rest)).
  { unfold written in *. cbn [yield] in Hw. rewrite Hw, <- app_assoc.
    simpl. rewrite <- app_assoc. reflexivity. }
  pose proof (written_next _ _ _ _ Hw') as Hopen.
  assert (Hin : written index (S (i + List.length (yield object))) closing
                  (nxt :: rest)).
  { apply skipn_after in Hw'. exact (skipn_next _ _ _ _ Hw'). }
  pose proof (written_next _ _ _ _ Hin) as Hclose.
  apply (IH i opening _ errs Hw' (S (S (n + need index + 16))));
    [|cbn [need] in HF; lia].
  rewrite parsePostfix_loop_step.
  miss Hopen Ho. hit Hopen Ho.
  rewrite parseExpression_step. unfold bind at 1.
  rewrite (IHi _ closing (nxt :: rest) errs Hin)
    by (first [rewrite Hc; reflexivity | lia]).
  cbv beta iota. unfold bind at 1.
  rewrite (consume_hit RBRACKET)
    by (first [discriminate | rewrite Hclose; exact Hc]).
  cbv beta iota. unfold bind at 1. rewrite previous_after. cbv beta iota.
  rewrite Hclose.
  apply (parsePostfix_loop_grows n); [lia|].
  cbn [ast_of] in Hloop.
  replace (i + List.length (yield (Index object opening index closing)))
    with (S (S (i + List.length (yield object))
             + List.length (yield index))) in Hloop
    by (cbn [yield]; rewrite !length_app; simpl; rewrite length_app;
        simpl; lia).
  exact Hloop.
Qed.

Lemma climbs_prefix operator argument :
  type operator = BANG \/ type operator = MINUS ->
  climbs_loop argument 7 -> climbs_loop (Prefix operator argument) 7.
Proof.
  intros Ho IH i nxt rest errs Hw Hl n x fin Hloop F HF.
  change (level_loop 7 n (ast_of (Prefix operator argument)))
    with (@ret Expression (ast_of (Prefix operator argument))) in Hloop.
  inversion Hloop; subst x fin.
  cbn [need] in HF. destruct F as [|F]; [lia|].
  change (level_parser 7 (S F)) with (parseUnary tokens (S F)).
  assert (Htok : token_at tokens i = operator)
    by exact (token_at_skipn _ _ _ Hw).
  assert (Hw' : written argument (S i) nxt rest)
    by exact (skipn_next _ _ _ _ Hw).
  rewrite parseUnary_step.
  unfold bind at 1.
  rewrite match_hit
    by (rewrite Htok; destruct Ho as [Ho|Ho]; rewrite Ho;
        first [discriminate | simpl; auto]).
  cbv beta iota. unfold bind at 1. rewrite previous_after. cbv beta iota.
  rewrite Htok. unfold bind at 1.
  assert (E : parseUnary tokens F (Parser.mkState (S i) errs)
              = Some (ast_of argument,
                      Parser.mkState (S i + List.length (yield argument))
                        errs)).
  { apply (IH (S i) nxt rest errs Hw' Hl 0); [reflexivity|lia]. }
  rewrite E. cbv beta iota. unfold ret. cbn [ast_of yield List.length].
  f_equal. f_equal. f_equal. lia.
Qed.

Lemma climbs_infix operator lhs rhs k :
  binary_level (type operator) = Some k ->
  climbs_loop lhs k -> climbs_loop rhs (S k) ->
  climbs_loop (Infix operator lhs rhs) k.
Proof.
  intros Hb IHl IHr i nxt rest errs Hw Hl n x fin Hloop F HF.
  destruct (binary_level_range _ _ Hb) as [Hk Hc].
  assert (Hw' : written lhs i operator (yield rhs ++ nxt :: rest)).
  { unfold written in *. cbn [yield] in Hw. rewrite Hw, <- app_assoc.
    reflexivity. }
  pose proof (written_next _ _ _ _ Hw') as Hop.
  assert (Hwr : written rhs (S (i + List.length (yield lhs))) nxt rest).
  { apply skipn_after in Hw'. exact (skipn_next _ _ _ _ Hw'). }
  pose proof (written_next _ _ _ _ Hwr) as Hnxt.
  assert (Hlo : loose k (type operator))
    by (unfold loose; rewrite Hc; lia).
  apply (IHl i operator _ errs Hw' Hlo (S (n + need rhs + 16)));
    [|cbn [need] in HF; lia].
  rewrite level_loop_step by exact Hk. unfold binaryLevel.
  unfold bind at 1.
  rewrite match_hit.
  2: { rewrite Hop. apply level_ops_continues; assumption. }
  2: { rewrite Hop. intros E. rewrite E in Hc. discriminate. }
  cbv beta iota. unfold bind at 1. rewrite previous_after. cbv beta iota.
  rewrite Hop. unfold bind at 1.
  assert (E : level_parser (S k) (n + need rhs + 16)
                (Parser.mkState (S (i + List.length (yield lhs))) errs)
              = Some (ast_of rhs,
                      Parser.mkState
                        (S (i + List.length (yield lhs))
                         + List.length (yield rhs)) errs)).
  { apply (IHr _ nxt rest errs Hwr (loose_up _ _ _ Hl (Nat.le_succ_diag_r k))
             1).
    - apply level_loop_returns; [lia|].
      rewrite Hnxt. apply (loose_not k); [exact Hl|lia].
    - lia. }
  rewrite E. cbv beta iota.
  apply (level_loop_grows k n); [lia|].
  cbn [ast_of] in Hloop.
  replace (i + List.length (yield (Infix operator lhs rhs)))
    with (S (i + List.length (yield lhs)) + List.length (yield rhs))
    in Hloop
    by (cbn [yield]; rewrite length_app; simpl; lia).
  exact Hloop.
Qed.

Lemma climbs_ternary test question consequent colon alternate :
  type question = QUESTION -> type colon = COLON ->
  climbs_loop test 1 -> climbs_top consequent -> climbs_top alternate ->
  climbs_top (Ternary test question consequent colon alternate).
Proof.
  intros Hq Hcol IHt IHc IHa i nxt rest errs Hw Hc F HF.
  cbn [need] in HF. destruct F as [|[|F]]; try lia.
  assert (Hw1 : written test i question
                  (yield consequent ++ colon :: yield alternate
                   ++ nxt :: rest)).
  { unfold written in *. cbn [yield] in Hw. rewrite Hw, <- app_assoc.
    simpl. rewrite <- app_assoc. reflexivity. }
  pose proof (written_next _ _ _ _ Hw1) as Hquestion.
  assert (Hw2 : written consequent (S (i + List.length (yield test))) colon
                  (yield alternate ++ nxt :: rest)).
  { apply skipn_after in Hw1. exact (skipn_next _ _ _ _ Hw1). }
  pose proof (written_next _ _ _ _ Hw2) as Hcolon.
  assert (Hw3 : written alternate
                  (S (S (i + List.length (yield test))
                      + List.length (yield consequent))) nxt rest).
  { apply skipn_after in Hw2. exact (skipn_next _ _ _ _ Hw2). }
  rewrite parseTernary_step. unfold bind at 1.
  assert (E1 : parseLogicalOr tokens (S F) (Parser.mkState i errs)
               = Some (ast_of test,
                       Parser.mkState (i + List.length (yield test)) errs)).
  { assert (Hlq : loose 1 (type question))
      by (unfold loose; rewrite Hq; simpl; lia).
    change (parseLogicalOr tokens (S F)) with (level_parser 1 (S F)).
    apply (IHt i question _ errs Hw1 Hlq 1).
    - apply (level_loop_returns 1 0); [lia|].
      rewrite Hquestion, Hq. discriminate.
    - lia. }
  rewrite E1. cbv beta iota.
  hit Hquestion Hq.
  unfold bind at 1. rewrite previous_after. cbv beta iota.
  rewrite Hquestion. rewrite parseExpression_step. unfold bind at 1.
  rewrite (IHc _ colon _ errs Hw2)
    by (first [rewrite Hcol; reflexivity | lia]).
  cbv beta iota. unfold bind at 1.
  rewrite (consume_hit COLON)
    by (first [discriminate | rewrite Hcolon; exact Hcol]).
  cbv beta iota. unfold bind at 1.
  rewrite (IHa _ nxt rest errs Hw3 Hc) by lia.
  cbv beta iota. unfold ret. cbn [ast_of]. f_equal. f_equal. f_equal.
  cbn [yield]. rewrite length_app. simpl. rewrite length_app. simpl. lia.
Qed.

(** *** Every expression of the grammar *)

Lemma climbs_from t k0 :
  1 <= k0 <= 7 ->
  (forall k, k <= 7 -> k <= rank t -> k <= k0) ->
  (8 <= rank t -> climbs_postfix t) ->
  climbs_loop t k0 -> climbs t.
Proof.
  intros Hk Hmax Hp H. split; [exact Hp|]. split.
  - intros k Hk7 Hr. apply (climbs_range t k0); [lia|exact H|].
    split; [lia|]. apply Hmax; lia.
  - apply climbs_top_of_loop. apply (climbs_range t k0); [lia|exact H|lia].
Qed.

Lemma climbs_of_postfix t :
  well_formed t = true -> 8 <= rank t -> climbs_postfix t -> climbs t.
Proof.
  intros Hwf Hr H. apply (climbs_from t 7); [lia|lia|intros _; exact H|].
  apply climbs_unary_of_postfix; assumption.
Qed.

Lemma climbs_all t : well_formed t = true -> climbs t.
Proof.
  induction t as [token|opening inner IH closing|object IH dot property
                  |object IH opening index IHi closing|operator argument IH
                  |operator lhs IHl rhs IHr
                  |test IHt question consequent IHc colon alternate IHa];
    intros Hwf.
  - apply climbs_of_postfix; [exact Hwf|cbn [rank]; lia|].
    apply climbs_atom. exact Hwf.
  - destruct (well_formed_group _ _ _ Hwf) as (Ho & Hc & Hi).
    apply climbs_of_postfix; [exact Hwf|cbn [rank]; lia|].
    apply climbs_group; [exact Ho|exact Hc|]. apply (IH Hi).
  - destruct (well_formed_select _ _ _ Hwf) as (Hd & Hp & Ho & Hr).
    apply climbs_of_postfix; [exact Hwf|cbn [rank]; lia|].
    apply climbs_select; [exact Hd|exact Hp|]. apply (IH Ho). exact Hr.
  - destruct (well_formed_index _ _ _ _ Hwf) as (Ho & Hc & Hw & Hr & Hi).
    apply climbs_of_postfix; [exact Hwf|cbn [rank]; lia|].
    apply climbs_index; [exact Ho|exact Hc| |apply (IHi Hi)].
    apply (IH Hw). exact Hr.
  - destruct (well_formed_prefix _ _ Hwf) as (Ho & Ha & Hr).
    apply (climbs_from _ 7); [lia|cbn [rank]; lia|cbn [rank]; lia|].
    apply climbs_prefix; [exact Ho|]. apply (IH Ha); lia.
  - destruct (well_formed_infix _ _ _ Hwf)
      as (k & Hb & Hrk & Hl & Hr & Hkl & Hkr).
    destruct (binary_level_range _ _ Hb) as [Hk _].
    apply (climbs_from _ k); [lia|rewrite Hrk; lia|rewrite Hrk; lia|].
    apply climbs_infix; [exact Hb| |].
    + apply (IHl Hl); lia.
    + apply (IHr Hr); lia.
  - destruct (well_formed_ternary _ _ _ _ _ Hwf)
      as (Hq & Hc & Ht & Hr & Hco & Ha).
    split; [cbn [rank]; lia|]. split; [cbn [rank]; lia|].
    apply climbs_ternary; [exact Hq|exact Hc| | |].
    + apply (IHt Ht); lia.
    + apply (IHc Hco).
    + apply (IHa Ha).
Qed.

(** On the tokens of an expression of the grammar, followed by a token
    that carries no expression on, [parseExpression] returns the node of
    the expression, having consumed its tokens and recorded no error. *)
Lemma parseExpression_climbs t i nxt rest errs fuel :
  well_formed t = true ->
  skipn i tokens = yield t ++ nxt :: rest ->
  continues (type nxt) = None ->
  need t + 17 <= fuel ->
  parseExpression tokens fuel (Parser.mkState i errs)
  = Some (ast_of t, Parser.mkState (i + List.length (yield t)) errs).
Proof.
  intros Hwf Hw Hc Hf. destruct fuel as [|F]; [lia|].
  rewrite parseExpression_step.
  apply (proj2 (proj2 (climbs_all t Hwf)) i nxt rest errs Hw Hc). lia.
Qed.

End Climbing.

Section PrecedenceClaims.
Import Lexer AST Parser Grammar.

(** The tokens of an expression of the grammar determine its tree: two
    expressions that need no further parentheses and are written with
    the same tokens stand for the same node. *)
Lemma grammar_unambiguous (t1 t2 : Syntax) :
  well_formed t1 = true -> well_formed t2 = true ->
  yield t1 = yield t2 -> ast_of t1 = ast_of t2.
Proof.
  intros H1 H2 Hy.
  pose (stop := mkToken EOF EmptyString 0 0).
  pose proof (parseExpression_climbs (yield t1 ++ [stop]) t1 0 stop [] []
                (need t1 + need t2 + 17) H1 eq_refl eq_refl) as E1.
  pose proof (parseExpression_climbs (yield t1 ++ [stop]) t2 0 stop [] []
                (need t1 + need t2 + 17) H2) as E2.
  rewrite <- Hy in E2. specialize (E2 eq_refl eq_refl).
  rewrite E1 in E2 by lia. specialize (E2 ltac:(lia)).
  inversion E2. reflexivity.
Qed.

(** C5.  The parser implements the fixed precedence and associativity.
    In general: for every expression [t] written with atoms, parentheses,
    member access, prefix operators, binary operators and conditionals
    that respects the levels of the grammar (binary operators to the
    left, the conditional to the right), wherever its tokens stand in a
    token list, followed by a token that carries no expression on,
    [parseExpression] returns the node of [t] and stops behind its last
    token without an error, for every budget from [need t + 17] on; and
    the tokens determine the node.
    In particular the tokens of [1 + 2 * 3] parse to
    BINARY(+, 1, BINARY( *, 2, 3)), those of [1 - 2 - 3] to
    BINARY(-, BINARY(-, 1, 2), 3), and those of [a ? b : c ? d : e] to a
    conditional whose alternate is the second conditional. *)
Theorem C5_precedence_and_associativity :
  (forall (tokens : list Token) (t : Syntax) (i : nat) (nxt : Token)
          (rest : list Token) (errs : list ParserError) (fuel : nat),
     well_formed t = true ->
     skipn i tokens = yield t ++ nxt :: rest ->
     continues (type nxt) = None ->
     need t + 17 <= fuel ->
     parseExpression tokens fuel (Parser.mkState i errs)
     = Some (ast_of t, Parser.mkState (i + List.length (yield t)) errs))
  /\ (forall t1 t2 : Syntax,
        well_formed t1 = true -> well_formed t2 = true ->
        yield t1 = yield t2 -> ast_of t1 = ast_of t2)
  /\ Src.parse_expression 20 "1 + 2 * 3" =
       Some (BinaryExpression "+" (Src.num "1" 1 1)
               (BinaryExpression "*" (Src.num "2" 1 5) (Src.num "3" 1 9) 1 7)
               1 3,
             Parser.mkState 5 [])
  /\ Src.parse_expression 20 "1 - 2 - 3" =
       Some (BinaryExpression "-"
               (BinaryExpression "-" (Src.num "1" 1 1) (Src.num "2" 1 5) 1 3)
               (Src.num "3" 1 9) 1 7,
             Parser.mkState 5 [])
  /\ Src.parse_expression 20 "a ? b : c ? d : e" =
       Some (ConditionalExpression (Identifier "a" 1 1) (Identifier "b" 1 5)
               (ConditionalExpression (Identifier "c" 1 9)
                  (Identifier "d" 1 13) (Identifier "e" 1 17) 1 11) 1 3,
             Parser.mkState 9 []).
Proof.
  split; [|split; [|repeat split; vm_compute; reflexivity]].
  - intros tokens t i nxt rest errs fuel Hwf Hw Hc Hf.
    exact (parseExpression_climbs tokens t i nxt rest errs fuel Hwf Hw Hc Hf).
  - exact grammar_unambiguous.
Qed.

(** An expression with an operator of every level. *)
Definition mixed_source : string :=
  "a || !b == c - d - e * (f + g).h[0] ? x : y ? z : w".

Definition tokens_mixed : list Token :=
  Eval vm_compute in
    match Src.parser_tokens mixed_source with
    | Some ts => ts
    | None => []
    end.

Definition mixed_token (k : nat) : Token :=
  nth k tokens_mixed (mkToken EOF EmptyString 0 0).

(** [a || ((!b) == ((c - d) - (e * ((f + g).h)[0])))], then the two
    conditionals, the second in the alternate of the first. *)
Definition mixed_syntax : Syntax :=
  Ternary
    (Infix (mixed_token 1) (Atom (mixed_token 0))
       (Infix (mixed_token 4)
          (Prefix (mixed_token 2) (Atom (mixed_token 3)))
          (Infix (mixed_token 8)
             (Infix (mixed_token 6) (Atom (mixed_token 5))
                (Atom (mixed_token 7)))
             (Infix (mixed_token 10) (Atom (mixed_token 9))
                (Index
                   (Select
                      (Group (mixed_token 11)
                         (Infix (mixed_token 13) (Atom (mixed_token 12))
                            (Atom (mixed_token 14)))
                         (mixed_token 15))
                      (mixed_token 16) (mixed_token 17))
                   (mixed_token 18) (Atom (mixed_token 19))
                   (mixed_token 20))))))
    (mixed_token 21) (Atom (mixed_token 22)) (mixed_token 23)
    (Ternary (Atom (mixed_token 24)) (mixed_token 25)
       (Atom (mixed_token 26)) (mixed_token 27) (Atom (mixed_token 28))).

Definition mixed_node : Expression :=
  Eval vm_compute in ast_of mixed_syntax.

Lemma C5_witness :
  well_formed mixed_syntax = true
  /\ skipn 0 tokens_mixed = yield mixed_syntax ++ [mixed_token 29]
  /\ parseExpression tokens_mixed (need mixed_syntax + 17)
       (Parser.mkState 0 [])
     = Some (mixed_node, Parser.mkState 29 []).
Proof.
  split; [reflexivity|]. split; [reflexivity|].
  exact (proj1 C5_precedence_and_associativity tokens_mixed mixed_syntax 0
           (mixed_token 29) [] [] (need mixed_syntax + 17)
           eq_refl eq_refl eq_refl (le_n _)).
Defined.

End PrecedenceClaims.

(** ** Style blocks on which the rule loop ends *)

Module StyleBlock.
Import Lexer.

(** The tokens after [style :] up to the end of the block, for a block
    made of rules [.name :] with properties [name : "text"] or
    [name : number].  [in_rule] says that a selector has been read, so
    that a property may follow.  The block ends at the next [component],
    [space] or [style] keyword or at the end of the input. *)
Fixpoint rules_ok (in_rule : bool) (ts : list Token) : bool :=
  match ts with
  | [] => false
  | t :: ts1 =>
      match type t with
      | COMPONENT | SPACE | STYLE | EOF => true
      | DOT =>
          match ts1 with
          | name :: colon :: ts2 =>
              TokenType_eqb (type name) IDENTIFIER
              && TokenType_eqb (type colon) COLON
              && rules_ok true ts2
          | _ => false
          end
      | IDENTIFIER =>
          in_rule
          && match ts1 with
             | colon :: v :: ts2 =>
                 TokenType_eqb (type colon) COLON
                 && (TokenType_eqb (type v) STRING
                     || TokenType_eqb (type v) NUMBER)
                 && rules_ok true ts2
             | _ => false
             end
      | _ => false
      end
  end.

(** The tokens after a [style] keyword: the colon, then the rules. *)
Definition block_ok (ts : list Token) : bool :=
  match ts with
  | colon :: ts1 => TokenType_eqb (type colon) COLON && rules_ok false ts1
  | [] => false
  end.

(** Every [style] keyword of the list opens such a block. *)
Fixpoint styles_ok (ts : list Token) : bool :=
  match ts with
  | [] => true
  | t :: ts1 =>
      (if TokenType_eqb (type t) STYLE then block_ok ts1 else true)
      && styles_ok ts1
  end.

End StyleBlock.

Section StyleBlockFacts.
Import Lexer AST Parser ParserFacts StyleBlock.
Local Open Scope parser_scope.

Variable tokens : list Token.

Local Arguments match_ : simpl never.

Lemma bind_isAtEnd {A} (k : bool -> M A) s :
  bind (isAtEnd tokens) k s = k (isAtEnd_at tokens s) s.
Proof. reflexivity. Qed.

Lemma bind_check {A} t (k : bool -> M A) s :
  bind (check tokens t) k s = k (check_at tokens t s) s.
Proof. reflexivity. Qed.

Lemma isAtEnd_at_miss i errs :
  type (token_at tokens i) <> EOF ->
  isAtEnd_at tokens (Parser.mkState i errs) = false.
Proof.
  intros H. unfold isAtEnd_at, peek_at. simpl. unfold TokenType_eqb.
  destruct (TokenType_eq_dec (type (token_at tokens i)) EOF);
    [contradiction|reflexivity].
Qed.

Lemma advance_hit i errs :
  type (token_at tokens i) <> EOF ->
  advance tokens (Parser.mkState i errs)
  = Some (token_at tokens i, Parser.mkState (S i) errs).
Proof.
  intros H. unfold advance. rewrite (isAtEnd_at_miss i errs H).
  unfold previous_at. simpl. rewrite Nat.sub_0_r. reflexivity.
Qed.

Lemma skipn_cons_length i t ts :
  skipn i tokens = t :: ts ->
  List.length (skipn (S i) tokens) = List.length ts
  /\ i < List.length tokens.
Proof.
  intros H. rewrite (skipn_next _ _ _ _ H). split; [reflexivity|].
  assert (Hl : List.length (skipn i tokens) = S (List.length ts))
    by (rewrite H; reflexivity).
  rewrite length_skipn in Hl. lia.
Qed.

(** The property loop of [parseStyle] on the properties of a rule: it
    returns at the next selector or at the end of the block, with no
    error. *)
Lemma properties_return fuel : forall i errs props,
  rules_ok true (skipn i tokens) = true ->
  List.length (skipn i tokens) + 1 <= fuel ->
  exists props' j,
    parseStyleProperties tokens fuel props (Parser.mkState i errs)
    = Some (props', Parser.mkState j errs)
    /\ i <= j /\ rules_ok false (skipn j tokens) = true.
Proof.
  induction fuel as [|f IH]; intros i errs props Hok Hf; [lia|].
  destruct (skipn i tokens) as [|t ts1] eqn:E; [discriminate|].
  pose proof (token_at_skipn tokens _ _ _ E) as Htok.
  cbn [parseStyleProperties]. rewrite bind_isAtEnd, bind_check.
  cbn [rules_ok] in Hok.
  destruct (type t) eqn:Et; try discriminate Hok;
    try (rewrite (check_at_miss tokens IDENTIFIER i errs)
           by (rewrite Htok, Et; discriminate);
         rewrite andb_false_r; exists props, i;
         split; [reflexivity|]; split; [lia|];
         rewrite E; cbn [rules_ok]; rewrite Et; exact Hok).
  (* an identifier: one property *)
  destruct ts1 as [|colon [|v ts2]]; try discriminate Hok.
  cbn [andb] in Hok.
  apply andb_prop in Hok. destruct Hok as [Hok Hrest].
  apply andb_prop in Hok. destruct Hok as [Hcolon Hvalue].
  apply TokenType_eqb_eq in Hcolon.
  pose proof (skipn_next _ _ _ _ E) as E1.
  pose proof (skipn_next _ _ _ _ E1) as E2.
  pose proof (skipn_next _ _ _ _ E2) as E3.
  pose proof (token_at_skipn tokens _ _ _ E1) as Hc.
  pose proof (token_at_skipn tokens _ _ _ E2) as Hv.
  rewrite (check_at_hit tokens IDENTIFIER i errs)
    by (first [discriminate | rewrite Htok; exact Et]).
  rewrite (isAtEnd_at_miss i errs) by (rewrite Htok, Et; discriminate).
  cbn [negb andb].
  unfold bind at 1. rewrite advance_hit by (rewrite Htok, Et; discriminate).
  unfold bind at 1.
  rewrite (consume_hit tokens COLON)
    by (first [discriminate | rewrite Hc; exact Hcolon]).
  rewrite bind_check.
  destruct (IH (S (S (S i))) errs
              (record_set (value (token_at tokens i))
                 (StyleText (value (token_at tokens (S (S i))))) props))
    as (props' & j & Hp & Hle & Hj).
  { rewrite E3. exact Hrest. }
  { rewrite E3. simpl in Hf. lia. }
  exists props', j.
  apply orb_prop in Hvalue. destruct Hvalue as [Hs|Hn].
  - apply TokenType_eqb_eq in Hs.
    rewrite (check_at_hit tokens STRING)
      by (first [discriminate | rewrite Hv; exact Hs]).
    unfold bind at 1. unfold bind at 1.
    rewrite advance_hit by (rewrite Hv, Hs; discriminate).
    unfold ret. rewrite Hp. split; [reflexivity|]. split; [lia|exact Hj].
  - apply TokenType_eqb_eq in Hn.
    rewrite (check_at_miss tokens STRING)
      by (rewrite Hv, Hn; discriminate).
    unfold bind at 1. rewrite bind_check.
    rewrite (check_at_hit tokens NUMBER)
      by (first [discriminate | rewrite Hv; exact Hn]).
    unfold bind at 1.
    rewrite advance_hit by (rewrite Hv, Hn; discriminate).
    unfold ret. rewrite Hp. split; [reflexivity|]. split; [lia|exact Hj].
Qed.


(** The rule loop of [parseStyle] on the rules of such a block returns,
    with no error. *)
Lemma rules_return fuel : forall i errs rules,
  rules_ok false (skipn i tokens) = true ->
  List.length (skipn i tokens) + 1 <= fuel ->
  exists rules' j,
    parseStyleRules tokens fuel rules (Parser.mkState i errs)
    = Some (rules', Parser.mkState j errs)
    /\ i <= j.
Proof.
  induction fuel as [|f IH]; intros i errs rules Hok Hf; [lia|].
  destruct (skipn i tokens) as [|t ts1] eqn:E; [discriminate|].
  pose proof (token_at_skipn tokens _ _ _ E) as Htok.
  cbn [parseStyleRules]. rewrite bind_isAtEnd, !bind_check.
  cbn [rules_ok] in Hok.
  destruct (type t) eqn:Et; try discriminate Hok.
  - (* component *)
    rewrite (check_at_hit tokens COMPONENT i errs)
      by (first [discriminate | rewrite Htok; exact Et]).
    cbn [negb andb]. rewrite andb_false_r. cbn [andb].
    exists rules, i. split; [reflexivity|lia].
  - (* space *)
    rewrite (check_at_hit tokens SPACE i errs)
      by (first [discriminate | rewrite Htok; exact Et]).
    cbn [negb andb]. rewrite andb_false_r. cbn [andb].
    exists rules, i. split; [reflexivity|lia].
  - (* style *)
    rewrite (check_at_hit tokens STYLE i errs)
      by (first [discriminate | rewrite Htok; exact Et]).
    cbn [negb andb]. rewrite andb_false_r.
    exists rules, i. split; [reflexivity|lia].
  - (* a selector *)
    destruct ts1 as [|name [|colon ts2]]; try discriminate Hok.
    apply andb_prop in Hok. destruct Hok as [Hok Hrest].
    apply andb_prop in Hok. destruct Hok as [Hname Hcolon].
    apply TokenType_eqb_eq in Hname. apply TokenType_eqb_eq in Hcolon.
    pose proof (skipn_next _ _ _ _ E) as E1.
    pose proof (skipn_next _ _ _ _ E1) as E2.
    pose proof (skipn_next _ _ _ _ E2) as E3.
    pose proof (token_at_skipn tokens _ _ _ E1) as Hn.
    pose proof (token_at_skipn tokens _ _ _ E2) as Hc.
    rewrite (isAtEnd_at_miss i errs) by (rewrite Htok, Et; discriminate).
    rewrite !(check_at_miss tokens _ i errs)
      by (rewrite Htok, Et; discriminate).
    cbn [negb andb].
    unfold bind at 1.
    rewrite (consume_hit tokens DOT)
      by (first [discriminate | rewrite Htok; exact Et]).
    unfold bind at 1.
    rewrite (consume_hit tokens IDENTIFIER)
      by (first [discriminate | rewrite Hn; exact Hname]).
    unfold bind at 1.
    rewrite (consume_hit tokens COLON)
      by (first [discriminate | rewrite Hc; exact Hcolon]).
    unfold bind at 1.
    destruct (properties_return f (S (S (S i))) errs [])
      as (props & j & Hp & Hle & Hj).
    { rewrite E3. exact Hrest. }
    { rewrite E3. simpl in Hf. lia. }
    rewrite Hp.
    destruct (IH j errs
                (rules ++ [mkStyleRule
                             ("." ++ value (token_at tokens (S i)))%string
                             props]) Hj)
      as (rules' & j' & Hr & Hle').
    { assert (Hlen : List.length (skipn j tokens)
                     <= List.length (skipn (S (S (S i))) tokens))
        by (rewrite !length_skipn; lia).
      rewrite E3 in Hlen. simpl in Hf. lia. }
    exists rules', j'. split; [exact Hr|lia].
  - (* the end of the input *)
    assert (He : isAtEnd_at tokens (Parser.mkState i errs) = true).
    { unfold isAtEnd_at, peek_at. simpl. rewrite Htok, Et. reflexivity. }
    rewrite He. cbn [negb andb].
    exists rules, i. split; [reflexivity|lia].
Qed.

(** [parseStyle] returns on a [style] keyword that opens such a
    block. *)
Lemma parseStyle_returns fuel s :
  check_at tokens STYLE s = true ->
  block_ok (skipn (S (current s)) tokens) = true ->
  remaining tokens s + 1 <= fuel ->
  returns (parseStyle tokens fuel) s.
Proof.
  intros Hc Hb Hf. destruct s as [i errs]. cbn [current] in Hb.
  destruct (check_at_true _ _ _ Hc) as [He Ht].
  unfold peek_at in Ht. simpl in Ht.
  pose proof (not_at_end_lt tokens _ He) as Hlt. simpl in Hlt.
  destruct (skipn (S i) tokens) as [|colon ts1] eqn:E; [discriminate|].
  cbn [block_ok] in Hb. apply andb_prop in Hb. destruct Hb as [Hcolon Hr].
  apply TokenType_eqb_eq in Hcolon.
  pose proof (token_at_skipn tokens _ _ _ E) as Htok.
  pose proof (skipn_next _ _ _ _ E) as E1.
  destruct (rules_return fuel (S (S i)) errs []) as (rules & j & Hp & Hle).
  { rewrite E1. exact Hr. }
  { rewrite length_skipn. unfold remaining in Hf. simpl in Hf. lia. }
  unfold parseStyle, returns.
  unfold bind at 1.
  rewrite (match_hit tokens [STYLE] i errs)
    by (rewrite Ht; first [discriminate | simpl; auto]).
  unfold bind at 1. rewrite previous_after.
  unfold bind at 1.
  rewrite (consume_hit tokens COLON)
    by (first [discriminate | rewrite Htok; exact Hcolon]).
  unfold bind at 1. rewrite Hp.
  eexists. eexists. split; [reflexivity|]. simpl. lia.
Qed.

(** Index by index, what [styles_ok] says. *)
Lemma styles_ok_at : forall (ts : list Token) i,
  styles_ok ts = true -> i < List.length ts ->
  type (nth i ts undefinedToken) = STYLE ->
  block_ok (skipn (S i) ts) = true.
Proof.
  induction ts as [|t ts IH]; intros i H Hlt Hty; [simpl in Hlt; lia|].
  cbn [styles_ok] in H. apply andb_prop in H. destruct H as [Hb Hs].
  destruct i as [|i].
  - simpl in Hty. rewrite Hty in Hb. exact Hb.
  - simpl in Hlt. apply IH; [exact Hs|lia|exact Hty].
Qed.

End StyleBlockFacts.

(** ** The parser returns where the style blocks do *)

Section StyledTermination.
Import Lexer AST Parser ParserFacts StyleBlock.
Local Open Scope parser_scope.

Variable tokens : list Token.

Hypothesis blocks : styles_ok tokens = true.

Local Arguments match_ : simpl never.

Lemma parseStyle_returns_here fuel s :
  check_at tokens STYLE s = true ->
  20 * remaining tokens s + 2 <= fuel ->
  returns (parseStyle tokens fuel) s.
Proof.
  intros Hc Hf. apply parseStyle_returns; [exact Hc| |lia].
  destruct (check_at_true _ _ _ Hc) as [He Ht].
  apply (styles_ok_at tokens (current s) blocks).
  - exact (not_at_end_lt tokens _ He).
  - exact Ht.
Qed.


(** What is known where the parser is not at the end. *)
Ltac position_facts :=
  repeat match goal with
  | H : isAtEnd_at _ ?s = false, H2 : isAtEnd_at _ ?s = false -> _ |- _ =>
      specialize (H2 H)
  | H : check_at _ ?t ?s = true |- _ =>
      lazymatch goal with
      | _ : isAtEnd_at _ s = false |- _ => fail
      | _ => pose proof (proj1 (check_at_true _ _ _ H))
      end
  | H : isAttributeName (peek_at _ ?s) && _ = true |- _ =>
      lazymatch goal with
      | _ : isAtEnd_at _ s = false |- _ => fail
      | _ => pose proof (attribute_name_not_end _ _ _ H)
      end
  | H : isAtEnd_at _ ?s = false |- _ =>
      lazymatch goal with
      | _ : current s < List.length _ |- _ => fail
      | _ => pose proof (not_at_end_lt _ s H)
      end
  | Hc : check_at _ IDENTIFIER ?s = true,
    E : parseElement _ _ ?s = Some (_, ?s1) |- _ =>
      lazymatch goal with
      | _ : S (current s) <= current s1 |- _ => fail
      | _ => pose proof (parseElement_progress _ _ _ _ _ Hc E)
      end
  | Hc : check_at _ COMPONENT ?s = true,
    E : parseComponent _ _ ?s = Some (_, ?s1) |- _ =>
      lazymatch goal with
      | _ : S (current s) <= current s1 |- _ => fail
      | _ => pose proof (parseComponent_progress _ _ _ _ _ Hc E)
      end
  | Hc : check_at _ SPACE ?s = true,
    E : parseSpace _ _ ?s = Some (_, ?s1) |- _ =>
      lazymatch goal with
      | _ : S (current s) <= current s1 |- _ => fail
      | _ => pose proof (parseSpace_progress _ _ _ _ _ Hc E)
      end
  | Hc : check_at _ STYLE ?s = true,
    E : parseStyle _ _ ?s = Some (_, ?s1) |- _ =>
      lazymatch goal with
      | _ : S (current s) <= current s1 |- _ => fail
      | _ => pose proof (parseStyle_progress _ _ _ _ _ Hc E)
      end
  end.

Ltac within_budget :=
  position_facts;
  match goal with
  | H : context [returns] |- returns _ _ =>
      apply H; first [assumption | unfold remaining in *; lia]
  end.

Ltac returns_auto :=
  lazymatch goal with
  | |- returns (ret _) _ => apply returns_ret
  | |- returns (bind (peek _) _) _ =>
      apply returns_peek; cbv beta; returns_auto
  | |- returns (bind (previous _) _) _ =>
      apply returns_previous; cbv beta; returns_auto
  | |- returns (bind (isAtEnd _) _) _ =>
      apply returns_isAtEnd; cbv beta; returns_auto
  | |- returns (bind (check _ _) _) _ =>
      apply returns_check; cbv beta; returns_auto
  | |- returns (bind (checkNext _ _) _) _ =>
      apply returns_checkNext; intros ?; returns_auto
  | |- returns (bind (error _ _) _) _ =>
      apply returns_error; intros ? ?; returns_auto
  | |- returns (bind (advance _) _) _ =>
      apply returns_advance; intros ? ? ? ?; returns_auto
  | |- returns (bind (consume _ _ _) _) _ =>
      apply returns_consume; intros ? ? ?; returns_auto
  | |- returns (bind (match_ _ _) _) _ =>
      apply returns_match; [intros ? ? ?|]; returns_auto
  | |- returns (bind _ _) _ =>
      apply returns_bind; [|intros ? ? ? ?]; returns_auto
  | |- returns (if ?b then _ else _) _ =>
      lazymatch b with
      | context [isAtEnd_at ?t ?s] =>
          destruct (isAtEnd_at t s) eqn:?; cbn [negb andb]; returns_auto
      | context [check_at ?t ?ty ?s] =>
          destruct (check_at t ty s) eqn:?; cbn [negb andb]; returns_auto
      | _ => destruct b eqn:?; returns_auto
      end
  | |- returns (parseStringValue _) _ => unfold parseStringValue; returns_auto
  | |- returns (match ?p with mkParts _ _ _ _ _ _ _ _ => _ end) _ =>
      destruct p; returns_auto
  | |- returns _ _ => within_budget
  end.

Lemma returns_parseComponentBody_styled fuel : forall p s,
  20 * remaining tokens s + 3 <= fuel ->
  returns (parseComponentBody tokens fuel p) s.
Proof.
  pose proof (returns_parseState tokens) as H1.
  pose proof (returns_parseComputed tokens) as H2.
  pose proof (returns_parseEffect tokens) as H3.
  pose proof (returns_parseEventHandler tokens) as H4.
  pose proof (returns_parseAnimation tokens) as H5.
  pose proof (returns_parseElement tokens) as H6.
  pose proof parseStyle_returns_here as H7.
  induction fuel as [|f IH]; intros p s H; [lia|]. simpl. returns_auto.
Qed.

Lemma returns_parseComponent_styled fuel s :
  20 * remaining tokens s + 3 <= fuel ->
  returns (parseComponent tokens fuel) s.
Proof.
  intros H. pose proof (returns_parseComponentBody_styled fuel) as Hb.
  unfold parseComponent. returns_auto.
Qed.

Lemma returns_parse_loop_styled fuel : forall c sp st s,
  20 * remaining tokens s + 4 <= fuel ->
  returns (parse_loop tokens fuel c sp st) s.
Proof.
  pose proof returns_parseComponent_styled as H1.
  pose proof (returns_parseSpace tokens) as H2.
  pose proof (returns_synchronize tokens) as H3.
  pose proof parseStyle_returns_here as H4.
  induction fuel as [|f IH]; intros c sp st s H; [lia|]. simpl.
  apply returns_isAtEnd. cbv beta.
  destruct (isAtEnd_at tokens s) eqn:He; [apply returns_ret|].
  apply returns_check. cbv beta.
  destruct (check_at tokens COMPONENT s) eqn:Ec; [returns_auto|].
  apply returns_check. cbv beta.
  destruct (check_at tokens SPACE s) eqn:Es; [returns_auto|].
  apply returns_check. cbv beta.
  destruct (check_at tokens STYLE s) eqn:Est; [returns_auto|].
  apply returns_error. intros s1 Hs1.
  pose proof (isAtEnd_at_current tokens _ _ Hs1) as He1. rewrite He in He1.
  apply returns_bind; [within_budget|].
  intros a s2 E Hle. apply synchronize_progress in E; [|exact He1].
  within_budget.
Qed.

(** On a token list whose [style] keywords open blocks of rules the
    parser returns, within a budget linear in the number of tokens. *)
Lemma run_parse_returns_styled fuel :
  20 * List.length tokens + 4 <= fuel ->
  exists ast errs, run_parse tokens fuel = Some (ast, errs).
Proof.
  intros H. unfold run_parse.
  destruct (returns_parse_loop_styled fuel [] [] [] (Parser.mkState 0 []))
    as ([[c sp] st] & s1 & E & _).
  { unfold remaining. simpl. lia. }
  rewrite E. eexists. eexists. reflexivity.
Qed.

End StyledTermination.

Section StyledParse.
Import Lexer StyleBlock.

Lemma styles_ok_no_style ts :
  (forall t, In t ts -> type t <> STYLE) -> styles_ok ts = true.
Proof.
  induction ts as [|t ts IH]; intros H; [reflexivity|].
  cbn [styles_ok]. rewrite IH by (intros x Hx; apply H; right; exact Hx).
  unfold TokenType_eqb.
  destruct (TokenType_eq_dec (type t) STYLE) as [E|E]; [|reflexivity].
  exfalso. apply (H t); [left; reflexivity|exact E].
Qed.

(** [parse] returns on the tokens of a source whose [style] keywords
    open blocks of rules (as the parser sees them, without the
    structural tokens). *)
Lemma parse_returns_styled toks fuel :
  styles_ok (Parser.filter_tokens toks) = true ->
  20 * List.length toks + 4 <= fuel ->
  exists ast errs, Parser.parse fuel toks = Some (ast, errs).
Proof.
  intros Hs Hf. unfold Parser.parse.
  apply (run_parse_returns_styled _ Hs).
  pose proof (filter_length_le (fun t => negb (Parser.structural t)) toks).
  unfold Parser.filter_tokens. lia.
Qed.

End StyledParse.

Section NoComponentClaims.
Import Lexer AST Compiler StyleBlock.

Local Arguments Semantic.analyze : simpl never.
Local Arguments Parser.parse : simpl never.

(** What [compile] returns when the lexer reports errors: the parser is
    not run. *)
Lemma compile_after_lexer_errors generate generateExplanation fuel src
    options toks e lexErrs :
  tokenize src = Some (toks, e :: lexErrs) ->
  compile generate generateExplanation fuel src options
  = Some (mkResult EmptyString (map of_lexer_error (e :: lexErrs))
            [] None None).
Proof. intros Ht. unfold compile. rewrite Ht. reflexivity. Qed.

Lemma compile_without_program generate generateExplanation fuel src options
    toks pErrs :
  tokenize src = Some (toks, []) ->
  Parser.parse fuel toks = Some (None, pErrs) ->
  compile generate generateExplanation fuel src options
  = Some (mkResult EmptyString (map of_parser_error pErrs) [] None None).
Proof.
  intros Ht Hp. unfold compile. rewrite Ht. simpl. rewrite Hp. reflexivity.
Qed.

(** The components [parse] collects are as many as the [component]
    keywords of the source. *)
Lemma parse_collects src toks lexErrs fuel ast errs :
  tokenize src = Some (toks, lexErrs) ->
  Parser.parse fuel toks = Some (ast, errs) ->
  exists c sp st s,
    Parser.parse_loop (Parser.filter_tokens toks) fuel [] [] []
      (Parser.mkState 0 []) = Some ((c, sp, st), s)
    /\ errs = Parser.errors s
    /\ List.length c = count_type COMPONENT toks
    /\ (c = [] -> ast = None)
    /\ (c <> [] -> ast = Some (mkProgram c sp st)).
Proof.
  intros Ht H. unfold Parser.parse, Parser.run_parse in H.
  destruct (Parser.parse_loop _ _ _ _ _ _) as [[[[c sp] st] s]|] eqn:E;
    [|discriminate].
  exists c, sp, st, s. split; [reflexivity|].
  inversion H; subst. split; [reflexivity|]. split.
  - destruct (parse_loop_components _ _ _ _ _ _ _ _ _ _ E) as [Hc He].
    rewrite (at_end_no_components _ s (tokenize_EOF_last _ _ _ Ht) He) in Hc.
    simpl in Hc. unfold components_from in Hc. simpl in Hc.
    rewrite count_type_filter_tokens in Hc by reflexivity. lia.
  - destruct c; split; congruence.
Qed.


Definition spaces_and_styles : string :=
  Src.lines [ "style:";
              "  .btn:";
              ("    color: " ++ Src.quoted "red")%string;
              "    margin: 4";
              "  .card:";
              "space Store:";
              "  state count = 0";
              "space Theme:";
              "  state dark = false" ].

Definition tokens_spaces_and_styles : list Token :=
  Eval vm_compute in
    match tokenize spaces_and_styles with
    | Some (ts, _) => ts
    | None => []
    end.

Lemma no_component_spaces_and_styles : no_component tokens_spaces_and_styles.
Proof.
  intros t Ht. unfold tokens_spaces_and_styles in Ht. simpl in Ht.
  repeat (destruct Ht as [Ht|Ht]; [subst t; discriminate|]).
  contradiction.
Qed.


End NoComponentClaims.

Section Diagnostics.
Import Lexer AST Parser.
Local Open Scope parser_scope.

Variable tokens : list Token.

(** [m] takes no diagnostic back: it only appends to the errors. *)
Definition adds {A : Type} (m : M A) : Prop :=
  forall s a s', m s = Some (a, s') ->
    List.length (errors s) <= List.length (errors s').

Lemma adds_ret {A} (a : A) : adds (ret a).
Proof. intros s a' s' H. inversion H. subst. lia. Qed.

Lemma adds_out_of_fuel {A} : adds (@out_of_fuel A).
Proof. intros s a s' H. discriminate. Qed.

Lemma adds_bind {A B} (m : M A) (k : A -> M B) :
  adds m -> (forall a, adds (k a)) -> adds (bind m k).
Proof.
  intros Hm Hk s b s' H. unfold bind in H.
  destruct (m s) as [[a s1]|] eqn:E; [|discriminate].
  apply Hm in E. apply Hk in H. lia.
Qed.

Lemma adds_peek : adds (peek tokens).
Proof. intros s a s' H. inversion H. subst. lia. Qed.
Lemma adds_previous : adds (previous tokens).
Proof. intros s a s' H. inversion H. subst. lia. Qed.
Lemma adds_isAtEnd : adds (isAtEnd tokens).
Proof. intros s a s' H. inversion H. subst. lia. Qed.
Lemma adds_check t : adds (check tokens t).
Proof. intros s a s' H. inversion H. subst. lia. Qed.
Lemma adds_checkNext t : adds (checkNext tokens t).
Proof. intros s a s' H. inversion H. subst. lia. Qed.
Lemma adds_advance : adds (advance tokens).
Proof.
  intros s a s' H. unfold advance in H. inversion H. subst.
  destruct (isAtEnd_at tokens s); simpl; lia.
Qed.
Lemma adds_error msg : adds (error tokens msg).
Proof.
  intros s a s' H. inversion H. subst. simpl. rewrite length_app. simpl. lia.
Qed.

Create HintDb adds.
#[local] Hint Resolve adds_ret adds_out_of_fuel adds_peek adds_previous
  adds_isAtEnd adds_check adds_checkNext adds_advance adds_error : adds.

Ltac adds_auto :=
  repeat first
    [ assumption
    | solve [auto 1 with adds]
    | apply adds_bind; [| intros ?]
    | match goal with
      | |- adds (if ?b then _ else _) => destruct b
      | |- adds (match ?x with _ => _ end) => destruct x
      end ].

Lemma adds_match_ types : adds (match_ tokens types).
Proof. induction types; simpl; adds_auto. Qed.
#[local] Hint Resolve adds_match_ : adds.

Lemma adds_consume t msg : adds (consume tokens t msg).
Proof. unfold consume. adds_auto. Qed.
#[local] Hint Resolve adds_consume : adds.

Lemma adds_binaryLevel ops operand loop left :
  adds operand -> (forall e, adds (loop e)) ->
  adds (binaryLevel tokens ops operand loop left).
Proof. intros. unfold binaryLevel. adds_auto. Qed.

Lemma adds_expressions (fuel : nat) :
  adds (parseExpression tokens fuel) /\
  adds (parseTernary tokens fuel) /\
  adds (parseLogicalOr tokens fuel) /\
  (forall l, adds (parseLogicalOr_loop tokens fuel l)) /\
  adds (parseLogicalAnd tokens fuel) /\
  (forall l, adds (parseLogicalAnd_loop tokens fuel l)) /\
  adds (parseEquality tokens fuel) /\
  (forall l, adds (parseEquality_loop tokens fuel l)) /\
  adds (parseComparison tokens fuel) /\
  (forall l, adds (parseComparison_loop tokens fuel l)) /\
  adds (parseAdditive tokens fuel) /\
  (forall l, adds (parseAdditive_loop tokens fuel l)) /\
  adds (parseMultiplicative tokens fuel) /\
  (forall l, adds (parseMultiplicative_loop tokens fuel l)) /\
  adds (parseUnary tokens fuel) /\
  adds (parsePostfix tokens fuel) /\
  (forall e, adds (parsePostfix_loop tokens fuel e)) /\
  (forall acc, adds (parseExpressionList tokens fuel acc)) /\
  adds (parsePrimary tokens fuel).
Proof.
  induction fuel as [|f IH].
  - repeat split; intros; apply adds_out_of_fuel.
  - destruct IH as (H1 & H2 & H3 & H4 & H5 & H6 & H7 & H8 & H9 & H10 & H11
                    & H12 & H13 & H14 & H15 & H16 & H17 & H18 & H19).
    repeat split; intros; simpl;
      repeat first [ apply adds_binaryLevel | adds_auto ].
Qed.

Lemma adds_parseExpression fuel : adds (parseExpression tokens fuel).
Proof. apply adds_expressions. Qed.
#[local] Hint Resolve adds_parseExpression : adds.

Lemma adds_parseAttributeNameParts fuel :
  forall n, adds (parseAttributeNameParts tokens fuel n).
Proof. induction fuel; intros; simpl; adds_auto. Qed.
#[local] Hint Resolve adds_parseAttributeNameParts : adds.

Lemma adds_parseAttributes fuel :
  forall a, adds (parseAttributes tokens fuel a).
Proof. induction fuel; intros; simpl; adds_auto. Qed.
#[local] Hint Resolve adds_parseAttributes : adds.

Lemma adds_parseSlot : adds (parseSlot tokens).
Proof. unfold parseSlot. adds_auto. Qed.
#[local] Hint Resolve adds_parseSlot : adds.

Lemma adds_elements (fuel : nat) :
  adds (parseElement tokens fuel) /\
  (forall c, adds (parseChildren tokens fuel c)) /\
  adds (parseConditional tokens fuel) /\
  adds (parseLoop tokens fuel).
Proof.
  induction fuel as [|f IH].
  - repeat split; intros; apply adds_out_of_fuel.
  - destruct IH as (H1 & H2 & H3 & H4).
    repeat split; intros; simpl; adds_auto.
Qed.

Lemma adds_parseElement fuel : adds (parseElement tokens fuel).
Proof. apply adds_elements. Qed.
#[local] Hint Resolve adds_parseElement : adds.

Lemma adds_parseState fuel : adds (parseState tokens fuel).
Proof. unfold parseState. adds_auto. Qed.

Lemma adds_parseComputed fuel : adds (parseComputed tokens fuel).
Proof. unfold parseComputed. adds_auto. Qed.

Lemma adds_parseNameList fuel :
  forall msg acc, adds (parseNameList tokens fuel msg acc).
Proof. induction fuel; intros; simpl; adds_auto. Qed.
#[local] Hint Resolve adds_parseNameList : adds.

Lemma adds_parseEffect fuel : adds (parseEffect tokens fuel).
Proof. unfold parseEffect. adds_auto. Qed.

Lemma adds_parseArrowFunction fuel : adds (parseArrowFunction tokens fuel).
Proof. unfold parseArrowFunction. adds_auto. Qed.
#[local] Hint Resolve adds_parseArrowFunction : adds.

Lemma adds_parseEventHandler fuel : adds (parseEventHandler tokens fuel).
Proof. unfold parseEventHandler. adds_auto. Qed.

Lemma adds_parseAnimationProperties fuel :
  forall p, adds (parseAnimationProperties tokens fuel p).
Proof. induction fuel; intros; simpl; adds_auto. Qed.
#[local] Hint Resolve adds_parseAnimationProperties : adds.

Lemma adds_parseAnimation fuel : adds (parseAnimation tokens fuel).
Proof. unfold parseAnimation. adds_auto. Qed.

Lemma adds_parseStringValue : adds (parseStringValue tokens).
Proof. unfold parseStringValue. adds_auto. Qed.

Lemma adds_parseStyleProperties fuel :
  forall p, adds (parseStyleProperties tokens fuel p).
Proof. induction fuel; intros; simpl; adds_auto. Qed.
#[local] Hint Resolve adds_parseStyleProperties : adds.

Lemma adds_parseStyleRules fuel :
  forall r, adds (parseStyleRules tokens fuel r).
Proof. induction fuel; intros; simpl; adds_auto. Qed.
#[local] Hint Resolve adds_parseStyleRules : adds.

Lemma adds_parseStyle fuel : adds (parseStyle tokens fuel).
Proof. unfold parseStyle. adds_auto. Qed.

#[local] Hint Resolve adds_parseState adds_parseComputed adds_parseEffect
  adds_parseEventHandler adds_parseAnimation adds_parseStringValue
  adds_parseStyle : adds.

Lemma adds_parseComponentBody fuel :
  forall p, adds (parseComponentBody tokens fuel p).
Proof. induction fuel; intros; simpl; adds_auto. Qed.

Lemma adds_parseSpaceBody fuel :
  forall p, adds (parseSpaceBody tokens fuel p).
Proof. induction fuel; intros; simpl; adds_auto. Qed.

Lemma adds_synchronize_loop fuel : adds (synchronize_loop tokens fuel).
Proof. induction fuel; simpl; adds_auto. Qed.
#[local] Hint Resolve adds_synchronize_loop : adds.

Lemma adds_synchronize fuel : adds (synchronize tokens fuel).
Proof. unfold synchronize. adds_auto. Qed.

Lemma adds_parseComponent fuel : adds (parseComponent tokens fuel).
Proof.
  pose proof adds_parseComponentBody. unfold parseComponent. adds_auto.
Qed.

Lemma adds_parseSpace fuel : adds (parseSpace tokens fuel).
Proof.
  pose proof adds_parseSpaceBody. unfold parseSpace. adds_auto.
Qed.

#[local] Hint Resolve adds_parseComponent adds_parseSpace adds_synchronize
  : adds.

Lemma adds_parse_loop fuel :
  forall c sp st, adds (parse_loop tokens fuel c sp st).
Proof. induction fuel; intros; simpl; adds_auto. Qed.

(** After the top-level loop has reported a token that begins no
    declaration, the errors are not empty. *)
Lemma reported_stays fuel msg c sp st s r s' :
  (error tokens msg ;;; synchronize tokens fuel ;;;
   parse_loop tokens fuel c sp st) s = Some (r, s') ->
  errors s' <> [].
Proof.
  intros H. unfold bind at 1 in H. unfold error at 1 in H.
  assert (Ha : adds (synchronize tokens fuel ;;;
                     parse_loop tokens fuel c sp st)).
  { pose proof adds_parse_loop. adds_auto. }
  apply Ha in H. simpl in H. rewrite length_app in H. simpl in H.
  intros E. rewrite E in H. simpl in H. lia.
Qed.

End Diagnostics.

Section Barrier.
Import Lexer AST Parser ParserFacts.
Local Open Scope parser_scope.

Variable tokens : list Token.

(** The keywords at which the loop of a declaration stops: [component]
    and [space] for a space, and [style] as well for a style block. *)
Variable with_style : bool.

Definition barrier (t : TokenType) : bool :=
  match t with
  | COMPONENT | SPACE => true
  | STYLE => with_style
  | _ => false
  end.

(** A property [P] of the cursor that holds on when a token is consumed
    that is neither the end of input nor one of those keywords. *)
Variable P : nat -> Prop.

Hypothesis P_step : forall i,
  P i -> type (token_at tokens i) <> EOF ->
  barrier (type (token_at tokens i)) = false -> P (S i).

(** The cursor is on one of those keywords. *)
Definition barred (s : State) : bool :=
  negb (isAtEnd_at tokens s) && barrier (type (peek_at tokens s)).

(** [m], started in [s], ends with the cursor in [P]. *)
Definition rests {A : Type} (m : M A) (s : State) : Prop :=
  forall a s1, m s = Some (a, s1) -> P (current s1).

Lemma advance_rests s a s1 :
  barred s = false -> P (current s) ->
  advance tokens s = Some (a, s1) -> P (current s1).
Proof.
  intros Hb Hs H. unfold advance in H. unfold barred in Hb.
  destruct (isAtEnd_at tokens s) eqn:He; inversion H; subst; [exact Hs|].
  simpl. simpl in Hb. apply P_step; [exact Hs| |exact Hb].
  unfold isAtEnd_at, TokenType_eqb in He.
  destruct (TokenType_eq_dec (type (peek_at tokens s)) EOF);
    [discriminate|assumption].
Qed.

Lemma check_not_barred t s :
  check_at tokens t s = true -> barrier t = false -> barred s = false.
Proof.
  intros H Hb. destruct (check_at_true _ _ _ H) as [He Ht].
  unfold barred. rewrite He, Ht, Hb. reflexivity.
Qed.

Lemma type_not_barred s :
  barrier (type (peek_at tokens s)) = false -> barred s = false.
Proof. intros H. unfold barred. rewrite H. apply andb_false_r. Qed.

Lemma check_false_is t s :
  check_at tokens t s = false -> isAtEnd_at tokens s = false ->
  type (peek_at tokens s) <> t.
Proof.
  unfold check_at. intros H He. rewrite He in H.
  unfold TokenType_eqb in H.
  destruct (TokenType_eq_dec (type (peek_at tokens s)) t); [discriminate|].
  assumption.
Qed.

(** Inside the loop of a space the cursor is on no such keyword. *)
Lemma guard_not_barred s :
  with_style = false ->
  isAtEnd_at tokens s = false ->
  check_at tokens COMPONENT s = false ->
  check_at tokens SPACE s = false ->
  barred s = false.
Proof.
  intros Hw He Hc Hs. apply type_not_barred.
  pose proof (check_false_is _ _ Hc He) as H1.
  pose proof (check_false_is _ _ Hs He) as H2.
  unfold barrier. rewrite Hw.
  destruct (type (peek_at tokens s)); try reflexivity; contradiction.
Qed.

Lemma rests_ret {A} (a : A) s :
  P (current s) -> rests (ret a) s.
Proof. intros H a' s1 E. inversion E as [[E1 E2]]. rewrite <- E2. exact H. Qed.

Lemma rests_bind {A B} (m : M A) (k : A -> M B) s :
  rests m s ->
  (forall a s1, P (current s1) -> rests (k a) s1) ->
  rests (bind m k) s.
Proof.
  intros Hm Hk b s2 E. unfold bind in E.
  destruct (m s) as [[a s1]|] eqn:Em; [|discriminate].
  exact (Hk a s1 (Hm a s1 Em) b s2 E).
Qed.

Lemma rests_peek {A} (k : Token -> M A) s :
  rests (k (peek_at tokens s)) s -> rests (bind (peek tokens) k) s.
Proof. intros H. exact H. Qed.

Lemma rests_previous {A} (k : Token -> M A) s :
  rests (k (previous_at tokens s)) s -> rests (bind (previous tokens) k) s.
Proof. intros H. exact H. Qed.

Lemma rests_isAtEnd {A} (k : bool -> M A) s :
  rests (k (isAtEnd_at tokens s)) s -> rests (bind (isAtEnd tokens) k) s.
Proof. intros H. exact H. Qed.

Lemma rests_check {A} t (k : bool -> M A) s :
  rests (k (check_at tokens t s)) s -> rests (bind (check tokens t) k) s.
Proof. intros H. exact H. Qed.

Lemma rests_checkNext {A} t (k : bool -> M A) s :
  (forall b, rests (k b) s) -> rests (bind (checkNext tokens t) k) s.
Proof. intros H. apply H. Qed.

Lemma rests_error {A} msg (k : unit -> M A) s :
  P (current s) ->
  (forall s1, P (current s1) -> rests (k tt) s1) ->
  rests (bind (error tokens msg) k) s.
Proof. intros Hs H. unfold bind, error. apply H. exact Hs. Qed.

Lemma rests_advance {A} (k : Token -> M A) s :
  barred s = false ->
  P (current s) ->
  (forall a s1, P (current s1) -> rests (k a) s1) ->
  rests (bind (advance tokens) k) s.
Proof.
  intros Hc Hs Hk. apply rests_bind; [|exact Hk].
  intros a s1 E. apply (advance_rests _ _ _ Hc Hs E).
Qed.

Lemma rests_match {A} ops (k : bool -> M A) s :
  forallb (fun t => negb (barrier t)) ops = true ->
  P (current s) ->
  (forall s1, P (current s1) -> rests (k true) s1) ->
  rests (k false) s ->
  rests (bind (match_ tokens ops) k) s.
Proof.
  intros Hn Hs Ht Hf. induction ops as [|t ops IH].
  - exact Hf.
  - simpl in Hn. apply andb_prop in Hn. destruct Hn as [Hn1 Hn2].
    apply negb_true_iff in Hn1.
    intros b s2 E. unfold bind in E. rewrite match_cons in E.
    destruct (check_at tokens t s) eqn:Ec.
    + refine (Ht _ _ b s2 E). simpl.
      destruct (check_at_true _ _ _ Ec) as [He Hty].
      unfold peek_at in Hty.
      apply P_step; [exact Hs| |].
      * unfold isAtEnd_at, peek_at, TokenType_eqb in He.
        destruct (TokenType_eq_dec (type (token_at tokens (current s))) EOF);
          [discriminate|assumption].
      * rewrite Hty. exact Hn1.
    + exact (IH Hn2 b s2 E).
Qed.

Lemma rests_consume {A} t msg (k : Token -> M A) s :
  barrier t = false ->
  P (current s) ->
  (forall a s1, P (current s1) -> rests (k a) s1) ->
  rests (bind (consume tokens t msg) k) s.
Proof.
  intros Hne Hs Hk. apply rests_bind; [|exact Hk].
  intros a s1 E. unfold consume in E. unfold bind at 1 in E.
  unfold check in E. destruct (check_at tokens t s) eqn:Ec.
  - apply (advance_rests _ _ _ (check_not_barred _ _ Ec Hne) Hs E).
  - unfold bind, error, peek in E. inversion E as [[Ea Eb]].
    simpl. exact Hs.
Qed.

Local Arguments match_ : simpl never.

(** None of those keywords under the cursor. *)
Ltac not_on_barrier :=
  first
    [ assumption
    | eapply check_not_barred; [eassumption|reflexivity]
    | eapply guard_not_barred; eassumption
    | apply type_not_barred;
      match goal with
      | E : type (peek_at _ ?s) = _ |- barrier (type (peek_at _ ?s)) = false =>
          rewrite E; reflexivity
      end ].

Ltac rests_auto :=
  lazymatch goal with
  | |- rests (ret _) _ => apply rests_ret; assumption
  | |- rests (bind (peek _) _) _ =>
      apply rests_peek; cbv beta; rests_auto
  | |- rests (bind (previous _) _) _ =>
      apply rests_previous; cbv beta; rests_auto
  | |- rests (bind (isAtEnd _) _) _ =>
      apply rests_isAtEnd; cbv beta; rests_auto
  | |- rests (bind (check _ _) _) _ =>
      apply rests_check; cbv beta; rests_auto
  | |- rests (bind (checkNext _ _) _) _ =>
      apply rests_checkNext; intros ?; rests_auto
  | |- rests (bind (error _ _) _) _ =>
      apply rests_error; [assumption|intros ? ?]; rests_auto
  | |- rests (bind (advance _) _) _ =>
      apply rests_advance; [not_on_barrier|assumption|intros ? ? ?];
      rests_auto
  | |- rests (bind (consume _ _ _) _) _ =>
      apply rests_consume; [reflexivity|assumption|intros ? ? ?]; rests_auto
  | |- rests (bind (match_ _ _) _) _ =>
      apply rests_match; [reflexivity|assumption|intros ? ?|];
      rests_auto
  | |- rests (bind _ _) _ =>
      apply rests_bind; [|intros ? ? ?]; rests_auto
  | |- rests (if ?b then _ else _) _ =>
      lazymatch b with
      | context [isAtEnd_at ?t ?s] =>
          destruct (isAtEnd_at t s) eqn:?; cbn [negb andb]; rests_auto
      | context [check_at ?t ?ty ?s] =>
          destruct (check_at t ty s) eqn:?; cbn [negb andb]; rests_auto
      | _ => destruct b eqn:?; rests_auto
      end
  | |- rests (binaryLevel _ _ _ _ _) _ => unfold binaryLevel; rests_auto
  | |- rests (match ?p with mkSpaceParts _ _ _ _ => _ end) _ =>
      destruct p; rests_auto
  | |- rests (match type ?t with _ => _ end) _ =>
      destruct (type t) eqn:?; rests_auto
  | |- rests _ _ =>
      match goal with
      | H : context [rests] |- _ => apply H; assumption
      end
  end.

Lemma rests_expressions (fuel : nat) :
  (forall s, P (current s) ->
     rests (parseExpression tokens fuel) s) /\
  (forall s, P (current s) ->
     rests (parseTernary tokens fuel) s) /\
  (forall s, P (current s) ->
     rests (parseLogicalOr tokens fuel) s) /\
  (forall l s, P (current s) ->
     rests (parseLogicalOr_loop tokens fuel l) s) /\
  (forall s, P (current s) ->
     rests (parseLogicalAnd tokens fuel) s) /\
  (forall l s, P (current s) ->
     rests (parseLogicalAnd_loop tokens fuel l) s) /\
  (forall s, P (current s) ->
     rests (parseEquality tokens fuel) s) /\
  (forall l s, P (current s) ->
     rests (parseEquality_loop tokens fuel l) s) /\
  (forall s, P (current s) ->
     rests (parseComparison tokens fuel) s) /\
  (forall l s, P (current s) ->
     rests (parseComparison_loop tokens fuel l) s) /\
  (forall s, P (current s) ->
     rests (parseAdditive tokens fuel) s) /\
  (forall l s, P (current s) ->
     rests (parseAdditive_loop tokens fuel l) s) /\
  (forall s, P (current s) ->
     rests (parseMultiplicative tokens fuel) s) /\
  (forall l s, P (current s) ->
     rests (parseMultiplicative_loop tokens fuel l) s) /\
  (forall s, P (current s) ->
     rests (parseUnary tokens fuel) s) /\
  (forall s, P (current s) ->
     rests (parsePostfix tokens fuel) s) /\
  (forall e s, P (current s) ->
     rests (parsePostfix_loop tokens fuel e) s) /\
  (forall acc s, P (current s) ->
     rests (parseExpressionList tokens fuel acc) s) /\
  (forall s, P (current s) ->
     rests (parsePrimary tokens fuel) s).
Proof.
  induction fuel as [|f IH].
  - repeat match goal with |- _ /\ _ => split end; intros; intros ? ? E;
      discriminate E.
  - destruct IH as (H1 & H2 & H3 & H4 & H5 & H6 & H7 & H8 & H9 & H10 & H11
                    & H12 & H13 & H14 & H15 & H16 & H17 & H18 & H19).
    repeat match goal with |- _ /\ _ => split end; intros; simpl;
      rests_auto.
Qed.

Lemma rests_parseExpression fuel s :
  P (current s) -> rests (parseExpression tokens fuel) s.
Proof. apply rests_expressions. Qed.

Lemma rests_parseNameList fuel : forall msg acc s,
  P (current s) -> rests (parseNameList tokens fuel msg acc) s.
Proof.
  induction fuel as [|f IH]; intros msg acc s H;
    [intros ? ? E; discriminate E|].
  simpl. rests_auto.
Qed.

Lemma rests_parseState fuel s :
  P (current s) -> rests (parseState tokens fuel) s.
Proof.
  intros H. pose proof rests_parseExpression. unfold parseState. rests_auto.
Qed.

Lemma rests_parseComputed fuel s :
  P (current s) -> rests (parseComputed tokens fuel) s.
Proof.
  intros H. pose proof rests_parseExpression. unfold parseComputed.
  rests_auto.
Qed.

Lemma rests_parseEffect fuel s :
  P (current s) -> rests (parseEffect tokens fuel) s.
Proof.
  intros H. pose proof rests_parseNameList. unfold parseEffect. rests_auto.
Qed.

Lemma rests_parseArrowFunction fuel s :
  P (current s) -> rests (parseArrowFunction tokens fuel) s.
Proof.
  intros H. pose proof rests_parseNameList. pose proof rests_parseExpression.
  unfold parseArrowFunction. rests_auto.
Qed.

Lemma rests_parseEventHandler fuel s :
  P (current s) -> rests (parseEventHandler tokens fuel) s.
Proof.
  intros H. pose proof rests_parseArrowFunction. unfold parseEventHandler.
  rests_auto.
Qed.

Lemma rests_parseStyleProperties fuel : forall properties s,
  P (current s) -> rests (parseStyleProperties tokens fuel properties) s.
Proof.
  pose proof rests_parseExpression.
  induction fuel as [|f IH]; intros properties s Hs;
    [intros ? ? E; discriminate E|].
  simpl. rests_auto.
Qed.

Lemma rests_parseStyleRules fuel : forall rules s,
  P (current s) -> rests (parseStyleRules tokens fuel rules) s.
Proof.
  pose proof rests_parseStyleProperties.
  induction fuel as [|f IH]; intros rules s Hs;
    [intros ? ? E; discriminate E|].
  simpl. rests_auto.
Qed.

Lemma rests_parseSpaceBody fuel :
  with_style = false ->
  forall p s, P (current s) -> rests (parseSpaceBody tokens fuel p) s.
Proof.
  intros Hw.
  pose proof rests_parseState. pose proof rests_parseComputed.
  pose proof rests_parseEffect. pose proof rests_parseEventHandler.
  induction fuel as [|f IH]; intros p s Hs;
    [intros ? ? E; discriminate E|].
  simpl. rests_auto.
Qed.

(** A style block, once its keyword has been consumed, ends before the
    next [component], [space] or [style] keyword. *)
Lemma parseStyle_rest fuel s x s1 :
  check_at tokens STYLE s = true ->
  P (S (current s)) ->
  parseStyle tokens fuel s = Some (x, s1) ->
  (exists st, x = Some st) /\ P (current s1).
Proof.
  intros Hc HP H. unfold parseStyle in H. unfold bind at 1 in H.
  rewrite match_cons, Hc in H.
  set (s0 := Parser.mkState (S (current s)) (errors s)) in *.
  assert (Hk : rests
                 (token <- previous tokens ;;
                  consume tokens COLON "Expected : after style" ;;;
                  rules <- parseStyleRules tokens fuel [] ;;
                  ret (Some (mkStyle rules (line token) (column token))))
                 s0).
  { pose proof rests_parseStyleRules as Hb.
    assert (H0 : P (current s0)) by exact HP.
    rests_auto. }
  split.
  - unfold bind, previous in H.
    destruct (consume tokens COLON _ s0) as [[a1 t1]|]; [|discriminate].
    destruct (parseStyleRules tokens fuel [] t1) as [[a2 t2]|];
      [|discriminate].
    inversion H. eexists. reflexivity.
  - exact (Hk x s1 H).
Qed.

(** A space, once its keyword has been consumed, ends before the next
    [component] or [space] keyword. *)
Lemma parseSpace_rest fuel s x s1 :
  with_style = false ->
  check_at tokens SPACE s = true ->
  P (S (current s)) ->
  parseSpace tokens fuel s = Some (x, s1) ->
  (exists sp, x = Some sp) /\ P (current s1).
Proof.
  intros Hw Hc HP H. unfold parseSpace in H. unfold bind at 1 in H.
  rewrite match_cons, Hc in H.
  set (s0 := Parser.mkState (S (current s)) (errors s)) in *.
  assert (Hk : rests
                 (token <- previous tokens ;;
                  name <- consume tokens IDENTIFIER "Expected space name" ;;
                  consume tokens COLON "Expected : after space name" ;;;
                  p <- parseSpaceBody tokens fuel (mkSpaceParts [] [] [] []) ;;
                  ret (Some (mkSpace (value name) (sp_states p)
                         (sp_computed p) (sp_effects p) (sp_handlers p)
                         (line token) (column token))))
                 s0).
  { pose proof (rests_parseSpaceBody fuel Hw) as Hb.
    assert (H0 : P (current s0)) by exact HP.
    rests_auto. }
  split.
  - unfold bind, previous in H.
    destruct (consume tokens IDENTIFIER _ s0) as [[a1 t1]|]; [|discriminate].
    destruct (consume tokens COLON _ t1) as [[a2 t2]|]; [|discriminate].
    destruct (parseSpaceBody tokens fuel _ t2) as [[a3 t3]|];
      [|discriminate].
    inversion H. eexists. reflexivity.
  - exact (Hk x s1 H).
Qed.

End Barrier.

(** ** Declarations and their keywords *)

(** The declaration keywords of a token list stand in the order styles,
    spaces, components: no [space] or [style] keyword after a
    [component] keyword, and no [style] keyword after a [space]
    keyword. *)
Fixpoint keywords_in_order (ts : list Lexer.Token) : bool :=
  match ts with
  | [] => true
  | t :: rest =>
      match Lexer.type t with
      | Lexer.COMPONENT =>
          Nat.eqb (count_type Lexer.SPACE rest) 0
          && Nat.eqb (count_type Lexer.STYLE rest) 0
      | Lexer.SPACE => Nat.eqb (count_type Lexer.STYLE rest) 0
      | _ => true
      end && keywords_in_order rest
  end.

Section KeywordCounts.
Import Lexer AST Parser ParserFacts.
Local Open Scope parser_scope.

Variable tokens : list Token.

(** Tokens of type [ty] from index [i] on. *)
Definition count_from (ty : TokenType) (i : nat) : nat :=
  count_type ty (skipn i tokens).

Lemma count_from_skip ty i :
  type (token_at tokens i) <> ty ->
  count_from ty (S i) = count_from ty i.
Proof.
  unfold count_from, token_at. revert i.
  induction tokens as [|t ts IH]; intros i H.
  - destruct i; reflexivity.
  - destruct i as [|i].
    + simpl in *. unfold count_type. simpl.
      unfold TokenType_eqb. destruct (TokenType_eq_dec (type t) ty);
        [contradiction|reflexivity].
    + simpl in *. apply IH. exact H.
Qed.

Lemma count_from_take ty i :
  type (token_at tokens i) = ty -> ty <> EOF ->
  count_from ty i = S (count_from ty (S i)).
Proof.
  unfold count_from, token_at. revert i.
  induction tokens as [|t ts IH]; intros i H Hne.
  - destruct i; simpl in H; congruence.
  - destruct i as [|i].
    + simpl in *. unfold count_type. simpl.
      unfold TokenType_eqb. destruct (TokenType_eq_dec (type t) ty);
        [reflexivity|contradiction].
    + simpl in *. apply IH; assumption.
Qed.

Lemma count_from_next ty i : count_from ty (S i) <= count_from ty i.
Proof.
  unfold count_from. revert i.
  induction tokens as [|t ts IH]; intros i.
  - destruct i; simpl; lia.
  - destruct i as [|i].
    + simpl. unfold count_type. simpl.
      destruct (TokenType_eqb (type t) ty); simpl; lia.
    + simpl. apply IH.
Qed.

Lemma count_from_le ty i j :
  i <= j -> count_from ty j <= count_from ty i.
Proof.
  induction 1 as [|j _ IH]; [lia|].
  pose proof (count_from_next ty j). lia.
Qed.

Lemma at_end_none ty s :
  ty <> EOF -> EOF_last tokens -> isAtEnd_at tokens s = true ->
  count_from ty (current s) = 0.
Proof.
  intros Hne (toks & last & Ht & Hl & Hin) He.
  unfold isAtEnd_at, peek_at in He.
  assert (Hty : type (token_at tokens (current s)) = EOF).
  { unfold TokenType_eqb in He.
    destruct (TokenType_eq_dec (type (token_at tokens (current s))) EOF);
      [assumption|discriminate]. }
  rewrite <- (count_from_skip ty (current s)) by (rewrite Hty; congruence).
  unfold count_from. rewrite skipn_all2; [reflexivity|].
  destruct (Nat.ltb (current s) (List.length toks)) eqn:Elt.
  - apply Nat.ltb_lt in Elt. exfalso.
    unfold token_at in Hty. rewrite Ht in Hty.
    rewrite app_nth1 in Hty by exact Elt.
    apply (Hin (nth (current s) toks (undefinedToken))); [|exact Hty].
    apply nth_In. exact Elt.
  - apply Nat.ltb_ge in Elt. rewrite Ht, length_app. simpl. lia.
Qed.

(** What the order of the keywords says at one index. *)
Lemma keywords_in_order_at :
  keywords_in_order tokens = true ->
  forall i,
    (type (token_at tokens i) = COMPONENT ->
     count_from SPACE (S i) = 0 /\ count_from STYLE (S i) = 0)
    /\ (type (token_at tokens i) = SPACE -> count_from STYLE (S i) = 0).
Proof.
  unfold count_from, token_at.
  induction tokens as [|t ts IH]; intros H i.
  - destruct i; simpl; split; intros E; discriminate E.
  - simpl in H. apply andb_prop in H. destruct H as [Hh Ht].
    destruct i as [|i].
    + simpl. split; intros E; rewrite E in Hh.
      * apply andb_prop in Hh. destruct Hh as [H1 H2].
        apply Nat.eqb_eq in H1. apply Nat.eqb_eq in H2. split; assumption.
      * apply Nat.eqb_eq in Hh. exact Hh.
    + exact (IH Ht i).
Qed.

(** Outside a [component] the cursor steps over no [space] keyword, and
    over no [style] keyword either where none is left. *)
Lemma space_step a i :
  count_from SPACE i = a /\ count_from STYLE i = 0 ->
  type (token_at tokens i) <> EOF ->
  barrier false (type (token_at tokens i)) = false ->
  count_from SPACE (S i) = a /\ count_from STYLE (S i) = 0.
Proof.
  intros [Ha Hb] _ Hbar. split.
  - rewrite count_from_skip; [exact Ha|].
    intros E. rewrite E in Hbar. discriminate Hbar.
  - pose proof (count_from_next STYLE i). lia.
Qed.

Lemma style_step a b i :
  count_from SPACE i = a /\ count_from STYLE i = b ->
  type (token_at tokens i) <> EOF ->
  barrier true (type (token_at tokens i)) = false ->
  count_from SPACE (S i) = a /\ count_from STYLE (S i) = b.
Proof.
  intros [Ha Hb] _ Hbar.
  split; (rewrite count_from_skip; [assumption|]);
    intros E; rewrite E in Hbar; discriminate Hbar.
Qed.

(** With the keywords in order and no diagnostic at the end, the loop of
    [parse] has turned every [space] keyword into one space and every
    [style] keyword into one style. *)
Lemma parse_loop_declarations fuel :
  keywords_in_order tokens = true ->
  forall c sp st s c' sp' st' s',
  parse_loop tokens fuel c sp st s = Some ((c', sp', st'), s') ->
  errors s' = [] ->
  List.length sp' + count_from SPACE (current s')
    = List.length sp + count_from SPACE (current s)
  /\ List.length st' + count_from STYLE (current s')
    = List.length st + count_from STYLE (current s).
Proof.
  intros Hord.
  induction fuel as [|f IH]; intros c sp st s c' sp' st' s' H Herr;
    [discriminate|].
  simpl in H. unfold bind at 1, isAtEnd in H.
  destruct (isAtEnd_at tokens s) eqn:Eend.
  { inversion H; subst. split; reflexivity. }
  unfold bind at 1, check at 1 in H.
  destruct (check_at tokens COMPONENT s) eqn:Ec.
  { unfold bind at 1 in H.
    destruct (parseComponent tokens f s) as [[x s1]|] eqn:E; [|discriminate].
    apply IH in H; [|exact Herr].
    destruct (check_at_true _ _ _ Ec) as [_ Hty]. unfold peek_at in Hty.
    destruct (proj1 (keywords_in_order_at Hord (current s)) Hty)
      as [Hsp Hst].
    pose proof (parseComponent_progress tokens f s x s1 Ec E) as Hprog.
    pose proof (count_from_le SPACE _ _ Hprog).
    pose proof (count_from_le STYLE _ _ Hprog).
    pose proof (count_from_skip SPACE (current s)) as Hk1.
    pose proof (count_from_skip STYLE (current s)) as Hk2.
    rewrite Hty in Hk1, Hk2.
    specialize (Hk1 ltac:(discriminate)).
    specialize (Hk2 ltac:(discriminate)).
    lia. }
  unfold bind at 1, check at 1 in H.
  destruct (check_at tokens SPACE s) eqn:Es.
  { unfold bind at 1 in H.
    destruct (parseSpace tokens f s) as [[x s1]|] eqn:E; [|discriminate].
    apply IH in H; [|exact Herr].
    destruct (check_at_true _ _ _ Es) as [_ Hty]. unfold peek_at in Hty.
    pose proof (proj2 (keywords_in_order_at Hord (current s)) Hty) as Hst.
    destruct (parseSpace_rest tokens false
                (fun i => count_from SPACE i = count_from SPACE (S (current s))
                          /\ count_from STYLE i = 0)
                (space_step _) f s x s1 eq_refl Es (conj eq_refl Hst) E)
      as [[spn ->] [Ha Hb]].
    rewrite push_opt_Some in H.
    pose proof (count_from_take SPACE (current s) Hty ltac:(discriminate)).
    pose proof (count_from_skip STYLE (current s)) as Hk.
    rewrite Hty in Hk. specialize (Hk ltac:(discriminate)).
    lia. }
  unfold bind at 1, check at 1 in H.
  destruct (check_at tokens STYLE s) eqn:Est.
  { unfold bind at 1 in H.
    destruct (parseStyle tokens f s) as [[x s1]|] eqn:E; [|discriminate].
    apply IH in H; [|exact Herr].
    destruct (check_at_true _ _ _ Est) as [_ Hty]. unfold peek_at in Hty.
    destruct (parseStyle_rest tokens true
                (fun i => count_from SPACE i = count_from SPACE (S (current s))
                          /\ count_from STYLE i
                             = count_from STYLE (S (current s)))
                (style_step _ _) f s x s1 Est (conj eq_refl eq_refl) E)
      as [[stn ->] [Ha Hb]].
    rewrite push_opt_Some in H.
    pose proof (count_from_take STYLE (current s) Hty ltac:(discriminate)).
    pose proof (count_from_skip SPACE (current s)) as Hk.
    rewrite Hty in Hk. specialize (Hk ltac:(discriminate)).
    lia. }
  exfalso. exact (reported_stays tokens _ _ _ _ _ _ _ _ H Herr).
Qed.

(** The declarations that [parse] has collected when it ends without a
    diagnostic on tokens whose keywords are in order. *)
Lemma run_parse_declarations fuel ast :
  EOF_last tokens -> keywords_in_order tokens = true ->
  run_parse tokens fuel = Some (ast, []) ->
  match ast with
  | Some p =>
      List.length (components p) = count_type COMPONENT tokens
      /\ List.length (spaces p) = count_type SPACE tokens
      /\ List.length (styles p) = count_type STYLE tokens
  | None => count_type COMPONENT tokens = 0
  end.
Proof.
  intros Hl Hord H.
  pose proof (run_parse_components tokens fuel ast [] Hl H) as Hc.
  destruct ast as [p|]; [|exact Hc].
  destruct Hc as [Hc _]. split; [exact Hc|].
  unfold run_parse in H.
  destruct (parse_loop tokens fuel [] [] [] (Parser.mkState 0 []))
    as [[[[c sp] st] s']|] eqn:E; [|discriminate].
  assert (Herr : errors s' = []) by (inversion H; reflexivity).
  pose proof (parse_loop_components tokens fuel _ _ _ _ _ _ _ _ E)
    as [_ He].
  apply (parse_loop_declarations fuel Hord) in E; [|exact Herr].
  rewrite (at_end_none SPACE s') in E by (discriminate || assumption).
  rewrite (at_end_none STYLE s') in E by (discriminate || assumption).
  unfold count_from in E. simpl in E.
  destruct c as [|c0 c]; [discriminate|].
  inversion H; subst. simpl. lia.
Qed.

End KeywordCounts.

Section DeclarationClaims.
Import Lexer AST Compiler.

Lemma keywords_in_order_filter ts :
  keywords_in_order ts = true ->
  keywords_in_order (Parser.filter_tokens ts) = true.
Proof.
  induction ts as [|t ts IH]; [reflexivity|].
  simpl. intros H. apply andb_prop in H. destruct H as [Hh Ht].
  specialize (IH Ht).
  change (Parser.filter_tokens (t :: ts))
    with (if negb (Parser.structural t) then t :: Parser.filter_tokens ts
          else Parser.filter_tokens ts).
  destruct (Parser.structural t) eqn:Es; simpl; [exact IH|].
  rewrite IH, andb_true_r.
  rewrite !count_type_filter_tokens by reflexivity. exact Hh.
Qed.

Lemma keyword_count_by_type ts :
  Counting.keyword_count ts
  = count_type COMPONENT ts + count_type SPACE ts + count_type STYLE ts.
Proof.
  unfold Counting.keyword_count, count_type.
  induction ts as [|t ts IH]; [reflexivity|].
  simpl. unfold Counting.declKeyword at 1.
  destruct (type t) eqn:E; cbn [TokenType_eqb]; simpl; rewrite IH;
    unfold TokenType_eqb;
    repeat match goal with
    | |- context [TokenType_eq_dec ?a ?b] =>
        destruct (TokenType_eq_dec a b); try discriminate
    end; simpl; lia.
Qed.


Definition ordered_source : string :=
  Src.lines [ "style:";
              "  .btn:";
              ("    color: " ++ Src.quoted "red")%string;
              "space Store:";
              "  state count = 0";
              "space Theme:";
              "  state dark = false";
              "component A:";
              "  state n = 1";
              "  p";
              "component B:";
              "  p" ].

Definition tokens_ordered_source : list Token :=
  Eval vm_compute in
    match tokenize ordered_source with
    | Some (ts, _) => ts
    | None => []
    end.

Definition program_ordered_source : Program :=
  Eval vm_compute in
    match Parser.parse 300 tokens_ordered_source with
    | Some (Some p, _) => p
    | _ => mkProgram [] [] []
    end.


End DeclarationClaims.

(** ** A missing expression *)

Section MissingOperand.
Import Lexer AST Parser ParserFacts.
Local Open Scope parser_scope.

Variable tokens : list Token.

Local Arguments match_ : simpl never.

(** The token types [parsePrimary] accepts: a literal, a name, an
    opening bracket or an opening parenthesis. *)
Definition primary_token (t : TokenType) : bool :=
  match t with
  | NUMBER | STRING | BOOLEAN | IDENTIFIER | LBRACKET | LPAREN => true
  | _ => false
  end.

Lemma no_primary_match s ops :
  primary_token (type (peek_at tokens s)) = false ->
  forallb primary_token ops = true ->
  match_ tokens ops s = Some (false, s).
Proof.
  intros H Hops. apply match_none. intros t Ht.
  rewrite forallb_forall in Hops. specialize (Hops t Ht).
  unfold check_at. destruct (isAtEnd_at tokens s); [reflexivity|].
  unfold TokenType_eqb.
  destruct (TokenType_eq_dec (type (peek_at tokens s)) t) as [E|E];
    [|reflexivity].
  rewrite E in H. congruence.
Qed.

(** On a token that starts no operand [parsePrimary] consumes nothing,
    records one error and returns the literal 0. *)
Lemma parsePrimary_placeholder f s :
  primary_token (type (peek_at tokens s)) = false ->
  parsePrimary tokens (S f) s
  = Some (placeholder (peek_at tokens s), expected_expression tokens s).
Proof.
  intros H. simpl. unfold bind at 1, peek.
  repeat (unfold bind at 1;
          rewrite (no_primary_match s _ H) by reflexivity).
  reflexivity.
Qed.

End MissingOperand.

Section MissingOperandClaims.
Import Lexer AST Parser.

(** X6.  With the cursor on a token of the list that cannot start an
    operand (anything but a literal, a name, [(] and the bracket that
    opens an array), [parsePrimary] consumes nothing, records the one
    error [Expected expression] at that token and returns the number
    literal 0 in place of the operand.  Where that token is no unary
    operator and cannot continue an expression either (a keyword, a
    closing bracket, [=], the end of input, ...), that literal and that
    one error are all [parseExpression] returns. *)
Theorem X6_missing_expression_becomes_zero
    (tokens : list Token) (f : nat) (s : State) :
  current s < List.length tokens ->
  let token := peek_at tokens s in
  let zero := Literal (LNumber "0") "0" (line token) (column token) in
  let reported :=
    Parser.mkState (current s)
      (errors s ++ [mkParserError "Expected expression"
                      (line token) (column token) SevError]) in
  (primary_token (type token) = false ->
   parsePrimary tokens (S f) s = Some (zero, reported))
  /\ (expression_token (type token) = false ->
      parseExpression tokens (11 + f) s = Some (zero, reported)).
Proof.
  intros _ token zero reported. split; intros H.
  - exact (parsePrimary_placeholder tokens f s H).
  - exact (parseExpression_none tokens f s H).
Qed.

Definition operand_missing : string := "+ 2".

Definition tokens_operand_missing : list Token :=
  Eval vm_compute in
    match tokenize operand_missing with
    | Some (ts, _) => filter_tokens ts
    | None => []
    end.

Lemma X6_witness :
  parsePrimary tokens_operand_missing 1 (Parser.mkState 0 [])
  = Some (Literal (LNumber "0") "0" 1 1,
          Parser.mkState 0 [mkParserError "Expected expression" 1 1 SevError])
  /\ parseExpression tokens_state_without_value 11 (Parser.mkState 6 [])
     = Some (Literal (LNumber "0") "0" 3 3,
             Parser.mkState 6
               [mkParserError "Expected expression" 3 3 SevError]).
Proof.
  split.
  - apply (proj1 (X6_missing_expression_becomes_zero tokens_operand_missing
                    0 (Parser.mkState 0 []) ltac:(simpl; lia))).
    reflexivity.
  - apply (proj2 (X6_missing_expression_becomes_zero
                    tokens_state_without_value 0 (Parser.mkState 6 [])
                    ltac:(simpl; lia))).
    reflexivity.
Defined.

End MissingOperandClaims.
